(** * ArPuGuh: the chunk engine of [app/entities/chunk.py]

    A shallow embedding of the chunk/block generation-and-linking engine:
    the lazy neighbour descriptors, chunk hydration and intra-chunk linking,
    stitched generation, persistence, and the per-tick update/collision pass.

    Python objects that are shared and mutated (blocks and their links) live
    in an explicit heap; the database session, the image files, the random
    source and the observable calls are fields of one explicit state that is
    threaded through a small state-and-exception monad. *)

From Stdlib Require Import ZArith NArith Lia Ascii.
From stdpp Require Import base tactics option list strings pretty gmap sorting.

Open Scope Z_scope.

(** ** Python values *)

(** Exceptions that the modelled code can raise. [NameError] is what Python
    raises when a name is evaluated that no scope binds. *)
Inductive exception :=
| NameError (name : string)
| TypeError
| IndexError
| ValueError
| ZeroDivisionError
| RecursionError
| NoDatabaseModel
| DirectionMismatch.

(** The names bound at module level of [chunk.py]: its imports (lines 1-19)
    and its two classes. *)
Definition module_globals : list string :=
  [ "os"; "itertools"; "np"; "namedtuple"; "randint"; "Image"; "ImageDraw";
    "Batch"; "OrderedGroup"; "load_image"; "Sprite"; "config"; "world";
    "session"; "models"; "Block"; "Mob"; "Wall"; "NoDatabaseModel";
    "DirectionMismatch"; "RGB"; "Coord"; "LazyChunkLoader"; "Chunk" ]%string.

(** [raise <name>]: the name is looked up first; an unbound name raises
    [NameError], a bound exception class raises that exception, and anything
    else bound at module level is not an exception. *)
Definition raise_named (name : string) : exception :=
  if bool_decide (name ∈ module_globals) then
    if String.eqb name "NoDatabaseModel" then NoDatabaseModel
    else if String.eqb name "DirectionMismatch" then DirectionMismatch
    else TypeError
  else NameError name.

(** [l[i]] on a Python list or a numpy axis: negative indices count from the
    end, anything outside [-len, len) is an [IndexError] (here [None]). *)
Definition py_getitem {A} (l : list A) (i : Z) : option A :=
  let len := Z.of_nat (length l) in
  if (0 <=? i) && (i <? len) then l !! Z.to_nat i
  else if (- len <=? i) && (i <? 0) then l !! Z.to_nat (len + i)
  else None.

(** [enumerate(l)] *)
Fixpoint enumerate_from {A} (i : Z) (l : list A) : list (Z * A) :=
  match l with
  | [] => []
  | x :: l' => (i, x) :: enumerate_from (i + 1) l'
  end.

Definition enumerate {A} (l : list A) : list (Z * A) := enumerate_from 0 l.

(** [range(n)] *)
Definition range (n : N) : list Z := Z.of_nat <$> seq 0 (N.to_nat n).

(** [numpy.reshape] of a flat array to [rows] x [cols], row-major. *)
Fixpoint reshape_rows {A} (rows cols : nat) (l : list A) : list (list A) :=
  match rows with
  | O => []
  | S rows' => take cols l :: reshape_rows rows' cols (drop cols l)
  end.

Definition reshape {A} (l : list A) (rows cols : N) : option (list (list A)) :=
  if (N.of_nat (length l) =? rows * cols)%N
  then Some (reshape_rows (N.to_nat rows) (N.to_nat cols) l)
  else None.

(** [sorted(l, key=...)] is a stable sort; stable insertion sort on the keys
    computes the same list. Keys are the pairs [(block.y, block.x)], ordered
    lexicographically as Python orders tuples. *)
Definition key_le (k1 k2 : Z * Z) : bool :=
  (k1.1 <? k2.1) || ((k1.1 =? k2.1) && (k1.2 <=? k2.2)).

Fixpoint insert_by_key {A} (key : A → Z * Z) (x : A) (l : list A) : list A :=
  match l with
  | [] => [x]
  | y :: l' =>
      if key_le (key y) (key x) then y :: insert_by_key key x l' else x :: y :: l'
  end.

Definition sorted {A} (key : A → Z * Z) (l : list A) : list A :=
  foldl (fun acc x => insert_by_key key x acc) [] l.

(** ** The eight compass directions *)

Inductive direction := Dn | Dne | De | Dse | Ds | Dsw | Dw | Dnw.

#[global] Instance direction_eq_dec : EqDecision direction.
Proof. solve_decision. Defined.

Definition all_directions : list direction :=
  [Dn; Dne; De; Dse; Ds; Dsw; Dw; Dnw].

Definition opposite (d : direction) : direction :=
  match d with
  | Dn => Ds | Dne => Dsw | De => Dw | Dse => Dnw
  | Ds => Dn | Dsw => Dne | Dw => De | Dnw => Dse
  end.

(** The fixed compass delta of a direction: north is [+y], east is [+x]. *)
Definition compass_delta (d : direction) : Z * Z :=
  match d with
  | Dn => (0, 1) | Dne => (1, 1) | De => (1, 0) | Dse => (1, -1)
  | Ds => (0, -1) | Dsw => (-1, -1) | Dw => (-1, 0) | Dnw => (-1, 1)
  end.

(** ** Configuration

    The [config] module is not part of the modelled file; the four options
    the chunk engine reads are pixel dimensions, taken as natural numbers. *)
Record Config := {
  config_window_width : N;
  config_window_height : N;
  config_block_width : N;
  config_block_height : N
}.

(** ** Blocks

    Modelled from the spec: the [Block] class ([app/entities/block.py]) is not
    among the sources. A block has an integer position in chunk-local tile
    units, a pixel size, a colour, a collidable flag and up to eight
    directional neighbour links, each either pointing to another block or
    unset. Blocks are mutable shared objects, so they live in a heap and are
    referred to by their address. *)
Abbreviation ref := nat (only parsing).
Definition RGB : Type := N * N * N.

Record Links := {
  link_n : option ref; link_ne : option ref; link_e : option ref;
  link_se : option ref; link_s : option ref; link_sw : option ref;
  link_w : option ref; link_nw : option ref
}.

Definition no_links : Links :=
  {| link_n := None; link_ne := None; link_e := None; link_se := None;
     link_s := None; link_sw := None; link_w := None; link_nw := None |}.

Definition get_link (d : direction) (l : Links) : option ref :=
  match d with
  | Dn => link_n l | Dne => link_ne l | De => link_e l | Dse => link_se l
  | Ds => link_s l | Dsw => link_sw l | Dw => link_w l | Dnw => link_nw l
  end.

Definition set_link (d : direction) (v : option ref) (l : Links) : Links :=
  {| link_n := if decide (d = Dn) then v else link_n l;
     link_ne := if decide (d = Dne) then v else link_ne l;
     link_e := if decide (d = De) then v else link_e l;
     link_se := if decide (d = Dse) then v else link_se l;
     link_s := if decide (d = Ds) then v else link_s l;
     link_sw := if decide (d = Dsw) then v else link_sw l;
     link_w := if decide (d = Dw) then v else link_w l;
     link_nw := if decide (d = Dnw) then v else link_nw l |}.

Record Block := {
  Block_x : Z;
  Block_y : Z;
  Block_width : N;
  Block_height : N;
  Block_color : RGB;
  Block_collidable : bool;
  Block_db_obj : option nat;
  Block_links : Links
}.

(** The persisted attributes of a block: what a chunk's "grid contents" are
    compared on. *)
Record BlockAttrs := {
  attr_x : Z; attr_y : Z; attr_width : N; attr_height : N;
  attr_color : RGB; attr_collidable : bool
}.

Definition Block_attrs (b : Block) : BlockAttrs :=
  {| attr_x := Block_x b; attr_y := Block_y b;
     attr_width := Block_width b; attr_height := Block_height b;
     attr_color := Block_color b; attr_collidable := Block_collidable b |}.

Definition Block_of_attrs (a : BlockAttrs) (db_obj : option nat) : Block :=
  {| Block_x := attr_x a; Block_y := attr_y a;
     Block_width := attr_width a; Block_height := attr_height a;
     Block_color := attr_color a; Block_collidable := attr_collidable a;
     Block_db_obj := db_obj; Block_links := no_links |}.

Definition Block_link (d : direction) (b : Block) : option ref :=
  get_link d (Block_links b).

Definition Block_with_links (l : Links) (b : Block) : Block :=
  {| Block_x := Block_x b; Block_y := Block_y b;
     Block_width := Block_width b; Block_height := Block_height b;
     Block_color := Block_color b; Block_collidable := Block_collidable b;
     Block_db_obj := Block_db_obj b; Block_links := l |}.

Definition Block_with_pos (x y : Z) (b : Block) : Block :=
  {| Block_x := x; Block_y := y;
     Block_width := Block_width b; Block_height := Block_height b;
     Block_color := Block_color b; Block_collidable := Block_collidable b;
     Block_db_obj := Block_db_obj b; Block_links := Block_links b |}.

Definition Block_with_db_obj (o : option nat) (b : Block) : Block :=
  {| Block_x := Block_x b; Block_y := Block_y b;
     Block_width := Block_width b; Block_height := Block_height b;
     Block_color := Block_color b; Block_collidable := Block_collidable b;
     Block_db_obj := o; Block_links := Block_links b |}.

(** ** Game objects created by the chunk: walls and mobs *)
Inductive GameObject :=
| Wall (x y : Z) (width height : N) (color : RGB)
| Mob (x y : Z) (width height : N).

(** ** Chunks

    The rendering handles ([sprite], [draw_batch], [background],
    [foreground]) are opaque to the engine and carry no state of their own
    here. [Chunk_db_obj] is the row id of the backing record, if any. *)
Record Chunk := {
  Chunk_db_obj : option nat;
  Chunk_x : Z;
  Chunk_y : Z;
  Chunk_width : N;
  Chunk_height : N;
  Chunk_n_rows : N;
  Chunk_n_cols : N;
  Chunk_players : list GameObject;
  Chunk_mobs : list GameObject;
  Chunk_walls : list GameObject;
  Chunk_objects : list GameObject;
  Chunk_name : string;
  Chunk_grid : list (list ref);
  Chunk_blocks : list ref
}.

(** ** The persistence gateway

    Modelled from the spec: [app.database] ([session], [models]) is not among
    the sources. A chunk record holds coordinate and name; a block record
    holds the block's own position, size, colour and collidable flag and the
    foreign key of its owning chunk. Record ids are positions in the tables.
    A record created by [models.Chunk()] has no id until it is added and
    committed. *)
Record ChunkRow := { row_x : Z; row_y : Z; row_name : string }.

Record BlockRow := { row_attrs : BlockAttrs; row_chunk_id : option nat }.

(** ** Observable calls *)
Inductive Event :=
| EvChunkLoad (x y : Z) (create : bool)        (* a call of [Chunk.load] *)
| EvWorldLoadChunk (x y : Z) (create : bool)   (* a call of [world.load_chunk] *)
| EvPrint (line : string).

(** ** The program state

    [chunk_cache] is the process-wide coordinate-indexed cache of the world
    module; the two tables are the database session. *)
Record State := {
  heap : list Block;
  chunk_table : list ChunkRow;
  block_table : list BlockRow;
  chunk_cache : gmap (Z * Z) Chunk;
  files : list string;
  random_tape : list Z;
  trace : list Event
}.

Definition initial_state : State :=
  {| heap := []; chunk_table := []; block_table := []; chunk_cache := ∅;
     files := []; random_tape := []; trace := [] |}.

Definition with_heap (h : list Block) (st : State) : State :=
  {| heap := h; chunk_table := chunk_table st; block_table := block_table st;
     chunk_cache := chunk_cache st;
     files := files st; random_tape := random_tape st; trace := trace st |}.

Definition with_chunk_table (t : list ChunkRow) (st : State) : State :=
  {| heap := heap st; chunk_table := t; block_table := block_table st;
     chunk_cache := chunk_cache st;
     files := files st; random_tape := random_tape st; trace := trace st |}.

Definition with_block_table (t : list BlockRow) (st : State) : State :=
  {| heap := heap st; chunk_table := chunk_table st; block_table := t;
     chunk_cache := chunk_cache st;
     files := files st; random_tape := random_tape st; trace := trace st |}.

Definition with_chunk_cache (c : gmap (Z * Z) Chunk) (st : State) : State :=
  {| heap := heap st; chunk_table := chunk_table st;
     block_table := block_table st; chunk_cache := c;
     files := files st; random_tape := random_tape st; trace := trace st |}.

Definition with_files (f : list string) (st : State) : State :=
  {| heap := heap st; chunk_table := chunk_table st;
     block_table := block_table st; chunk_cache := chunk_cache st;
     files := f; random_tape := random_tape st; trace := trace st |}.

Definition with_random_tape (t : list Z) (st : State) : State :=
  {| heap := heap st; chunk_table := chunk_table st;
     block_table := block_table st; chunk_cache := chunk_cache st;
     files := files st; random_tape := t; trace := trace st |}.

Definition with_trace (t : list Event) (st : State) : State :=
  {| heap := heap st; chunk_table := chunk_table st;
     block_table := block_table st; chunk_cache := chunk_cache st;
     files := files st; random_tape := random_tape st; trace := t |}.

(** ** A state-and-exception monad *)
Inductive result (A : Type) :=
| Ok (a : A) (st : State)
| Raise (e : exception) (st : State).
Arguments Ok {A} a st.
Arguments Raise {A} e st.

Definition M (A : Type) : Type := State → result A.

Definition ret {A} (a : A) : M A := fun st => Ok a st.

Definition bind {A B} (m : M A) (k : A → M B) : M B :=
  fun st => match m st with
            | Ok a st' => k a st'
            | Raise e st' => Raise e st'
            end.

Definition raise {A} (e : exception) : M A := fun st => Raise e st.

Definition gets {A} (f : State → A) : M A := fun st => Ok (f st) st.

Definition modify (f : State → State) : M unit := fun st => Ok tt (f st).

Definition state_of {A} (r : result A) : State :=
  match r with Ok _ st => st | Raise _ st => st end.

Declare Scope m_scope.
Delimit Scope m_scope with M.
Notation "x <- m ;; k" := (bind m (fun x => k))
  (at level 100, m at next level, right associativity) : m_scope.
Notation "m ;; k" := (bind m (fun _ => k))
  (at level 100, right associativity) : m_scope.
Open Scope m_scope.

(** A Python [for] loop whose body updates local variables: a fold. *)
Fixpoint for_each {A B} (body : B → A → M B) (l : list A) (acc : B) : M B :=
  match l with
  | [] => ret acc
  | x :: l' => acc' <- body acc x ;; for_each body l' acc'
  end.

(** A lookup that raises [e] when it has no result. *)
Definition or_raise {A} (e : exception) (o : option A) : M A :=
  match o with Some a => ret a | None => raise e end.

Definition log (ev : Event) : M unit :=
  modify (fun st => with_trace (trace st ++ [ev]) st).

(** Chunk attribute assignments. *)
Definition Chunk_with_grid (g : list (list ref)) (c : Chunk) : Chunk :=
  {| Chunk_db_obj := Chunk_db_obj c; Chunk_x := Chunk_x c; Chunk_y := Chunk_y c;
     Chunk_width := Chunk_width c; Chunk_height := Chunk_height c;
     Chunk_n_rows := Chunk_n_rows c; Chunk_n_cols := Chunk_n_cols c;
     Chunk_players := Chunk_players c; Chunk_mobs := Chunk_mobs c;
     Chunk_walls := Chunk_walls c; Chunk_objects := Chunk_objects c;
     Chunk_name := Chunk_name c; Chunk_grid := g;
     Chunk_blocks := Chunk_blocks c |}.

Definition Chunk_with_blocks (b : list ref) (c : Chunk) : Chunk :=
  {| Chunk_db_obj := Chunk_db_obj c; Chunk_x := Chunk_x c; Chunk_y := Chunk_y c;
     Chunk_width := Chunk_width c; Chunk_height := Chunk_height c;
     Chunk_n_rows := Chunk_n_rows c; Chunk_n_cols := Chunk_n_cols c;
     Chunk_players := Chunk_players c; Chunk_mobs := Chunk_mobs c;
     Chunk_walls := Chunk_walls c; Chunk_objects := Chunk_objects c;
     Chunk_name := Chunk_name c; Chunk_grid := Chunk_grid c;
     Chunk_blocks := b |}.

Definition Chunk_with_db_obj (o : option nat) (c : Chunk) : Chunk :=
  {| Chunk_db_obj := o; Chunk_x := Chunk_x c; Chunk_y := Chunk_y c;
     Chunk_width := Chunk_width c; Chunk_height := Chunk_height c;
     Chunk_n_rows := Chunk_n_rows c; Chunk_n_cols := Chunk_n_cols c;
     Chunk_players := Chunk_players c; Chunk_mobs := Chunk_mobs c;
     Chunk_walls := Chunk_walls c; Chunk_objects := Chunk_objects c;
     Chunk_name := Chunk_name c; Chunk_grid := Chunk_grid c;
     Chunk_blocks := Chunk_blocks c |}.

Definition Chunk_with_mobs (l : list GameObject) (c : Chunk) : Chunk :=
  {| Chunk_db_obj := Chunk_db_obj c; Chunk_x := Chunk_x c; Chunk_y := Chunk_y c;
     Chunk_width := Chunk_width c; Chunk_height := Chunk_height c;
     Chunk_n_rows := Chunk_n_rows c; Chunk_n_cols := Chunk_n_cols c;
     Chunk_players := Chunk_players c; Chunk_mobs := l;
     Chunk_walls := Chunk_walls c; Chunk_objects := Chunk_objects c;
     Chunk_name := Chunk_name c; Chunk_grid := Chunk_grid c;
     Chunk_blocks := Chunk_blocks c |}.

Definition Chunk_with_walls (l : list GameObject) (c : Chunk) : Chunk :=
  {| Chunk_db_obj := Chunk_db_obj c; Chunk_x := Chunk_x c; Chunk_y := Chunk_y c;
     Chunk_width := Chunk_width c; Chunk_height := Chunk_height c;
     Chunk_n_rows := Chunk_n_rows c; Chunk_n_cols := Chunk_n_cols c;
     Chunk_players := Chunk_players c; Chunk_mobs := Chunk_mobs c;
     Chunk_walls := l; Chunk_objects := Chunk_objects c;
     Chunk_name := Chunk_name c; Chunk_grid := Chunk_grid c;
     Chunk_blocks := Chunk_blocks c |}.

Definition Chunk_with_objects (l : list GameObject) (c : Chunk) : Chunk :=
  {| Chunk_db_obj := Chunk_db_obj c; Chunk_x := Chunk_x c; Chunk_y := Chunk_y c;
     Chunk_width := Chunk_width c; Chunk_height := Chunk_height c;
     Chunk_n_rows := Chunk_n_rows c; Chunk_n_cols := Chunk_n_cols c;
     Chunk_players := Chunk_players c; Chunk_mobs := Chunk_mobs c;
     Chunk_walls := Chunk_walls c; Chunk_objects := l;
     Chunk_name := Chunk_name c; Chunk_grid := Chunk_grid c;
     Chunk_blocks := Chunk_blocks c |}.

(** ** Heap primitives *)

(** Reading an object through its address. Addresses only come from
    allocation, so the lookup cannot fail on a reachable state. *)
Definition deref (r : ref) : M Block :=
  h <- gets heap ;; or_raise TypeError (h !! r).

Definition store (r : ref) (b : Block) : M unit :=
  modify (fun st => with_heap (<[r := b]> (heap st)) st).

Definition alloc (b : Block) : M ref :=
  r <- gets (fun st => length (heap st)) ;;
  modify (fun st => with_heap (heap st ++ [b]) st) ;;
  ret r.

(** [block.<d> = target]: plain attribute assignment on the block object. *)
Definition Block_setattr (r : ref) (d : direction) (target : ref) : M unit :=
  b <- deref r ;;
  store r (Block_with_links (set_link d (Some target) (Block_links b)) b).

(** [block.x, block.y = x, y] *)
Definition Block_set_pos (r : ref) (x y : Z) : M unit :=
  b <- deref r ;; store r (Block_with_pos x y b).

(** [a // b] on Python integers. *)
Definition floordiv (a b : N) : M N :=
  if (b =? 0)%N then raise ZeroDivisionError else ret (a / b)%N.

(** [grid[i][j]] *)
Definition grid_at (grid : list (list ref)) (i j : Z) : M ref :=
  row <- or_raise IndexError (py_getitem grid i) ;;
  or_raise IndexError (py_getitem row j).

(** ** The database session

    Modelled from the spec: the load/save contract of the persistence
    gateway. *)

(** [session.query(models.Chunk).filter_by(x=x, y=y).first()] *)
Fixpoint find_chunk_row (x y : Z) (id : nat) (t : list ChunkRow)
  : option (nat * ChunkRow) :=
  match t with
  | [] => None
  | r :: t' =>
      if (row_x r =? x) && (row_y r =? y) then Some (id, r)
      else find_chunk_row x y (S id) t'
  end.

Definition session_query_chunk (x y : Z) : M (option (nat * ChunkRow)) :=
  gets (fun st => find_chunk_row x y 0 (chunk_table st)).

(** [db_obj.blocks]: the block records whose foreign key is the chunk's id,
    each with its own id. *)
Fixpoint rows_of_chunk (chunk_id : nat) (id : nat) (t : list BlockRow)
  : list (nat * BlockRow) :=
  match t with
  | [] => []
  | r :: t' =>
      if bool_decide (row_chunk_id r = Some chunk_id)
      then (id, r) :: rows_of_chunk chunk_id (S id) t'
      else rows_of_chunk chunk_id (S id) t'
  end.

(** [session.add(db_obj); session.commit()] for a chunk record: a record
    without an id is inserted and gets one, a record with an id is updated. *)
Definition session_add_chunk (db_obj : option nat) (row : ChunkRow) : M nat :=
  match db_obj with
  | Some id =>
      modify (fun st => with_chunk_table (<[id := row]> (chunk_table st)) st) ;;
      ret id
  | None =>
      id <- gets (fun st => length (chunk_table st)) ;;
      modify (fun st => with_chunk_table (chunk_table st ++ [row]) st) ;;
      ret id
  end.

(** [block.db_obj.chunk_id = id] *)
Definition BlockRow_set_chunk_id (rid : nat) (id : option nat) : M unit :=
  modify (fun st =>
    with_block_table
      (alter (fun row => {| row_attrs := row_attrs row; row_chunk_id := id |})
             rid (block_table st)) st).

(** ** Block operations

    Modelled from the spec: construction of the origin block, extrusion,
    and the block's own save and load. *)
Section BlockClass.

Variable config : Config.
(** What [Block(x, y)] gives a block that is constructed directly. *)
Variable Block_default_color : RGB.
Variable Block_default_collidable : bool.

(** [Block(x, y)] *)
Definition Block_init (x y : Z) : M ref :=
  alloc {| Block_x := x; Block_y := y;
           Block_width := config_block_width config;
           Block_height := config_block_height config;
           Block_color := Block_default_color;
           Block_collidable := Block_default_collidable;
           Block_db_obj := None; Block_links := no_links |}.

(** [block.create_direction(d)]: a brand-new adjacent block by extrusion in
    direction [d]; it copies the shared attributes and inherits no links. *)
Definition Block_create_direction (r : ref) (d : direction) : M ref :=
  b <- deref r ;;
  alloc {| Block_x := Block_x b + (compass_delta d).1;
           Block_y := Block_y b + (compass_delta d).2;
           Block_width := Block_width b;
           Block_height := Block_height b;
           Block_color := Block_color b;
           Block_collidable := Block_collidable b;
           Block_db_obj := None; Block_links := no_links |}.

(** [block.save(commit=False)]: the block's record is created on first save
    and carries the block's position, size, colour and collidable flag. The
    result is the id of the record ([block.db_obj]). *)
Definition Block_save (r : ref) : M nat :=
  b <- deref r ;;
  match Block_db_obj b with
  | Some rid =>
      modify (fun st =>
        with_block_table
          (alter (fun row => {| row_attrs := Block_attrs b;
                                row_chunk_id := row_chunk_id row |})
                 rid (block_table st)) st) ;;
      ret rid
  | None =>
      rid <- gets (fun st => length (block_table st)) ;;
      modify (fun st =>
        with_block_table
          (block_table st ++ [{| row_attrs := Block_attrs b;
                                 row_chunk_id := None |}]) st) ;;
      store r (Block_with_db_obj (Some rid) b) ;;
      ret rid
  end.

(** [Block.load_from_db_obj(record)] *)
Definition Block_load_from_db_obj (rec : nat * BlockRow) : M ref :=
  alloc (Block_of_attrs (row_attrs rec.2) (Some rec.1)).

End BlockClass.

(** ** class LazyChunkLoader (lines 22-39) *)

(** The [dir_map] table of [__get__]. *)
Definition dir_map (obj : Chunk) (direction : direction) : Z * Z :=
  match direction with
  | Dn => (Chunk_x obj, Chunk_y obj + 1)
  | Dne => (Chunk_x obj + 1, Chunk_y obj + 1)
  | De => (Chunk_x obj + 1, Chunk_y obj)
  | Dse => (Chunk_x obj + 1, Chunk_y obj - 1)
  | Ds => (Chunk_x obj, Chunk_y obj - 1)
  | Dsw => (Chunk_x obj - 1, Chunk_y obj - 1)
  | Dw => (Chunk_x obj - 1, Chunk_y obj)
  | Dnw => (Chunk_x obj - 1, Chunk_y obj + 1)
  end.

(** [str((x, y))] *)
Definition str_pair (p : Z * Z) : string :=
  "(" +:+ pretty p.1 +:+ ", " +:+ pretty p.2 +:+ ")".

(** [LazyChunkLoader(direction).__get__(obj)]: what evaluating the attribute
    [obj.<direction>] runs. The descriptor defines no [__set__] and stores
    nothing on [obj], so every attribute access runs it. [world_load_chunk]
    is the resolver of the [world] module; the call is recorded in the
    trace. *)
Definition LazyChunkLoader_get
    (world_load_chunk : Z → Z → bool → M (option Chunk))
    (direction : direction) (obj : Chunk) : M (option Chunk) :=
  let target := dir_map obj direction in
  log (EvPrint ("Loading chunk " +:+ str_pair target)) ;;
  log (EvWorldLoadChunk target.1 target.2 true) ;;
  world_load_chunk target.1 target.2 true.

(** ** class Chunk (lines 42-298) *)
Section ChunkClass.

Variable config : Config.
Variable Block_default_color : RGB.
Variable Block_default_collidable : bool.

(** [Chunk.__init__(x, y, name=None)] *)
Definition Chunk_init (x y : Z) (name : option string) : M Chunk :=
  n_rows <- floordiv (config_window_height config) (config_block_height config) ;;
  n_cols <- floordiv (config_window_width config) (config_block_width config) ;;
  ret {| Chunk_db_obj := None;
         Chunk_x := x; Chunk_y := y;
         Chunk_width := config_window_width config;
         Chunk_height := config_window_height config;
         Chunk_n_rows := n_rows; Chunk_n_cols := n_cols;
         Chunk_players := []; Chunk_mobs := []; Chunk_walls := [];
         Chunk_objects := [];
         Chunk_name :=
           match name with
           | Some (String c t) => String c t
           | _ => "Chunk" +:+ str_pair (x, y)
           end;
         Chunk_grid := []; Chunk_blocks := [] |}.

(** The [game_objects] property. *)
Definition Chunk_game_objects (self : Chunk) : list GameObject :=
  Chunk_players self ++ Chunk_mobs self ++ Chunk_walls self ++ Chunk_objects self.

(** The [coords] property. *)
Definition Chunk_coords (self : Chunk) : Z * Z := (Chunk_x self, Chunk_y self).

(** The [img_file] property. *)
Definition Chunk_img_file (self : Chunk) : string :=
  "app/assets/chunks/" +:+ Chunk_name self +:+ ".png".

(** [link_blocks] (lines 118-127) *)
Definition Chunk_link_blocks (self : Chunk) : M unit :=
  for_each (fun _ r_row =>
    let r_i := r_row.1 in
    for_each (fun _ b_block =>
      let b_i := b_block.1 in
      let block := b_block.2 in
      (if negb (r_i =? 0) then
         t <- grid_at (Chunk_grid self) (r_i - 1) b_i ;;
         Block_setattr block Ds t ;;
         t <- grid_at (Chunk_grid self) (r_i - 1) (b_i - 1) ;;
         Block_setattr block Dsw t ;;
         if negb (b_i + 1 =? Z.of_N (Chunk_n_cols self)) then
           t <- grid_at (Chunk_grid self) (r_i - 1) (b_i + 1) ;;
           Block_setattr block Dse t
         else ret tt
       else ret tt) ;;
      if negb (b_i =? 0) then
        t <- grid_at (Chunk_grid self) r_i (b_i - 1) ;;
        Block_setattr block Dw t
      else ret tt)
    (enumerate r_row.2) tt)
  (enumerate (Chunk_grid self)) tt.

(** The sort key of [load_blocks]: [lambda block: (block.y, block.x)]. *)
Definition block_key (h : list Block) (r : ref) : Z * Z :=
  match h !! r with
  | Some b => (Block_y b, Block_x b)
  | None => (0, 0)
  end.

(** [load_blocks] (lines 92-100). The name raised on line 94 is
    [NoDatabaseObject]. *)
Definition Chunk_load_blocks (self : Chunk) : M Chunk :=
  match Chunk_db_obj self with
  | None => raise (raise_named "NoDatabaseObject")
  | Some id =>
      rows <- gets (fun st => rows_of_chunk id 0 (block_table st)) ;;
      blocks <- for_each (fun acc rec =>
                  b <- Block_load_from_db_obj rec ;; ret (acc ++ [b]))
                rows [] ;;
      h <- gets heap ;;
      grid <- or_raise ValueError
                (reshape (sorted (block_key h) blocks)
                         (Chunk_n_rows self) (Chunk_n_cols self)) ;;
      let self := Chunk_with_grid grid (Chunk_with_blocks blocks self) in
      Chunk_link_blocks self ;;
      ret self
  end.

(** [set_walls] (lines 102-115): [self.walls] is cleared, the walls are
    appended to [self.objects]. *)
Definition Chunk_set_walls (self : Chunk) : M Chunk :=
  let self := Chunk_with_walls [] self in
  for_each (fun self block =>
    b <- deref block ;;
    if Block_collidable b then
      ret (Chunk_with_objects
             (Chunk_objects self ++
                [Wall (Block_x b) (Block_y b) (Block_width b) (Block_height b)
                      (Block_color b)]) self)
    else ret self)
  (Chunk_blocks self) self.

(** [load_from_db_obj] (lines 158-166) *)
Definition Chunk_load_from_db_obj (db_obj : nat * ChunkRow) : M Chunk :=
  chunk <- Chunk_init (row_x db_obj.2) (row_y db_obj.2)
                      (Some (row_name db_obj.2)) ;;
  let chunk := Chunk_with_db_obj (Some db_obj.1) chunk in
  Chunk_load_blocks chunk.

(** [save] (lines 169-181). A record made by [models.Chunk()] on line 171
    has no id before it is added and committed on lines 180-181, so a
    chunk that had no record hands [None] to its blocks on line 178. *)
Definition Chunk_save (self : Chunk) : M Chunk :=
  let id_now := Chunk_db_obj self in
  for_each (fun _ block =>
    rid <- Block_save block ;;
    BlockRow_set_chunk_id rid id_now)
  (Chunk_blocks self) tt ;;
  id <- session_add_chunk (Chunk_db_obj self)
          {| row_x := Chunk_x self; row_y := Chunk_y self;
             row_name := Chunk_name self |} ;;
  ret (Chunk_with_db_obj (Some id) self).

(** The body of the two loops of [build_blocks] (lines 200-258): the block
    of cell ([r_i], [c_i]), given the rows built so far ([grid]) and the
    part of the current row built so far ([row]). In an assignment
    [a.f = e] Python evaluates [e] before [a]. *)
Definition build_cell (chunk_w chunk_s : option Chunk) (n_cols : N)
    (grid : list (list ref)) (row : list ref) (r_i c_i : Z) : M ref :=
  if c_i =? 0 then
    if r_i =? 0 then
      match chunk_s, chunk_w with
      | Some cs, Some cw =>
          t <- grid_at (Chunk_grid cs) (-1) 0 ;;
          o <- grid_at (Chunk_grid cw) 0 (-1) ;;
          Block_setattr o Dse t ;;
          o <- grid_at (Chunk_grid cw) 0 (-1) ;;
          new_block <- Block_create_direction o De ;;
          Block_set_pos new_block 0 0 ;;
          ret new_block
      | None, Some cw =>
          o <- grid_at (Chunk_grid cw) 0 (-1) ;;
          new_block <- Block_create_direction o De ;;
          Block_set_pos new_block 0 0 ;;
          ret new_block
      | Some cs, None =>
          o <- grid_at (Chunk_grid cs) (-1) 0 ;;
          new_block <- Block_create_direction o Dn ;;
          Block_set_pos new_block 0 0 ;;
          ret new_block
      | None, None =>
          Block_init config Block_default_color Block_default_collidable 0 0
      end
    else
      match chunk_w with
      | Some cw =>
          t <- grid_at (Chunk_grid cw) r_i (-1) ;;
          o <- grid_at grid (r_i - 1) 0 ;;
          Block_setattr o Dnw t ;;
          t <- grid_at (Chunk_grid cw) (r_i - 1) (-1) ;;
          o <- grid_at grid (r_i - 1) 0 ;;
          Block_setattr o Dw t ;;
          t <- grid_at (Chunk_grid cw) (r_i - 2) (-1) ;;
          o <- grid_at grid (r_i - 1) 0 ;;
          Block_setattr o Dsw t
      | None => ret tt
      end ;;
      o <- grid_at grid (r_i - 1) 0 ;;
      new_block <- Block_create_direction o Dn ;;
      t <- grid_at grid (r_i - 1) (c_i + 1) ;;
      Block_setattr new_block Dse t ;;
      match chunk_w with
      | Some cw =>
          t <- grid_at (Chunk_grid cw) r_i (-1) ;;
          Block_setattr new_block Dw t
      | None => ret tt
      end ;;
      ret new_block
  else if c_i =? Z.of_N n_cols - 1 then
    o <- or_raise IndexError (py_getitem row (-1)) ;;
    new_block <- Block_create_direction o De ;;
    (if r_i =? 0 then ret tt
     else
       t <- grid_at grid (r_i - 1) c_i ;;
       Block_setattr new_block Ds t ;;
       t <- grid_at grid (r_i - 1) (c_i - 1) ;;
       Block_setattr new_block Dsw t) ;;
    ret new_block
  else
    o <- or_raise IndexError (py_getitem row (-1)) ;;
    new_block <- Block_create_direction o De ;;
    (if r_i =? 0 then
       match chunk_s with
       | Some cs =>
           t <- grid_at (Chunk_grid cs) (-1) (c_i - 1) ;;
           Block_setattr new_block Dsw t ;;
           t <- grid_at (Chunk_grid cs) (-1) c_i ;;
           Block_setattr new_block Ds t ;;
           t <- grid_at (Chunk_grid cs) (-1) (c_i + 1) ;;
           Block_setattr new_block Dse t
       | None => ret tt
       end
     else
       t <- grid_at grid (r_i - 1) (c_i - 1) ;;
       Block_setattr new_block Dsw t ;;
       t <- grid_at grid (r_i - 1) c_i ;;
       Block_setattr new_block Ds t ;;
       t <- grid_at grid (r_i - 1) (c_i + 1) ;;
       Block_setattr new_block Dse t) ;;
    ret new_block.

(** [build_blocks] (lines 189-264). [load] is [Chunk.load]; both calls on
    lines 190-191 leave [create] at its default, [False]. The chunk is saved
    on line 263, the flat block list is assigned on line 264. *)
Definition Chunk_build_blocks (load : Z → Z → bool → M (option Chunk))
    (self : Chunk) : M Chunk :=
  chunk_w <- load (Chunk_x self - 1) (Chunk_y self) false ;;
  chunk_s <- load (Chunk_x self) (Chunk_y self - 1) false ;;
  n_rows <- floordiv (Chunk_height self) (config_block_height config) ;;
  n_cols <- floordiv (Chunk_width self) (config_block_width config) ;;
  grid <- for_each (fun grid r_i =>
            row <- for_each (fun row c_i =>
                     new_block <- build_cell chunk_w chunk_s n_cols grid row r_i c_i ;;
                     ret (row ++ [new_block]))
                   (range n_cols) [] ;;
            ret (grid ++ [row]))
          (range n_rows) [] ;;
  self <- Chunk_save (Chunk_with_grid grid self) ;;
  ret (Chunk_with_blocks (concat (Chunk_grid self)) self).

(** [build_img] (lines 267-271): rasterising is external. What the engine
    observes is that [img.save] (line 271) raises [ValueError] for an image
    without pixels, a window of width or height zero, and writes no file
    then, and that otherwise the image file exists afterwards. *)
Definition Chunk_build_img (self : Chunk) : M unit :=
  if (Chunk_width self =? 0)%N || (Chunk_height self =? 0)%N
  then raise ValueError
  else modify (fun st => with_files (files st ++ [Chunk_img_file self]) st).

(** [os.path.isfile] *)
Definition isfile (path : string) : M bool :=
  gets (fun st => bool_decide (path ∈ files st)).

(** [random.randint(a, b)]: the next number of the random source, brought
    into [a..b]. *)
Definition randint (a b : Z) : M Z :=
  t <- gets random_tape ;;
  match t with
  | [] => ret a
  | v :: t' =>
      modify (with_random_tape t') ;; ret (a + v `mod` (b - a + 1))
  end.

(** [add_mobs] (lines 274-283) *)
Definition Chunk_add_mobs (n : N) (self : Chunk) : M Chunk :=
  for_each (fun self _ =>
    x <- randint 0 (Z.of_N (config_window_width config)) ;;
    y <- randint 0 (Z.of_N (config_window_height config)) ;;
    ret (Chunk_with_mobs (Chunk_mobs self ++ [Mob x y 50 50]) self))
  (range n) self.

(** [Chunk.load] (lines 130-155). The method calls itself through
    [build_blocks]; [depth] bounds the nesting of such calls, as the
    interpreter's recursion limit does. *)
Fixpoint Chunk_load (depth : nat) (x y : Z) (create : bool)
  : M (option Chunk) :=
  match depth with
  | O => raise RecursionError
  | S depth' =>
      log (EvChunkLoad x y create) ;;
      loaded_chunk <- session_query_chunk x y ;;
      chunk <- match loaded_chunk with
               | None =>
                   if create then
                     chunk <- Chunk_init x y None ;;
                     chunk <- Chunk_build_blocks (Chunk_load depth') chunk ;;
                     chunk <- Chunk_save chunk ;;
                     ret (Some chunk)
                   else ret None
               | Some db_obj =>
                   chunk <- Chunk_load_from_db_obj db_obj ;;
                   ret (Some chunk)
               end ;;
      match chunk with
      | None => ret None
      | Some chunk =>
          present <- isfile (Chunk_img_file chunk) ;;
          (if present then ret tt else Chunk_build_img chunk) ;;
          chunk <- Chunk_set_walls chunk ;;
          chunk <- Chunk_add_mobs 5 chunk ;;
          ret (Some chunk)
      end
  end.

(** The interpreter's default recursion limit. *)
Definition recursion_limit : nat := 1000.

(** Modelled from the spec: [world.load_chunk] ([app/world.py] is not among
    the sources) is the coordinate chunk cache's resolve: a chunk already
    cached for the coordinate is returned, otherwise it is loaded (or
    created, when [create] is set) and cached; absent stays absent. *)
Definition world_load_chunk (x y : Z) (create : bool) : M (option Chunk) :=
  cached <- gets (fun st => chunk_cache st !! (x, y)) ;;
  match cached with
  | Some chunk => ret (Some chunk)
  | None =>
      loaded <- Chunk_load recursion_limit x y create ;;
      match loaded with
      | Some chunk =>
          modify (fun st =>
            with_chunk_cache (<[(x, y) := chunk]> (chunk_cache st)) st) ;;
          ret (Some chunk)
      | None => ret None
      end
  end.

End ChunkClass.

(** ** The per-tick update pass: [Chunk.update] (lines 286-298)

    The engine depends on game objects only through the capability
    interface {update, collides_with, on_collision, mobile, collidable}.
    Objects are identified by an identity with decidable equality (Python's
    [is]); their behaviour reads and changes a world state [W], in which the
    chunk's four object lists live too. Every call of [update] and of
    [on_collision] is recorded. *)
Record Game (Obj W : Type) := {
  players : W → list Obj;
  mobs : W → list Obj;
  walls : W → list Obj;
  objects : W → list Obj;
  obj_update : Obj → W → W;
  obj_mobile : Obj → W → bool;
  obj_collidable : Obj → W → bool;
  obj_collides_with : Obj → Obj → W → bool;
  obj_on_collision : Obj → Obj → W → W
}.
Arguments players {Obj W}.
Arguments mobs {Obj W}.
Arguments walls {Obj W}.
Arguments objects {Obj W}.
Arguments obj_update {Obj W}.
Arguments obj_mobile {Obj W}.
Arguments obj_collidable {Obj W}.
Arguments obj_collides_with {Obj W}.
Arguments obj_on_collision {Obj W}.

Inductive Call (Obj : Type) :=
| CallUpdate (o : Obj)                 (* [o.update()] *)
| CallOnCollision (o other : Obj).     (* [o.on_collision(other)] *)
Arguments CallUpdate {Obj}.
Arguments CallOnCollision {Obj}.

#[global] Instance Call_eq_dec {Obj} `{EqDecision Obj} : EqDecision (Call Obj).
Proof. solve_decision. Defined.

Section EntityUpdateLoop.

Context {Obj W : Type} `{EqDecision Obj}.
Variable G : Game Obj W.

(** The [game_objects] property, evaluated in the current state; the result
    is a fresh list, so a loop over it is a loop over a snapshot. *)
Definition game_objects (w : W) : list Obj :=
  players G w ++ mobs G w ++ walls G w ++ objects G w.

(** Lines 292-297: one step of the inner loop for the outer object [obj]. *)
Definition update_inner (obj : Obj) (acc : W * list (Call Obj)) (other_obj : Obj)
  : W * list (Call Obj) :=
  let w := acc.1 in
  if decide (other_obj = obj) then acc
  else if obj_collidable G other_obj w then
    if obj_collides_with G obj other_obj w then
      let w1 := obj_on_collision G obj other_obj w in
      let w2 := obj_on_collision G other_obj obj w1 in
      (w2, acc.2 ++ [CallOnCollision obj other_obj; CallOnCollision other_obj obj])
    else acc
  else acc.

(** Lines 289-298: one step of the outer loop. The third component is the
    local list [collision_checked]. *)
Definition update_outer (acc : W * list (Call Obj) * list Obj) (obj : Obj)
  : W * list (Call Obj) * list Obj :=
  let w1 := obj_update G obj acc.1.1 in
  let calls1 := acc.1.2 ++ [CallUpdate obj] in
  let inner :=
    if obj_mobile G obj w1
    then foldl (update_inner obj) (w1, calls1) (game_objects w1)
    else (w1, calls1) in
  (inner, acc.2 ++ [obj]).

(** [Chunk.update]: the state after the tick and the calls made during it. *)
Definition Chunk_update (w : W) : W * list (Call Obj) :=
  (foldl update_outer (w, [], []) (game_objects w)).1.

(** How often [o.on_collision(other)] was called. *)
Definition on_collision_calls (o other : Obj) (calls : list (Call Obj)) : nat :=
  length (filter (fun c => c = CallOnCollision o other) calls).

(** What one test of the inner loop, outer object [obj] against [other],
    adds to the calls [a.on_collision(b)], when "[b] is collidable and [a]
    collides with [b]" has the value [hab], and likewise [hba]. *)
Definition pair_hits (a b : Obj) (hab hba : bool) (obj other : Obj) : nat :=
  ((if decide (obj = a ∧ other = b) then (if hab then 1 else 0) else 0)
   + (if decide (obj = b ∧ other = a) then (if hba then 1 else 0) else 0))%nat.

(** [n] occurrences of [o] in a list of objects. *)
Definition occurrences (o : Obj) (l : list Obj) : nat :=
  length (filter (fun x => x = o) l).

End EntityUpdateLoop.

(** A two-object world for concrete runs: object [0] is a mobile player,
    object [1] a wall (or, with [both_mobile], a second mobile object);
    every object is collidable and [overlap] says whether they collide. *)
Definition two_object_game (both_mobile overlap : bool) : Game nat unit :=
  {| players := fun _ => [0%nat];
     mobs := fun _ => if both_mobile then [1%nat] else [];
     walls := fun _ => if both_mobile then [] else [1%nat];
     objects := fun _ => [];
     obj_update := fun _ w => w;
     obj_mobile := fun o _ => both_mobile || bool_decide (o = 0%nat);
     obj_collidable := fun _ _ => true;
     obj_collides_with := fun _ _ _ => overlap;
     obj_on_collision := fun _ _ w => w |}.

(** * Vocabulary of the properties *)

(** [wp m st Q]: run from [st], [m] returns (it does not raise), and its
    result and final state satisfy [Q]. *)
Definition wp {A} (m : M A) (st : State) (Q : A → State → Prop) : Prop :=
  match m st with
  | Ok a st' => Q a st'
  | Raise _ _ => False
  end.

(** [wpg allow m st Q]: run from [st], [m] returns with [Q], or it raises
    and [allow] holds. With [allow := False] this is [wp]; with
    [allow := True] it says what holds if [m] returns. *)
Definition wpg {A} (allow : Prop) (m : M A) (st : State) (Q : A → State → Prop)
  : Prop :=
  match m st with
  | Ok a st' => Q a st'
  | Raise _ _ => allow
  end.

(** ** Re-linking

    [relinked dirs targets h h']: [h'] is [h] with some links reassigned,
    each in one of the directions [dirs] and to one of the blocks
    [targets]; nothing else about any block has changed. *)
Definition relinked (dirs : list direction) (targets : list ref)
    (h h' : list Block) : Prop :=
  length h' = length h ∧
  ∀ r b, h !! r = Some b →
    ∃ b', h' !! r = Some b' ∧
      Block_attrs b' = Block_attrs b ∧
      Block_db_obj b' = Block_db_obj b ∧
      ∀ d, Block_link d b' = Block_link d b ∨
           (d ∈ dirs ∧ ∃ t, t ∈ targets ∧ Block_link d b' = Some t).

Definition grid_shape (R C : nat) (g : list (list ref)) : Prop :=
  length g = R ∧ Forall (fun row => length row = C) g.

Definition grid_valid (h : list Block) (g : list (list ref)) : Prop :=
  Forall (Forall (fun r => (r < length h)%nat)) g.

Definition link_dirs : list direction := [Ds; Dsw; Dse; Dw].

(** ** The links of a cell

    [cell_at g i j]: the block at row [i], column [j] of the grid. *)
Definition cell_at (g : list (list ref)) (i j : nat) : option ref :=
  g !! i ≫= (.!! j).

(** [link_target g C i j d]: the block that [link_blocks] assigns to link [d]
    of the block at row [i], column [j] of a grid of [C] columns, if it
    assigns one. Line 123 indexes column [j - 1] of the row below, which for
    [j = 0] is the last column. *)
Definition link_target (g : list (list ref)) (C i j : nat) (d : direction)
  : option ref :=
  match d with
  | Ds => if decide (i = 0)%nat then None else cell_at g (i - 1) j
  | Dsw => if decide (i = 0)%nat then None
           else cell_at g (i - 1) (if decide (j = 0)%nat then C - 1 else j - 1)
  | Dse => if decide (i = 0 ∨ j + 1 = C)%nat then None
           else cell_at g (i - 1) (j + 1)
  | Dw => if decide (j = 0)%nat then None else cell_at g i (j - 1)
  | _ => None
  end.

(** Block [b'] is block [b] after the links of cell ([i], [j]) have been
    assigned. *)
Definition cell_linked (g : list (list ref)) (C i j : nat) (b b' : Block) : Prop :=
  Block_attrs b' = Block_attrs b ∧ Block_db_obj b' = Block_db_obj b ∧
  ∀ d, Block_link d b' = match link_target g C i j d with
                         | Some t => Some t
                         | None => Block_link d b
                         end.

(** The heap while [link_blocks] runs: the cells before ([i0], [j0]) in
    row-major order have their links assigned, the others are as they
    were. *)
Definition links_assigned_upto (g : list (list ref)) (C i0 j0 : nat)
    (h h' : list Block) : Prop :=
  length h' = length h ∧
  ∀ i j a b, cell_at g i j = Some a → h !! a = Some b →
    if decide (i < i0 ∨ (i = i0 ∧ j < j0))%nat
    then ∃ b', h' !! a = Some b' ∧ cell_linked g C i j b b'
    else h' !! a = Some b.

(** The heap after [link_blocks]. *)
Definition links_assigned (g : list (list ref)) (C : nat) (h h' : list Block)
  : Prop :=
  length h' = length h ∧
  ∀ i j a b, cell_at g i j = Some a → h !! a = Some b →
    ∃ b', h' !! a = Some b' ∧ cell_linked g C i j b b'.

(** The state during a linking pass that started in [st0]: only the heap
    differs, by re-linking in [dirs] towards the blocks [targets]. *)
Definition linking (dirs : list direction) (targets : list ref) (st0 st : State)
  : Prop :=
  ∃ h, st = with_heap h st0 ∧ relinked dirs targets (heap st0) h.

(** A list whose keys never decrease is left as it is. *)
Definition key_ordered {A} (key : A → Z * Z) (l : list A) : Prop :=
  ∀ i j y x, (i < j)%nat → l !! i = Some y → l !! j = Some x →
    key_le (key y) (key x) = true.

(** The block object that [Block.load_from_db_obj] makes of a record. *)
Definition block_of_row (rec : nat * BlockRow) : Block :=
  Block_of_attrs (row_attrs rec.2) (Some rec.1).

(** The heap after the records [rows] have been made into blocks. *)
Definition hydrated_heap (st : State) (rows : list (nat * BlockRow)) : list Block :=
  heap st ++ (block_of_row <$> rows).

(** The grid that [load_blocks] makes of the records [rows]. *)
Definition hydrated_grid (st : State) (rows : list (nat * BlockRow)) (R C : nat)
  : list (list ref) :=
  reshape_rows R C
    (sorted (block_key (hydrated_heap st rows))
            (seq (length (heap st)) (length rows))).

(** Grid dimensions fixed by the configuration. *)
Definition grid_rows (config : Config) : nat :=
  N.to_nat (config_window_height config / config_block_height config).
Definition grid_cols (config : Config) : nat :=
  N.to_nat (config_window_width config / config_block_width config).

(** The block dimensions are not zero. *)
Definition config_divides (config : Config) : Prop :=
  config_block_height config ≠ 0%N ∧ config_block_width config ≠ 0%N.

(** The window has pixels: an image of its size can be saved. *)
Definition window_ok (config : Config) : Prop :=
  config_window_width config ≠ 0%N ∧ config_window_height config ≠ 0%N.

(** Activation of [chunk] gets past lines 144-145: the image of the chunk
    can be built, or its file is there already. *)
Definition drawable (chunk : Chunk) (st : State) : Prop :=
  (Chunk_width chunk ≠ 0%N ∧ Chunk_height chunk ≠ 0%N) ∨
  Chunk_img_file chunk ∈ files st.

(** The chunk object that [Chunk(x, y, name)] constructs. *)
Definition fresh_chunk (config : Config) (x y : Z) (name : option string) : Chunk :=
  {| Chunk_db_obj := None;
     Chunk_x := x; Chunk_y := y;
     Chunk_width := config_window_width config;
     Chunk_height := config_window_height config;
     Chunk_n_rows := N.of_nat (grid_rows config);
     Chunk_n_cols := N.of_nat (grid_cols config);
     Chunk_players := []; Chunk_mobs := []; Chunk_walls := [];
     Chunk_objects := [];
     Chunk_name :=
       match name with
       | Some (String c t) => String c t
       | _ => "Chunk" +:+ str_pair (x, y)
       end;
     Chunk_grid := []; Chunk_blocks := [] |}.

(** The parts of a chunk that identify it and its grid. *)
Definition same_chunk (c c' : Chunk) : Prop :=
  Chunk_db_obj c' = Chunk_db_obj c ∧ Chunk_x c' = Chunk_x c ∧
  Chunk_y c' = Chunk_y c ∧ Chunk_name c' = Chunk_name c ∧
  Chunk_n_rows c' = Chunk_n_rows c ∧ Chunk_n_cols c' = Chunk_n_cols c ∧
  Chunk_grid c' = Chunk_grid c ∧ Chunk_blocks c' = Chunk_blocks c.

(** The parts of the state that activation leaves alone. *)
Definition same_world (st st' : State) : Prop :=
  heap st' = heap st ∧ chunk_table st' = chunk_table st ∧
  block_table st' = block_table st ∧ trace st' = trace st ∧
  chunk_cache st' = chunk_cache st.

(** The part of [Chunk.load] after the chunk has been obtained (lines
    144-155). *)
Definition activate (config : Config) (chunk : Chunk) : M (option Chunk) :=
  present <- isfile (Chunk_img_file chunk) ;;
  (if present then ret tt else Chunk_build_img chunk) ;;
  chunk <- Chunk_set_walls chunk ;;
  chunk <- Chunk_add_mobs config 5 chunk ;;
  ret (Some chunk).

(** The part of [Chunk.load] that makes the chunk of a coordinate without a
    record (lines 136-138): the chunk is constructed, generated and saved.
    [load_chunk] is the nested [Chunk.load] of the neighbour lookups. *)
Definition make_chunk (config : Config) (Block_default_color : RGB)
    (Block_default_collidable : bool)
    (load_chunk : Z → Z → bool → M (option Chunk)) (x y : Z)
  : M (option Chunk) :=
  chunk <- Chunk_init config x y None ;;
  chunk <- Chunk_build_blocks config Block_default_color
             Block_default_collidable load_chunk chunk ;;
  chunk <- Chunk_save chunk ;;
  ret (Some chunk).

Section HydrationVocabulary.

Variable config : Config.

Local Abbreviation R := (grid_rows config).
Local Abbreviation C := (grid_cols config).

(** The block records of chunk [id]. *)
Definition chunk_rows (st : State) (id : nat) : list (nat * BlockRow) :=
  rows_of_chunk id 0 (block_table st).

(** The chunk object that hydration makes of record [id]. *)
Definition hydrated_chunk (st : State) (id : nat) (row : ChunkRow) : Chunk :=
  Chunk_with_grid (hydrated_grid st (chunk_rows st id) R C)
    (Chunk_with_blocks (seq (length (heap st)) (length (chunk_rows st id)))
       (Chunk_with_db_obj (Some id)
          (fresh_chunk config (row_x row) (row_y row) (Some (row_name row))))).

(** The state after hydrating record [id] from [st], up to the trace: the
    new blocks are on the heap, linked among themselves, and nothing else
    has changed. *)
Definition hydrated (st : State) (id : nat) (st' : State) : Prop :=
  relinked link_dirs (concat (hydrated_grid st (chunk_rows st id) R C))
           (hydrated_heap st (chunk_rows st id)) (heap st') ∧
  chunk_table st' = chunk_table st ∧ block_table st' = block_table st ∧
  chunk_cache st' = chunk_cache st.

End HydrationVocabulary.

(** [grown h h']: every block of [h] is still there in [h'] with the same
    attributes and the same record; links may have been assigned and new
    blocks may have been allocated. *)
Definition grown (h h' : list Block) : Prop :=
  (length h ≤ length h')%nat ∧
  ∀ r b, h !! r = Some b →
    ∃ b', h' !! r = Some b' ∧ Block_attrs b' = Block_attrs b ∧
          Block_db_obj b' = Block_db_obj b.

(** The block at [r] sits at grid position ([x], [y]) and has no record
    yet. *)
Definition cell_ok (h : list Block) (r : ref) (x y : Z) : Prop :=
  ∃ b, h !! r = Some b ∧ Block_x b = x ∧ Block_y b = y ∧ Block_db_obj b = None.

(** One step of the generator: only the heap changes, and it grows. *)
Definition heap_step (st st' : State) : Prop :=
  st' = with_heap (heap st') st ∧ grown (heap st) (heap st').

(** A neighbour chunk, when there is one, has a full grid on the heap. *)
Definition neighbour_ok (R C : nat) (h : list Block) (c : option Chunk) : Prop :=
  match c with
  | Some c => grid_shape R C (Chunk_grid c) ∧ grid_valid h (Chunk_grid c)
  | None => True
  end.

(** The cells built so far sit at their grid positions. *)
Definition cells_ok (h : list Block) (grid : list (list ref)) : Prop :=
  ∀ i j row ref, grid !! i = Some row → row !! j = Some ref →
    cell_ok h ref (Z.of_nat j) (Z.of_nat i).

Definition row_ok (h : list Block) (r : nat) (row : list ref) : Prop :=
  ∀ j ref, row !! j = Some ref → cell_ok h ref (Z.of_nat j) (Z.of_nat r).

(** From [st], exactly one block has been allocated, at [nb]; it sits at
    ([x], [y]); everything older is as it was, up to links. *)
Definition built (st : State) (nb : ref) (x y : Z) (st' : State) : Prop :=
  heap_step st st' ∧ nb = length (heap st) ∧
  length (heap st') = S (length (heap st)) ∧ cell_ok (heap st') nb x y.

(** The chunk record that [save] writes. *)
Definition row_of_chunk (c : Chunk) : ChunkRow :=
  {| row_x := Chunk_x c; row_y := Chunk_y c; row_name := Chunk_name c |}.

(** The record [row] persists the block at [r] for chunk [id]. *)
Definition persists (h : list Block) (id : nat) (r : ref) (row : BlockRow) : Prop :=
  row_chunk_id row = Some id ∧ ∃ b, h !! r = Some b ∧ row_attrs row = Block_attrs b.

(** The state while the blocks [done] of a chunk are saved, starting from
    [st]: their records have been appended, the saved blocks know their
    records, and nothing else has changed. *)
Definition saving (st : State) (id : nat) (done : list ref) (st' : State) : Prop :=
  ∃ h' new_rows,
    st' = with_heap h' (with_block_table (block_table st ++ new_rows) st) ∧
    Forall2 (persists (heap st) id) done new_rows ∧
    length h' = length (heap st) ∧
    ∀ r b, heap st !! r = Some b →
      ∃ b', h' !! r = Some b' ∧ Block_attrs b' = Block_attrs b ∧
            Block_links b' = Block_links b ∧
            (r ∉ done → Block_db_obj b' = Block_db_obj b).

(** Referential integrity: every block record that names a chunk names one
    that exists. *)
Definition fk_ok (st : State) : Prop :=
  ∀ brow id, brow ∈ block_table st → row_chunk_id brow = Some id →
             (id < length (chunk_table st))%nat.

Section GenerationVocabulary.

Variable config : Config.

Local Abbreviation R := (grid_rows config).
Local Abbreviation C := (grid_cols config).

(** Every chunk record has a full grid of block records. *)
Definition full_grids (st : State) : Prop :=
  ∀ id, (id < length (chunk_table st))%nat →
        length (chunk_rows st id) = (R * C)%nat.

(** The database agrees with the configuration: every chunk record has a
    full grid of block records, and every block record that names a chunk
    names one that exists. *)
Definition db_ok (st : State) : Prop := full_grids st ∧ fk_ok st.

(** The grid can be generated: the block dimensions are not zero, and a
    grid of more than one row does not have exactly one column. *)
Definition config_ok : Prop :=
  config_divides config ∧ (R ≤ 1 ∨ C ≠ 1)%nat.

(** What [build_blocks] leaves behind for chunk [c], started in [st]: a full
    grid of freshly allocated blocks, each at its grid position and none
    with a record; the chunk's own record; no block record. *)
Definition generated (st : State) (x y : Z) (c : Chunk) (st' : State) : Prop :=
  ∃ grid first,
    c = Chunk_with_blocks (concat grid)
          (Chunk_with_db_obj (Some (length (chunk_table st)))
             (Chunk_with_grid grid (fresh_chunk config x y None))) ∧
    grid_shape R C grid ∧
    concat grid = seq first (R * C) ∧
    (length (heap st) ≤ first)%nat ∧
    length (heap st') = (first + R * C)%nat ∧
    cells_ok (heap st') grid ∧
    grown (heap st) (heap st') ∧
    chunk_table st'
    = chunk_table st ++ [row_of_chunk (fresh_chunk config x y None)] ∧
    block_table st' = block_table st ∧
    chunk_cache st' = chunk_cache st ∧
    trace st' = trace st ++ [EvChunkLoad (x - 1) y false;
                             EvChunkLoad x (y - 1) false].

End GenerationVocabulary.

Section CreationVocabulary.

Variable config : Config.

Local Abbreviation R := (grid_rows config).
Local Abbreviation C := (grid_cols config).

(** What [Chunk.load(x, y, create=True)] returns and leaves behind when the
    coordinate had no record. *)
Definition created (st : State) (x y : Z) (c : Chunk) (st' : State) : Prop :=
  ∃ first new_rows,
    Chunk_x c = x ∧ Chunk_y c = y ∧
    Chunk_name c = "Chunk" +:+ str_pair (x, y) ∧
    Chunk_db_obj c = Some (length (chunk_table st)) ∧
    Chunk_n_rows c = N.of_nat R ∧ Chunk_n_cols c = N.of_nat C ∧
    Chunk_blocks c = concat (Chunk_grid c) ∧
    grid_shape R C (Chunk_grid c) ∧
    concat (Chunk_grid c) = seq first (R * C) ∧
    (length (heap st) ≤ first)%nat ∧
    length (heap st') = (first + R * C)%nat ∧
    (∀ i j row ref, Chunk_grid c !! i = Some row → row !! j = Some ref →
       ∃ b, heap st' !! ref = Some b ∧
            Block_x b = Z.of_nat j ∧ Block_y b = Z.of_nat i) ∧
    grown (heap st) (heap st') ∧
    chunk_table st'
    = chunk_table st ++ [{| row_x := x; row_y := y;
                            row_name := "Chunk" +:+ str_pair (x, y) |}] ∧
    block_table st' = block_table st ++ new_rows ∧
    Forall2 (persists (heap st') (length (chunk_table st)))
            (concat (Chunk_grid c)) new_rows ∧
    chunk_cache st' = chunk_cache st ∧
    trace st' = trace st ++ [EvChunkLoad x y true;
                             EvChunkLoad (x - 1) y false;
                             EvChunkLoad x (y - 1) false].

End CreationVocabulary.

(** What a chunk's block grid holds, cell by cell: the position, size,
    colour and collidable flag of the block there. *)
Definition grid_contents (st : State) (c : Chunk) : list (list (option BlockAttrs)) :=
  map (map (fun r => Block_attrs <$> heap st !! r)) (Chunk_grid c).

(** The sort key of [load_blocks] on the attributes of a block. *)
Definition attrs_key (a : option BlockAttrs) : Z * Z :=
  match a with
  | Some a => (attr_y a, attr_x a)
  | None => (0, 0)
  end.

(** The contents of the grid that hydration makes of block records. *)
Definition contents_of_rows (R C : nat) (rows : list (nat * BlockRow))
  : list (list (option BlockAttrs)) :=
  reshape_rows R C
    (sorted attrs_key (map (fun rec => Some (row_attrs rec.2)) rows)).

(** A window of 5 x 5 pixels and blocks of 2 x 2 pixels: a 2 x 2 grid, the
    window not being a multiple of the block. *)
Definition example_config : Config :=
  {| config_window_width := 5; config_window_height := 5;
     config_block_width := 2; config_block_height := 2 |}.

Definition example_color : RGB := (255, 255, 255)%N.

(** A window without pixels: 0 x 5, with blocks of 2 x 2 pixels. *)
Definition example_config_no_pixels : Config :=
  {| config_window_width := 0; config_window_height := 5;
     config_block_width := 2; config_block_height := 2 |}.

(** [Chunk.load] under the example configuration. *)
Definition example_load (x y : Z) (create : bool) : M (option Chunk) :=
  Chunk_load example_config example_color true recursion_limit x y create.

(** [world.load_chunk] under the example configuration. *)
Definition example_world_load_chunk (x y : Z) (create : bool) : M (option Chunk) :=
  world_load_chunk example_config example_color true x y create.

(** The chunk object [Chunk(0, 0)] under the example configuration. *)
Definition example_chunk : Chunk := fresh_chunk example_config 0 0 None.

(** The state after chunk (0, 0) has been created from nothing. *)
Definition example_persisted : State :=
  state_of (example_load 0 0 true initial_state).

(** The calls of [world.load_chunk] in a trace. *)
Definition world_load_calls (t : list Event) : list (Z * Z * bool) :=
  omap (fun ev => match ev with
                  | EvWorldLoadChunk x y create => Some (x, y, create)
                  | _ => None
                  end) t.

(** The objects whose [update()] was called, in call order. *)
Definition updated {Obj} (calls : list (Call Obj)) : list Obj :=
  omap (fun c => match c with CallUpdate o => Some o | _ => None end) calls.

(** The wall that [set_walls] makes of a block (lines 106-110). *)
Definition wall_of (b : Block) : GameObject :=
  Wall (Block_x b) (Block_y b) (Block_width b) (Block_height b) (Block_color b).

(** The walls of the collidable blocks among [blocks], in order. *)
Definition walls_of (h : list Block) (blocks : list ref) : list GameObject :=
  wall_of <$> filter (fun b => Block_collidable b = true)
                     (omap (fun r => h !! r) blocks).

(** A mob as [add_mobs] makes it: 50 x 50, somewhere in the window, the
    edges included. *)
Definition mob_in_window (config : Config) (m : GameObject) : Prop :=
  ∃ x y, m = Mob x y 50 50 ∧
         0 ≤ x ≤ Z.of_N (config_window_width config) ∧
         0 ≤ y ≤ Z.of_N (config_window_height config).

(** All of a chunk but its walls and objects. *)
Definition same_but_walls (c c' : Chunk) : Prop :=
  same_chunk c c' ∧ Chunk_players c' = Chunk_players c ∧
  Chunk_mobs c' = Chunk_mobs c ∧
  Chunk_width c' = Chunk_width c ∧ Chunk_height c' = Chunk_height c.

(** All of a chunk but its mobs. *)
Definition same_but_mobs (c c' : Chunk) : Prop :=
  same_chunk c c' ∧ Chunk_players c' = Chunk_players c ∧
  Chunk_walls c' = Chunk_walls c ∧ Chunk_objects c' = Chunk_objects c ∧
  Chunk_width c' = Chunk_width c ∧ Chunk_height c' = Chunk_height c.

(** A chunk as [Chunk.load] has it before activation: at ([x], [y]), with no
    game object yet. *)
Definition obtained (x y : Z) (c : Chunk) : Prop :=
  Chunk_x c = x ∧ Chunk_y c = y ∧
  Chunk_players c = [] ∧ Chunk_mobs c = [] ∧ Chunk_objects c = [].

(** [quiet st st']: from [st] to [st'] no record has been written and no
    block object has gone. *)
Definition quiet (st st' : State) : Prop :=
  chunk_table st' = chunk_table st ∧ block_table st' = block_table st ∧
  (length (heap st) ≤ length (heap st'))%nat.

(** [quietly m]: [m] is quiet from every state, whether it returns or
    raises. *)
Definition quietly {A} (m : M A) : Prop := ∀ st, quiet st (state_of (m st)).

(** [wpx m st Q E]: run from [st], [m] returns with [Q] or raises in a state
    with [E]. *)
Definition wpx {A} (m : M A) (st : State) (Q : A → State → Prop)
    (E : State → Prop) : Prop :=
  match m st with
  | Ok a st' => Q a st'
  | Raise _ st' => E st'
  end.

(** The state after [Chunk(0, 0).build_blocks()] alone, from nothing: the
    chunk has its record and its blocks have none. *)
Definition example_unsaved : State :=
  state_of (Chunk_build_blocks example_config example_color true example_load
              example_chunk initial_state).

(** [raises_only P m]: whatever [m] raises, from whatever state, has [P]. *)
Definition raises_only {A} (P : exception → Prop) (m : M A) : Prop :=
  ∀ st e st', m st = Raise e st' → P e.

(** The exceptions of arithmetic, indexing and reshaping, and of a reference
    to no object. *)
Definition data_error (e : exception) : Prop :=
  e = ZeroDivisionError ∨ e = ValueError ∨ e = IndexError ∨ e = TypeError.

(** [raising m st e]: run from [st], [m] raises [e]. *)
Definition raising {A} (m : M A) (st : State) (e : exception) : Prop :=
  ∃ st', m st = Raise e st'.

(** The coordinates of the chunk records. *)
Definition chunk_coords (t : list ChunkRow) : list (Z * Z) :=
  (fun r => (row_x r, row_y r)) <$> t.

(** No coordinate has two chunk records. *)
Definition unique_coords (st : State) : Prop := NoDup (chunk_coords (chunk_table st)).

(** [untouched n st st']: the [n] oldest objects of the heap are in [st']
    what they are in [st]. *)
Definition untouched (n : nat) (st st' : State) : Prop :=
  take n (heap st') = take n (heap st).

(** [links_new n b]: the links of [b] lead to objects that are not among
    the [n] oldest. *)
Definition links_new (n : nat) (b : Block) : Prop :=
  ∀ d t, Block_link d b = Some t → (n ≤ t)%nat.

(** [closed n st]: the objects that are not among the [n] oldest link among
    themselves only. *)
Definition closed (n : nat) (st : State) : Prop :=
  Forall (links_new n) (drop n (heap st)).

(** [apart n st st']: from [st] to [st'] the [n] oldest objects are
    untouched and the others link among themselves. *)
Definition apart (n : nat) (st st' : State) : Prop :=
  untouched n st st' ∧ closed n st'.

(** [spares n m Q]: started with [n] objects or more on the heap, the others
    linking among themselves, [m] leaves the [n] oldest untouched and the
    others linking among themselves, whether it returns (then a value with
    [Q]) or raises. *)
Definition spares {A} (n : nat) (m : M A) (Q : A → Prop) : Prop :=
  ∀ st, (n ≤ length (heap st))%nat → closed n st →
    match m st with
    | Ok a st' => apart n st st' ∧ Q a
    | Raise _ st' => apart n st st'
    end.

(** Objects that are not among the [n] oldest. *)
Definition new_refs (n : nat) (l : list ref) : Prop :=
  Forall (fun r => (n ≤ r)%nat) l.

Definition new_grid (n : nat) (g : list (list ref)) : Prop :=
  Forall (new_refs n) g.

Definition new_chunk (n : nat) (c : Chunk) : Prop :=
  new_refs n (Chunk_blocks c) ∧ new_grid n (Chunk_grid c).

Definition new_neighbour (n : nat) (c : option Chunk) : Prop :=
  match c with Some c => new_chunk n c | None => True end.

(** The sort keys [(y, x)] of the positions of an [R] x [C] grid, row by
    row. *)
Definition grid_positions (R C : nat) : list (Z * Z) :=
  i ← seq 0 R; (fun j => (Z.of_nat i, Z.of_nat j)) <$> seq 0 C.

(** The sort keys of block records. *)
Definition record_keys (rows : list (nat * BlockRow)) : list (Z * Z) :=
  (fun rec => (attr_y (row_attrs rec.2), attr_x (row_attrs rec.2))) <$> rows.

(** [key_before k1 k2]: [sorted] leaves [k1] before [k2]. *)
Definition key_before (k1 k2 : Z * Z) : Prop := key_le k1 k2 = true.

(** The database of [example_persisted] with the block records in reverse
    order, and no object loaded. *)
Definition example_shuffled : State :=
  with_heap []
    (with_block_table (reverse (block_table example_persisted)) example_persisted).

(** [files_grow st st']: from [st] to [st'] files have been written, each of
    them once and none that was there; no file has gone. *)
Definition files_grow (st st' : State) : Prop :=
  ∃ new, files st' = files st ++ new ∧ NoDup new ∧ ∀ f, f ∈ new → f ∉ files st.

(** [keeps_files m]: whether it returns or raises, [m] writes missing files
    only. *)
Definition keeps_files {A} (m : M A) : Prop :=
  ∀ st, files_grow st (state_of (m st)).

(** [lacks c s]: the character [c] does not occur in [s]. *)
Fixpoint lacks (c : Ascii.ascii) (s : string) : Prop :=
  match s with
  | EmptyString => True
  | String c' s' => c' ≠ c ∧ lacks c s'
  end.

(** The characters that separate the parts of [str((x, y))]. *)
Definition separator (c : Ascii.ascii) : Prop :=
  c = ","%char ∨ c = ")"%char.

(** * Properties *)

(** ** Reasoning about runs: weakest preconditions for returning runs *)

Lemma wp_elim {A} (m : M A) st Q :
  wp m st Q → ∃ a st', m st = Ok a st' ∧ Q a st'.
Proof. unfold wp. destruct (m st); [eauto|done]. Qed.

Lemma wp_intro {A} (m : M A) st (Q : A → State → Prop) a st' :
  m st = Ok a st' → Q a st' → wp m st Q.
Proof. unfold wp. by intros ->. Qed.

Lemma wp_mono {A} (m : M A) st (Q Q' : A → State → Prop) :
  wp m st Q → (∀ a st', Q a st' → Q' a st') → wp m st Q'.
Proof. unfold wp. destruct (m st); [eauto|done]. Qed.

Lemma wp_ret {A} (a : A) st (Q : A → State → Prop) : Q a st → wp (ret a) st Q.
Proof. done. Qed.

Lemma wp_bind {A B} (m : M A) (k : A → M B) st (Q : B → State → Prop) :
  wp m st (fun a st' => wp (k a) st' Q) → wp (bind m k) st Q.
Proof. unfold wp, bind. by destruct (m st). Qed.

Lemma wp_gets {A} (f : State → A) st (Q : A → State → Prop) :
  Q (f st) st → wp (gets f) st Q.
Proof. done. Qed.

Lemma wp_modify (f : State → State) st (Q : unit → State → Prop) :
  Q tt (f st) → wp (modify f) st Q.
Proof. done. Qed.

Lemma wp_or_raise {A} e (o : option A) a st (Q : A → State → Prop) :
  o = Some a → Q a st → wp (or_raise e o) st Q.
Proof. by intros ->. Qed.

Lemma wp_log ev st (Q : unit → State → Prop) :
  Q tt (with_trace (trace st ++ [ev]) st) → wp (log ev) st Q.
Proof. done. Qed.

(** The loop rule: [Inv done acc st] after the elements [done] have been
    processed. *)
Lemma wp_for_each {A B} (body : B → A → M B) (Inv : list A → B → State → Prop)
    (l : list A) (acc : B) st :
  Inv [] acc st →
  (∀ done x rest acc st,
     l = done ++ x :: rest → Inv done acc st →
     wp (body acc x) st (fun acc' st' => Inv (done ++ [x]) acc' st')) →
  wp (for_each body l acc) st (fun acc' st' => Inv l acc' st').
Proof.
  intros H0 Hstep.
  assert (∀ rest done acc st, l = done ++ rest → Inv done acc st →
            wp (for_each body rest acc) st (fun acc' st' => Inv l acc' st')) as Hgen.
  { induction rest as [|x rest IH]; intros done acc' st' Hl HI; simpl.
    - apply wp_ret. rewrite app_nil_r in Hl. by subst.
    - apply wp_bind. eapply wp_mono; [by eapply Hstep|].
      intros acc'' st'' HI'. simpl in HI'. eapply IH; [|done].
      by rewrite <- app_assoc. }
  by apply (Hgen l []).
Qed.

(** ** Runs that may raise *)

Lemma wp_wpg {A} allow (m : M A) st Q : wp m st Q → wpg allow m st Q.
Proof. unfold wp, wpg. by destruct (m st). Qed.

Lemma wpg_wp {A} (m : M A) st Q : wpg False m st Q → wp m st Q.
Proof. done. Qed.

Lemma wpg_mono {A} allow (m : M A) st (Q Q' : A → State → Prop) :
  wpg allow m st Q → (∀ a st', Q a st' → Q' a st') → wpg allow m st Q'.
Proof. unfold wpg. destruct (m st); eauto. Qed.

Lemma wpg_bind {A B} allow (m : M A) (k : A → M B) st (Q : B → State → Prop) :
  wpg allow m st (fun a st' => wpg allow (k a) st' Q) → wpg allow (bind m k) st Q.
Proof. unfold wpg, bind. by destruct (m st). Qed.

Lemma wpg_any {A} (m : M A) st : wpg True m st (fun _ _ => True).
Proof. unfold wpg. by destruct (m st). Qed.

(** Whatever [m] does, if the rest raises from wherever [m] returns, the
    whole raises. *)
Lemma wpg_skip {A B} (m : M A) (k : A → M B) st (Q : B → State → Prop) :
  (∀ a st', wpg True (k a) st' Q) → wpg True (bind m k) st Q.
Proof. intros H. apply wpg_bind. eapply wpg_mono; [apply wpg_any|]. eauto. Qed.

Lemma wpg_returns {A} (m : M A) st (Q : A → State → Prop) a st' :
  wpg True m st Q → m st = Ok a st' → Q a st'.
Proof. unfold wpg. intros H E. by rewrite E in H. Qed.

Lemma wpg_raises {A} allow (m : M A) st (Q : A → State → Prop) e st' :
  m st = Raise e st' → allow → wpg allow m st Q.
Proof. unfold wpg. intros E H. by rewrite E. Qed.

(** A run that cannot return raises. *)
Lemma wpg_must_raise {A} (allow : Prop) (m : M A) st (Q : A → State → Prop) :
  allow → wpg True m st (fun _ _ => False) → wpg allow m st Q.
Proof. unfold wpg. intros Ha. by destruct (m st). Qed.

(** ** Python indexing *)

Lemma py_getitem_nonneg {A} (l : list A) (i : nat) x :
  l !! i = Some x → py_getitem l (Z.of_nat i) = Some x.
Proof.
  intros H. pose proof (lookup_lt_Some _ _ _ H) as Hlt.
  unfold py_getitem.
  rewrite (proj2 (Z.leb_le 0 (Z.of_nat i))) by lia.
  rewrite (proj2 (Z.ltb_lt (Z.of_nat i) (Z.of_nat (length l)))) by lia.
  simpl. by rewrite Nat2Z.id.
Qed.

Lemma py_getitem_last {A} (l : list A) x :
  l !! (length l - 1)%nat = Some x → py_getitem l (-1) = Some x.
Proof.
  intros H. pose proof (lookup_lt_Some _ _ _ H) as Hlt.
  unfold py_getitem. simpl.
  rewrite (proj2 (Z.leb_le (- Z.of_nat (length l)) (-1))) by lia. simpl.
  replace (Z.to_nat (Z.of_nat (length l) + -1)) with (length l - 1)%nat by lia.
  done.
Qed.

Lemma py_getitem_Some {A} (l : list A) (i : Z) x :
  py_getitem l i = Some x →
  ∃ k : nat, l !! k = Some x ∧
    (i = Z.of_nat k ∨ (i < 0 ∧ i = Z.of_nat k - Z.of_nat (length l))).
Proof.
  unfold py_getitem. intros H.
  destruct ((0 <=? i) && (i <? Z.of_nat (length l))) eqn:E1.
  - apply andb_true_iff in E1 as [?%Z.leb_le ?%Z.ltb_lt].
    exists (Z.to_nat i). split; [done|]. left. lia.
  - destruct ((- Z.of_nat (length l) <=? i) && (i <? 0)) eqn:E2; [|done].
    apply andb_true_iff in E2 as [?%Z.leb_le ?%Z.ltb_lt].
    exists (Z.to_nat (Z.of_nat (length l) + i)). split; [done|]. right. lia.
Qed.

(** ** Heap primitives *)

Lemma wp_deref r b st (Q : Block → State → Prop) :
  heap st !! r = Some b → Q b st → wp (deref r) st Q.
Proof.
  intros H HQ. unfold deref. apply wp_bind, wp_gets.
  by eapply wp_or_raise.
Qed.

Lemma wp_store r b st (Q : unit → State → Prop) :
  Q tt (with_heap (<[r := b]> (heap st)) st) → wp (store r b) st Q.
Proof. done. Qed.

Lemma wp_alloc b st (Q : ref → State → Prop) :
  Q (length (heap st)) (with_heap (heap st ++ [b]) st) → wp (alloc b) st Q.
Proof.
  intros HQ. unfold alloc. apply wp_bind, wp_gets, wp_bind, wp_modify.
  by apply wp_ret.
Qed.

Lemma wp_Block_setattr r d t b st (Q : unit → State → Prop) :
  heap st !! r = Some b →
  Q tt (with_heap (<[r := Block_with_links (set_link d (Some t) (Block_links b)) b]>
                     (heap st)) st) →
  wp (Block_setattr r d t) st Q.
Proof.
  intros H HQ. unfold Block_setattr. apply wp_bind.
  eapply wp_deref; [done|]. by apply wp_store.
Qed.

Lemma wp_grid_at grid i j row t st (Q : ref → State → Prop) :
  py_getitem grid i = Some row → py_getitem row j = Some t →
  Q t st → wp (grid_at grid i j) st Q.
Proof.
  intros Hi Hj HQ. unfold grid_at. apply wp_bind.
  eapply wp_or_raise; [done|]. by eapply wp_or_raise.
Qed.

Lemma get_set_link_eq d v l : get_link d (set_link d v l) = v.
Proof. by destruct d. Qed.

Lemma get_set_link_ne d d' v l : d ≠ d' → get_link d' (set_link d v l) = get_link d' l.
Proof. by destruct d, d'. Qed.

Lemma relinked_refl dirs targets h : relinked dirs targets h h.
Proof. split; [done|]. intros r b Hr. exists b. naive_solver. Qed.

Lemma relinked_trans dirs targets h1 h2 h3 :
  relinked dirs targets h1 h2 → relinked dirs targets h2 h3 →
  relinked dirs targets h1 h3.
Proof.
  intros [L12 H12] [L23 H23]. split; [congruence|].
  intros r b Hr.
  destruct (H12 r b Hr) as (b2 & Hr2 & Ha2 & Hd2 & Hl2).
  destruct (H23 r b2 Hr2) as (b3 & Hr3 & Ha3 & Hd3 & Hl3).
  exists b3. split_and!; [done|congruence|congruence|].
  intros d. destruct (Hl3 d) as [E3|?]; [|by right].
  rewrite E3. apply Hl2.
Qed.

Lemma relinked_setattr dirs targets h r b d t :
  h !! r = Some b → d ∈ dirs → t ∈ targets →
  relinked dirs targets h
    (<[r := Block_with_links (set_link d (Some t) (Block_links b)) b]> h).
Proof.
  intros Hr Hd Ht. split; [by rewrite length_insert|].
  intros r' b' Hr'. destruct (decide (r' = r)) as [->|Hne].
  - rewrite Hr in Hr'. injection Hr' as <-.
    eexists. split; [apply list_lookup_insert_eq; by eapply lookup_lt_Some|].
    split_and!; [done..|].
    intros d'. unfold Block_link; simpl. destruct (decide (d = d')) as [<-|Hdd].
    + right. split; [done|]. exists t. by rewrite get_set_link_eq.
    + left. by apply get_set_link_ne.
  - exists b'. rewrite list_lookup_insert_ne by done. naive_solver.
Qed.

(** [enumerate] pairs every element with its index. *)
Lemma enumerate_from_split {A} (l : list A) k done x rest :
  enumerate_from k l = done ++ x :: rest →
  x.1 = k + Z.of_nat (length done) ∧ l !! length done = Some x.2.
Proof.
  revert k done. induction l as [|y l IH]; intros k done H; simpl in H.
  - by destruct done.
  - destruct done as [|d done]; simpl in *.
    + injection H as <- _. simpl. split; [lia|done].
    + injection H as _ H. destruct (IH _ _ H) as [-> ?]. split; [lia|done].
Qed.

Lemma enumerate_split {A} (l : list A) done x rest :
  enumerate l = done ++ x :: rest →
  x.1 = Z.of_nat (length done) ∧ l !! length done = Some x.2.
Proof. intros H. by apply enumerate_from_split in H. Qed.

Lemma py_getitem_in_range {A} (l : list A) (i : Z) :
  - Z.of_nat (length l) ≤ i < Z.of_nat (length l) → is_Some (py_getitem l i).
Proof.
  intros Hi. unfold py_getitem.
  destruct (Z.leb_spec 0 i).
  - rewrite (proj2 (Z.ltb_lt _ _)) by lia. simpl.
    apply lookup_lt_is_Some. lia.
  - simpl. rewrite (proj2 (Z.leb_le _ _)), (proj2 (Z.ltb_lt _ _)) by lia. simpl.
    apply lookup_lt_is_Some. lia.
Qed.

Lemma py_getitem_elem {A} (l : list A) (i : Z) x :
  py_getitem l i = Some x → x ∈ l.
Proof.
  intros H. apply py_getitem_Some in H as (k & Hk & _).
  by eapply list_elem_of_lookup_2.
Qed.

(** ** Grids *)

Lemma elem_of_concat {A} (x : A) (l : list A) (ls : list (list A)) :
  l ∈ ls → x ∈ l → x ∈ concat ls.
Proof.
  rewrite !list_elem_of_In. intros Hl Hx. apply in_concat. eauto.
Qed.

Lemma grid_at_defined R C g (i j : Z) :
  grid_shape R C g →
  - Z.of_nat R ≤ i < Z.of_nat R → - Z.of_nat C ≤ j < Z.of_nat C →
  ∃ row t, py_getitem g i = Some row ∧ py_getitem row j = Some t ∧
           t ∈ concat g.
Proof.
  intros [HR HC] Hi Hj.
  destruct (py_getitem_in_range g i) as [row Hrow]; [lia|].
  pose proof (py_getitem_elem _ _ _ Hrow) as Hin.
  pose proof (proj1 (Forall_forall _ _) HC row Hin) as Hlen. simpl in Hlen.
  destruct (py_getitem_in_range row j) as [t Ht]; [lia|].
  exists row, t. split_and!; [done..|].
  eapply elem_of_concat; [done|]. by eapply py_getitem_elem.
Qed.

(** ** [link_blocks] *)

Lemma linking_refl dirs targets st : linking dirs targets st st.
Proof. exists (heap st). split; [by destruct st|]. apply relinked_refl. Qed.

Lemma wp_link_step {B} dirs st0 st R C g block d (i j : Z)
    (k : unit → M B) (Q : B → State → Prop) :
  grid_shape R C g →
  linking dirs (concat g) st0 st →
  (block < length (heap st0))%nat →
  d ∈ dirs →
  - Z.of_nat R ≤ i < Z.of_nat R → - Z.of_nat C ≤ j < Z.of_nat C →
  (∀ st', linking dirs (concat g) st0 st' → wp (k tt) st' Q) →
  wp (bind (grid_at g i j) (fun t => bind (Block_setattr block d t) k)) st Q.
Proof.
  intros Hg (h & -> & Hrel) Hb Hd Hi Hj Hk.
  destruct (grid_at_defined R C g i j Hg Hi Hj) as (row & t & Hrow & Ht & Hin).
  apply wp_bind. eapply wp_grid_at; [done..|].
  destruct Hrel as [Hlen Hrel'].
  destruct (lookup_lt_is_Some_2 h block) as [b Hbl]; [simpl; lia|].
  apply wp_bind. eapply wp_Block_setattr; [done|]. simpl.
  apply Hk. eexists. split; [reflexivity|].
  eapply relinked_trans; [split; done|].
  by apply relinked_setattr.
Qed.

Lemma wp_link_last dirs st0 st R C g block d (i j : Z) :
  grid_shape R C g →
  linking dirs (concat g) st0 st →
  (block < length (heap st0))%nat →
  d ∈ dirs →
  - Z.of_nat R ≤ i < Z.of_nat R → - Z.of_nat C ≤ j < Z.of_nat C →
  wp (bind (grid_at g i j) (fun t => Block_setattr block d t)) st
     (fun _ st' => linking dirs (concat g) st0 st').
Proof.
  intros Hg (h & -> & Hrel) Hb Hd Hi Hj.
  destruct (grid_at_defined R C g i j Hg Hi Hj) as (row & t & Hrow & Ht & Hin).
  apply wp_bind. eapply wp_grid_at; [done..|].
  destruct Hrel as [Hlen Hrel'].
  destruct (lookup_lt_is_Some_2 h block) as [b Hbl]; [simpl; lia|].
  eapply wp_Block_setattr; [done|]. simpl.
  eexists. split; [reflexivity|].
  eapply relinked_trans; [split; done|].
  by apply relinked_setattr.
Qed.

Lemma wp_Chunk_link_blocks self st R C :
  grid_shape R C (Chunk_grid self) →
  Chunk_n_cols self = N.of_nat C →
  grid_valid (heap st) (Chunk_grid self) →
  wp (Chunk_link_blocks self) st
     (fun _ st' => linking link_dirs (concat (Chunk_grid self)) st st').
Proof.
  intros Hg HC Hv. unfold Chunk_link_blocks.
  set (g := Chunk_grid self) in *.
  eapply wp_mono.
  { apply (wp_for_each _ (fun _ _ st' => linking link_dirs (concat g) st st')).
    { apply linking_refl. }
    intros done [r_i row] rest [] st1 Hsplit Hlink. simpl.
    apply enumerate_split in Hsplit as [Hri Hrow]; simpl in *.
    set (i := length done) in *.
    assert (length row = C) as Hlen.
    { destruct Hg as [_ HF]. rewrite Forall_forall in HF. apply HF.
      by eapply list_elem_of_lookup_2. }
    assert (Forall (fun r => (r < length (heap st))%nat) row) as Hvrow.
    { unfold grid_valid in Hv. rewrite Forall_forall in Hv. apply Hv.
      by eapply list_elem_of_lookup_2. }
    assert (i < R)%nat as HiR.
    { destruct Hg as [<- _]. by eapply lookup_lt_Some. }
    eapply wp_mono.
    { apply (wp_for_each _ (fun _ _ st' => linking link_dirs (concat g) st st')).
      { done. }
      intros done' [b_i block] rest' [] st2 Hsplit' Hlink'. simpl.
      apply enumerate_split in Hsplit' as [Hbi Hblock]; simpl in *.
      set (j := length done') in *.
      assert (j < C)%nat as HjC by (rewrite <- Hlen; by eapply lookup_lt_Some).
      assert (block < length (heap st))%nat as Hbv.
      { rewrite Forall_forall in Hvrow. apply Hvrow.
        by eapply list_elem_of_lookup_2. }
      subst r_i b_i. rewrite HC.
      apply wp_bind.
      assert (∀ st3, linking link_dirs (concat g) st st3 →
                wp (if negb (Z.of_nat j =? 0)
                    then bind (grid_at g (Z.of_nat i) (Z.of_nat j - 1))
                              (fun t => Block_setattr block Dw t)
                    else ret tt) st3
                   (fun _ st' => linking link_dirs (concat g) st st')) as Hwest.
      { intros st3 Hl3. destruct (Z.eqb_spec (Z.of_nat j) 0); simpl.
        - by apply wp_ret.
        - eapply wp_link_last; try done; [set_solver|lia|lia]. }
      destruct (Z.eqb_spec (Z.of_nat i) 0); simpl.
      { apply wp_ret. by apply Hwest. }
      eapply wp_link_step; try done; [set_solver|lia|lia|].
      intros st3 Hl3.
      eapply wp_link_step; try done; [set_solver|lia|lia|].
      intros st4 Hl4.
      destruct (Z.eqb_spec (Z.of_nat j + 1) (Z.of_N (N.of_nat C))); simpl.
      { apply wp_ret. by apply Hwest. }
      eapply wp_mono.
      { eapply wp_link_last; try done; [set_solver|lia|lia]. }
      intros [] st5 Hl5. by apply Hwest. }
    done. }
  done.
Qed.

(** ** The links that [link_blocks] assigns *)

Lemma cell_at_Some g i j a :
  cell_at g i j = Some a ↔ ∃ row, g !! i = Some row ∧ row !! j = Some a.
Proof.
  unfold cell_at. destruct (g !! i) as [row|]; simpl.
  - split; [eauto|]. by intros (? & [= <-] & ?).
  - split; [done|]. by intros (? & ? & ?).
Qed.

Lemma cell_at_shape R C g i j a :
  grid_shape R C g → cell_at g i j = Some a → (i < R ∧ j < C)%nat.
Proof.
  intros [HR HC] (row & Hi & Hj)%cell_at_Some.
  rewrite Forall_forall in HC.
  rewrite <- HR, <- (HC row) by (by eapply list_elem_of_lookup_2).
  split; by eapply lookup_lt_Some.
Qed.

Lemma cell_at_defined R C g i j :
  grid_shape R C g → (i < R)%nat → (j < C)%nat → is_Some (cell_at g i j).
Proof.
  intros [HR HC] Hi Hj.
  destruct (lookup_lt_is_Some_2 g i) as [row Hrow]; [lia|].
  rewrite Forall_forall in HC.
  destruct (lookup_lt_is_Some_2 row j) as [a Ha].
  { rewrite (HC row); [done|]. by eapply list_elem_of_lookup_2. }
  exists a. apply cell_at_Some. eauto.
Qed.

Lemma cell_at_concat C g i j a :
  Forall (fun row => length row = C) g →
  cell_at g i j = Some a → concat g !! (i * C + j)%nat = Some a.
Proof.
  intros HF. revert i. induction HF as [|row g Hrow _ IH]; intros i.
  - by intros (? & ? & ?)%cell_at_Some.
  - intros (row' & Hi & Hj)%cell_at_Some. simpl. destruct i as [|i]; simpl in *.
    + injection Hi as <-. by apply lookup_app_l_Some.
    + rewrite lookup_app_r by lia.
      replace (C + i * C + j - length row)%nat with (i * C + j)%nat by lia.
      apply IH. apply cell_at_Some. eauto.
Qed.

(** In a grid without repeated blocks a block is at one cell only. *)
Lemma cell_at_inj R C g i j i' j' a :
  grid_shape R C g → NoDup (concat g) →
  cell_at g i j = Some a → cell_at g i' j' = Some a → i = i' ∧ j = j'.
Proof.
  intros Hg Hnd H1 H2.
  destruct (cell_at_shape _ _ _ _ _ _ Hg H1) as [_ Hj].
  destruct (cell_at_shape _ _ _ _ _ _ Hg H2) as [_ Hj'].
  apply (cell_at_concat C) in H1; [|apply Hg].
  apply (cell_at_concat C) in H2; [|apply Hg].
  pose proof (NoDup_lookup _ _ _ _ Hnd H1 H2) as Heq.
  assert (i = i') by nia. subst. split; [done|lia].
Qed.

(** One more cell. *)
Lemma links_assigned_upto_step R C g i0 j0 a0 b0 b' h h1 :
  grid_shape R C g → NoDup (concat g) →
  cell_at g i0 j0 = Some a0 → h !! a0 = Some b0 →
  links_assigned_upto g C i0 j0 h h1 →
  cell_linked g C i0 j0 b0 b' →
  links_assigned_upto g C i0 (S j0) h (<[a0 := b']> h1).
Proof.
  intros Hg Hnd Hcell Hb0 [Hlen Hupto] Hlinked. split.
  { by rewrite length_insert. }
  intros i j a b Ha Hb.
  specialize (Hupto i j a b Ha Hb).
  destruct (decide (a = a0)) as [->|Hne].
  - destruct (cell_at_inj R C g i j i0 j0 a0 Hg Hnd Ha Hcell) as [-> ->].
    rewrite decide_True by lia.
    assert (b = b0) as -> by congruence.
    exists b'. split; [|done].
    apply list_lookup_insert_eq. rewrite Hlen. by eapply lookup_lt_Some.
  - rewrite list_lookup_insert_ne by done.
    assert (¬ (i = i0 ∧ j = j0)) as Hcellne.
    { intros [-> ->]. congruence. }
    destruct (decide (i < i0 ∨ i = i0 ∧ j < j0)%nat).
    + by rewrite decide_True by lia.
    + by rewrite decide_False by lia.
Qed.

(** A finished row. *)
Lemma links_assigned_upto_row R C g i0 h h1 :
  grid_shape R C g →
  links_assigned_upto g C i0 C h h1 → links_assigned_upto g C (S i0) 0 h h1.
Proof.
  intros Hg [Hlen Hupto]. split; [done|].
  intros i j a b Ha Hb. specialize (Hupto i j a b Ha Hb).
  destruct (cell_at_shape _ _ _ _ _ _ Hg Ha) as [_ Hj].
  destruct (decide (i < i0 ∨ i = i0 ∧ j < C)%nat).
  - by rewrite decide_True by lia.
  - by rewrite decide_False by lia.
Qed.

Lemma links_assigned_upto_all R C g h h1 :
  grid_shape R C g →
  links_assigned_upto g C R 0 h h1 → links_assigned g C h h1.
Proof.
  intros Hg [Hlen Hupto]. split; [done|].
  intros i j a b Ha Hb. specialize (Hupto i j a b Ha Hb).
  destruct (cell_at_shape _ _ _ _ _ _ Hg Ha) as [Hi _].
  by rewrite decide_True in Hupto by lia.
Qed.

Lemma links_assigned_upto_none g C h : links_assigned_upto g C 0 0 h h.
Proof.
  split; [done|]. intros i j a b _ Hb. by rewrite decide_False by lia.
Qed.

Lemma cell_at_elem g i j a : cell_at g i j = Some a → a ∈ concat g.
Proof.
  intros (row & Hi & Hj)%cell_at_Some.
  apply (elem_of_concat a row); by eapply list_elem_of_lookup_2.
Qed.

(** ** [link_blocks], cell by cell *)

Lemma grid_at_cell_nonneg g i j t :
  cell_at g i j = Some t →
  ∃ row, py_getitem g (Z.of_nat i) = Some row ∧
         py_getitem row (Z.of_nat j) = Some t.
Proof.
  intros (row & Hi & Hj)%cell_at_Some. exists row.
  split; by apply py_getitem_nonneg.
Qed.

Lemma grid_at_cell_last R C g i t :
  grid_shape R C g → cell_at g i (C - 1) = Some t →
  ∃ row, py_getitem g (Z.of_nat i) = Some row ∧ py_getitem row (-1) = Some t.
Proof.
  intros [_ HC] (row & Hi & Hj)%cell_at_Some. exists row.
  split; [by apply py_getitem_nonneg|].
  apply py_getitem_last. rewrite Forall_forall in HC.
  rewrite (HC row); [done|]. by eapply list_elem_of_lookup_2.
Qed.

Lemma wp_assign_step {B} h1 st1 a0 b g (i j : Z) row t d
    (k : unit → M B) (Q : B → State → Prop) :
  (a0 < length h1)%nat →
  py_getitem g i = Some row → py_getitem row j = Some t →
  wp (k tt)
     (with_heap (<[a0 := Block_with_links (set_link d (Some t) (Block_links b)) b]>
                   h1) st1) Q →
  wp (bind (grid_at g i j) (fun t => bind (Block_setattr a0 d t) k))
     (with_heap (<[a0 := b]> h1) st1) Q.
Proof.
  intros Ha Hi Hj Hk.
  apply wp_bind. eapply wp_grid_at; [done..|].
  apply wp_bind. eapply wp_Block_setattr.
  { simpl. by apply list_lookup_insert_eq. }
  simpl. rewrite list_insert_insert_eq. exact Hk.
Qed.

Lemma wp_assign_last h1 st1 a0 b g (i j : Z) row t d
    (Q : unit → State → Prop) :
  (a0 < length h1)%nat →
  py_getitem g i = Some row → py_getitem row j = Some t →
  Q tt (with_heap (<[a0 := Block_with_links (set_link d (Some t) (Block_links b)) b]>
                     h1) st1) →
  wp (bind (grid_at g i j) (fun t => Block_setattr a0 d t))
     (with_heap (<[a0 := b]> h1) st1) Q.
Proof.
  intros Ha Hi Hj Hk.
  apply wp_bind. eapply wp_grid_at; [done..|].
  eapply wp_Block_setattr.
  { simpl. by apply list_lookup_insert_eq. }
  simpl. rewrite list_insert_insert_eq. exact Hk.
Qed.

Section LinkCell.

(** The body of the loops of [link_blocks] (lines 121-127). *)
Local Abbreviation link_cell self r_i b_i block :=
  ((if negb (r_i =? 0) then
      t <- grid_at (Chunk_grid self) (r_i - 1) b_i ;;
      Block_setattr block Ds t ;;
      t <- grid_at (Chunk_grid self) (r_i - 1) (b_i - 1) ;;
      Block_setattr block Dsw t ;;
      if negb (b_i + 1 =? Z.of_N (Chunk_n_cols self)) then
        t <- grid_at (Chunk_grid self) (r_i - 1) (b_i + 1) ;;
        Block_setattr block Dse t
      else ret tt
    else ret tt) ;;
   if negb (b_i =? 0) then
     t <- grid_at (Chunk_grid self) r_i (b_i - 1) ;;
     Block_setattr block Dw t
   else ret tt)%M.

Lemma wp_link_cell self R C i0 j0 a0 b h1 st1 :
  grid_shape R C (Chunk_grid self) →
  Chunk_n_cols self = N.of_nat C →
  cell_at (Chunk_grid self) i0 j0 = Some a0 →
  (a0 < length h1)%nat →
  wp (link_cell self (Z.of_nat i0) (Z.of_nat j0) a0)
     (with_heap (<[a0 := b]> h1) st1)
     (fun _ st2 => ∃ b', st2 = with_heap (<[a0 := b']> h1) st1 ∧
                         cell_linked (Chunk_grid self) C i0 j0 b b').
Proof.
  intros Hg HC Hcell Ha. rewrite HC.
  set (g := Chunk_grid self) in *.
  destruct (cell_at_shape _ _ _ _ _ _ Hg Hcell) as [Hi0 Hj0].
  (* the west link *)
  assert (∀ b1, wp (if negb (Z.of_nat j0 =? 0)
                    then bind (grid_at g (Z.of_nat i0) (Z.of_nat j0 - 1))
                              (fun t => Block_setattr a0 Dw t)
                    else ret tt)
                   (with_heap (<[a0 := b1]> h1) st1)
                   (fun _ st2 => ∃ b', st2 = with_heap (<[a0 := b']> h1) st1 ∧
                      Block_attrs b' = Block_attrs b1 ∧
                      Block_db_obj b' = Block_db_obj b1 ∧
                      ∀ d, Block_link d b'
                           = if decide (d = Dw)
                             then match link_target g C i0 j0 Dw with
                                  | Some t => Some t
                                  | None => Block_link Dw b1
                                  end
                             else Block_link d b1)) as Hwest.
  { intros b1. destruct (Z.eqb_spec (Z.of_nat j0) 0) as [Hj|Hj]; simpl.
    - apply wp_ret. exists b1. split_and!; try done.
      intros d. unfold link_target.
      destruct (decide (j0 = 0)%nat); [|lia].
      by destruct (decide (d = Dw)) as [->|].
    - destruct (cell_at_defined R C g i0 (j0 - 1) Hg) as [t Ht]; [lia..|].
      destruct (grid_at_cell_nonneg _ _ _ _ Ht) as (row & Hrow & Hrt).
      replace (Z.of_nat j0 - 1) with (Z.of_nat (j0 - 1)) by lia.
      eapply wp_assign_last; [done..|].
      eexists. split; [reflexivity|]. split_and!; try done.
      intros d. unfold link_target.
      destruct (decide (j0 = 0)%nat); [lia|]. rewrite Ht.
      unfold Block_link. simpl. by destruct d. }
  apply wp_bind.
  destruct (Z.eqb_spec (Z.of_nat i0) 0) as [Hi|Hi]; simpl.
  { apply wp_ret. eapply wp_mono; [apply Hwest|].
    intros [] st2 (b' & -> & Hattrs & Hdb & Hlinks). exists b'.
    split; [done|]. split_and!; try done.
    intros d. rewrite Hlinks. unfold link_target.
    destruct d; simpl; rewrite ?decide_True by lia; done. }
  destruct (cell_at_defined R C g (i0 - 1) j0 Hg) as [ts Hts]; [lia..|].
  destruct (grid_at_cell_nonneg _ _ _ _ Hts) as (rows & Hrows & Hrts).
  replace (Z.of_nat i0 - 1) with (Z.of_nat (i0 - 1)) by lia.
  eapply wp_assign_step; [done..|].
  destruct (cell_at_defined R C g (i0 - 1)
              (if decide (j0 = 0)%nat then C - 1 else j0 - 1)%nat Hg)
    as [tw Htw]; [lia|case_decide; lia|].
  assert (∃ row, py_getitem g (Z.of_nat (i0 - 1)) = Some row ∧
                 py_getitem row (Z.of_nat j0 - 1) = Some tw)
    as (roww & Hroww & Hrtw).
  { destruct (decide (j0 = 0)%nat) as [->|Hj].
    - by eapply grid_at_cell_last.
    - replace (Z.of_nat j0 - 1) with (Z.of_nat (j0 - 1)) by lia.
      by apply grid_at_cell_nonneg. }
  destruct (Z.eqb_spec (Z.of_nat j0 + 1) (Z.of_N (N.of_nat C))) as [Hlast|Hlast];
    simpl.
  - eapply wp_assign_step; [done..|]. apply wp_ret.
    eapply wp_mono; [apply Hwest|].
    intros [] st2 (b' & -> & Hattrs & Hdb & Hlinks). exists b'.
    split; [done|]. split_and!; try done.
    intros d. rewrite Hlinks. unfold link_target, Block_link. simpl.
    destruct d; simpl; rewrite ?decide_False by lia; rewrite ?Hts, ?Htw; try done.
    rewrite decide_True by (right; lia). done.
  - eapply wp_assign_step; [done..|].
    destruct (cell_at_defined R C g (i0 - 1) (j0 + 1) Hg) as [te Hte]; [lia..|].
    destruct (grid_at_cell_nonneg _ _ _ _ Hte) as (rowe & Hrowe & Hrte).
    replace (Z.of_nat j0 + 1) with (Z.of_nat (j0 + 1)) by lia.
    eapply wp_assign_last; [done..|].
    eapply wp_mono; [apply Hwest|].
    intros [] st2 (b' & -> & Hattrs & Hdb & Hlinks). exists b'.
    split; [done|]. split_and!; try done.
    intros d. rewrite Hlinks. unfold link_target, Block_link. simpl.
    destruct d; simpl; rewrite ?decide_False by lia; rewrite ?Hts, ?Htw, ?Hte;
      done.
Qed.

Lemma length_enumerate_from {A} (l : list A) k :
  length (enumerate_from k l) = length l.
Proof. revert k. induction l as [|x l IH]; intros k; simpl; [done|]. by rewrite IH. Qed.

Lemma length_enumerate {A} (l : list A) : length (enumerate l) = length l.
Proof. apply length_enumerate_from. Qed.

Lemma with_heap_id st : with_heap (heap st) st = st.
Proof. by destruct st. Qed.

(** [link_blocks] assigns every cell its links, and nothing else. *)
Lemma wp_Chunk_link_blocks_cells self st R C :
  grid_shape R C (Chunk_grid self) →
  Chunk_n_cols self = N.of_nat C →
  grid_valid (heap st) (Chunk_grid self) →
  NoDup (concat (Chunk_grid self)) →
  wp (Chunk_link_blocks self) st
     (fun _ st' => ∃ h', st' = with_heap h' st ∧
                         links_assigned (Chunk_grid self) C (heap st) h').
Proof.
  intros Hg HC Hv Hnd. unfold Chunk_link_blocks.
  set (g := Chunk_grid self) in *.
  eapply wp_mono.
  { apply (wp_for_each _ (fun done _ st' =>
             ∃ h', st' = with_heap h' st ∧
                   links_assigned_upto g C (length done) 0 (heap st) h')).
    { exists (heap st). split; [by rewrite with_heap_id|].
      apply links_assigned_upto_none. }
    intros done [r_i row] rest [] st1 Hsplit (h1 & -> & Hupto). simpl.
    apply enumerate_split in Hsplit as [Hri Hrow]; simpl in *.
    set (i := length done) in *.
    assert (length row = C) as Hlen.
    { destruct Hg as [_ HF]. rewrite Forall_forall in HF. apply HF.
      by eapply list_elem_of_lookup_2. }
    eapply wp_mono.
    { apply (wp_for_each _ (fun done' _ st' =>
               ∃ h', st' = with_heap h' st ∧
                     links_assigned_upto g C i (length done') (heap st) h')).
      { by exists h1. }
      intros done' [b_i block] rest' [] st2 Hsplit' (h2 & -> & Hupto'). simpl.
      apply enumerate_split in Hsplit' as [Hbi Hblock]; simpl in *.
      set (j := length done') in *.
      assert (cell_at g i j = Some block) as Hcell.
      { apply cell_at_Some. eauto. }
      assert (block < length (heap st))%nat as Hbv.
      { unfold grid_valid in Hv. rewrite Forall_forall in Hv.
        specialize (Hv row (list_elem_of_lookup_2 _ _ _ Hrow)).
        rewrite Forall_forall in Hv. apply Hv.
        by eapply list_elem_of_lookup_2. }
      destruct (lookup_lt_is_Some_2 _ _ Hbv) as [b0 Hb0].
      pose proof Hupto' as [Hlen2 Hcells].
      specialize (Hcells i j block b0 Hcell Hb0).
      rewrite decide_False in Hcells by lia.
      rewrite <- (list_insert_id h2 block b0 Hcells) at 1.
      subst r_i b_i.
      eapply wp_mono.
      { eapply (wp_link_cell self R C i j block b0 h2 st); try done. lia. }
      intros [] st3 (b' & -> & Hlinked). simpl.
      eexists. split; [reflexivity|].
      rewrite length_app, Nat.add_1_r.
      by eapply links_assigned_upto_step. }
    intros [] st2 (h2 & -> & Hupto2). exists h2. split; [done|].
    rewrite length_enumerate, Hlen in Hupto2.
    rewrite length_app, Nat.add_1_r.
    by eapply links_assigned_upto_row. }
  intros [] st' (h' & -> & Hupto). exists h'. split; [done|].
  rewrite length_enumerate in Hupto. destruct Hg as [HR HF].
  rewrite HR in Hupto. by eapply links_assigned_upto_all.
Qed.

End LinkCell.

(** ** Sorting *)

Lemma insert_by_key_perm {A} (key : A → Z * Z) x (l : list A) :
  insert_by_key key x l ≡ₚ x :: l.
Proof.
  induction l as [|y l IH]; simpl; [done|].
  destruct (key_le (key y) (key x)); [|done].
  rewrite IH. apply perm_swap.
Qed.

Lemma sorted_perm {A} (key : A → Z * Z) (l : list A) : sorted key l ≡ₚ l.
Proof.
  unfold sorted.
  assert (∀ acc, foldl (fun acc x => insert_by_key key x acc) acc l ≡ₚ acc ++ l) as H.
  { induction l as [|x l IH]; intros acc; simpl.
    - by rewrite app_nil_r.
    - rewrite IH, insert_by_key_perm. simpl. apply Permutation_middle. }
  apply (H []).
Qed.

Lemma sorted_length {A} (key : A → Z * Z) (l : list A) :
  length (sorted key l) = length l.
Proof. by rewrite sorted_perm. Qed.

Lemma insert_by_key_fmap {A B} (g : A → B) (key : B → Z * Z) x (l : list A) :
  g <$> insert_by_key (key ∘ g) x l = insert_by_key key (g x) (g <$> l).
Proof.
  induction l as [|y l IH]; simpl; [done|].
  destruct (key_le (key (g y)) (key (g x))); simpl; [|done].
  f_equal. apply IH.
Qed.

Lemma sorted_fmap {A B} (g : A → B) (key : B → Z * Z) (l : list A) :
  g <$> sorted (key ∘ g) l = sorted key (g <$> l).
Proof.
  unfold sorted.
  assert (∀ acc,
    g <$> foldl (fun acc x => insert_by_key (key ∘ g) x acc) acc l
    = foldl (fun acc x => insert_by_key key x acc) (g <$> acc) (g <$> l)) as H.
  { induction l as [|x l IH]; intros acc; simpl; [done|].
    rewrite IH. f_equal. apply insert_by_key_fmap. }
  apply (H []).
Qed.

Lemma sorted_ext {A} (key key' : A → Z * Z) (l : list A) :
  (∀ x, x ∈ l → key x = key' x) → sorted key l = sorted key' l.
Proof.
  unfold sorted. intros H.
  assert (∀ acc, (∀ x, x ∈ acc → key x = key' x) →
    foldl (fun acc x => insert_by_key key x acc) acc l
    = foldl (fun acc x => insert_by_key key' x acc) acc l) as Hgen.
  { induction l as [|x l IH]; intros acc Hacc; simpl; [done|].
    assert (insert_by_key key x acc = insert_by_key key' x acc) as ->.
    { clear IH. induction acc as [|y acc IHacc]; simpl; [done|].
      rewrite (Hacc y) by set_solver. rewrite (H x) by set_solver.
      rewrite IHacc; [done|]. intros z Hz. apply Hacc. set_solver. }
    apply IH; [intros z Hz; apply H; set_solver|].
    intros z Hz. rewrite insert_by_key_perm in Hz.
    apply elem_of_cons in Hz as [->|Hz]; [apply H; set_solver|by apply Hacc]. }
  apply Hgen. intros x Hx. by apply elem_of_nil in Hx.
Qed.

(** Inserting an element whose key is not below any key already there
    appends it. *)
Lemma insert_by_key_last {A} (key : A → Z * Z) x (l : list A) :
  Forall (fun y => key_le (key y) (key x) = true) l →
  insert_by_key key x l = l ++ [x].
Proof.
  induction 1 as [|y l Hy _ IH]; simpl; [done|]. by rewrite Hy, IH.
Qed.

Lemma sorted_key_ordered {A} (key : A → Z * Z) (l : list A) :
  key_ordered key l → sorted key l = l.
Proof.
  unfold sorted. intros Hord.
  assert (∀ rest acc, l = acc ++ rest →
    foldl (fun acc x => insert_by_key key x acc) acc rest = l) as H.
  { induction rest as [|x rest IH]; intros acc Hl; simpl.
    - by rewrite app_nil_r in Hl.
    - rewrite insert_by_key_last.
      + apply IH. by rewrite <- app_assoc.
      + apply Forall_lookup. intros i y Hy.
        apply (Hord i (length acc) y x).
        * by eapply lookup_lt_Some.
        * subst l. by rewrite lookup_app_l by (by eapply lookup_lt_Some).
        * subst l. by rewrite list_lookup_middle. }
  by apply (H l []).
Qed.

(** ** Reshaping *)

Lemma reshape_rows_shape {A} (R C : nat) (l : list A) :
  length l = (R * C)%nat →
  length (reshape_rows R C l) = R ∧
  Forall (fun row => length row = C) (reshape_rows R C l) ∧
  concat (reshape_rows R C l) = l.
Proof.
  revert l. induction R as [|R IH]; intros l Hl; simpl in *.
  - destruct l; [done|discriminate].
  - destruct (IH (drop C l)) as (H1 & H2 & H3).
    { rewrite length_drop. lia. }
    split_and!.
    + by rewrite H1.
    + constructor; [|done]. rewrite length_take. lia.
    + by rewrite H3, take_drop.
Qed.

Lemma reshape_rows_concat {A} (R C : nat) (g : list (list A)) :
  length g = R → Forall (fun row => length row = C) g →
  reshape_rows R C (concat g) = g.
Proof.
  revert R. induction g as [|row g IH]; intros R HR HF; simpl in *.
  - by subst R.
  - subst R. simpl. inversion HF as [|?? Hrow HF']; subst.
    rewrite take_app_length, drop_app_length. by rewrite IH.
Qed.

Lemma reshape_rows_fmap {A B} (f : A → B) (R C : nat) (l : list A) :
  map (map f) (reshape_rows R C l) = reshape_rows R C (map f l).
Proof.
  revert l. induction R as [|R IH]; intros l; simpl; [done|].
  rewrite IH. f_equal; [apply (fmap_take f)|]. f_equal. apply (fmap_drop f).
Qed.

Lemma length_concat_shape {A} (R C : nat) (g : list (list A)) :
  length g = R → Forall (fun row => length row = C) g →
  length (concat g) = (R * C)%nat.
Proof.
  revert R. induction g as [|row g IH]; intros R HR HF; simpl in *.
  - by subst R.
  - subst R. inversion HF; subst. rewrite length_app, (IH (length g)) by done.
    simpl. lia.
Qed.

Lemma reshape_Some {A} (l : list A) (R C : nat) :
  length l = (R * C)%nat →
  reshape l (N.of_nat R) (N.of_nat C) = Some (reshape_rows R C l).
Proof.
  intros Hl. unfold reshape.
  rewrite (proj2 (N.eqb_eq _ _)) by lia. by rewrite !Nat2N.id.
Qed.

(** ** Hydration: [load_blocks] *)

Lemma with_heap_with_heap h1 h2 st :
  with_heap h2 (with_heap h1 st) = with_heap h2 st.
Proof. done. Qed.

Lemma wp_load_rows rows st :
  wp (for_each (fun acc rec =>
                  b <- Block_load_from_db_obj rec ;; ret (acc ++ [b])) rows []) st
     (fun blocks st' =>
        st' = with_heap (heap st ++ (block_of_row <$> rows)) st ∧
        blocks = seq (length (heap st)) (length rows)).
Proof.
  apply (wp_for_each _ (fun done blocks st' =>
           st' = with_heap (heap st ++ (block_of_row <$> done)) st ∧
           blocks = seq (length (heap st)) (length done))).
  - simpl. rewrite app_nil_r. by destruct st.
  - intros done rec rest acc st1 _ [-> ->].
    apply wp_bind. unfold Block_load_from_db_obj. apply wp_alloc, wp_ret.
    simpl. rewrite fmap_app, <- app_assoc. split; [done|].
    rewrite !length_app, length_fmap. simpl.
    by rewrite Nat.add_1_r, seq_S.
Qed.

Lemma hydrated_grid_shape st rows R C :
  length rows = (R * C)%nat →
  grid_shape R C (hydrated_grid st rows R C) ∧
  concat (hydrated_grid st rows R C)
  = sorted (block_key (hydrated_heap st rows)) (seq (length (heap st)) (length rows)).
Proof.
  intros Hlen. unfold hydrated_grid, grid_shape.
  destruct (reshape_rows_shape R C
    (sorted (block_key (hydrated_heap st rows)) (seq (length (heap st)) (length rows))))
    as (H1 & H2 & H3); [|done].
  by rewrite sorted_length, length_seq.
Qed.

Lemma hydrated_grid_elem st rows R C r :
  length rows = (R * C)%nat →
  r ∈ concat (hydrated_grid st rows R C) ↔
  (length (heap st) ≤ r < length (heap st) + length rows)%nat.
Proof.
  intros Hlen. destruct (hydrated_grid_shape st rows R C Hlen) as [_ ->].
  rewrite sorted_perm. apply elem_of_seq.
Qed.

Lemma hydrated_grid_valid st rows R C :
  length rows = (R * C)%nat →
  grid_valid (hydrated_heap st rows) (hydrated_grid st rows R C).
Proof.
  intros Hlen. unfold grid_valid. apply Forall_concat, Forall_forall.
  intros r Hr. apply hydrated_grid_elem in Hr; [|done].
  unfold hydrated_heap. rewrite length_app, length_fmap. lia.
Qed.

Lemma wp_Chunk_load_blocks self id st R C :
  Chunk_db_obj self = Some id →
  Chunk_n_rows self = N.of_nat R → Chunk_n_cols self = N.of_nat C →
  length (rows_of_chunk id 0 (block_table st)) = (R * C)%nat →
  wp (Chunk_load_blocks self) st (fun c st' =>
    let rows := rows_of_chunk id 0 (block_table st) in
    c = Chunk_with_grid (hydrated_grid st rows R C)
          (Chunk_with_blocks (seq (length (heap st)) (length rows)) self) ∧
    linking link_dirs (concat (hydrated_grid st rows R C))
            (with_heap (hydrated_heap st rows) st) st').
Proof.
  intros Hid HR HC Hlen. unfold Chunk_load_blocks. rewrite Hid.
  apply wp_bind, wp_gets. apply wp_bind.
  eapply wp_mono; [apply wp_load_rows|].
  intros blocks st1 [-> ->]. simpl.
  apply wp_bind, wp_gets. simpl. apply wp_bind.
  set (rows := rows_of_chunk id 0 (block_table st)) in *.
  eapply wp_or_raise.
  { rewrite HR, HC. apply reshape_Some. by rewrite sorted_length, length_seq. }
  apply wp_bind. eapply wp_mono.
  { eapply (wp_Chunk_link_blocks _ _ R C); simpl.
    - apply (hydrated_grid_shape st rows R C Hlen).
    - done.
    - apply (hydrated_grid_valid st rows R C Hlen). }
  intros [] st2 Hlink. apply wp_ret. split; [done|]. apply Hlink.
Qed.

Lemma wp_Chunk_load_blocks_cells self id st R C :
  Chunk_db_obj self = Some id →
  Chunk_n_rows self = N.of_nat R → Chunk_n_cols self = N.of_nat C →
  length (rows_of_chunk id 0 (block_table st)) = (R * C)%nat →
  wp (Chunk_load_blocks self) st (fun c st' =>
    let rows := rows_of_chunk id 0 (block_table st) in
    c = Chunk_with_grid (hydrated_grid st rows R C)
          (Chunk_with_blocks (seq (length (heap st)) (length rows)) self) ∧
    ∃ h', st' = with_heap h' st ∧
          links_assigned (hydrated_grid st rows R C) C (hydrated_heap st rows) h').
Proof.
  intros Hid HR HC Hlen. unfold Chunk_load_blocks. rewrite Hid.
  apply wp_bind, wp_gets. apply wp_bind.
  eapply wp_mono; [apply wp_load_rows|].
  intros blocks st1 [-> ->]. simpl.
  apply wp_bind, wp_gets. simpl. apply wp_bind.
  set (rows := rows_of_chunk id 0 (block_table st)) in *.
  eapply wp_or_raise.
  { rewrite HR, HC. apply reshape_Some. by rewrite sorted_length, length_seq. }
  apply wp_bind. eapply wp_mono.
  { eapply (wp_Chunk_link_blocks_cells _ _ R C); simpl.
    - apply (hydrated_grid_shape st rows R C Hlen).
    - done.
    - apply (hydrated_grid_valid st rows R C Hlen).
    - destruct (hydrated_grid_shape st rows R C Hlen) as [_ Hcat].
      fold (hydrated_heap st rows). fold (hydrated_grid st rows R C).
      rewrite Hcat, sorted_perm. apply NoDup_seq. }
  intros [] st2 (h' & -> & Hlinks). apply wp_ret. split; [done|].
  exists h'. split; [done|]. exact Hlinks.
Qed.

(** ** Construction, hydration and activation of a chunk *)

Lemma floordiv_Ok a b st : b ≠ 0%N → floordiv a b st = Ok (a / b)%N st.
Proof. intros Hb. unfold floordiv. by rewrite (proj2 (N.eqb_neq _ _) Hb). Qed.

Lemma Chunk_init_Ok config x y name st :
  config_divides config →
  Chunk_init config x y name st = Ok (fresh_chunk config x y name) st.
Proof.
  intros [Hh Hw]. unfold Chunk_init, bind.
  rewrite !floordiv_Ok by done. unfold ret, fresh_chunk, grid_rows, grid_cols.
  by rewrite !N2Nat.id.
Qed.

Lemma same_chunk_refl c : same_chunk c c.
Proof. by repeat split. Qed.

Lemma wp_Chunk_set_walls self st :
  Forall (fun r => (r < length (heap st))%nat) (Chunk_blocks self) →
  wp (Chunk_set_walls self) st (fun c st' => st' = st ∧ same_chunk self c).
Proof.
  intros Hv. unfold Chunk_set_walls.
  eapply wp_mono.
  { apply (wp_for_each _ (fun _ c st' => st' = st ∧ same_chunk self c)).
    { by split. }
    intros done block rest c st1 Hsplit [-> Hsame]. simpl.
    assert (block < length (heap st))%nat as Hb.
    { rewrite Forall_forall in Hv. apply Hv.
      destruct Hsame as (_&_&_&_&_&_&_&Hbl). simpl in Hsplit.
      rewrite Hsplit. set_solver. }
    destruct (lookup_lt_is_Some_2 _ _ Hb) as [b Hbl].
    apply wp_bind. eapply wp_deref; [done|].
    destruct (Block_collidable b); apply wp_ret; (split; [done|]);
      destruct Hsame as (?&?&?&?&?&?&?&?); by repeat split. }
  done.
Qed.

Lemma wp_randint a b st :
  wp (randint a b) st (fun _ st' => same_world st st').
Proof.
  unfold randint. apply wp_bind, wp_gets.
  destruct (random_tape st); [by apply wp_ret|].
  apply wp_bind, wp_modify, wp_ret. done.
Qed.

Lemma same_world_trans st1 st2 st3 :
  same_world st1 st2 → same_world st2 st3 → same_world st1 st3.
Proof. unfold same_world. intros (?&?&?&?&?) (?&?&?&?&?). split_and!; congruence. Qed.

Lemma wp_Chunk_add_mobs config n self st :
  wp (Chunk_add_mobs config n self) st
     (fun c st' => same_world st st' ∧ same_chunk self c).
Proof.
  unfold Chunk_add_mobs.
  eapply wp_mono.
  { apply (wp_for_each _ (fun _ c st' => same_world st st' ∧ same_chunk self c)).
    { split; [done|apply same_chunk_refl]. }
    intros done i rest c st1 _ [Hw Hsame]. simpl.
    apply wp_bind. eapply wp_mono; [apply wp_randint|]. intros x st2 Hw2. simpl.
    apply wp_bind. eapply wp_mono; [apply wp_randint|]. intros y st3 Hw3. simpl.
    apply wp_ret. split.
    - exact (same_world_trans _ _ _ (same_world_trans _ _ _ Hw Hw2) Hw3).
    - destruct Hsame as (?&?&?&?&?&?&?&?); by repeat split. }
  done.
Qed.

Lemma wp_conj {A} (m : M A) st (Q1 Q2 : A → State → Prop) :
  wp m st Q1 → wp m st Q2 → wp m st (fun a st' => Q1 a st' ∧ Q2 a st').
Proof. unfold wp. by destruct (m st). Qed.

Lemma wp_randint_files a b st :
  wp (randint a b) st (fun _ st' => files st' = files st).
Proof.
  unfold randint. apply wp_bind, wp_gets.
  destruct (random_tape st); [by apply wp_ret|].
  apply wp_bind, wp_modify, wp_ret. done.
Qed.

Lemma wp_Chunk_add_mobs_files config n self st :
  wp (Chunk_add_mobs config n self) st (fun _ st' => files st' = files st).
Proof.
  unfold Chunk_add_mobs.
  eapply wp_mono.
  { apply (wp_for_each _ (fun _ _ st' => files st' = files st)); [done|].
    intros done i rest c st1 _ Hf. simpl.
    apply wp_bind. eapply wp_mono; [apply wp_randint_files|]. intros x st2 Hf2.
    apply wp_bind. eapply wp_mono; [apply wp_randint_files|]. intros y st3 Hf3.
    apply wp_ret. congruence. }
  done.
Qed.

(** [build_img] on a window with pixels. *)
Lemma Chunk_build_img_Ok chunk st :
  Chunk_width chunk ≠ 0%N → Chunk_height chunk ≠ 0%N →
  Chunk_build_img chunk st
  = Ok tt (with_files (files st ++ [Chunk_img_file chunk]) st).
Proof.
  intros Hw Hh. unfold Chunk_build_img.
  by rewrite (proj2 (N.eqb_neq _ _) Hw), (proj2 (N.eqb_neq _ _) Hh).
Qed.

(** [build_img] on a window without pixels. *)
Lemma Chunk_build_img_raises chunk st :
  ¬ (Chunk_width chunk ≠ 0%N ∧ Chunk_height chunk ≠ 0%N) →
  Chunk_build_img chunk st = Raise ValueError st.
Proof.
  intros Hn. unfold Chunk_build_img.
  destruct (N.eqb_spec (Chunk_width chunk) 0) as [|Hw]; [done|].
  destruct (N.eqb_spec (Chunk_height chunk) 0) as [|Hh]; [done|].
  destruct Hn. by split.
Qed.

(** Lines 144-145: the image is built when its file is missing. A raise is
    that of [build_img] on a window without pixels. *)
Lemma wpg_image (allow : Prop) chunk st :
  allow ∨ drawable chunk st →
  wpg allow (present <- isfile (Chunk_img_file chunk) ;;
             if present then ret tt else Chunk_build_img chunk) st
    (fun _ st' =>
       st' = (if bool_decide (Chunk_img_file chunk ∈ files st) then st
              else with_files (files st ++ [Chunk_img_file chunk]) st)).
Proof.
  intros Hok. unfold wpg, bind, isfile, gets.
  case_bool_decide as Hin; [done|].
  destruct (decide (Chunk_width chunk ≠ 0%N ∧ Chunk_height chunk ≠ 0%N))
    as [[Hw Hh]|Hn].
  - by rewrite Chunk_build_img_Ok.
  - rewrite Chunk_build_img_raises by done.
    by destruct Hok as [?|[?|?]].
Qed.

(** Activation: the chunk keeps its identity and its grid, and the image
    file is there afterwards. *)
Lemma wpg_activate_same (allow : Prop) config chunk st :
  allow ∨ drawable chunk st →
  Forall (fun r => (r < length (heap st))%nat) (Chunk_blocks chunk) →
  wpg allow (activate config chunk) st
     (fun r st' => ∃ c, r = Some c ∧ same_chunk chunk c ∧ same_world st st' ∧
                        Chunk_img_file chunk ∈ files st' ∧
                        (∀ f, f ∈ files st → f ∈ files st')).
Proof.
  intros Hok Hv.
  change (activate config chunk) with
    ((present <- isfile (Chunk_img_file chunk) ;;
      if present then ret tt else Chunk_build_img chunk) ;;
     chunk <- Chunk_set_walls chunk ;;
     chunk <- Chunk_add_mobs config 5 chunk ;;
     ret (Some chunk)).
  set (st1 := if bool_decide (Chunk_img_file chunk ∈ files st) then st
              else with_files (files st ++ [Chunk_img_file chunk]) st).
  assert (same_world st st1 ∧ Chunk_img_file chunk ∈ files st1 ∧
          (∀ f, f ∈ files st → f ∈ files st1)) as (Hw1 & Himg1 & Hfiles1).
  { subst st1. case_bool_decide; simpl; split_and!; try done.
    - apply elem_of_app. right. by apply list_elem_of_singleton.
    - intros f Hf. apply elem_of_app. by left. }
  apply wpg_bind. eapply wpg_mono; [by apply wpg_image|].
  intros [] ? ->. fold st1. apply wp_wpg.
  apply wp_bind. eapply wp_mono.
  { apply wp_Chunk_set_walls. by destruct Hw1 as [-> _]. }
  intros c1 ? [-> Hs1]. simpl.
  apply wp_bind. eapply wp_mono.
  { apply wp_conj; [apply wp_Chunk_add_mobs|apply wp_Chunk_add_mobs_files]. }
  intros c2 st2 [[Hw2 Hs2] Hf2]. simpl. apply wp_ret.
  exists c2. split; [done|]. split_and!.
  - destruct Hs1 as (?&?&?&?&?&?&?&?), Hs2 as (?&?&?&?&?&?&?&?).
    split_and!; congruence.
  - exact (same_world_trans _ _ _ Hw1 Hw2).
  - by rewrite Hf2.
  - intros f Hf. rewrite Hf2. by apply Hfiles1.
Qed.

Lemma wp_activate config chunk st :
  drawable chunk st →
  Forall (fun r => (r < length (heap st))%nat) (Chunk_blocks chunk) →
  wp (activate config chunk) st
     (fun r st' => ∃ c, r = Some c ∧ same_chunk chunk c ∧ same_world st st').
Proof.
  intros Hok Hv. apply wpg_wp.
  eapply wpg_mono; [apply (wpg_activate_same False); [by right|done]|].
  intros r st' (c & ? & ? & ? & _). by exists c.
Qed.

Section Hydration.

Variable config : Config.
Variable Block_default_color : RGB.
Variable Block_default_collidable : bool.

Local Abbreviation R := (grid_rows config).
Local Abbreviation C := (grid_cols config).


Lemma wp_Chunk_load_from_db_obj_files id row st :
  config_divides config →
  length (chunk_rows st id) = (R * C)%nat →
  wp (Chunk_load_from_db_obj config (id, row)) st
     (fun c st' => c = hydrated_chunk config st id row ∧ hydrated config st id st' ∧
                   trace st' = trace st ∧ files st' = files st).
Proof.
  intros Hcfg Hlen. unfold Chunk_load_from_db_obj. apply wp_bind.
  eapply wp_intro; [by apply Chunk_init_Ok|]. simpl.
  eapply wp_mono.
  { eapply (wp_Chunk_load_blocks _ id st R C); done. }
  intros c st' [-> (h & -> & Hrel)]. split; [done|].
  split; [|done]. by split.
Qed.

Lemma hydrated_blocks_valid st id st' :
  hydrated config st id st' →
  Forall (fun r => (r < length (heap st'))%nat)
         (seq (length (heap st)) (length (chunk_rows st id))).
Proof.
  intros ([Hlen _] & _). apply Forall_forall. intros r Hr%elem_of_seq.
  rewrite Hlen. unfold hydrated_heap. rewrite length_app, length_fmap. lia.
Qed.

(** A window with pixels lets every chunk be drawn. *)
Lemma window_ok_drawable x y name st :
  window_ok config → drawable (fresh_chunk config x y name) st.
Proof. intros Hw. by left. Qed.

Lemma window_ok_drawable_hydrated st id row st' :
  window_ok config → drawable (hydrated_chunk config st id row) st'.
Proof. intros Hw. by left. Qed.

(** [Chunk.load] on a coordinate that has a record. A raise is that of
    [build_img]. *)
Lemma wpg_Chunk_load_hit (allow : Prop) depth x y create id row st :
  config_divides config →
  find_chunk_row x y 0 (chunk_table st) = Some (id, row) →
  length (chunk_rows st id) = (R * C)%nat →
  allow ∨ drawable (hydrated_chunk config st id row) st →
  wpg allow (Chunk_load config Block_default_color Block_default_collidable
               (S depth) x y create) st
     (fun r st' => ∃ c, r = Some c ∧ same_chunk (hydrated_chunk config st id row) c ∧
                        hydrated config st id st' ∧
                        trace st' = trace st ++ [EvChunkLoad x y create] ∧
                        Chunk_img_file c ∈ files st' ∧
                        (∀ f, f ∈ files st → f ∈ files st')).
Proof.
  intros Hcfg Hfind Hlen Hok. simpl.
  apply wpg_bind, wp_wpg, wp_log. apply wpg_bind.
  unfold session_query_chunk. apply wp_wpg, wp_gets. simpl. rewrite Hfind.
  apply wpg_bind. apply wpg_bind.
  apply wp_wpg. eapply wp_mono.
  { apply wp_Chunk_load_from_db_obj_files; [done|]. exact Hlen. }
  intros c st1 (Hc & Hhyd & Htr & Hf). apply wp_wpg, wp_ret.
  change (hydrated config st id st1) in Hhyd.
  change (c = hydrated_chunk config st id row) in Hc. subst c.
  eapply wpg_mono.
  { apply (wpg_activate_same allow config).
    - destruct Hok as [?|[?|Hin]]; [by left|right; by left|right; right].
      simpl in Hf. by rewrite Hf.
    - apply (hydrated_blocks_valid st id). exact Hhyd. }
  intros r st2 (c & -> & Hsame & Hw & Himg & Hfiles).
  exists c. split; [done|]. split; [done|].
  destruct Hw as (Hh & Hct & Hbt & Htr' & Hcc).
  destruct Hhyd as (Hrel & Hct1 & Hbt1 & Hcc1). simpl in *.
  split_and!.
  - unfold hydrated. rewrite Hh, Hct, Hbt, Hcc. done.
  - congruence.
  - destruct Hsame as (_ & _ & _ & Hn & _). unfold Chunk_img_file in *.
    by rewrite Hn.
  - intros f Hin. apply Hfiles. by rewrite Hf.
Qed.

Lemma wp_Chunk_load_hit depth x y create id row st :
  config_divides config →
  find_chunk_row x y 0 (chunk_table st) = Some (id, row) →
  length (chunk_rows st id) = (R * C)%nat →
  drawable (hydrated_chunk config st id row) st →
  wp (Chunk_load config Block_default_color Block_default_collidable
                 (S depth) x y create) st
     (fun r st' => ∃ c, r = Some c ∧ same_chunk (hydrated_chunk config st id row) c ∧
                        hydrated config st id st' ∧
                        trace st' = trace st ++ [EvChunkLoad x y create]).
Proof.
  intros Hcfg Hfind Hlen Hok. apply wpg_wp.
  eapply wpg_mono; [apply (wpg_Chunk_load_hit False); [done..|by right]|].
  intros r st' (c & ? & ? & ? & ? & _). by exists c.
Qed.

(** [Chunk.load] on a coordinate without a record, [create] not set. *)
Lemma Chunk_load_absent depth x y st :
  find_chunk_row x y 0 (chunk_table st) = None →
  Chunk_load config Block_default_color Block_default_collidable
             (S depth) x y false st
  = Ok None (with_trace (trace st ++ [EvChunkLoad x y false]) st).
Proof.
  intros Hfind. simpl. unfold bind, log, modify, session_query_chunk, gets.
  simpl. by rewrite Hfind.
Qed.

End Hydration.

(** ** Generation: the heap while a grid is built *)

Lemma grown_refl h : grown h h.
Proof. split; [done|]. eauto. Qed.

Lemma grown_trans h1 h2 h3 : grown h1 h2 → grown h2 h3 → grown h1 h3.
Proof.
  intros [L1 H1] [L2 H2]. split; [lia|]. intros r b Hr.
  destruct (H1 r b Hr) as (b2 & Hr2 & ? & ?).
  destruct (H2 r b2 Hr2) as (b3 & Hr3 & ? & ?).
  exists b3. split_and!; [done|congruence..].
Qed.

Lemma grown_app h l : grown h (h ++ l).
Proof.
  split; [rewrite length_app; lia|]. intros r b Hr. exists b.
  split; [|done]. rewrite lookup_app_l; [done|]. by eapply lookup_lt_Some.
Qed.

Lemma grown_relink h r b l :
  h !! r = Some b → grown h (<[r := Block_with_links l b]> h).
Proof.
  intros Hr. split; [by rewrite length_insert|]. intros r' b' Hr'.
  destruct (decide (r' = r)) as [->|Hne].
  - rewrite Hr in Hr'. injection Hr' as <-. eexists.
    split; [apply list_lookup_insert_eq; by eapply lookup_lt_Some|done].
  - exists b'. by rewrite list_lookup_insert_ne.
Qed.

Lemma relinked_grown dirs targets h h' : relinked dirs targets h h' → grown h h'.
Proof.
  intros [Hlen H]. split; [lia|]. intros r b Hr.
  destruct (H r b Hr) as (b' & ? & ? & ? & _). eauto.
Qed.

Lemma cell_ok_grown h h' r x y : grown h h' → cell_ok h r x y → cell_ok h' r x y.
Proof.
  intros [_ H] (b & Hr & Hx & Hy & Hd).
  destruct (H r b Hr) as (b' & Hr' & Ha & Hd').
  exists b'. split_and!; [done| | |congruence].
  - change (attr_x (Block_attrs b') = x). by rewrite Ha.
  - change (attr_y (Block_attrs b') = y). by rewrite Ha.
Qed.

Lemma cell_ok_valid h r x y : cell_ok h r x y → (r < length h)%nat.
Proof. intros (b & Hr & _). by eapply lookup_lt_Some. Qed.

Lemma heap_step_refl st : heap_step st st.
Proof. split; [by destruct st|apply grown_refl]. Qed.

Lemma heap_step_trans st1 st2 st3 :
  heap_step st1 st2 → heap_step st2 st3 → heap_step st1 st3.
Proof.
  intros [E1 G1] [E2 G2]. split; [|by eapply grown_trans].
  rewrite E2 at 1. rewrite E1. done.
Qed.

(** [t <- g[i][j]; o.d = t; k] *)
Lemma wp_build_link {B} st g R C o d (i j : Z) (k : unit → M B)
    (Q : B → State → Prop) :
  grid_shape R C g →
  - Z.of_nat R ≤ i < Z.of_nat R → - Z.of_nat C ≤ j < Z.of_nat C →
  (o < length (heap st))%nat →
  (∀ st', heap_step st st' → length (heap st') = length (heap st) →
          wp (k tt) st' Q) →
  wp (bind (grid_at g i j) (fun t => bind (Block_setattr o d t) k)) st Q.
Proof.
  intros Hg Hi Hj Ho Hk.
  destruct (grid_at_defined R C g i j Hg Hi Hj) as (row & t & Hrow & Ht & _).
  apply wp_bind. eapply wp_grid_at; [done..|].
  destruct (lookup_lt_is_Some_2 _ _ Ho) as [b Hb].
  apply wp_bind. eapply wp_Block_setattr; [done|].
  apply Hk; simpl.
  - split; [done|]. by apply grown_relink.
  - by rewrite length_insert.
Qed.

(** [t <- g[i][j]; o <- g'[i'][j']; o.d = t; k], where the cells of [g']
    are on the heap. *)
Lemma wp_build_link2 {B} st g R C g' R' C' d (i j i' j' : Z) (k : unit → M B)
    (Q : B → State → Prop) :
  grid_shape R C g →
  - Z.of_nat R ≤ i < Z.of_nat R → - Z.of_nat C ≤ j < Z.of_nat C →
  grid_shape R' C' g' → grid_valid (heap st) g' →
  - Z.of_nat R' ≤ i' < Z.of_nat R' → - Z.of_nat C' ≤ j' < Z.of_nat C' →
  (∀ st', heap_step st st' → length (heap st') = length (heap st) →
          wp (k tt) st' Q) →
  wp (bind (grid_at g i j) (fun t =>
        bind (grid_at g' i' j') (fun o => bind (Block_setattr o d t) k))) st Q.
Proof.
  intros Hg Hi Hj Hg' Hv' Hi' Hj' Hk.
  destruct (grid_at_defined R C g i j Hg Hi Hj) as (row & t & Hrow & Ht & _).
  destruct (grid_at_defined R' C' g' i' j' Hg' Hi' Hj') as (row' & o & Hrow' & Ho & Hin).
  apply wp_bind. eapply wp_grid_at; [done..|].
  apply wp_bind. eapply wp_grid_at; [done..|].
  assert (o < length (heap st))%nat as Hov.
  { unfold grid_valid in Hv'. rewrite <- Forall_concat, Forall_forall in Hv'. by apply Hv'. }
  destruct (lookup_lt_is_Some_2 _ _ Hov) as [b Hb].
  apply wp_bind. eapply wp_Block_setattr; [done|].
  apply Hk; simpl.
  - split; [done|]. by apply grown_relink.
  - by rewrite length_insert.
Qed.

(** Extrusion from a block at ([x], [y]). *)
Lemma wp_Block_create_direction st o d x y b :
  heap st !! o = Some b → Block_x b = x → Block_y b = y →
  wp (Block_create_direction o d) st (fun nb st' =>
    heap_step st st' ∧ nb = length (heap st) ∧
    length (heap st') = S (length (heap st)) ∧
    cell_ok (heap st') nb (x + (compass_delta d).1) (y + (compass_delta d).2)).
Proof.
  intros Hb Hx Hy. unfold Block_create_direction. apply wp_bind.
  eapply wp_deref; [done|]. apply wp_alloc. simpl. split_and!.
  - split; [done|]. apply grown_app.
  - done.
  - rewrite length_app. simpl. lia.
  - eexists. split; [by apply list_lookup_middle|]. simpl. by subst.
Qed.

(** The origin cell made by extrusion: [o.create_direction(d)] moved to
    (0, 0). *)
Lemma wp_create_origin st o d :
  (o < length (heap st))%nat →
  wp (bind (Block_create_direction o d) (fun new_block =>
        bind (Block_set_pos new_block 0 0) (fun _ => ret new_block))) st
     (fun nb st' =>
        heap_step st st' ∧ nb = length (heap st) ∧
        length (heap st') = S (length (heap st)) ∧
        cell_ok (heap st') nb 0 0).
Proof.
  intros Ho. destruct (lookup_lt_is_Some_2 _ _ Ho) as [b Hb].
  apply wp_bind. unfold Block_create_direction. apply wp_bind.
  eapply wp_deref; [done|]. apply wp_alloc.
  apply wp_bind. unfold Block_set_pos. apply wp_bind.
  eapply wp_deref; [simpl; by apply list_lookup_middle|].
  apply wp_store, wp_ret.
  match goal with
  | |- context [ <[_ := Block_with_pos 0 0 ?b0]> _ ] => set (b0' := b0)
  end.
  simpl. split; [split|split; [|split]].
  - done.
  - simpl. split; [rewrite length_insert, length_app; lia|].
    intros r b' Hr. exists b'. split; [|done].
    rewrite list_lookup_insert_ne by (apply lookup_lt_Some in Hr; lia).
    rewrite lookup_app_l; [done|]. by eapply lookup_lt_Some.
  - done.
  - simpl. rewrite length_insert, length_app. simpl. lia.
  - exists (Block_with_pos 0 0 b0'). split; [|done]. simpl.
    apply list_lookup_insert_eq. rewrite length_app. simpl. lia.
Qed.

Lemma wp_build_link_last st g R C o d (i j : Z) :
  grid_shape R C g →
  - Z.of_nat R ≤ i < Z.of_nat R → - Z.of_nat C ≤ j < Z.of_nat C →
  (o < length (heap st))%nat →
  wp (bind (grid_at g i j) (fun t => Block_setattr o d t)) st
     (fun _ st' => heap_step st st' ∧ length (heap st') = length (heap st)).
Proof.
  intros Hg Hi Hj Ho.
  destruct (grid_at_defined R C g i j Hg Hi Hj) as (row & t & Hrow & Ht & _).
  apply wp_bind. eapply wp_grid_at; [done..|].
  destruct (lookup_lt_is_Some_2 _ _ Ho) as [b Hb].
  eapply wp_Block_setattr; [done|]. simpl. split.
  - split; [done|]. by apply grown_relink.
  - by rewrite length_insert.
Qed.

Lemma wp_build_link2_last st g R C g' R' C' d (i j i' j' : Z) :
  grid_shape R C g →
  - Z.of_nat R ≤ i < Z.of_nat R → - Z.of_nat C ≤ j < Z.of_nat C →
  grid_shape R' C' g' → grid_valid (heap st) g' →
  - Z.of_nat R' ≤ i' < Z.of_nat R' → - Z.of_nat C' ≤ j' < Z.of_nat C' →
  wp (bind (grid_at g i j) (fun t =>
        bind (grid_at g' i' j') (fun o => Block_setattr o d t))) st
     (fun _ st' => heap_step st st' ∧ length (heap st') = length (heap st)).
Proof.
  intros Hg Hi Hj Hg' Hv' Hi' Hj'.
  destruct (grid_at_defined R C g i j Hg Hi Hj) as (row & t & Hrow & Ht & _).
  destruct (grid_at_defined R' C' g' i' j' Hg' Hi' Hj') as (row' & o & Hrow' & Ho & Hin).
  apply wp_bind. eapply wp_grid_at; [done..|].
  apply wp_bind. eapply wp_grid_at; [done..|].
  assert (o < length (heap st))%nat as Hov.
  { unfold grid_valid in Hv'. rewrite <- Forall_concat, Forall_forall in Hv'. by apply Hv'. }
  destruct (lookup_lt_is_Some_2 _ _ Hov) as [b Hb].
  eapply wp_Block_setattr; [done|]. simpl. split.
  - split; [done|]. by apply grown_relink.
  - by rewrite length_insert.
Qed.

Lemma grid_valid_mono h h' g :
  (length h ≤ length h')%nat → grid_valid h g → grid_valid h' g.
Proof.
  intros Hlen Hv. unfold grid_valid in *.
  eapply Forall_impl; [exact Hv|]. intros row Hrow. simpl in *.
  eapply Forall_impl; [exact Hrow|]. intros r Hr. simpl in *. lia.
Qed.

Lemma neighbour_ok_mono R C h h' c :
  (length h ≤ length h')%nat → neighbour_ok R C h c → neighbour_ok R C h' c.
Proof.
  intros Hlen. destruct c; [|done]. intros [? ?].
  split; [done|]. by eapply grid_valid_mono.
Qed.

Lemma cells_ok_grown h h' grid : grown h h' → cells_ok h grid → cells_ok h' grid.
Proof. intros Hg H i j row ref Hi Hj. eapply cell_ok_grown; [done|]. by eapply H. Qed.

Lemma row_ok_grown h h' r row : grown h h' → row_ok h r row → row_ok h' r row.
Proof. intros Hg H j ref Hj. eapply cell_ok_grown; [done|]. by eapply H. Qed.

Lemma cells_ok_valid h grid : cells_ok h grid → grid_valid h grid.
Proof.
  intros H. unfold grid_valid. apply Forall_lookup. intros i row Hi.
  apply Forall_lookup. intros j ref Hj. eapply cell_ok_valid. by eapply H.
Qed.

Lemma grid_at_cell h R C grid (i j : nat) :
  grid_shape R C grid → cells_ok h grid → (i < R)%nat → (j < C)%nat →
  ∃ row ref, py_getitem grid (Z.of_nat i) = Some row ∧
             py_getitem row (Z.of_nat j) = Some ref ∧
             cell_ok h ref (Z.of_nat j) (Z.of_nat i).
Proof.
  intros [HR HC] Hc Hi Hj.
  destruct (lookup_lt_is_Some_2 grid i) as [row Hrow]; [lia|].
  assert (length row = C) as Hlen.
  { rewrite Forall_forall in HC. apply HC. by eapply list_elem_of_lookup_2. }
  destruct (lookup_lt_is_Some_2 row j) as [ref Href]; [lia|].
  exists row, ref. split_and!; [by apply py_getitem_nonneg..|by eapply Hc].
Qed.

(** ** Generation: one cell *)

Lemma built_step st nb x y st1 st2 :
  built st nb x y st1 → heap_step st1 st2 →
  length (heap st2) = length (heap st1) → built st nb x y st2.
Proof.
  intros (H1 & -> & L1 & Hc) H2 L2. split_and!.
  - by eapply heap_step_trans.
  - done.
  - congruence.
  - eapply cell_ok_grown; [apply H2|done].
Qed.

Lemma built_after st0 st nb x y st' :
  heap_step st0 st → length (heap st) = length (heap st0) →
  built st nb x y st' → built st0 nb x y st'.
Proof.
  intros H0 L0 (H1 & -> & L1 & Hc). split_and!.
  - by eapply heap_step_trans.
  - done.
  - congruence.
  - done.
Qed.

Lemma built_valid st nb x y st' : built st nb x y st' → (nb < length (heap st'))%nat.
Proof. intros (_ & -> & -> & _). lia. Qed.

(** [o = row[-1]; new_block = o.create_direction('e'); k] *)
Lemma wp_extrude_east {B} st r c row (k : ref → M B) (Q : B → State → Prop) :
  row_ok (heap st) r row → length row = S c →
  (∀ nb st', built st nb (Z.of_nat (S c)) (Z.of_nat r) st' → wp (k nb) st' Q) →
  wp (bind (or_raise IndexError (py_getitem row (-1)))
           (fun o => bind (Block_create_direction o De) k)) st Q.
Proof.
  intros Hrow Hlen Hk.
  destruct (lookup_lt_is_Some_2 row c) as [o Ho]; [lia|].
  destruct (Hrow c o Ho) as (b & Hb & Hx & Hy & Hd).
  apply wp_bind. eapply wp_or_raise.
  { apply py_getitem_last. rewrite Hlen. by replace (S c - 1)%nat with c by lia. }
  apply wp_bind. eapply wp_mono.
  { by eapply wp_Block_create_direction. }
  intros nb st' (Hs & -> & Hl & Hc). apply Hk. split_and!; [done..|].
  simpl in Hc. by replace (Z.of_nat (S c)) with (Z.of_nat c + 1) by lia;
    replace (Z.of_nat r) with (Z.of_nat r + 0) by lia.
Qed.

(** [o = grid[r-1][0]; new_block = o.create_direction('n'); k] *)
Lemma wp_extrude_north {B} st r C grid (k : ref → M B) (Q : B → State → Prop) :
  grid_shape (S r) C grid → (0 < C)%nat → cells_ok (heap st) grid →
  (∀ nb st', built st nb 0 (Z.of_nat (S r)) st' → wp (k nb) st' Q) →
  wp (bind (grid_at grid (Z.of_nat (S r) - 1) 0)
           (fun o => bind (Block_create_direction o Dn) k)) st Q.
Proof.
  intros Hg HC Hcells Hk.
  destruct (grid_at_cell (heap st) (S r) C grid r 0 Hg Hcells) as
    (row & o & Hrow & Ho & (b & Hb & Hx & Hy & Hd)); [lia..|].
  replace (Z.of_nat (S r) - 1) with (Z.of_nat r) by lia.
  apply wp_bind. eapply wp_grid_at; [done..|].
  apply wp_bind. eapply wp_mono.
  { by eapply wp_Block_create_direction. }
  intros nb st' (Hs & -> & Hl & Hc). apply Hk. split_and!; [done..|].
  simpl in Hc. by replace (Z.of_nat (S r)) with (Z.of_nat r + 1) by lia.
Qed.

(** [o = g[i][j]; new_block = o.create_direction(d); new_block.x,
    new_block.y = 0, 0] for a neighbour grid [g]. *)
Lemma wp_extrude_origin st g R C d (i j : Z) :
  grid_shape R C g → grid_valid (heap st) g →
  - Z.of_nat R ≤ i < Z.of_nat R → - Z.of_nat C ≤ j < Z.of_nat C →
  wp (bind (grid_at g i j) (fun o =>
        bind (Block_create_direction o d) (fun new_block =>
          bind (Block_set_pos new_block 0 0) (fun _ => ret new_block)))) st
     (fun nb st' => built st nb 0 0 st').
Proof.
  intros Hg Hv Hi Hj.
  destruct (grid_at_defined R C g i j Hg Hi Hj) as (row & o & Hrow & Ho & Hin).
  apply wp_bind. eapply wp_grid_at; [done..|].
  apply wp_create_origin.
  unfold grid_valid in Hv. rewrite <- Forall_concat, Forall_forall in Hv. by apply Hv.
Qed.

Section BuildCell.

Variable config : Config.
Variable Block_default_color : RGB.
Variable Block_default_collidable : bool.

Lemma wp_build_cell chunk_w chunk_s R C grid row r c st :
  neighbour_ok R C (heap st) chunk_w → neighbour_ok R C (heap st) chunk_s →
  (r < R)%nat → (c < C)%nat → (r = 0 ∨ C ≠ 1)%nat →
  grid_shape r C grid → length row = c →
  cells_ok (heap st) grid → row_ok (heap st) r row →
  wp (build_cell config Block_default_color Block_default_collidable
                 chunk_w chunk_s (N.of_nat C) grid row (Z.of_nat r) (Z.of_nat c)) st
     (fun nb st' => built st nb (Z.of_nat c) (Z.of_nat r) st').
Proof.
  intros Hw Hs Hr Hc Hwide Hg Hrowlen Hcells Hrow.
  unfold build_cell.
  destruct c as [|c']; [change (Z.of_nat 0 =? 0) with true; cbv iota|].
  - (* first column *)
    destruct r as [|r']; [change (Z.of_nat 0 =? 0) with true; cbv iota|].
    + (* origin *)
      destruct chunk_s as [cs|], chunk_w as [cw|]; simpl in Hw, Hs.
      * destruct Hw as [Hwg Hwv], Hs as [Hsg Hsv].
        eapply (wp_build_link2 st _ R C _ R C); try done; try lia.
        intros st1 H1 L1.
        eapply wp_mono.
        { eapply (wp_extrude_origin st1 _ R C); try done; try lia.
          eapply grid_valid_mono; [|done]. lia. }
        intros nb st2 Hb. by eapply built_after.
      * destruct Hs as [Hsg Hsv].
        eapply (wp_extrude_origin st _ R C); try done; lia.
      * destruct Hw as [Hwg Hwv].
        eapply (wp_extrude_origin st _ R C); try done; lia.
      * unfold Block_init. apply wp_alloc. split_and!.
        -- split; [done|]. apply grown_app.
        -- done.
        -- simpl. rewrite length_app. simpl. lia.
        -- eexists. split; [by apply list_lookup_middle|done].
    + (* first column, later rows *)
      assert ((Z.of_nat (S r') =? 0) = false) as -> by (apply Z.eqb_neq; lia).
      assert (2 ≤ C)%nat as HC2 by lia.
      apply wp_bind.
      apply (wp_mono _ _ (fun _ st1 => heap_step st st1 ∧
                                       length (heap st1) = length (heap st))).
      { destruct chunk_w as [cw|]; [|apply wp_ret; split; [apply heap_step_refl|done]].
        destruct Hw as [Hwg Hwv].
        pose proof (cells_ok_valid _ _ Hcells) as Hgv.
        eapply (wp_build_link2 st _ R C _ (S r') C); try done; try lia.
        intros st1 H1 L1.
        eapply (wp_build_link2 st1 _ R C _ (S r') C); try done; try lia.
        { eapply grid_valid_mono; [|done]. lia. }
        intros st2 H2 L2.
        eapply wp_mono.
        { eapply (wp_build_link2_last st2 _ R C _ (S r') C); try done; try lia.
          eapply grid_valid_mono; [|done]. lia. }
        intros [] st3 [H3 L3]. split; [|congruence].
        eapply heap_step_trans; [|done]. by eapply heap_step_trans. }
      intros [] st1 [H1 L1].
      eapply (wp_extrude_north st1 r' C); [done|lia| |].
      { eapply cells_ok_grown; [apply H1|done]. }
      intros nb st2 Hb2.
      eapply (wp_build_link st2 _ (S r') C); try done; try lia.
      { by eapply built_valid. }
      intros st3 H3 L3.
      pose proof (built_step _ _ _ _ _ _ Hb2 H3 L3) as Hb3.
      apply wp_bind.
      apply (wp_mono _ _ (fun _ st4 => built st1 nb 0 (Z.of_nat (S r')) st4)).
      { destruct chunk_w as [cw|]; [|by apply wp_ret].
        destruct Hw as [Hwg Hwv].
        eapply wp_mono.
        { eapply (wp_build_link_last st3 _ R C); try done; try lia.
          by eapply built_valid. }
        intros [] st4 [H4 L4]. by eapply built_step. }
      intros [] st4 Hb4. apply wp_ret. by eapply built_after.
  - (* later columns *)
    assert ((Z.of_nat (S c') =? 0) = false) as -> by (apply Z.eqb_neq; lia).
    destruct (Z.eqb_spec (Z.of_nat (S c')) (Z.of_N (N.of_nat C) - 1)) as [Hlast|Hmid].
    + (* last column *)
      eapply (wp_extrude_east st r c'); [done..|].
      intros nb st1 Hb1. apply wp_bind.
      apply (wp_mono _ _ (fun _ st2 => built st nb (Z.of_nat (S c')) (Z.of_nat r) st2)).
      { destruct r as [|r']; [change (Z.of_nat 0 =? 0) with true; by apply wp_ret|].
        assert ((Z.of_nat (S r') =? 0) = false) as -> by (apply Z.eqb_neq; lia).
        eapply (wp_build_link st1 _ (S r') C); try done; try lia.
        { by eapply built_valid. }
        intros st2 H2 L2.
        pose proof (built_step _ _ _ _ _ _ Hb1 H2 L2) as Hb2.
        eapply wp_mono.
        { eapply (wp_build_link_last st2 _ (S r') C); try done; try lia.
          by eapply built_valid. }
        intros [] st3 [H3 L3]. by eapply built_step. }
      intros [] st2 Hb2. by apply wp_ret.
    + (* other columns *)
      eapply (wp_extrude_east st r c'); [done..|].
      intros nb st1 Hb1. apply wp_bind.
      apply (wp_mono _ _ (fun _ st2 => built st nb (Z.of_nat (S c')) (Z.of_nat r) st2)).
      { destruct r as [|r']; [change (Z.of_nat 0 =? 0) with true; cbv iota|].
        - destruct chunk_s as [cs|]; [|by apply wp_ret].
          destruct Hs as [Hsg Hsv].
          eapply (wp_build_link st1 _ R C); try done; try lia.
          { by eapply built_valid. }
          intros st2 H2 L2.
          pose proof (built_step _ _ _ _ _ _ Hb1 H2 L2) as Hb2.
          eapply (wp_build_link st2 _ R C); try done; try lia.
          { by eapply built_valid. }
          intros st3 H3 L3.
          pose proof (built_step _ _ _ _ _ _ Hb2 H3 L3) as Hb3.
          eapply wp_mono.
          { eapply (wp_build_link_last st3 _ R C); try done; try lia.
            by eapply built_valid. }
          intros [] st4 [H4 L4]. by eapply built_step.
        - assert ((Z.of_nat (S r') =? 0) = false) as -> by (apply Z.eqb_neq; lia).
          eapply (wp_build_link st1 _ (S r') C); try done; try lia.
          { by eapply built_valid. }
          intros st2 H2 L2.
          pose proof (built_step _ _ _ _ _ _ Hb1 H2 L2) as Hb2.
          eapply (wp_build_link st2 _ (S r') C); try done; try lia.
          { by eapply built_valid. }
          intros st3 H3 L3.
          pose proof (built_step _ _ _ _ _ _ Hb2 H3 L3) as Hb3.
          eapply wp_mono.
          { eapply (wp_build_link_last st3 _ (S r') C); try done; try lia.
            by eapply built_valid. }
          intros [] st4 [H4 L4]. by eapply built_step. }
      intros [] st2 Hb2. by apply wp_ret.
Qed.

End BuildCell.

(** ** Generation: rows and the whole grid *)

Lemma range_split (n : N) done x rest :
  range n = done ++ x :: rest →
  x = Z.of_nat (length done) ∧ (length done < N.to_nat n)%nat.
Proof.
  unfold range. intros H.
  assert ((Z.of_nat <$> seq 0 (N.to_nat n)) !! length done = Some x) as Hx.
  { rewrite H. by apply list_lookup_middle. }
  rewrite list_lookup_fmap in Hx.
  destruct (seq 0 (N.to_nat n) !! length done) as [k|] eqn:Hk; [|done].
  apply lookup_seq in Hk as [-> ?]. simpl in Hx. injection Hx as <-. done.
Qed.

Section BuildGrid.

Variable config : Config.
Variable Block_default_color : RGB.
Variable Block_default_collidable : bool.

(** The inner loop of [build_blocks]: row [r]. *)
Lemma wp_build_row chunk_w chunk_s R C grid r st :
  neighbour_ok R C (heap st) chunk_w → neighbour_ok R C (heap st) chunk_s →
  (r < R)%nat → (r = 0 ∨ C ≠ 1)%nat →
  grid_shape r C grid → cells_ok (heap st) grid →
  wp (for_each (fun row c_i =>
        new_block <- build_cell config Block_default_color Block_default_collidable
                       chunk_w chunk_s (N.of_nat C) grid row (Z.of_nat r) c_i ;;
        ret (row ++ [new_block]))
      (range (N.of_nat C)) []) st
     (fun row st' =>
        heap_step st st' ∧ row = seq (length (heap st)) C ∧
        length (heap st') = (length (heap st) + C)%nat ∧
        row_ok (heap st') r row).
Proof.
  intros Hw Hs Hr Hwide Hg Hcells.
  eapply wp_mono.
  { apply (wp_for_each _ (fun done row st' =>
       heap_step st st' ∧ row = seq (length (heap st)) (length done) ∧
       length (heap st') = (length (heap st) + length done)%nat ∧
       row_ok (heap st') r row)).
    { split_and!; [apply heap_step_refl|done|simpl; lia|]. by intros j ref Hj. }
    intros done c_i rest row st1 Hsplit (H1 & -> & L1 & Hrow).
    apply range_split in Hsplit as [-> Hc]. rewrite Nat2N.id in Hc.
    apply wp_bind. eapply wp_mono.
    { eapply (wp_build_cell _ _ _ chunk_w chunk_s R C grid _ r (length done) st1);
        try done.
      - eapply neighbour_ok_mono; [|done]. lia.
      - eapply neighbour_ok_mono; [|done]. lia.
      - by rewrite length_seq.
      - eapply cells_ok_grown; [apply H1|done]. }
    intros nb st2 (H2 & -> & L2 & Hcell). apply wp_ret. split_and!.
    - by eapply heap_step_trans.
    - rewrite length_app. simpl. rewrite Nat.add_1_r, seq_S. by rewrite L1.
    - rewrite length_app. simpl. lia.
    - intros j ref Hj. apply lookup_app_Some in Hj as [Hj|[Hlen Hj]].
      + eapply cell_ok_grown; [apply H2|]. by apply Hrow.
      + rewrite length_seq in Hlen, Hj.
        apply list_lookup_singleton_Some in Hj as [Hj <-].
        by replace j with (length done) by lia. }
  intros row st' (H1 & -> & L1 & Hrow). unfold range in *.
  rewrite length_fmap, length_seq, Nat2N.id in *. done.
Qed.

(** The outer loop of [build_blocks]. *)
Lemma wp_build_grid chunk_w chunk_s R C st :
  neighbour_ok R C (heap st) chunk_w → neighbour_ok R C (heap st) chunk_s →
  (R ≤ 1 ∨ C ≠ 1)%nat →
  wp (for_each (fun grid r_i =>
        row <- for_each (fun row c_i =>
                 new_block <- build_cell config Block_default_color
                                Block_default_collidable
                                chunk_w chunk_s (N.of_nat C) grid row r_i c_i ;;
                 ret (row ++ [new_block]))
               (range (N.of_nat C)) [] ;;
        ret (grid ++ [row]))
      (range (N.of_nat R)) []) st
     (fun grid st' =>
        heap_step st st' ∧ grid_shape R C grid ∧
        concat grid = seq (length (heap st)) (R * C) ∧
        length (heap st') = (length (heap st) + R * C)%nat ∧
        cells_ok (heap st') grid).
Proof.
  intros Hw Hs Hwide.
  eapply wp_mono.
  { apply (wp_for_each _ (fun done grid st' =>
       heap_step st st' ∧ grid_shape (length done) C grid ∧
       concat grid = seq (length (heap st)) (length done * C) ∧
       length (heap st') = (length (heap st) + length done * C)%nat ∧
       cells_ok (heap st') grid)).
    { split_and!; [apply heap_step_refl|by split|done|simpl; lia|].
      by intros i j row ref Hi. }
    intros done r_i rest grid st1 Hsplit (H1 & Hg & Hcat & L1 & Hcells).
    apply range_split in Hsplit as [-> Hr]. rewrite Nat2N.id in Hr.
    apply wp_bind. eapply wp_mono.
    { eapply (wp_build_row chunk_w chunk_s R C grid (length done) st1); try done.
      - eapply neighbour_ok_mono; [|done]. lia.
      - eapply neighbour_ok_mono; [|done]. lia.
      - lia. }
    intros row st2 (H2 & -> & L2 & Hrow). apply wp_ret.
    rewrite length_app. simpl. rewrite Nat.add_1_r. split_and!.
    - by eapply heap_step_trans.
    - destruct Hg as [HgR HgC]. split.
      + rewrite length_app. simpl. lia.
      + apply Forall_app. split; [done|]. constructor; [|done]. by rewrite length_seq.
    - rewrite concat_app, Hcat. simpl. rewrite app_nil_r, L1.
      rewrite (Nat.add_comm C). by rewrite seq_app.
    - lia.
    - intros i j row ref Hi Hj. apply lookup_app_Some in Hi as [Hi|[Hlen Hi]].
      + eapply cell_ok_grown; [apply H2|]. by eapply Hcells.
      + destruct Hg as [HgR _]. rewrite HgR in Hlen, Hi.
        apply list_lookup_singleton_Some in Hi as [Hi <-].
        replace i with (length done) by lia. by apply Hrow. }
  intros grid st' (H1 & Hg & Hcat & L1 & Hcells). unfold range in *.
  rewrite length_fmap, length_seq, Nat2N.id in *. done.
Qed.

End BuildGrid.

(** ** Saving a chunk *)

(** Saving a chunk that has no record and an empty block list inserts the
    chunk record and nothing else. *)
Lemma Chunk_save_first self st :
  Chunk_blocks self = [] → Chunk_db_obj self = None →
  Chunk_save self st
  = Ok (Chunk_with_db_obj (Some (length (chunk_table st))) self)
       (with_chunk_table (chunk_table st ++ [row_of_chunk self]) st).
Proof.
  intros Hb Hd. unfold Chunk_save. rewrite Hb, Hd. reflexivity.
Qed.

Lemma alter_app_last {A} (f : A → A) (l : list A) (x : A) :
  alter f (length l) (l ++ [x]) = l ++ [f x].
Proof. induction l as [|y l IH]; simpl; [done|]. f_equal. apply IH. Qed.

Lemma wp_save_blocks st id blocks :
  NoDup blocks →
  (∀ r, r ∈ blocks → ∃ b, heap st !! r = Some b ∧ Block_db_obj b = None) →
  wp (for_each (fun _ block =>
        rid <- Block_save block ;; BlockRow_set_chunk_id rid (Some id))
      blocks tt) st
     (fun _ st' => saving st id blocks st').
Proof.
  intros Hnd Hnew.
  apply (wp_for_each _ (fun done _ st' => saving st id done st')).
  - exists (heap st), []. rewrite app_nil_r. split_and!; [by destruct st|done..|].
    intros r b Hr. exists b. done.
  - intros done block rest [] st1 Hsplit (h1 & rows & -> & Hrows & Hlen & Hh).
    assert (block ∉ done) as Hfresh.
    { rewrite Hsplit in Hnd. apply NoDup_app in Hnd as (_ & Hd & _).
      intros Hin. apply (Hd _ Hin). set_solver. }
    destruct (Hnew block) as (b & Hb & Hdb); [rewrite Hsplit; set_solver|].
    destruct (Hh block b Hb) as (b1 & Hb1 & Ha1 & Hl1 & Hd1).
    apply wp_bind. unfold Block_save. apply wp_bind.
    eapply wp_deref; [done|].
    rewrite (Hd1 Hfresh), Hdb.
    apply wp_bind, wp_gets. apply wp_bind, wp_modify.
    apply wp_bind, wp_store, wp_ret.
    unfold BlockRow_set_chunk_id. apply wp_modify. simpl.
    rewrite alter_app_last. simpl.
    eexists _, (rows ++ [_]). split_and!.
    + by rewrite <- app_assoc.
    + apply Forall2_app; [done|]. constructor; [|done].
      split; [done|]. exists b. split; [done|]. simpl. done.
    + simpl. by rewrite length_insert.
    + simpl. intros r b' Hr. destruct (decide (r = block)) as [E|Hne]; [subst r|].
      * pose proof (eq_trans (eq_sym Hr) Hb) as Heq. injection Heq as ->. eexists.
        split; [apply list_lookup_insert_eq; by eapply lookup_lt_Some|].
        split_and!; [done..|]. intros Hn. exfalso. apply Hn. set_solver.
      * destruct (Hh r b' Hr) as (b'' & Hb'' & ? & ? & Hd'').
        exists b''. rewrite list_lookup_insert_ne by done.
        split_and!; [done..|]. intros Hn. apply Hd''. set_solver.
Qed.

(** Saving a chunk that has a record and whose blocks have none: the
    blocks' records are appended, foreign-keyed to the chunk. *)
Lemma wp_Chunk_save_blocks self id st :
  Chunk_db_obj self = Some id →
  chunk_table st !! id = Some (row_of_chunk self) →
  NoDup (Chunk_blocks self) →
  (∀ r, r ∈ Chunk_blocks self →
        ∃ b, heap st !! r = Some b ∧ Block_db_obj b = None) →
  wp (Chunk_save self) st
     (fun c st' => c = self ∧ saving st id (Chunk_blocks self) st').
Proof.
  intros Hid Hrow Hnd Hnew. unfold Chunk_save. rewrite Hid.
  apply wp_bind. eapply wp_mono; [by apply wp_save_blocks|].
  intros [] st1 (h1 & rows & -> & Hrows & Hlen & Hh).
  apply wp_bind. unfold session_add_chunk. apply wp_bind, wp_modify, wp_ret.
  apply wp_ret. simpl. split.
  - destruct self; simpl in *. by subst.
  - exists h1, rows. split_and!; [|done..].
    unfold with_chunk_table, with_heap, with_block_table; simpl.
    f_equal. by apply list_insert_id.
Qed.

(** ** Queries on the tables *)

Lemma find_chunk_row_Some x y k t id row :
  find_chunk_row x y k t = Some (id, row) →
  (k ≤ id)%nat ∧ t !! (id - k)%nat = Some row ∧ row_x row = x ∧ row_y row = y.
Proof.
  revert k. induction t as [|r t IH]; intros k H; simpl in H; [done|].
  destruct ((row_x r =? x) && (row_y r =? y)) eqn:E.
  - injection H as <- <-. apply andb_true_iff in E as [?%Z.eqb_eq ?%Z.eqb_eq].
    rewrite Nat.sub_diag. done.
  - destruct (IH _ H) as (Hle & Hl & ? & ?). split; [lia|]. split; [|done].
    replace (id - k)%nat with (S (id - S k)) by lia. done.
Qed.

Lemma find_chunk_row_snoc x y k t row :
  find_chunk_row x y k t = None → row_x row = x → row_y row = y →
  find_chunk_row x y k (t ++ [row]) = Some ((k + length t)%nat, row).
Proof.
  revert k. induction t as [|r t IH]; intros k H Hx Hy; simpl in *.
  - rewrite Hx, Hy, !Z.eqb_refl. simpl. by rewrite Nat.add_0_r.
  - destruct ((row_x r =? x) && (row_y r =? y)); [done|].
    rewrite IH by done. f_equal. f_equal. lia.
Qed.

Lemma rows_of_chunk_app id k t1 t2 :
  rows_of_chunk id k (t1 ++ t2)
  = rows_of_chunk id k t1 ++ rows_of_chunk id (k + length t1) t2.
Proof.
  revert k. induction t1 as [|r t1 IH]; intros k; simpl.
  - by rewrite Nat.add_0_r.
  - rewrite IH. replace (S k + length t1)%nat with (k + S (length t1))%nat by lia.
    by case_bool_decide.
Qed.

Lemma rows_of_chunk_none id k t :
  Forall (fun r => row_chunk_id r ≠ Some id) t → rows_of_chunk id k t = [].
Proof.
  intros H. revert k. induction H as [|r t Hr _ IH]; intros k; simpl; [done|].
  by rewrite bool_decide_eq_false_2.
Qed.

Lemma rows_of_chunk_all id k t :
  Forall (fun r => row_chunk_id r = Some id) t →
  rows_of_chunk id k t = zip (seq k (length t)) t.
Proof.
  intros H. revert k. induction H as [|r t Hr _ IH]; intros k; simpl; [done|].
  by rewrite bool_decide_eq_true_2, IH.
Qed.

(** ** When [Chunk.load] cannot return a chunk *)

Lemma Chunk_init_inv config x y name st c st' :
  Chunk_init config x y name st = Ok c st' →
  config_divides config ∧ c = fresh_chunk config x y name ∧ st' = st.
Proof.
  unfold Chunk_init, bind, floordiv.
  destruct (N.eqb_spec (config_block_height config) 0) as [|Hh]; [done|].
  destruct (N.eqb_spec (config_block_width config) 0) as [|Hw]; [done|].
  unfold ret. intros [= <- <-]. split; [done|]. split; [|done].
  unfold fresh_chunk, grid_rows, grid_cols. by rewrite !N2Nat.id.
Qed.

Section NoChunk.

Variable config : Config.
Variable Block_default_color : RGB.
Variable Block_default_collidable : bool.

Local Abbreviation R := (grid_rows config).
Local Abbreviation C := (grid_cols config).
Local Abbreviation load :=
  (Chunk_load config Block_default_color Block_default_collidable).

(** With a block dimension of zero no chunk is ever returned, and no record
    is written. *)
Lemma Chunk_load_zero_block depth x y create st :
  ¬ config_divides config →
  wpg True (load depth x y create) st
    (fun r st' => r = None ∧ chunk_table st' = chunk_table st ∧
                  block_table st' = block_table st).
Proof.
  intros Hcfg. destruct depth as [|depth]; [done|]. simpl.
  assert (∀ name s, wpg True (Chunk_init config x y name) s (fun _ _ => False))
    as Hinit.
  { intros name s. unfold wpg.
    destruct (Chunk_init config x y name s) as [c s'|] eqn:E; [|done].
    by apply Chunk_init_inv in E as [? _]. }
  apply wpg_bind, wp_wpg, wp_log. apply wpg_bind.
  unfold session_query_chunk. apply wp_wpg, wp_gets. simpl.
  destruct (find_chunk_row x y 0 (chunk_table st)) as [[id row]|] eqn:Hfind.
  - apply wpg_bind, wpg_bind. unfold Chunk_load_from_db_obj. apply wpg_bind.
    assert (row_x row = x ∧ row_y row = y) as [<- <-].
    { by apply find_chunk_row_Some in Hfind as (_ & _ & ? & ?). }
    eapply wpg_mono; [apply Hinit|]. done.
  - destruct create.
    + apply wpg_bind, wpg_bind. eapply wpg_mono; [apply Hinit|]. done.
    + apply wpg_bind, wp_wpg, wp_ret. by apply wp_wpg, wp_ret.
Qed.

(** A chunk record that does not have a full grid of block records cannot
    be hydrated. *)
Lemma Chunk_load_short_grid depth x y create id row st :
  find_chunk_row x y 0 (chunk_table st) = Some (id, row) →
  length (chunk_rows st id) ≠ (R * C)%nat →
  wpg True (load (S depth) x y create) st (fun _ _ => False).
Proof.
  intros Hfind Hbad. simpl.
  apply wpg_bind, wp_wpg, wp_log. apply wpg_bind.
  unfold session_query_chunk. apply wp_wpg, wp_gets. simpl. rewrite Hfind.
  apply wpg_bind, wpg_bind. unfold Chunk_load_from_db_obj. apply wpg_bind.
  unfold wpg at 1.
  destruct (Chunk_init config _ _ _ _) as [c s'|] eqn:E; [|done].
  apply Chunk_init_inv in E as (_ & -> & ->).
  unfold Chunk_load_blocks. simpl.
  apply wpg_bind, wp_wpg, wp_gets. apply wpg_bind, wp_wpg.
  eapply wp_mono; [apply wp_load_rows|]. intros blocks st1 [-> ->]. simpl.
  apply wpg_bind, wp_wpg, wp_gets. simpl. apply wpg_bind.
  eapply wpg_raises; [|done].
  unfold reshape. rewrite sorted_length, length_seq.
  rewrite (proj2 (N.eqb_neq _ _)); [reflexivity|].
  fold (chunk_rows st id). lia.
Qed.


(** A grid of one column and more than one row cannot be generated: the
    first cell of the second row asks for the second cell of the first
    row. *)
Lemma build_grid_single_column chunk_w chunk_s st :
  (2 ≤ R)%nat → C = 1%nat →
  wpg True
    (for_each (fun grid r_i =>
        row <- for_each (fun row c_i =>
                 new_block <- build_cell config Block_default_color
                                Block_default_collidable
                                chunk_w chunk_s (N.of_nat C) grid row r_i c_i ;;
                 ret (row ++ [new_block]))
               (range (N.of_nat C)) [] ;;
        ret (grid ++ [row]))
      (range (N.of_nat R)) []) st
    (fun _ _ => False).
Proof.
  intros HR HC. rewrite HC.
  destruct R as [|[|n]] eqn:ER; [lia..|].
  unfold range. rewrite !Nat2N.id. simpl seq. rewrite !fmap_cons.
  cbn [for_each].
  apply wpg_bind. apply wpg_bind, wpg_bind, wpg_bind.
  eapply wpg_mono; [apply wpg_any|]. intros nb st1 _.
  apply wp_wpg, wp_ret. apply wp_wpg, wp_ret. apply wp_wpg, wp_ret.
  apply wpg_bind, wpg_bind, wpg_bind, wpg_bind.
  unfold build_cell. simpl.
  apply wpg_skip. intros _ st2.
  apply wpg_skip. intros o st3.
  apply wpg_skip. intros new_block st4.
  apply wpg_bind. eapply wpg_raises; [reflexivity|done].
Qed.

(** So a chunk of one column and more than one row cannot be created. *)
Lemma Chunk_load_single_column depth x y st :
  (2 ≤ R)%nat → C = 1%nat →
  find_chunk_row x y 0 (chunk_table st) = None →
  wpg True (load (S depth) x y true) st (fun _ _ => False).
Proof.
  intros HR HC Hfind. simpl.
  apply wpg_bind, wp_wpg, wp_log. apply wpg_bind.
  unfold session_query_chunk. apply wp_wpg, wp_gets. simpl. rewrite Hfind.
  apply wpg_bind, wpg_bind.
  unfold wpg at 1.
  destruct (Chunk_init config _ _ _ _) as [c s'|] eqn:E; [|done].
  apply Chunk_init_inv in E as ([Hh Hwd] & -> & ->).
  apply wpg_bind. unfold Chunk_build_blocks.
  apply wpg_skip. intros chunk_w st1. apply wpg_skip. intros chunk_s st2.
  apply wpg_bind, wp_wpg. eapply wp_intro; [by apply floordiv_Ok|].
  apply wpg_bind, wp_wpg. eapply wp_intro; [by apply floordiv_Ok|].
  apply wpg_bind. simpl.
  replace (config_window_height config / config_block_height config)%N
    with (N.of_nat R) by (unfold grid_rows; by rewrite N2Nat.id).
  replace (config_window_width config / config_block_width config)%N
    with (N.of_nat C) by (unfold grid_cols; by rewrite N2Nat.id).
  eapply wpg_mono; [by apply build_grid_single_column|]. done.
Qed.

(** With no nesting left for the neighbour lookups, no chunk is created. *)
Lemma Chunk_load_depth_one x y st :
  find_chunk_row x y 0 (chunk_table st) = None →
  wpg True (load 1 x y true) st (fun _ _ => False).
Proof.
  intros Hfind. simpl.
  apply wpg_bind, wp_wpg, wp_log. apply wpg_bind.
  unfold session_query_chunk. apply wp_wpg, wp_gets. simpl. rewrite Hfind.
  apply wpg_bind, wpg_skip. intros c st1.
  apply wpg_bind. unfold Chunk_build_blocks. apply wpg_bind.
  eapply wpg_raises; [reflexivity|done].
Qed.

(** The same three facts of the making of the chunk alone (lines 136-138),
    whatever happens after it. *)
Lemma make_chunk_zero_block depth x y st :
  ¬ config_divides config →
  wpg True (make_chunk config Block_default_color Block_default_collidable
              (load depth) x y) st (fun _ _ => False).
Proof.
  intros Hcfg. unfold make_chunk. apply wpg_bind. unfold wpg.
  destruct (Chunk_init config x y None st) as [c s'|] eqn:E; [|done].
  by apply Chunk_init_inv in E as [? _].
Qed.

Lemma make_chunk_single_column depth x y st :
  (2 ≤ R)%nat → C = 1%nat →
  wpg True (make_chunk config Block_default_color Block_default_collidable
              (load depth) x y) st (fun _ _ => False).
Proof.
  intros HR HC. unfold make_chunk. apply wpg_bind.
  unfold wpg at 1.
  destruct (Chunk_init config _ _ _ _) as [c s'|] eqn:E; [|done].
  apply Chunk_init_inv in E as ([Hh Hwd] & -> & ->).
  apply wpg_bind. unfold Chunk_build_blocks.
  apply wpg_skip. intros chunk_w st1. apply wpg_skip. intros chunk_s st2.
  apply wpg_bind, wp_wpg. eapply wp_intro; [by apply floordiv_Ok|].
  apply wpg_bind, wp_wpg. eapply wp_intro; [by apply floordiv_Ok|].
  apply wpg_bind. simpl.
  replace (config_window_height config / config_block_height config)%N
    with (N.of_nat R) by (unfold grid_rows; by rewrite N2Nat.id).
  replace (config_window_width config / config_block_width config)%N
    with (N.of_nat C) by (unfold grid_cols; by rewrite N2Nat.id).
  eapply wpg_mono; [by apply build_grid_single_column|]. done.
Qed.

Lemma make_chunk_no_nesting x y st :
  wpg True (make_chunk config Block_default_color Block_default_collidable
              (load 0) x y) st (fun _ _ => False).
Proof.
  unfold make_chunk. apply wpg_skip. intros c st1.
  apply wpg_bind. unfold Chunk_build_blocks. apply wpg_bind.
  eapply wpg_raises; [reflexivity|done].
Qed.

Lemma make_chunk_returned depth x y st r st' :
  make_chunk config Block_default_color Block_default_collidable
    (load depth) x y st = Ok r st' →
  ∃ depth', depth = S depth' ∧ config_ok config.
Proof.
  intros Hrun. destruct depth as [|depth].
  { by pose proof (wpg_returns _ _ _ _ _ (make_chunk_no_nesting x y st) Hrun). }
  exists depth. split; [done|]. split.
  - destruct (decide (config_block_height config = 0%N)) as [Hh|Hh];
      [|destruct (decide (config_block_width config = 0%N)) as [Hw|Hw]];
      [| |done].
    all: assert (¬ config_divides config) as Hn by (intros [? ?]; done).
    all: by destruct (wpg_returns _ _ _ _ _
           (make_chunk_zero_block (S depth) x y st Hn) Hrun).
  - destruct (decide (R ≤ 1)%nat) as [|HR]; [by left|right]. intros HC.
    assert (2 ≤ R)%nat as HR' by lia.
    by pose proof (wpg_returns _ _ _ _ _
         (make_chunk_single_column (S depth) x y st HR' HC) Hrun).
Qed.

(** What a returned chunk tells about the configuration and the records. *)
Lemma Chunk_load_Some_config depth x y create st c st' :
  load depth x y create st = Ok (Some c) st' → config_divides config.
Proof.
  intros Hrun.
  destruct (decide (config_block_height config = 0%N)) as [Hh|Hh];
    [|destruct (decide (config_block_width config = 0%N)) as [Hw|Hw]];
    [| |done].
  all: assert (¬ config_divides config) as Hn by (intros [? ?]; done).
  all: by destruct (wpg_returns _ _ _ _ _
         (Chunk_load_zero_block depth x y create st Hn) Hrun).
Qed.

Lemma Chunk_load_Some_hit depth x y create id row st c st' :
  find_chunk_row x y 0 (chunk_table st) = Some (id, row) →
  load depth x y create st = Ok (Some c) st' →
  ∃ depth', depth = S depth' ∧ length (chunk_rows st id) = (R * C)%nat.
Proof.
  intros Hfind Hrun. destruct depth as [|depth]; [done|].
  exists depth. split; [done|].
  destruct (decide (length (chunk_rows st id) = (R * C)%nat)) as [|Hbad]; [done|].
  by pose proof (wpg_returns _ _ _ _ _
       (Chunk_load_short_grid depth x y create id row st Hfind Hbad) Hrun).
Qed.

Lemma Chunk_load_Some_miss depth x y st c st' :
  find_chunk_row x y 0 (chunk_table st) = None →
  load depth x y true st = Ok (Some c) st' →
  ∃ depth', depth = S (S depth') ∧ config_ok config.
Proof.
  intros Hfind Hrun. destruct depth as [|[|depth]].
  - done.
  - by pose proof (wpg_returns _ _ _ _ _ (Chunk_load_depth_one x y st Hfind) Hrun).
  - exists depth. split; [done|]. split.
    + by eapply Chunk_load_Some_config.
    + destruct (decide (R ≤ 1)%nat) as [|HR]; [by left|right]. intros HC.
      assert (2 ≤ R)%nat as HR' by lia.
      by pose proof (wpg_returns _ _ _ _ _
           (Chunk_load_single_column (S depth) x y st HR' HC Hfind) Hrun).
Qed.

End NoChunk.

Section Generation.

Variable config : Config.
Variable Block_default_color : RGB.
Variable Block_default_collidable : bool.

Local Abbreviation R := (grid_rows config).
Local Abbreviation C := (grid_cols config).
Local Abbreviation load :=
  (Chunk_load config Block_default_color Block_default_collidable).

(** Looking a neighbour up, [create] left at [False]. The lookup returns
    when every chunk record has a full grid and the window has pixels. *)
Lemma wpg_load_neighbour (allow : Prop) depth x y st :
  config_divides config → allow ∨ full_grids config st →
  allow ∨ window_ok config →
  wpg allow (load (S depth) x y false) st
     (fun r st' =>
        neighbour_ok R C (heap st') r ∧ grown (heap st) (heap st') ∧
        chunk_table st' = chunk_table st ∧ block_table st' = block_table st ∧
        chunk_cache st' = chunk_cache st ∧
        trace st' = trace st ++ [EvChunkLoad x y false]).
Proof.
  intros Hcfg Hfull Hwin.
  destruct (find_chunk_row x y 0 (chunk_table st)) as [[id row]|] eqn:Hfind.
  - destruct (decide (length (chunk_rows st id) = (R * C)%nat)) as [Hlen|Hbad].
    + eapply wpg_mono.
      { eapply (wpg_Chunk_load_hit config _ _ allow); [done..|].
        destruct Hwin as [?|?]; [by left|right; by left]. }
      intros r st' (c & -> & Hsame & (Hrel & Hct & Hbt & Hcc) & Htr & _).
      destruct Hsame as (_&_&_&_&_&_&Hgrid&_). simpl in Hgrid.
      split_and!; try done.
      * simpl. rewrite Hgrid. split.
        -- apply (hydrated_grid_shape st _ R C Hlen).
        -- eapply grid_valid_mono; [|apply (hydrated_grid_valid st _ R C Hlen)].
           destruct Hrel as [-> _]. done.
      * eapply grown_trans; [apply grown_app|]. by eapply relinked_grown.
    + destruct Hfull as [Hallow|Hfull].
      * apply wpg_must_raise; [done|]. by eapply Chunk_load_short_grid.
      * destruct Hbad. apply Hfull.
        apply find_chunk_row_Some in Hfind as (_ & Hl & _).
        apply lookup_lt_Some in Hl. lia.
  - apply wp_wpg. eapply wp_intro; [by apply Chunk_load_absent|]. simpl.
    split_and!; try done. apply grown_refl.
Qed.

Lemma wpg_Chunk_build_blocks (allow : Prop) depth x y st :
  config_ok config → allow ∨ full_grids config st → allow ∨ window_ok config →
  wpg allow
     (Chunk_build_blocks config Block_default_color Block_default_collidable
        (load (S depth)) (fresh_chunk config x y None)) st
     (fun c st' => generated config st x y c st').
Proof.
  intros [Hcfg Hwide] Hdb Hwin. unfold Chunk_build_blocks.
  apply wpg_bind. eapply wpg_mono; [by apply wpg_load_neighbour|].
  intros chunk_w st1 (Hw & Hg1 & Hct1 & Hbt1 & Hcc1 & Htr1).
  assert (allow ∨ full_grids config st1) as Hdb1.
  { destruct Hdb as [?|Hdb]; [by left|right].
    unfold full_grids, chunk_rows in *. rewrite Hct1, Hbt1. done. }
  apply wpg_bind. eapply wpg_mono; [by apply wpg_load_neighbour|].
  intros chunk_s st2 (Hs & Hg2 & Hct2 & Hbt2 & Hcc2 & Htr2).
  apply wp_wpg.
  destruct Hcfg as [Hh Hwd].
  apply wp_bind. eapply wp_intro; [by apply floordiv_Ok|].
  apply wp_bind. eapply wp_intro; [by apply floordiv_Ok|].
  apply wp_bind. simpl.
  replace (config_window_height config / config_block_height config)%N
    with (N.of_nat R) by (unfold grid_rows; by rewrite N2Nat.id).
  replace (config_window_width config / config_block_width config)%N
    with (N.of_nat C) by (unfold grid_cols; by rewrite N2Nat.id).
  eapply wp_mono.
  { eapply (wp_build_grid config _ _ chunk_w chunk_s R C st2); try done.
    eapply neighbour_ok_mono; [|done]. apply Hg2. }
  intros grid st3 ([E3 Hg3] & Hshape & Hcat & Hlen & Hcells).
  apply wp_bind. eapply wp_intro; [by apply Chunk_save_first|].
  apply wp_ret. simpl.
  exists grid, (length (heap st2)). rewrite E3. simpl.
  split_and!; try done.
  - by rewrite Hct2, Hct1.
  - destruct Hg1 as [? _], Hg2 as [? _]. lia.
  - eapply grown_trans; [|done]. by eapply grown_trans.
  - by rewrite Hct2, Hct1.
  - by rewrite Hbt2, Hbt1.
  - by rewrite Hcc2, Hcc1.
  - rewrite Htr2, Htr1, <- app_assoc. done.
Qed.

End Generation.

Lemma elem_of_concat_lookup {A} (x : A) (g : list (list A)) :
  x ∈ concat g → ∃ i j row, g !! i = Some row ∧ row !! j = Some x.
Proof.
  rewrite list_elem_of_In, in_concat. intros (row & Hrow & Hx).
  apply list_elem_of_In, list_elem_of_lookup_1 in Hrow as [i Hi].
  apply list_elem_of_In, list_elem_of_lookup_1 in Hx as [j Hj]. eauto.
Qed.

Section Creation.

Variable config : Config.
Variable Block_default_color : RGB.
Variable Block_default_collidable : bool.

Local Abbreviation R := (grid_rows config).
Local Abbreviation C := (grid_cols config).
Local Abbreviation load :=
  (Chunk_load config Block_default_color Block_default_collidable).

(** Activation tells nothing apart of what [created] says. *)
Lemma created_same st x y c s c' s' :
  created config st x y c s → same_chunk c c' → same_world s s' →
  created config st x y c' s'.
Proof.
  intros (first & rows & H) (Hdb3 & Hx3 & Hy3 & Hn3 & Hnr3 & Hnc3 & Hg3 & Hb3)
         (Hh3 & Hct3 & Hbt3 & Htr3 & Hcc3).
  exists first, rows.
  rewrite Hdb3, Hx3, Hy3, Hn3, Hnr3, Hnc3, Hg3, Hb3, Hh3, Hct3, Hbt3, Htr3, Hcc3.
  exact H.
Qed.

(** Making the chunk of a coordinate without a record (lines 136-138), from
    the state in which the call has been logged. *)
Lemma wpg_make_chunk (allow : Prop) depth x y st :
  config_ok config → allow ∨ full_grids config st → allow ∨ window_ok config →
  find_chunk_row x y 0 (chunk_table st) = None →
  wpg allow (make_chunk config Block_default_color Block_default_collidable
               (load (S depth)) x y)
     (with_trace (trace st ++ [EvChunkLoad x y true]) st)
     (fun r st' => ∃ c, r = Some c ∧ created config st x y c st' ∧
                        Chunk_width c = config_window_width config ∧
                        Chunk_height c = config_window_height config).
Proof.
  intros Hcfg Hdb Hwin Hfind. unfold make_chunk.
  set (st0 := with_trace (trace st ++ [EvChunkLoad x y true]) st).
  apply wpg_bind.
  apply wp_wpg. eapply wp_intro; [apply Chunk_init_Ok, Hcfg|].
  assert (allow ∨ full_grids config st0) as Hdb0 by exact Hdb.
  apply wpg_bind. eapply wpg_mono; [by apply wpg_Chunk_build_blocks|].
  intros c1 st1 (grid & first & -> & Hshape & Hcat & Hfirst & Hlen & Hcells &
                 Hgrown & Hct & Hbt & Hcc & Htr).
  apply wp_wpg.
  apply wp_bind. eapply wp_mono.
  { eapply (wp_Chunk_save_blocks _ (length (chunk_table st))); simpl.
    - done.
    - rewrite Hct. by apply list_lookup_middle.
    - rewrite Hcat. apply NoDup_seq.
    - intros r Hr. apply elem_of_concat_lookup in Hr as (i & j & row & Hi & Hj).
      destruct (Hcells i j row r Hi Hj) as (b & Hb & _ & _ & Hd). eauto. }
  intros c2 st2 (-> & h2 & rows & -> & Hrows & Hlen2 & Hh2). simpl.
  apply wp_ret. eexists. split; [done|]. split; [|done].
  exists first, rows. simpl in *.
  split_and!; try done.
  - lia.
  - intros i j row ref Hi Hj.
    destruct (Hcells i j row ref Hi Hj) as (b & Hb & Hx & Hy & _).
    destruct (Hh2 ref b Hb) as (b' & Hb' & Ha & _). exists b'.
    split; [done|]. split.
    + change (attr_x (Block_attrs b') = Z.of_nat j). by rewrite Ha.
    + change (attr_y (Block_attrs b') = Z.of_nat i). by rewrite Ha.
  - destruct Hgrown as [Hle Hold]. split; [simpl in *; lia|].
    intros ref b Hb. destruct (Hold ref b Hb) as (b1 & Hb1 & Ha1 & Hd1).
    destruct (Hh2 ref b1 Hb1) as (b' & Hb' & Ha & _ & Hd).
    exists b'. split; [done|]. split; [congruence|].
    rewrite Hd; [done|]. rewrite Hcat. intros Hin%elem_of_seq.
    apply lookup_lt_Some in Hb. simpl in *. lia.
  - by rewrite Hbt.
  - eapply Forall2_impl; [exact Hrows|].
    intros ref brow [Hid (b & Hb & Ha)]. split; [done|].
    destruct (Hh2 ref b Hb) as (b' & Hb' & Ha' & _). exists b'.
    split; [done|]. congruence.
  - rewrite Htr. subst st0. simpl. by rewrite <- app_assoc.
Qed.

(** The blocks of a created chunk are on the heap. *)
Lemma created_blocks_valid st x y c st' :
  created config st x y c st' →
  Forall (fun r => (r < length (heap st'))%nat) (Chunk_blocks c).
Proof.
  intros (first & rows & _ & _ & _ & _ & _ & _ & -> & _ & -> & _ & -> & _).
  apply Forall_forall. intros r Hr%elem_of_seq. lia.
Qed.

(** A miss with [create] set is the making of the chunk and its activation. *)
Lemma Chunk_load_miss depth x y st :
  find_chunk_row x y 0 (chunk_table st) = None →
  load (S depth) x y true st
  = (chunk <- make_chunk config Block_default_color Block_default_collidable
                (load depth) x y ;;
     match chunk with
     | None => ret None
     | Some chunk => activate config chunk
     end) (with_trace (trace st ++ [EvChunkLoad x y true]) st).
Proof.
  intros Hfind.
  change (load (S depth) x y true) with
    (log (EvChunkLoad x y true) ;;
     loaded_chunk <- session_query_chunk x y ;;
     chunk <- match loaded_chunk with
              | None =>
                  make_chunk config Block_default_color
                    Block_default_collidable (load depth) x y
              | Some db_obj =>
                  chunk <- Chunk_load_from_db_obj config db_obj ;;
                  ret (Some chunk)
              end ;;
     match chunk with
     | None => ret None
     | Some chunk => activate config chunk
     end).
  unfold bind at 1. unfold log, modify. unfold bind at 1.
  unfold session_query_chunk, gets. simpl. by rewrite Hfind.
Qed.

(** Creating a chunk where there is no record. The call returns when every
    chunk record has a full grid. *)
Lemma wpg_Chunk_load_create (allow : Prop) depth x y st :
  config_ok config → allow ∨ full_grids config st → allow ∨ window_ok config →
  find_chunk_row x y 0 (chunk_table st) = None →
  wpg allow (load (S (S depth)) x y true) st
     (fun r st' => ∃ c, r = Some c ∧ created config st x y c st' ∧
                        Chunk_img_file c ∈ files st').
Proof.
  intros Hcfg Hdb Hwin Hfind. unfold wpg. rewrite Chunk_load_miss by done.
  apply wpg_bind. eapply wpg_mono; [by apply wpg_make_chunk|].
  intros r s (c & -> & Hcr & Hwd & Hht).
  eapply wpg_mono.
  { apply (wpg_activate_same allow).
    - destruct Hwin as [?|[? ?]]; [by left|right; left].
      by rewrite Hwd, Hht.
    - by eapply created_blocks_valid. }
  intros r st3 (c3 & -> & Hsame & Hworld & Himg & _). exists c3. split; [done|].
  split; [by eapply created_same|].
  destruct Hsame as (_ & _ & _ & Hn & _). unfold Chunk_img_file in *.
  by rewrite Hn.
Qed.

Lemma wp_Chunk_load_create depth x y st :
  config_ok config → full_grids config st → window_ok config →
  find_chunk_row x y 0 (chunk_table st) = None →
  wp (load (S (S depth)) x y true) st
     (fun r st' => ∃ c, r = Some c ∧ created config st x y c st').
Proof.
  intros Hcfg Hfull Hwin Hfind. apply wpg_wp.
  eapply wpg_mono; [apply wpg_Chunk_load_create; [done|by right|by right|done]|].
  intros r st' (c & ? & ? & _). by exists c.
Qed.

End Creation.

(** ** Grid contents *)

Lemma Block_attrs_of_attrs a o : Block_attrs (Block_of_attrs a o) = a.
Proof. by destruct a. Qed.

Lemma hydrated_heap_lookup st rows i rec :
  rows !! i = Some rec →
  hydrated_heap st rows !! (length (heap st) + i)%nat = Some (block_of_row rec).
Proof.
  intros H. unfold hydrated_heap.
  rewrite lookup_app_r by lia.
  replace (length (heap st) + i - length (heap st))%nat with i by lia.
  by rewrite list_lookup_fmap, H.
Qed.

Section Contents.

Variable config : Config.
Local Abbreviation R := (grid_rows config).
Local Abbreviation C := (grid_cols config).

Lemma hydrated_contents st id row st' :
  length (chunk_rows st id) = (R * C)%nat →
  hydrated config st id st' →
  grid_contents st' (hydrated_chunk config st id row)
  = contents_of_rows R C (chunk_rows st id).
Proof.
  intros Hlen (Hrel & _). unfold grid_contents, contents_of_rows. simpl.
  unfold hydrated_grid. rewrite reshape_rows_fmap. f_equal.
  set (rows := chunk_rows st id) in *.
  set (g := fun r : ref => Block_attrs <$> heap st' !! r).
  assert (∀ i rec, rows !! i = Some rec →
            g (length (heap st) + i)%nat = Some (row_attrs rec.2) ∧
            block_key (hydrated_heap st rows) (length (heap st) + i)%nat
            = attrs_key (Some (row_attrs rec.2))) as Hcell.
  { intros i rec Hi. pose proof (hydrated_heap_lookup st rows i rec Hi) as Hmid.
    destruct Hrel as [_ Hrel].
    destruct (Hrel _ _ Hmid) as (b' & Hb' & Ha & _). split.
    - unfold g. rewrite Hb'. simpl. rewrite Ha. unfold block_of_row.
      by rewrite Block_attrs_of_attrs.
    - unfold block_key. rewrite Hmid. unfold block_of_row. by destruct (row_attrs rec.2). }
  rewrite (sorted_ext _ (attrs_key ∘ g)).
  2:{ intros r Hr%elem_of_seq.
      destruct (lookup_lt_is_Some_2 rows (r - length (heap st))) as [rec Hrec]; [lia|].
      destruct (Hcell _ _ Hrec) as [Hg Hk].
      replace (length (heap st) + (r - length (heap st)))%nat with r in * by lia.
      unfold compose. by rewrite Hk, Hg. }
  change (map g (sorted (attrs_key ∘ g) (seq (length (heap st)) (length rows))))
    with (g <$> sorted (attrs_key ∘ g) (seq (length (heap st)) (length rows))).
  rewrite sorted_fmap. f_equal.
  apply list_eq. intros i. rewrite !list_lookup_fmap.
  destruct (rows !! i) as [rec|] eqn:Hi; simpl.
  - rewrite lookup_seq_lt by (by eapply lookup_lt_Some). simpl.
    by destruct (Hcell _ _ Hi) as [-> _].
  - rewrite lookup_seq_ge; [done|]. by apply lookup_ge_None.
Qed.

(** Contents are read from attributes, which growth of the heap keeps. *)
Lemma grid_contents_grown st st' c :
  grown (heap st) (heap st') → grid_valid (heap st) (Chunk_grid c) →
  grid_contents st' c = grid_contents st c.
Proof.
  intros [_ Hg] Hv. unfold grid_contents.
  apply list_eq. intros i. rewrite !list_lookup_fmap.
  destruct (Chunk_grid c !! i) as [row|] eqn:Hi; [|done]. simpl. f_equal.
  apply list_eq. intros j. rewrite !list_lookup_fmap.
  destruct (row !! j) as [r|] eqn:Hj; [|done]. simpl. f_equal.
  assert (r < length (heap st))%nat as Hr.
  { unfold grid_valid in Hv. rewrite Forall_lookup in Hv.
    specialize (Hv i row Hi). rewrite Forall_lookup in Hv. by apply (Hv j). }
  destruct (lookup_lt_is_Some_2 _ _ Hr) as [b Hb].
  destruct (Hg r b Hb) as (b' & Hb' & Ha & _).
  rewrite Hb, Hb'. simpl. by rewrite Ha.
Qed.

End Contents.

(** ** Row-major order *)

Lemma concat_lookup_shape {A} (g : list (list A)) (n p : nat) (x : A) :
  Forall (fun row => length row = n) g → concat g !! p = Some x →
  ∃ i j row, (j < n)%nat ∧ p = (i * n + j)%nat ∧
             g !! i = Some row ∧ row !! j = Some x.
Proof.
  intros HF. revert p. induction HF as [|row g Hrow _ IH]; intros p Hp; simpl in *.
  - done.
  - apply lookup_app_Some in Hp as [Hp|[Hge Hp]].
    + exists 0%nat, p, row. split_and!; [|lia|done..].
      rewrite <- Hrow. by eapply lookup_lt_Some.
    + destruct (IH _ Hp) as (i & j & row' & Hj & Hpij & Hi & Hx).
      exists (S i), j, row'. split_and!; [done| |done..]. simpl. lia.
Qed.

(** A grid whose cells sit at their positions is, flattened, in the order
    of the sort key. *)
Lemma grid_key_ordered (h : list Block) (g : list (list ref)) (n : nat) :
  Forall (fun row => length row = n) g →
  (∀ i j row r, g !! i = Some row → row !! j = Some r →
     ∃ b, h !! r = Some b ∧ Block_x b = Z.of_nat j ∧ Block_y b = Z.of_nat i) →
  key_ordered attrs_key (map (fun r => Block_attrs <$> h !! r) (concat g)).
Proof.
  intros HF Hcells p q a1 a2 Hpq Hp Hq.
  change (map ?f ?l) with (f <$> l) in Hp, Hq.
  rewrite list_lookup_fmap in Hp, Hq.
  destruct (concat g !! p) as [r1|] eqn:Hr1; [|done].
  destruct (concat g !! q) as [r2|] eqn:Hr2; [|done].
  simpl in Hp, Hq. injection Hp as <-. injection Hq as <-.
  destruct (concat_lookup_shape g n p r1 HF Hr1) as (i1 & j1 & row1 & Hj1 & -> & Hi1 & Hx1).
  destruct (concat_lookup_shape g n q r2 HF Hr2) as (i2 & j2 & row2 & Hj2 & -> & Hi2 & Hx2).
  destruct (Hcells _ _ _ _ Hi1 Hx1) as (b1 & -> & Hbx1 & Hby1).
  destruct (Hcells _ _ _ _ Hi2 Hx2) as (b2 & -> & Hbx2 & Hby2).
  simpl. unfold key_le. simpl. rewrite Hbx1, Hby1, Hbx2, Hby2.
  assert (i1 < i2 ∨ (i1 = i2 ∧ j1 < j2))%nat as [Hlt|[-> Hlt]] by nia.
  - rewrite (proj2 (Z.ltb_lt _ _)) by lia. done.
  - rewrite Z.eqb_refl, (proj2 (Z.leb_le _ _)) by lia. simpl. apply orb_true_r.
Qed.

Lemma Forall2_persists_attrs h id refs rows :
  Forall2 (persists h id) refs rows →
  map (fun row => Some (row_attrs row)) rows
  = map (fun r => Block_attrs <$> h !! r) refs.
Proof.
  induction 1 as [|r row refs rows [_ (b & Hb & Ha)] _ IH]; simpl; [done|].
  rewrite IH, Hb, Ha. done.
Qed.

Lemma map_snd_zip {A B D} (f : B → D) (l : list A) (k : list B) :
  (length k ≤ length l)%nat → map (fun p : A * B => f p.2) (zip l k) = map f k.
Proof.
  revert l. induction k as [|b k IH]; intros [|a l] Hlen; simpl in *;
    [done|done|lia|]. f_equal. apply IH. lia.
Qed.

Section Idempotence.

Variable config : Config.
Variable Block_default_color : RGB.
Variable Block_default_collidable : bool.

Local Abbreviation R := (grid_rows config).
Local Abbreviation C := (grid_cols config).
Local Abbreviation load :=
  (Chunk_load config Block_default_color Block_default_collidable).

(** After creation, the chunk's block records are exactly the new ones. *)
Lemma created_chunk_rows st x y c st' :
  fk_ok st → created config st x y c st' →
  ∃ new_rows,
    chunk_rows st' (length (chunk_table st))
    = zip (seq (length (block_table st)) (length new_rows)) new_rows ∧
    Forall2 (persists (heap st') (length (chunk_table st)))
            (concat (Chunk_grid c)) new_rows.
Proof.
  intros Hfk (first & rows & _ & _ & _ & _ & _ & _ & _ & _ & _ & _ & _ & _ & _ &
                _ & Hbt & Hrows & _).
  exists rows. split; [|done].
  unfold chunk_rows. rewrite Hbt, rows_of_chunk_app.
  rewrite rows_of_chunk_none.
  2:{ apply Forall_forall. intros brow Hin Heq.
      specialize (Hfk brow _ Hin Heq). lia. }
  simpl. apply rows_of_chunk_all.
  clear -Hrows. induction Hrows as [|???? [? _] _ IH]; constructor; done.
Qed.

(** The records of a created chunk hydrate to the grid it was created
    with. *)
Lemma created_contents st x y c st' :
  fk_ok st → created config st x y c st' →
  length (chunk_rows st' (length (chunk_table st))) = (R * C)%nat ∧
  contents_of_rows R C (chunk_rows st' (length (chunk_table st)))
  = grid_contents st' c.
Proof.
  intros Hdb Hcr.
  destruct (created_chunk_rows st x y c st' Hdb Hcr) as (rows & -> & Hrows).
  destruct Hcr as (first & _ & _ & _ & _ & _ & _ & _ & _ & [HR HC] & Hcat & _ & _ &
                   Hcells & _).
  pose proof (Forall2_length _ _ _ Hrows) as Hlen.
  rewrite Hcat, length_seq in Hlen.
  split.
  { rewrite length_zip_with, length_seq. lia. }
  unfold contents_of_rows, grid_contents.
  assert (map (fun rec : nat * BlockRow => Some (row_attrs rec.2))
              (zip (seq (length (block_table st)) (length rows)) rows)
          = map (fun r => Block_attrs <$> heap st' !! r) (concat (Chunk_grid c)))
    as ->.
  { rewrite <- (Forall2_persists_attrs _ _ _ _ Hrows).
    apply (map_snd_zip (fun row => Some (row_attrs row))).
    rewrite length_seq. lia. }
  rewrite sorted_key_ordered by (by eapply grid_key_ordered).
  rewrite <- reshape_rows_fmap. by rewrite reshape_rows_concat.
Qed.

End Idempotence.

Lemma grid_contents_same_grid st c c' :
  Chunk_grid c' = Chunk_grid c → grid_contents st c' = grid_contents st c.
Proof. unfold grid_contents. by intros ->. Qed.

Section Main.

Variable config : Config.
Variable Block_default_color : RGB.
Variable Block_default_collidable : bool.

Local Abbreviation R := (grid_rows config).
Local Abbreviation C := (grid_cols config).
Local Abbreviation load :=
  (Chunk_load config Block_default_color Block_default_collidable).

(** Hydrating the same record again gives the same chunk: the image file
    is there after the first call, so the second call returns. *)
Lemma load_hit_again depth x y create id row st c1 st1 :
  config_divides config →
  find_chunk_row x y 0 (chunk_table st) = Some (id, row) →
  length (chunk_rows st id) = (R * C)%nat →
  load (S depth) x y create st = Ok (Some c1) st1 →
  ∃ c2 st2,
    load (S depth) x y true st1 = Ok (Some c2) st2 ∧
    Chunk_coords c2 = Chunk_coords c1 ∧
    Chunk_name c2 = Chunk_name c1 ∧
    grid_contents st2 c2 = grid_contents st1 c1 ∧
    grid_contents st2 c1 = grid_contents st1 c1 ∧
    contents_of_rows R C (chunk_rows st id) = grid_contents st1 c1.
Proof.
  intros Hcfg Hfind Hlen Hrun1.
  destruct (wpg_returns _ _ _ _ _
              (wpg_Chunk_load_hit config Block_default_color
                 Block_default_collidable True depth x y create id row st
                 Hcfg Hfind Hlen (or_introl I)) Hrun1)
    as (c & [= <-] & Hsame1 & Hhyd1 & Htr1 & Himg1 & _).
  pose proof Hhyd1 as (Hrel1 & Hct1 & Hbt1 & Hcc1).
  assert (chunk_rows st1 id = chunk_rows st id) as Hrows.
  { unfold chunk_rows. by rewrite Hbt1. }
  assert (find_chunk_row x y 0 (chunk_table st1) = Some (id, row)) as Hfind1
    by (by rewrite Hct1).
  assert (length (chunk_rows st1 id) = (R * C)%nat) as Hlen1 by (by rewrite Hrows).
  assert (drawable (hydrated_chunk config st1 id row) st1) as Hdraw1.
  { right. destruct Hsame1 as (_ & _ & _ & Hn & _).
    unfold Chunk_img_file in *. simpl in *. by rewrite <- Hn. }
  destruct (wp_elim _ _ _ (wp_Chunk_load_hit config Block_default_color
              Block_default_collidable depth x y true id row st1 Hcfg Hfind1 Hlen1
              Hdraw1))
    as (r2 & st2 & Hrun2 & c2 & -> & Hsame2 & Hhyd2 & Htr2).
  exists c2, st2. split; [done|].
  destruct Hsame1 as (Hd1 & Hx1 & Hy1 & Hn1 & _ & _ & Hg1 & _).
  destruct Hsame2 as (Hd2 & Hx2 & Hy2 & Hn2 & _ & _ & Hg2 & _).
  simpl in *.
  assert (grid_contents st1 c1 = contents_of_rows R C (chunk_rows st id)) as Hc1.
  { rewrite (grid_contents_same_grid st1 (hydrated_chunk config st id row) c1)
      by done.
    by apply hydrated_contents. }
  split_and!.
  - unfold Chunk_coords. congruence.
  - congruence.
  - rewrite Hc1.
    rewrite (grid_contents_same_grid st2 (hydrated_chunk config st1 id row) c2)
      by done.
    rewrite <- Hrows. by apply hydrated_contents.
  - apply grid_contents_grown.
    + destruct Hhyd2 as (Hrel2 & _).
      eapply grown_trans; [apply grown_app|]. by eapply relinked_grown.
    + rewrite Hg1. simpl.
      eapply grid_valid_mono; [|apply (hydrated_grid_valid st _ R C Hlen)].
      destruct Hrel1 as [-> _]. done.
  - done.
Qed.

(** C1. Whenever [Chunk.load(x, y, create=True)] returns a chunk, a second
    call returns a chunk with the same coordinate, the same name and the
    same block grid contents (block positions, sizes, colours and collidable
    flags, cell by cell), and the grid of the first chunk still has those
    contents; this for every coordinate, every configuration and every
    database whose block records name existing chunks. The first call does
    return a chunk when grids can be generated under the configuration, the
    window has pixels (so that the image can be saved) and every chunk
    record has a full grid of block records. *)
Theorem Chunk_load_create_idempotent depth x y st :
  fk_ok st →
  (config_ok config → window_ok config → full_grids config st →
   (2 ≤ depth)%nat →
   ∃ c1 st1, load depth x y true st = Ok (Some c1) st1) ∧
  (∀ c1 st1,
     load depth x y true st = Ok (Some c1) st1 →
     ∃ c2 st2,
       load depth x y true st1 = Ok (Some c2) st2 ∧
       Chunk_coords c2 = Chunk_coords c1 ∧
       Chunk_name c2 = Chunk_name c1 ∧
       grid_contents st2 c2 = grid_contents st1 c1 ∧
       grid_contents st2 c1 = grid_contents st1 c1).
Proof.
  intros Hfk. split.
  - (* the first call returns *)
    intros Hcfg Hwin Hfull Hdepth. destruct depth as [|[|depth]]; [lia..|].
    destruct (find_chunk_row x y 0 (chunk_table st)) as [[id row]|] eqn:Hfind.
    + assert (length (chunk_rows st id) = (R * C)%nat) as Hlen.
      { apply Hfull. apply find_chunk_row_Some in Hfind as (_ & Hl & _).
        apply lookup_lt_Some in Hl. lia. }
      destruct (wp_elim _ _ _ (wp_Chunk_load_hit config Block_default_color
                  Block_default_collidable (S depth) x y true id row st
                  (proj1 Hcfg) Hfind Hlen
                  (window_ok_drawable_hydrated config st id row st Hwin)))
        as (r1 & st1 & Hrun1 & c1 & -> & _). eauto.
    + destruct (wp_elim _ _ _ (wp_Chunk_load_create config Block_default_color
                  Block_default_collidable depth x y st Hcfg Hfull Hwin Hfind))
        as (r1 & st1 & Hrun1 & c1 & -> & _). eauto.
  - (* the second call returns the same *)
    intros c1 st1 Hrun1.
    destruct (find_chunk_row x y 0 (chunk_table st)) as [[id row]|] eqn:Hfind.
    + (* the coordinate has a record: both calls hydrate it *)
      pose proof (Chunk_load_Some_config _ _ _ _ _ _ _ _ _ _ Hrun1) as Hcfg.
      destruct (Chunk_load_Some_hit _ _ _ _ _ _ _ _ _ _ _ _ Hfind Hrun1)
        as (depth' & -> & Hlen).
      destruct (load_hit_again depth' x y true id row st c1 st1 Hcfg Hfind Hlen
                  Hrun1)
        as (c2 & st2 & H2 & Hc & Hn & Hg & Hg' & _).
      by exists c2, st2.
    + (* no record: the first call generates, the second hydrates *)
      destruct (Chunk_load_Some_miss _ _ _ _ _ _ _ _ _ Hfind Hrun1)
        as (depth' & -> & Hcfg).
      destruct (wpg_returns _ _ _ _ _
                  (wpg_Chunk_load_create config Block_default_color
                     Block_default_collidable True depth' x y st Hcfg
                     (or_introl I) (or_introl I) Hfind) Hrun1)
        as (c & [= <-] & Hcr & Himg1).
      destruct (created_contents config st x y c1 st1 Hfk Hcr) as [Hlen1 Hcont1].
      pose proof Hcr as (first & rows & Hx & Hy & Hname & Hid & _ & _ & _ & Hshape &
                         Hcat & _ & Hlenh & _ & _ & Hct & _).
      set (row := {| row_x := x; row_y := y;
                     row_name := "Chunk" +:+ str_pair (x, y) |}) in *.
      assert (find_chunk_row x y 0 (chunk_table st1)
              = Some (length (chunk_table st), row)) as Hfind1.
      { rewrite Hct. by rewrite (find_chunk_row_snoc x y 0 _ row Hfind). }
      assert (drawable (hydrated_chunk config st1 (length (chunk_table st)) row)
                st1) as Hdraw1.
      { right. unfold Chunk_img_file in *. rewrite Hname in Himg1. exact Himg1. }
      destruct (wp_elim _ _ _ (wp_Chunk_load_hit config Block_default_color
                  Block_default_collidable (S depth') x y true _ row st1
                  (proj1 Hcfg) Hfind1 Hlen1 Hdraw1))
        as (r2 & st2 & H2 & c2 & -> & Hsame2 & Hhyd2 & _).
      destruct (load_hit_again (S depth') x y true _ row st1 c2 st2 (proj1 Hcfg)
                  Hfind1 Hlen1 H2)
        as (c3 & st3 & _ & _ & _ & _ & Hg2 & Hrows2).
      exists c2, st2. split; [done|].
      destruct Hsame2 as (_ & Hx2 & Hy2 & Hn2 & _).
      split_and!.
      * unfold Chunk_coords. rewrite Hx2, Hy2, Hx, Hy. done.
      * rewrite Hn2, Hname. done.
      * rewrite <- Hrows2. done.
      * apply grid_contents_grown.
        -- destruct Hhyd2 as (Hrel2 & _).
           eapply grown_trans; [apply grown_app|]. by eapply relinked_grown.
        -- unfold grid_valid. apply Forall_concat. rewrite Hcat.
           apply Forall_forall. intros r Hr%elem_of_seq. lia.
Qed.

(** C8 (as the code has it). A freshly generated chunk has exactly R x C
    blocks, R and C being the integer quotients of the window by the block
    dimensions, whether or not those divide exactly: generation returns the
    chunk and raises nothing. This for every configuration under which grids
    can be generated and whose window has pixels (so that the image can be
    saved), on a database in which every chunk record has a full grid of
    block records. *)
Theorem Chunk_load_generates_full_grid depth x y st :
  config_ok config → window_ok config → full_grids config st →
  (2 ≤ depth)%nat →
  find_chunk_row x y 0 (chunk_table st) = None →
  ∃ c st',
    load depth x y true st = Ok (Some c) st' ∧
    N.of_nat (length (Chunk_blocks c))
    = ((config_window_height config / config_block_height config)
       * (config_window_width config / config_block_width config))%N ∧
    N.of_nat (length (Chunk_grid c))
    = (config_window_height config / config_block_height config)%N ∧
    Forall (fun row => N.of_nat (length row)
                       = (config_window_width config / config_block_width config)%N)
           (Chunk_grid c) ∧
    Chunk_blocks c = concat (Chunk_grid c).
Proof.
  intros Hcfg Hwin Hdb Hdepth Hfind.
  destruct depth as [|[|depth]]; [lia..|].
  destruct (wp_elim _ _ _ (wp_Chunk_load_create config Block_default_color
              Block_default_collidable depth x y st Hcfg Hdb Hwin Hfind))
    as (r1 & st1 & Hrun1 & c1 & -> & Hcr).
  exists c1, st1. split; [done|].
  destruct Hcr as (first & rows & _ & _ & _ & _ & _ & _ & Hblocks & [HR HC] &
                   Hcat & _).
  split_and!.
  - rewrite Hblocks, Hcat, length_seq. unfold grid_rows, grid_cols. lia.
  - rewrite HR. unfold grid_rows. lia.
  - eapply Forall_impl; [exact HC|]. intros row ->. unfold grid_cols. lia.
  - done.
Qed.

(** C4 (as the code has it). Generating a new chunk at (x, y) looks the west
    neighbour (x-1, y) and the south neighbour (x, y-1) up through
    [Chunk.load] with [create] left at [False], in that order, and calls
    [Chunk.load] for nothing else; the only chunk record added is the one of
    (x, y) itself, so a missing neighbour is not created. This for every
    configuration under which grids can be generated and whose window has
    pixels (so that the image can be saved), on a database in which every
    chunk record has a full grid of block records. *)
Theorem Chunk_load_looks_neighbours_up depth x y st :
  config_ok config → window_ok config → full_grids config st →
  (2 ≤ depth)%nat →
  find_chunk_row x y 0 (chunk_table st) = None →
  ∃ c st',
    load depth x y true st = Ok (Some c) st' ∧
    trace st' = trace st ++ [EvChunkLoad x y true;
                             EvChunkLoad (x - 1) y false;
                             EvChunkLoad x (y - 1) false] ∧
    chunk_table st'
    = chunk_table st ++ [{| row_x := x; row_y := y; row_name := Chunk_name c |}].
Proof.
  intros Hcfg Hwin Hdb Hdepth Hfind.
  destruct depth as [|[|depth]]; [lia..|].
  destruct (wp_elim _ _ _ (wp_Chunk_load_create config Block_default_color
              Block_default_collidable depth x y st Hcfg Hdb Hwin Hfind))
    as (r1 & st1 & Hrun1 & c1 & -> & Hcr).
  exists c1, st1. split; [done|].
  destruct Hcr as (first & rows & _ & _ & Hname & _ & _ & _ & _ & _ & _ & _ & _ &
                   _ & _ & Hct & _ & _ & _ & Htr).
  rewrite Hname. done.
Qed.

(** C6 (as the code has it). [build_blocks] on a new chunk returns the chunk
    with its flat block list equal to the grid flattened in row-major order,
    R x C blocks. The save at its end (line 263) runs before the flat block
    list is assigned (line 264): it saves the chunk's record and no block
    record, so the block table is as it was and no block of the grid has a
    record. This for every configuration under which grids can be generated
    and whose window has pixels (so that the images of the neighbours that
    are looked up can be saved), on a database in which every chunk record
    has a full grid of block records. *)
Theorem build_blocks_saves_no_block depth x y st :
  config_ok config → window_ok config → full_grids config st →
  ∃ c st',
    Chunk_build_blocks config Block_default_color Block_default_collidable
      (load (S depth)) (fresh_chunk config x y None) st = Ok c st' ∧
    Chunk_blocks c = concat (Chunk_grid c) ∧
    length (Chunk_blocks c) = (R * C)%nat ∧
    chunk_table st'
    = chunk_table st ++ [{| row_x := x; row_y := y;
                            row_name := "Chunk" +:+ str_pair (x, y) |}] ∧
    block_table st' = block_table st ∧
    ∀ a, a ∈ Chunk_blocks c → Block_db_obj <$> heap st' !! a = Some None.
Proof.
  intros Hcfg Hwin Hfull.
  destruct (wp_elim _ _ _ (wpg_wp _ _ _
              (wpg_Chunk_build_blocks config Block_default_color
                 Block_default_collidable False depth x y st Hcfg
                 (or_intror Hfull) (or_intror Hwin))))
    as (c & st' & Hrun & grid & first & -> & Hshape & Hcat & _ & _ & Hcells &
        _ & Hct & Hbt & _).
  exists (Chunk_with_blocks (concat grid)
            (Chunk_with_db_obj (Some (length (chunk_table st)))
               (Chunk_with_grid grid (fresh_chunk config x y None)))), st'.
  split; [done|]. simpl. split_and!; try done.
  - by rewrite Hcat, length_seq.
  - intros a Ha. apply elem_of_concat_lookup in Ha as (i & j & row & Hi & Hj).
    destruct (Hcells i j row a Hi Hj) as (b & -> & _ & _ & Hd). simpl.
    by rewrite Hd.
Qed.

End Main.

(** ** The database invariant *)

Lemma db_ok_initial config : db_ok config initial_state.
Proof.
  split.
  - intros id Hid. simpl in Hid. lia.
  - intros brow id Hin. by apply elem_of_nil in Hin.
Qed.

Section Invariant.

Variable config : Config.
Variable Block_default_color : RGB.
Variable Block_default_collidable : bool.

Local Abbreviation R := (grid_rows config).
Local Abbreviation C := (grid_cols config).
Local Abbreviation load :=
  (Chunk_load config Block_default_color Block_default_collidable).

Lemma persists_chunk_id h id refs rows :
  Forall2 (persists h id) refs rows →
  Forall (fun brow => row_chunk_id brow = Some id) rows.
Proof. induction 1 as [|???? [? _] _ IH]; constructor; done. Qed.

Lemma created_fk_ok st x y c st' :
  fk_ok st → created config st x y c st' → fk_ok st'.
Proof.
  intros Hfk Hcr.
  destruct Hcr as (first & rows & _ & _ & _ & _ & _ & _ & _ & _ & _ & _ & _ & _ & _ &
                   Hct & Hbt & Hrows & _).
  pose proof (persists_chunk_id _ _ _ _ Hrows) as Hnew.
  intros brow id Hin Hid. rewrite Hct, length_app. simpl.
  rewrite Hbt in Hin. apply elem_of_app in Hin as [Hin|Hin].
  - specialize (Hfk _ _ Hin Hid). lia.
  - rewrite Forall_forall in Hnew. rewrite (Hnew _ Hin) in Hid.
    injection Hid as <-. lia.
Qed.

Lemma created_db_ok st x y c st' :
  db_ok config st → created config st x y c st' → db_ok config st'.
Proof.
  intros Hdb Hcr.
  destruct (created_contents config st x y c st' (proj2 Hdb) Hcr) as [Hlen _].
  destruct Hdb as [Hcount Hfk].
  split; [|by eapply created_fk_ok].
  destruct Hcr as (first & rows & _ & _ & _ & _ & _ & _ & _ & _ & _ & _ & _ & _ & _ &
                   Hct & Hbt & Hrows & _).
  pose proof (persists_chunk_id _ _ _ _ Hrows) as Hnew.
  intros id Hid. rewrite Hct, length_app in Hid. simpl in Hid.
  destruct (decide (id = length (chunk_table st))) as [->|Hne]; [done|].
  unfold chunk_rows in *. rewrite Hbt, rows_of_chunk_app.
  rewrite (rows_of_chunk_none id _ rows).
  - rewrite app_nil_r. apply Hcount. lia.
  - eapply Forall_impl; [exact Hnew|]. intros brow -> [=]. done.
Qed.

(** Referential integrity holds wherever [Chunk.load] returns, whatever the
    configuration and the block records are. *)
Lemma Chunk_load_fk_ok depth x y create st r st' :
  fk_ok st → load depth x y create st = Ok r st' → fk_ok st'.
Proof.
  intros Hfk Hrun.
  assert (chunk_table st' = chunk_table st → block_table st' = block_table st →
          fk_ok st') as Hsame.
  { intros Hct Hbt. unfold fk_ok in *. by rewrite Hct, Hbt. }
  destruct (decide (config_block_height config ≠ 0%N ∧
                    config_block_width config ≠ 0%N)) as [Hcfg|Hn].
  2:{ destruct (wpg_returns _ _ _ _ _
        (Chunk_load_zero_block config Block_default_color
           Block_default_collidable depth x y create st Hn) Hrun) as (_ & ? & ?).
      by apply Hsame. }
  destruct depth as [|depth]; [done|].
  destruct (find_chunk_row x y 0 (chunk_table st)) as [[id row]|] eqn:Hfind.
  - destruct (decide (length (chunk_rows st id) = (R * C)%nat)) as [Hlen|Hbad].
    + destruct (wpg_returns _ _ _ _ _
                  (wpg_Chunk_load_hit config Block_default_color
                     Block_default_collidable True depth x y create id row st
                     Hcfg Hfind Hlen (or_introl I)) Hrun)
        as (c & _ & _ & (_ & Hct & Hbt & _) & _).
      by apply Hsame.
    + by pose proof (wpg_returns _ _ _ _ _
           (Chunk_load_short_grid config Block_default_color
              Block_default_collidable depth x y create id row st Hfind Hbad)
           Hrun).
  - destruct create.
    + destruct depth as [|depth].
      { by pose proof (wpg_returns _ _ _ _ _
             (Chunk_load_depth_one config Block_default_color
                Block_default_collidable x y st Hfind) Hrun). }
      destruct (decide (R ≤ 1 ∨ C ≠ 1)%nat) as [Hwide|Hone].
      * destruct (wpg_returns _ _ _ _ _
                    (wpg_Chunk_load_create config Block_default_color
                       Block_default_collidable True depth x y st
                       (conj Hcfg Hwide) (or_introl I) (or_introl I) Hfind) Hrun)
          as (c & _ & Hcr & _).
        by eapply created_fk_ok.
      * assert (2 ≤ R)%nat as HR by lia. assert (C = 1)%nat as HC by lia.
        by pose proof (wpg_returns _ _ _ _ _
             (Chunk_load_single_column config Block_default_color
                Block_default_collidable (S depth) x y st HR HC Hfind) Hrun).
    + rewrite (Chunk_load_absent config Block_default_color
                 Block_default_collidable depth x y st Hfind) in Hrun.
      injection Hrun as <- <-. by apply Hsame.
Qed.

(** [Chunk.load] keeps the database in agreement with the configuration. *)
Lemma Chunk_load_db_ok depth x y create st :
  config_ok config → window_ok config → db_ok config st → (2 ≤ depth)%nat →
  ∃ r st', load depth x y create st = Ok r st' ∧ db_ok config st'.
Proof.
  intros Hcfg Hwin Hdb Hdepth. destruct depth as [|[|depth]]; [lia..|].
  destruct (find_chunk_row x y 0 (chunk_table st)) as [[id row]|] eqn:Hfind.
  - assert (length (chunk_rows st id) = (R * C)%nat) as Hlen.
    { destruct Hdb as [Hcount _]. apply Hcount.
      apply find_chunk_row_Some in Hfind as (_ & Hl & _).
      apply lookup_lt_Some in Hl. lia. }
    destruct (wp_elim _ _ _ (wp_Chunk_load_hit config Block_default_color
                Block_default_collidable (S depth) x y create id row st (proj1 Hcfg)
                Hfind Hlen (window_ok_drawable_hydrated config st id row st Hwin)))
      as (r & st' & Hrun & c & -> & _ & (_ & Hct & Hbt & _) & _).
    exists (Some c), st'. split; [done|].
    destruct Hdb as [Hcount Hfk]. unfold db_ok, full_grids, fk_ok, chunk_rows in *.
    rewrite Hct, Hbt. done.
  - destruct create.
    + destruct (wp_elim _ _ _ (wp_Chunk_load_create config Block_default_color
                  Block_default_collidable depth x y st Hcfg (proj1 Hdb) Hwin Hfind))
        as (r & st' & Hrun & c & -> & Hcr).
      exists (Some c), st'. split; [done|]. by eapply created_db_ok.
    + eexists _, _. split; [by apply Chunk_load_absent|]. exact Hdb.
Qed.

End Invariant.

(** ** Links after hydration *)


Lemma Block_of_attrs_link a o d : Block_link d (Block_of_attrs a o) = None.
Proof. by destruct d. Qed.

Section HydratedLinks.

Variable config : Config.
Local Abbreviation R := (grid_rows config).
Local Abbreviation C := (grid_cols config).


End HydratedLinks.

Section HydratedCells.

Variable config : Config.
Local Abbreviation R := (grid_rows config).
Local Abbreviation C := (grid_cols config).

(** C3 (as the code has it). Hydrating a persisted chunk sorts its blocks by
    (y, x), reshapes them to the R x C grid and assigns, for every cell, the
    south, south-west and south-east links in rows above the first and the
    west link in columns after the first, and no other link. The south-west
    link is assigned in every column: in column 0 it is the block of the
    last column of the row below, so a block in column 0 of a row r > 0 does
    receive a south-west link. *)
Theorem hydrated_cell_links id row st :
  config_divides config →
  length (chunk_rows st id) = (R * C)%nat →
  ∃ c st',
    Chunk_load_from_db_obj config (id, row) st = Ok c st' ∧
    Chunk_grid c
    = reshape_rows R C (sorted (block_key (heap st')) (Chunk_blocks c)) ∧
    (∀ i j a, cell_at (Chunk_grid c) i j = Some a →
       ∃ b, heap st' !! a = Some b ∧
            ∀ d, Block_link d b = link_target (Chunk_grid c) C i j d) ∧
    (∀ i a, (0 < i)%nat → cell_at (Chunk_grid c) i 0 = Some a →
       ∃ t, cell_at (Chunk_grid c) (i - 1) (C - 1) = Some t ∧
            Block_link Dsw <$> heap st' !! a = Some (Some t)).
Proof.
  intros Hcfg Hlen.
  assert (wp (Chunk_load_from_db_obj config (id, row)) st
            (fun c st' =>
               c = hydrated_chunk config st id row ∧
               ∃ h', st' = with_heap h' st ∧
                 links_assigned (hydrated_grid st (chunk_rows st id) R C) C
                   (hydrated_heap st (chunk_rows st id)) h')) as Hwp.
  { unfold Chunk_load_from_db_obj. apply wp_bind.
    eapply wp_intro; [by apply Chunk_init_Ok|]. simpl.
    eapply wp_mono; [eapply (wp_Chunk_load_blocks_cells _ id st R C); done|].
    by intros c st' [-> H]. }
  destruct (wp_elim _ _ _ Hwp) as (c & st' & Hrun & -> & h' & -> & Hlen' & Hcells).
  exists (hydrated_chunk config st id row), (with_heap h' st).
  split; [done|]. simpl.
  set (rows := chunk_rows st id) in *.
  set (g := hydrated_grid st rows R C) in *.
  destruct (hydrated_grid_shape st rows R C Hlen) as [Hshape Hcat].
  assert (∀ i j a, cell_at g i j = Some a →
            ∃ rec b, hydrated_heap st rows !! a = Some (block_of_row rec) ∧
                     h' !! a = Some b ∧
                     cell_linked g C i j (block_of_row rec) b) as Hcell.
  { intros i j a Ha.
    pose proof (cell_at_elem _ _ _ _ Ha) as Hin.
    apply hydrated_grid_elem in Hin; [|done].
    destruct (lookup_lt_is_Some_2 rows (a - length (heap st))) as [rec Hrec]; [lia|].
    pose proof (hydrated_heap_lookup st rows _ rec Hrec) as Hmid.
    replace (length (heap st) + (a - length (heap st)))%nat with a in Hmid by lia.
    destruct (Hcells i j a _ Ha Hmid) as (b & Hb & Hl). eauto. }
  assert (∀ i j a, cell_at g i j = Some a →
            ∃ b, h' !! a = Some b ∧ ∀ d, Block_link d b = link_target g C i j d)
    as Hlinks.
  { intros i j a Ha. destruct (Hcell i j a Ha) as (rec & b & _ & Hb & _ & _ & Hl).
    exists b. split; [done|]. intros d. rewrite Hl.
    unfold block_of_row. rewrite Block_of_attrs_link. by destruct (link_target _ _ _ _ _). }
  split_and!.
  - unfold g, hydrated_grid. f_equal. apply sorted_ext.
    intros a Ha. fold rows in Ha.
    assert (a ∈ concat g) as Hin by (apply hydrated_grid_elem; [done|]; by apply elem_of_seq in Ha).
    apply elem_of_concat_lookup in Hin as (i & j & r & Hi & Hj).
    destruct (Hcell i j a) as (rec & b & Hh & Hb & Hattrs & _).
    { apply cell_at_Some. eauto. }
    unfold block_key. fold rows. rewrite Hh, Hb.
    change (Block_y (block_of_row rec)) with (attr_y (Block_attrs (block_of_row rec))).
    change (Block_x (block_of_row rec)) with (attr_x (Block_attrs (block_of_row rec))).
    by rewrite <- Hattrs.
  - exact Hlinks.
  - intros i a Hi Ha.
    destruct (cell_at_shape _ _ _ _ _ _ Hshape Ha) as [HiR HC].
    destruct (cell_at_defined R C g (i - 1) (C - 1) Hshape) as [t Ht]; [lia..|].
    exists t. split; [done|].
    destruct (Hlinks i 0%nat a Ha) as (b & -> & Hl).
    change (Some (Block_link Dsw b) = Some (Some t)). f_equal.
    rewrite Hl. unfold link_target.
    rewrite decide_False by lia. by rewrite decide_True by done.
Qed.

End HydratedCells.

(** ** The lazy neighbour accessors *)

(** C5 (as the code has it). For each of the 8 neighbour accessors, every
    dereference (the first and every later one) computes the target
    coordinate from the chunk's own coordinate by the fixed compass delta
    and calls the resolver [world.load_chunk] on it with [create=True];
    the accessor keeps nothing on the chunk, so an access after a first one
    that returned resolves again. *)
Theorem LazyChunkLoader_resolves_on_every_access
    (world_load_chunk : Z → Z → bool → M (option Chunk))
    (d : direction) (obj : Chunk) (st : State) :
  let tx := Chunk_x obj + (compass_delta d).1 in
  let ty := Chunk_y obj + (compass_delta d).2 in
  let asked s :=
    with_trace (trace s ++ [EvPrint ("Loading chunk " +:+ str_pair (tx, ty));
                            EvWorldLoadChunk tx ty true]) s in
  LazyChunkLoader_get world_load_chunk d obj st
  = world_load_chunk tx ty true (asked st) ∧
  ∀ r st1, LazyChunkLoader_get world_load_chunk d obj st = Ok r st1 →
    LazyChunkLoader_get world_load_chunk d obj st1
    = world_load_chunk tx ty true (asked st1).
Proof.
  assert (dir_map obj d
          = (Chunk_x obj + (compass_delta d).1, Chunk_y obj + (compass_delta d).2))
    as Hmap.
  { destruct d; simpl; f_equal; lia. }
  assert (∀ s, LazyChunkLoader_get world_load_chunk d obj s
               = world_load_chunk (Chunk_x obj + (compass_delta d).1)
                   (Chunk_y obj + (compass_delta d).2) true
                   (with_trace
                      (trace s ++
                         [EvPrint ("Loading chunk " +:+
                            str_pair (Chunk_x obj + (compass_delta d).1,
                                      Chunk_y obj + (compass_delta d).2));
                          EvWorldLoadChunk (Chunk_x obj + (compass_delta d).1)
                            (Chunk_y obj + (compass_delta d).2) true]) s)) as Hget.
  { intros s. unfold LazyChunkLoader_get. rewrite Hmap.
    unfold bind, log, modify. simpl. by rewrite <- app_assoc. }
  simpl. split.
  - apply Hget.
  - intros r st1 _. apply Hget.
Qed.

(** ** Concrete runs *)

Lemma example_config_ok : config_ok example_config.
Proof.
  split; [split; discriminate|]. right. vm_compute. discriminate.
Qed.

Lemma example_window_ok : window_ok example_config.
Proof. split; discriminate. Qed.

Lemma Chunk_load_create_idempotent_witness :
  fk_ok initial_state ∧
  ∃ c1 st1 c2 st2,
    Chunk_load example_config example_color true 2 0 0 true initial_state
    = Ok (Some c1) st1 ∧
    Chunk_load example_config example_color true 2 0 0 true st1
    = Ok (Some c2) st2 ∧
    Chunk_coords c2 = Chunk_coords c1 ∧
    Chunk_name c2 = Chunk_name c1 ∧
    grid_contents st2 c2 = grid_contents st1 c1 ∧
    grid_contents st2 c1 = grid_contents st1 c1.
Proof.
  split; [apply (db_ok_initial example_config)|].
  destruct (Chunk_load_create_idempotent example_config example_color true
              2 0 0 initial_state (proj2 (db_ok_initial example_config)))
    as [Hreturns Hsame].
  destruct (Hreturns example_config_ok example_window_ok
              (proj1 (db_ok_initial example_config)) (le_n 2))
    as (c1 & st1 & H1).
  destruct (Hsame c1 st1 H1) as (c2 & st2 & H2).
  exists c1, st1, c2, st2. split; [exact H1 | exact H2].
Defined.



Lemma hydrated_cell_links_witness :
  config_divides example_config ∧
  length (chunk_rows example_persisted 0)
  = (grid_rows example_config * grid_cols example_config)%nat ∧
  ∃ c st',
    Chunk_load_from_db_obj example_config
      (0%nat, {| row_x := 0; row_y := 0; row_name := "Chunk(0, 0)" |})
      example_persisted = Ok c st' ∧
    Chunk_grid c
    = reshape_rows 2 2 (sorted (block_key (heap st')) (Chunk_blocks c)) ∧
    (∀ i j a, cell_at (Chunk_grid c) i j = Some a →
       ∃ b, heap st' !! a = Some b ∧
            ∀ d, Block_link d b = link_target (Chunk_grid c) 2 i j d) ∧
    (∀ i a, (0 < i)%nat → cell_at (Chunk_grid c) i 0 = Some a →
       ∃ t, cell_at (Chunk_grid c) (i - 1) (2 - 1) = Some t ∧
            Block_link Dsw <$> heap st' !! a = Some (Some t)).
Proof.
  split; [split; discriminate|]. split; [vm_compute; reflexivity|].
  apply (hydrated_cell_links example_config 0
           {| row_x := 0; row_y := 0; row_name := "Chunk(0, 0)" |}
           example_persisted);
    [split; discriminate | vm_compute; reflexivity].
Defined.

(** The same through [Chunk.load]: hydrating the persisted 2 x 2 example
    chunk gives the block at row 1, column 0 a south-west link; it points to
    the block at row 0, column 1, the last block of the row below. *)
Lemma hydrated_first_column_has_south_west_link :
  ∃ c st a b,
    example_load 0 0 true example_persisted = Ok (Some c) st ∧
    Chunk_grid c !! 1%nat ≫= (.!! 0%nat) = Some a ∧
    Chunk_grid c !! 0%nat ≫= (.!! 1%nat) = Some b ∧
    Block_link Dsw <$> heap st !! a = Some (Some b).
Proof.
  eexists _, _, _, _. split; [vm_compute; reflexivity|].
  split_and!; vm_compute; reflexivity.
Qed.

(** C4, refuted as stated: creating chunk (0, 0) from nothing looks its west
    and south neighbours up with [create=False]; afterwards neither has a
    record. *)
Lemma generation_does_not_create_neighbours :
  ∃ c st,
    example_load 0 0 true initial_state = Ok (Some c) st ∧
    trace st = [EvChunkLoad 0 0 true; EvChunkLoad (-1) 0 false;
                EvChunkLoad 0 (-1) false] ∧
    find_chunk_row (-1) 0 0 (chunk_table st) = None ∧
    find_chunk_row 0 (-1) 0 (chunk_table st) = None.
Proof.
  eexists _, _. split; [vm_compute; reflexivity|].
  split_and!; vm_compute; reflexivity.
Qed.

Lemma Chunk_load_looks_neighbours_up_witness :
  find_chunk_row 0 0 0 (chunk_table initial_state) = None ∧
  ∃ c st',
    Chunk_load example_config example_color true 2 0 0 true initial_state
    = Ok (Some c) st' ∧
    trace st' = trace initial_state ++ [EvChunkLoad 0 0 true;
                                        EvChunkLoad (0 - 1) 0 false;
                                        EvChunkLoad 0 (0 - 1) false] ∧
    chunk_table st'
    = chunk_table initial_state
      ++ [{| row_x := 0; row_y := 0; row_name := Chunk_name c |}].
Proof.
  split; [reflexivity|].
  apply (Chunk_load_looks_neighbours_up example_config example_color true
           2 0 0 initial_state);
    [exact example_config_ok | exact example_window_ok
    | apply (db_ok_initial example_config) | lia | reflexivity].
Defined.

(** C5, refuted as stated: two accesses of [chunk.n] call the resolver
    twice, both times for (0, 1) with [create=True]. *)
Lemma lazy_neighbour_resolved_again_on_second_access :
  ∃ r st,
    (LazyChunkLoader_get example_world_load_chunk Dn example_chunk ;;
     LazyChunkLoader_get example_world_load_chunk Dn example_chunk) initial_state
    = Ok r st ∧
    world_load_calls (trace st) = [(0, 1, true); (0, 1, true)].
Proof.
  eexists _, _. split; [vm_compute; reflexivity|]. vm_compute. reflexivity.
Qed.

Lemma build_blocks_saves_no_block_witness :
  config_ok example_config ∧ window_ok example_config ∧
  full_grids example_config initial_state ∧
  ∃ c st,
    Chunk_build_blocks example_config example_color true example_load
      example_chunk initial_state = Ok c st ∧
    Chunk_blocks c = concat (Chunk_grid c) ∧
    length (Chunk_blocks c) = 4%nat ∧
    chunk_table st = [{| row_x := 0; row_y := 0; row_name := "Chunk(0, 0)" |}] ∧
    block_table st = [] ∧
    ∀ a, a ∈ Chunk_blocks c → Block_db_obj <$> heap st !! a = Some None.
Proof.
  split; [exact example_config_ok|].
  split; [exact example_window_ok|].
  split; [apply (db_ok_initial example_config)|].
  apply (build_blocks_saves_no_block example_config example_color true
           999 0 0 initial_state);
    [exact example_config_ok | exact example_window_ok
    | apply (db_ok_initial example_config)].
Defined.

(** C7, at the failing input: [load_blocks] on a chunk without a backing
    record raises [NameError] for the unbound name [NoDatabaseObject], not
    the imported [NoDatabaseModel]. *)
Lemma load_blocks_without_record_raises_NameError (self : Chunk) (st : State) :
  Chunk_load_blocks (Chunk_with_db_obj None self) st
  = Raise (NameError "NoDatabaseObject") st ∧
  NameError "NoDatabaseObject" ≠ NoDatabaseModel ∧
  raise_named "NoDatabaseModel" = NoDatabaseModel.
Proof. split_and!; [reflexivity|discriminate|reflexivity]. Qed.

(** C8, refuted as stated: with a 5 x 5 window and 2 x 2 blocks, which do
    not divide it, generation raises nothing and returns a chunk of
    2 x 2 = 4 blocks. *)
Lemma truncated_grid_is_generated :
  (config_window_width example_config `mod` config_block_width example_config ≠ 0)%N ∧
  (config_window_height example_config `mod` config_block_height example_config ≠ 0)%N ∧
  ∃ c st,
    example_load 0 0 true initial_state = Ok (Some c) st ∧
    length (Chunk_blocks c) = 4%nat.
Proof.
  split; [discriminate|]. split; [discriminate|].
  eexists _, _. split; vm_compute; reflexivity.
Qed.

Lemma Chunk_load_generates_full_grid_witness :
  ∃ c st',
    Chunk_load example_config example_color true 2 0 0 true initial_state
    = Ok (Some c) st' ∧
    N.of_nat (length (Chunk_blocks c))
    = ((config_window_height example_config / config_block_height example_config)
       * (config_window_width example_config / config_block_width example_config))%N ∧
    N.of_nat (length (Chunk_grid c))
    = (config_window_height example_config / config_block_height example_config)%N ∧
    Forall (fun row => N.of_nat (length row)
                       = (config_window_width example_config
                          / config_block_width example_config)%N)
           (Chunk_grid c) ∧
    Chunk_blocks c = concat (Chunk_grid c).
Proof.
  apply (Chunk_load_generates_full_grid example_config example_color true
           2 0 0 initial_state);
    [exact example_config_ok | exact example_window_ok
    | apply (db_ok_initial example_config) | lia | reflexivity].
Defined.

(** ** The update pass: how often a pair of objects is notified *)
Section UpdateLoopFacts.

Context {Obj W : Type} `{EqDecision Obj}.
Variable G : Game Obj W.

(** [Inv] holds of every state the tick goes through. *)
Variable Inv : W → Prop.
Hypothesis Inv_update : ∀ o w, Inv w → Inv (obj_update G o w).
Hypothesis Inv_on_collision : ∀ o o' w, Inv w → Inv (obj_on_collision G o o' w).

Variable objs : list Obj.
Hypothesis Inv_objects : ∀ w, Inv w → game_objects G w = objs.

Variables a b : Obj.
Hypothesis a_ne_b : a ≠ b.

Variables ma mb hab hba : bool.
Hypothesis mobile_a : ∀ w, Inv w → obj_mobile G a w = ma.
Hypothesis mobile_b : ∀ w, Inv w → obj_mobile G b w = mb.
Hypothesis hit_ab : ma = true → ∀ w, Inv w →
  obj_collidable G b w && obj_collides_with G a b w = hab.
Hypothesis hit_ba : mb = true → ∀ w, Inv w →
  obj_collidable G a w && obj_collides_with G b a w = hba.

Lemma on_collision_calls_app (o o' : Obj) (l1 l2 : list (Call Obj)) :
  on_collision_calls o o' (l1 ++ l2)
  = (on_collision_calls o o' l1 + on_collision_calls o o' l2)%nat.
Proof. unfold on_collision_calls. by rewrite filter_app, length_app. Qed.

Lemma on_collision_calls_pair (o o' x y : Obj) :
  on_collision_calls o o' [CallOnCollision x y; CallOnCollision y x]
  = ((if decide (x = o ∧ y = o') then 1 else 0)
     + (if decide (y = o ∧ x = o') then 1 else 0))%nat.
Proof.
  unfold on_collision_calls.
  rewrite !filter_cons, filter_nil.
  destruct (decide (x = o ∧ y = o')) as [[E1 E2]|N1];
    destruct (decide (y = o ∧ x = o')) as [[E3 E4]|N2];
    repeat case_decide; simplify_eq; simpl; try reflexivity;
    exfalso; tauto.
Qed.

Lemma occurrences_cons (o x : Obj) (l : list Obj) :
  occurrences o (x :: l)
  = ((if decide (x = o) then 1 else 0) + occurrences o l)%nat.
Proof.
  unfold occurrences. rewrite filter_cons. by case_decide.
Qed.

Lemma pair_hits_self (obj : Obj) : pair_hits a b hab hba obj obj = 0%nat.
Proof.
  unfold pair_hits.
  destruct (decide (obj = a ∧ obj = b)) as [[E1 E2]|_]; [exfalso; congruence|].
  destruct (decide (obj = b ∧ obj = a)) as [[E1 E2]|_]; [exfalso; congruence|].
  reflexivity.
Qed.

Lemma update_inner_step (obj other : Obj) (w : W) (calls : list (Call Obj)) :
  (obj = a → ma = true) → (obj = b → mb = true) → Inv w →
  Inv (update_inner G obj (w, calls) other).1 ∧
  on_collision_calls a b (update_inner G obj (w, calls) other).2
  = (on_collision_calls a b calls + pair_hits a b hab hba obj other)%nat.
Proof.
  intros Ha Hb HI. unfold update_inner; simpl.
  destruct (decide (other = obj)) as [->|Hne]; simpl.
  { split; [done|]. rewrite pair_hits_self. lia. }
  assert (pair_hits a b hab hba obj other
          = if obj_collidable G other w && obj_collides_with G obj other w
            then ((if decide (obj = a ∧ other = b) then 1 else 0)
                  + (if decide (obj = b ∧ other = a) then 1 else 0))%nat
            else 0%nat) as ->.
  { unfold pair_hits.
    destruct (decide (obj = a ∧ other = b)) as [[E1 E2]|N1];
      destruct (decide (obj = b ∧ other = a)) as [[E3 E4]|N2].
    - exfalso. congruence.
    - subst. rewrite (hit_ab (Ha eq_refl) w HI). by destruct hab.
    - subst. rewrite (hit_ba (Hb eq_refl) w HI). by destruct hba.
    - by destruct (_ && _). }
  destruct (obj_collidable G other w) eqn:Hcol;
    [destruct (obj_collides_with G obj other w) eqn:Hcw|]; simpl.
  - split; [by apply Inv_on_collision, Inv_on_collision|].
    rewrite on_collision_calls_app, on_collision_calls_pair.
    destruct (decide (obj = a ∧ other = b)) as [[E1 E2]|N1];
      destruct (decide (obj = b ∧ other = a)) as [[E3 E4]|N2];
      destruct (decide (other = a ∧ obj = b)) as [[E5 E6]|N3];
      try lia; exfalso; tauto.
  - split; [done|]. lia.
  - split; [done|]. lia.
Qed.

Lemma update_inner_calls (obj : Obj) (l : list Obj) :
  (obj = a → ma = true) → (obj = b → mb = true) →
  ∀ w calls, Inv w →
  Inv (foldl (update_inner G obj) (w, calls) l).1 ∧
  on_collision_calls a b (foldl (update_inner G obj) (w, calls) l).2
  = (on_collision_calls a b calls
     + (if decide (obj = a) then (if hab then occurrences b l else 0) else 0)
     + (if decide (obj = b) then (if hba then occurrences a l else 0) else 0))%nat.
Proof.
  intros Ha Hb. induction l as [|other l IH]; intros w calls HI; simpl.
  - split; [done|]. unfold occurrences; simpl.
    destruct (decide (obj = a)), (decide (obj = b)), hab, hba; lia.
  - destruct (update_inner_step obj other w calls Ha Hb HI) as [HI1 Hc1].
    destruct (update_inner G obj (w, calls) other) as [w1 calls1]; simpl in *.
    destruct (IH w1 calls1 HI1) as [HI2 Hc2]. split; [done|].
    rewrite Hc2, Hc1, !occurrences_cons. unfold pair_hits.
    destruct (decide (obj = a)) as [Ea|Hoa]; destruct (decide (obj = b)) as [Eb|Hob];
      [exfalso; congruence|subst obj|subst obj|].
    + destruct (decide (other = b)) as [Eo|Hob'].
      * rewrite decide_True by done. rewrite decide_False by tauto.
        destruct hab; lia.
      * rewrite decide_False by tauto. rewrite decide_False by tauto.
        destruct hab; lia.
    + destruct (decide (other = a)) as [Eo|Hoa'].
      * rewrite decide_False by tauto. rewrite decide_True by done.
        destruct hba; lia.
      * rewrite decide_False by tauto. rewrite decide_False by tauto.
        destruct hba; lia.
    + rewrite decide_False by tauto. rewrite decide_False by tauto. lia.
Qed.

(** The outer loop over a part [l] of the object list. *)
Lemma update_outer_calls (l : list Obj) :
  ∀ w calls checked, Inv w →
  Inv (foldl (update_outer G) (w, calls, checked) l).1.1 ∧
  on_collision_calls a b (foldl (update_outer G) (w, calls, checked) l).1.2
  = (on_collision_calls a b calls
     + occurrences a l * (if ma && hab then occurrences b objs else 0)
     + occurrences b l * (if mb && hba then occurrences a objs else 0))%nat.
Proof.
  induction l as [|obj l IH]; intros w calls checked HI; simpl.
  - split; [done|]. unfold occurrences; simpl. lia.
  - unfold update_outer at 2 4; simpl.
    set (w1 := obj_update G obj w).
    assert (Inv w1) as HI1 by by apply Inv_update.
    assert (on_collision_calls a b (calls ++ [CallUpdate obj])
            = on_collision_calls a b calls) as Hupd.
    { rewrite on_collision_calls_app. unfold on_collision_calls at 2.
      rewrite filter_cons, decide_False by done. simpl. lia. }
    rewrite !occurrences_cons.
    destruct (obj_mobile G obj w1) eqn:Hm.
    + assert (obj = a → ma = true) as Ha.
      { intros E. subst obj. by rewrite <- (mobile_a w1 HI1). }
      assert (obj = b → mb = true) as Hb.
      { intros E. subst obj. by rewrite <- (mobile_b w1 HI1). }
      rewrite (Inv_objects w1 HI1).
      destruct (update_inner_calls obj objs Ha Hb w1 (calls ++ [CallUpdate obj]) HI1)
        as [HI2 Hc2].
      destruct (foldl (update_inner G obj) (w1, calls ++ [CallUpdate obj]) objs)
        as [w2 calls2]; simpl in *.
      destruct (IH w2 calls2 (checked ++ [obj]) HI2) as [HI3 Hc3].
      split; [done|]. rewrite Hc3, Hc2, Hupd.
      destruct (decide (obj = a)) as [Ea|Hoa]; destruct (decide (obj = b)) as [Eb|Hob];
        [exfalso; congruence|subst obj|subst obj|].
      * rewrite (Ha eq_refl). simpl. destruct hab, (mb && hba); lia.
      * rewrite (Hb eq_refl). simpl. destruct hba, (ma && hab); lia.
      * lia.
    + destruct (IH w1 (calls ++ [CallUpdate obj]) (checked ++ [obj]) HI1) as [HI3 Hc3].
      split; [done|]. rewrite Hc3, Hupd.
      destruct (decide (obj = a)) as [Ea|Hoa]; destruct (decide (obj = b)) as [Eb|Hob];
        [exfalso; congruence|subst obj|subst obj|].
      * rewrite <- (mobile_a w1 HI1), Hm. simpl. lia.
      * rewrite <- (mobile_b w1 HI1), Hm. simpl. lia.
      * lia.
Qed.

(** The calls [a.on_collision(b)] of one tick. *)
Lemma Chunk_update_calls (w : W) :
  Inv w →
  on_collision_calls a b (Chunk_update G w).2
  = (occurrences a objs * (if ma && hab then occurrences b objs else 0)
     + occurrences b objs * (if mb && hba then occurrences a objs else 0))%nat.
Proof.
  intros HI. unfold Chunk_update. rewrite (Inv_objects w HI).
  destruct (update_outer_calls objs w [] [] HI) as [_ ->].
  unfold on_collision_calls; simpl. lia.
Qed.

End UpdateLoopFacts.

(** C9. In one tick of [Chunk.update], for two distinct objects [A] and [B]
    that each occur once in the chunk's game-object list, [A] mobile and
    collidable, [B] collidable and not mobile: [A.on_collision(B)] and
    [B.on_collision(A)] are each called exactly once when [A.collides_with(B)]
    holds during the tick, and never when it does not. *)
Theorem update_notifies_mobile_and_stationary_once
    {Obj W : Type} `{EqDecision Obj} (G : Game Obj W) (Inv : W → Prop)
    (A B : Obj) (overlap : bool) (w : W) :
  (∀ o w', Inv w' → Inv (obj_update G o w')) →
  (∀ o o' w', Inv w' → Inv (obj_on_collision G o o' w')) →
  (∀ w', Inv w' → game_objects G w' = game_objects G w) →
  A ≠ B →
  occurrences A (game_objects G w) = 1%nat →
  occurrences B (game_objects G w) = 1%nat →
  (∀ w', Inv w' → obj_mobile G A w' = true ∧ obj_collidable G A w' = true) →
  (∀ w', Inv w' → obj_mobile G B w' = false ∧ obj_collidable G B w' = true) →
  (∀ w', Inv w' → obj_collides_with G A B w' = overlap) →
  Inv w →
  on_collision_calls A B (Chunk_update G w).2 = (if overlap then 1 else 0)%nat ∧
  on_collision_calls B A (Chunk_update G w).2 = (if overlap then 1 else 0)%nat.
Proof.
  intros Hupd Hcol Hobjs Hne HA HB HflagA HflagB Hover HI. split.
  - rewrite (Chunk_update_calls G Inv Hupd Hcol (game_objects G w) Hobjs A B Hne
               true false overlap false); try done.
    + rewrite HA, HB. destruct overlap; simpl; lia.
    + intros w' HI'. apply HflagA, HI'.
    + intros w' HI'. apply HflagB, HI'.
    + intros _ w' HI'. destruct (HflagB w' HI') as [_ ->]. by rewrite (Hover w' HI').
  - rewrite (Chunk_update_calls G Inv Hupd Hcol (game_objects G w) Hobjs B A
               (not_eq_sym Hne) false true false overlap); try done.
    + rewrite HA, HB. destruct overlap; simpl; lia.
    + intros w' HI'. apply HflagB, HI'.
    + intros w' HI'. apply HflagA, HI'.
    + intros _ w' HI'. destruct (HflagB w' HI') as [_ ->]. by rewrite (Hover w' HI').
Qed.

Lemma update_notifies_mobile_and_stationary_once_witness :
  on_collision_calls 0%nat 1%nat (Chunk_update (two_object_game false true) tt).2 = 1%nat ∧
  on_collision_calls 1%nat 0%nat (Chunk_update (two_object_game false true) tt).2 = 1%nat.
Proof.
  apply (update_notifies_mobile_and_stationary_once
           (two_object_game false true) (fun _ => True) 0%nat 1%nat true tt);
    try done.
Defined.

(** C10. In one tick of [Chunk.update], for two distinct objects [A] and [B]
    that each occur once in the chunk's game-object list, both mobile and
    both collidable, with [collides_with] holding in both directions:
    [A.on_collision(B)] and [B.on_collision(A)] are each called exactly
    twice, once when [A] is the outer object and once when [B] is. *)
Theorem update_notifies_two_mobiles_twice
    {Obj W : Type} `{EqDecision Obj} (G : Game Obj W) (Inv : W → Prop)
    (A B : Obj) (w : W) :
  (∀ o w', Inv w' → Inv (obj_update G o w')) →
  (∀ o o' w', Inv w' → Inv (obj_on_collision G o o' w')) →
  (∀ w', Inv w' → game_objects G w' = game_objects G w) →
  A ≠ B →
  occurrences A (game_objects G w) = 1%nat →
  occurrences B (game_objects G w) = 1%nat →
  (∀ w', Inv w' → obj_mobile G A w' = true ∧ obj_collidable G A w' = true) →
  (∀ w', Inv w' → obj_mobile G B w' = true ∧ obj_collidable G B w' = true) →
  (∀ w', Inv w' → obj_collides_with G A B w' = true ∧
                   obj_collides_with G B A w' = true) →
  Inv w →
  on_collision_calls A B (Chunk_update G w).2 = 2%nat ∧
  on_collision_calls B A (Chunk_update G w).2 = 2%nat.
Proof.
  intros Hupd Hcol Hobjs Hne HA HB HflagA HflagB Hover HI. split.
  - rewrite (Chunk_update_calls G Inv Hupd Hcol (game_objects G w) Hobjs A B Hne
               true true true true); try done.
    + rewrite HA, HB. simpl; lia.
    + intros w' HI'. apply HflagA, HI'.
    + intros w' HI'. apply HflagB, HI'.
    + intros _ w' HI'. destruct (HflagB w' HI') as [_ ->].
      by destruct (Hover w' HI') as [-> _].
    + intros _ w' HI'. destruct (HflagA w' HI') as [_ ->].
      by destruct (Hover w' HI') as [_ ->].
  - rewrite (Chunk_update_calls G Inv Hupd Hcol (game_objects G w) Hobjs B A
               (not_eq_sym Hne) true true true true); try done.
    + rewrite HA, HB. simpl; lia.
    + intros w' HI'. apply HflagB, HI'.
    + intros w' HI'. apply HflagA, HI'.
    + intros _ w' HI'. destruct (HflagA w' HI') as [_ ->].
      by destruct (Hover w' HI') as [_ ->].
    + intros _ w' HI'. destruct (HflagB w' HI') as [_ ->].
      by destruct (Hover w' HI') as [-> _].
Qed.

Lemma update_notifies_two_mobiles_twice_witness :
  on_collision_calls 0%nat 1%nat (Chunk_update (two_object_game true true) tt).2 = 2%nat ∧
  on_collision_calls 1%nat 0%nat (Chunk_update (two_object_game true true) tt).2 = 2%nat.
Proof.
  apply (update_notifies_two_mobiles_twice
           (two_object_game true true) (fun _ => True) 0%nat 1%nat tt);
    try done.
Defined.

(** * Further properties of the code *)

Section UpdateLoopShape.

Context {Obj W : Type} `{EqDecision Obj}.
Variable G : Game Obj W.

Lemma updated_app (l1 l2 : list (Call Obj)) :
  updated (l1 ++ l2) = updated l1 ++ updated l2.
Proof. unfold updated. apply omap_app. Qed.

Lemma update_inner_updated obj acc other :
  updated (update_inner G obj acc other).2 = updated acc.2.
Proof.
  unfold update_inner. destruct acc as [w calls]; simpl.
  repeat case_match; simpl; try done.
  rewrite updated_app. simpl. by rewrite app_nil_r.
Qed.

Lemma foldl_update_inner_updated obj l acc :
  updated (foldl (update_inner G obj) acc l).2 = updated acc.2.
Proof.
  revert acc. induction l as [|other l IH]; intros acc; simpl; [done|].
  by rewrite IH, update_inner_updated.
Qed.

Lemma foldl_update_outer_updated l acc :
  updated (foldl (update_outer G) acc l).1.2 = updated acc.1.2 ++ l.
Proof.
  revert acc. induction l as [|obj l IH]; intros acc; simpl.
  - by rewrite app_nil_r.
  - rewrite IH. unfold update_outer. simpl.
    destruct (obj_mobile G obj (obj_update G obj acc.1.1)); simpl.
    + rewrite foldl_update_inner_updated. simpl.
      rewrite updated_app. simpl. by rewrite <- app_assoc.
    + rewrite updated_app. simpl. by rewrite <- app_assoc.
Qed.

(** X1. One tick calls [update()] once on every object of the chunk's object
    list as it is when the tick starts, in the order of the list, whatever
    the objects do to the chunk during the tick. *)
Theorem update_updates_snapshot_in_order (w : W) :
  updated (Chunk_update G w).2 = game_objects G w.
Proof.
  unfold Chunk_update. by rewrite foldl_update_outer_updated.
Qed.

Lemma update_inner_symmetric obj acc other o o' :
  on_collision_calls o o' acc.2 = on_collision_calls o' o acc.2 →
  on_collision_calls o o' (update_inner G obj acc other).2
  = on_collision_calls o' o (update_inner G obj acc other).2.
Proof.
  intros Hacc. unfold update_inner. destruct acc as [w calls]; simpl in *.
  repeat case_match; simpl; try done.
  rewrite !on_collision_calls_app, !on_collision_calls_pair, Hacc.
  repeat case_decide; try lia; exfalso; tauto.
Qed.

Lemma foldl_update_inner_symmetric obj l acc o o' :
  on_collision_calls o o' acc.2 = on_collision_calls o' o acc.2 →
  on_collision_calls o o' (foldl (update_inner G obj) acc l).2
  = on_collision_calls o' o (foldl (update_inner G obj) acc l).2.
Proof.
  revert acc. induction l as [|other l IH]; intros acc Hacc; simpl; [done|].
  by apply IH, update_inner_symmetric.
Qed.

Lemma on_collision_calls_update o o' calls (obj : Obj) :
  on_collision_calls o o' (calls ++ [CallUpdate obj]) = on_collision_calls o o' calls.
Proof.
  rewrite on_collision_calls_app. unfold on_collision_calls at 2.
  rewrite filter_cons, decide_False by done. simpl. lia.
Qed.

Lemma foldl_update_outer_symmetric l acc o o' :
  on_collision_calls o o' acc.1.2 = on_collision_calls o' o acc.1.2 →
  on_collision_calls o o' (foldl (update_outer G) acc l).1.2
  = on_collision_calls o' o (foldl (update_outer G) acc l).1.2.
Proof.
  revert acc. induction l as [|obj l IH]; intros acc Hacc; simpl; [done|].
  apply IH. unfold update_outer. simpl.
  destruct (obj_mobile G obj (obj_update G obj acc.1.1)); simpl.
  - apply foldl_update_inner_symmetric. simpl.
    by rewrite !on_collision_calls_update.
  - by rewrite !on_collision_calls_update.
Qed.

(** X2. Notification is symmetric: in one tick [o.on_collision(o')] is called
    as often as [o'.on_collision(o)], whatever the objects are and do. *)
Theorem update_notifies_symmetrically (w : W) (o o' : Obj) :
  on_collision_calls o o' (Chunk_update G w).2
  = on_collision_calls o' o (Chunk_update G w).2.
Proof.
  unfold Chunk_update. by apply foldl_update_outer_symmetric.
Qed.

Lemma update_inner_no_self obj acc other o :
  on_collision_calls o o acc.2 = 0%nat →
  on_collision_calls o o (update_inner G obj acc other).2 = 0%nat.
Proof.
  intros Hacc. unfold update_inner. destruct acc as [w calls]; simpl in *.
  destruct (decide (other = obj)) as [->|Hne]; [done|].
  repeat case_match; simpl; try done.
  rewrite on_collision_calls_app, on_collision_calls_pair, Hacc.
  repeat case_decide; try lia; exfalso; destruct_and?; congruence.
Qed.

Lemma foldl_update_inner_no_self obj l acc o :
  on_collision_calls o o acc.2 = 0%nat →
  on_collision_calls o o (foldl (update_inner G obj) acc l).2 = 0%nat.
Proof.
  revert acc. induction l as [|other l IH]; intros acc Hacc; simpl; [done|].
  by apply IH, update_inner_no_self.
Qed.

Lemma foldl_update_outer_no_self l acc o :
  on_collision_calls o o acc.1.2 = 0%nat →
  on_collision_calls o o (foldl (update_outer G) acc l).1.2 = 0%nat.
Proof.
  revert acc. induction l as [|obj l IH]; intros acc Hacc; simpl; [done|].
  apply IH. unfold update_outer. simpl.
  destruct (obj_mobile G obj (obj_update G obj acc.1.1)); simpl.
  - apply foldl_update_inner_no_self. simpl.
    by rewrite on_collision_calls_update.
  - by rewrite on_collision_calls_update.
Qed.

(** X3. No object is ever notified of a collision with itself, also when it
    occurs several times in the object list. *)
Theorem update_never_notifies_self (w : W) (o : Obj) :
  on_collision_calls o o (Chunk_update G w).2 = 0%nat.
Proof.
  unfold Chunk_update. by apply foldl_update_outer_no_self.
Qed.

End UpdateLoopShape.

Section UpdateLoopOnlyCollisions.

Context {Obj W : Type} `{EqDecision Obj}.
Variable G : Game Obj W.

Variable Inv : W → Prop.
Hypothesis Inv_update : ∀ o w, Inv w → Inv (obj_update G o w).
Hypothesis Inv_on_collision : ∀ o o' w, Inv w → Inv (obj_on_collision G o o' w).

Variables a b : Obj.
Hypothesis no_hit_ab :
  (∀ w, Inv w → obj_mobile G a w = false) ∨
  (∀ w, Inv w → obj_collidable G b w && obj_collides_with G a b w = false).
Hypothesis no_hit_ba :
  (∀ w, Inv w → obj_mobile G b w = false) ∨
  (∀ w, Inv w → obj_collidable G a w && obj_collides_with G b a w = false).

Lemma update_inner_none obj acc other :
  (obj = a → ∀ w, Inv w →
     obj_collidable G b w && obj_collides_with G a b w = false) →
  (obj = b → ∀ w, Inv w →
     obj_collidable G a w && obj_collides_with G b a w = false) →
  Inv acc.1 → on_collision_calls a b acc.2 = 0%nat →
  Inv (update_inner G obj acc other).1 ∧
  on_collision_calls a b (update_inner G obj acc other).2 = 0%nat.
Proof.
  intros Ha Hb HI Hacc. unfold update_inner. destruct acc as [w calls]; simpl in *.
  destruct (decide (other = obj)) as [->|Hne]; [done|].
  destruct (obj_collidable G other w) eqn:Hcol; [|done].
  destruct (obj_collides_with G obj other w) eqn:Hcw; [|done]. simpl.
  split; [by apply Inv_on_collision, Inv_on_collision|].
  rewrite on_collision_calls_app, on_collision_calls_pair, Hacc.
  destruct (decide (obj = a ∧ other = b)) as [[-> ->]|N1].
  { specialize (Ha eq_refl w HI). by rewrite Hcol, Hcw in Ha. }
  destruct (decide (other = a ∧ obj = b)) as [[-> ->]|N2].
  { specialize (Hb eq_refl w HI). by rewrite Hcol, Hcw in Hb. }
  done.
Qed.

Lemma foldl_update_inner_none obj l acc :
  (obj = a → ∀ w, Inv w →
     obj_collidable G b w && obj_collides_with G a b w = false) →
  (obj = b → ∀ w, Inv w →
     obj_collidable G a w && obj_collides_with G b a w = false) →
  Inv acc.1 → on_collision_calls a b acc.2 = 0%nat →
  Inv (foldl (update_inner G obj) acc l).1 ∧
  on_collision_calls a b (foldl (update_inner G obj) acc l).2 = 0%nat.
Proof.
  intros Ha Hb. revert acc.
  induction l as [|other l IH]; intros acc HI Hacc; simpl; [done|].
  destruct (update_inner_none obj acc other Ha Hb HI Hacc) as [HI' Hacc'].
  by apply IH.
Qed.

Lemma foldl_update_outer_none l acc :
  Inv acc.1.1 → on_collision_calls a b acc.1.2 = 0%nat →
  on_collision_calls a b (foldl (update_outer G) acc l).1.2 = 0%nat.
Proof.
  revert acc. induction l as [|obj l IH]; intros acc HI Hacc; simpl; [done|].
  set (w1 := obj_update G obj acc.1.1).
  assert (Inv w1) as HI1 by by apply Inv_update.
  unfold update_outer; fold w1. simpl.
  destruct (obj_mobile G obj w1) eqn:Hm.
  - edestruct (foldl_update_inner_none obj (game_objects G w1)
                 (w1, acc.1.2 ++ [CallUpdate obj])) as [HI2 Hc2]; simpl.
    + intros ->. destruct no_hit_ab as [Hnm|Hnh]; [|done].
      by rewrite (Hnm w1 HI1) in Hm.
    + intros ->. destruct no_hit_ba as [Hnm|Hnh]; [|done].
      by rewrite (Hnm w1 HI1) in Hm.
    + done.
    + by rewrite on_collision_calls_update.
    + by apply IH.
  - apply IH; simpl; [done|]. by rewrite on_collision_calls_update.
Qed.

(** X4. Objects are notified only of collisions of a mobile object with a
    collidable one: when, through the tick, [a] is never mobile or never
    collides with a collidable [b], and likewise [b] against [a], neither
    [a.on_collision(b)] nor [b.on_collision(a)] is called. *)
Theorem update_notifies_only_collisions (w : W) :
  Inv w →
  on_collision_calls a b (Chunk_update G w).2 = 0%nat ∧
  on_collision_calls b a (Chunk_update G w).2 = 0%nat.
Proof.
  intros HI.
  assert (on_collision_calls a b (Chunk_update G w).2 = 0%nat) as H0.
  { unfold Chunk_update. by apply foldl_update_outer_none. }
  split; [done|]. by rewrite update_notifies_symmetrically.
Qed.

End UpdateLoopOnlyCollisions.

Lemma update_notifies_only_collisions_witness :
  on_collision_calls 0%nat 1%nat (Chunk_update (two_object_game true false) tt).2 = 0%nat ∧
  on_collision_calls 1%nat 0%nat (Chunk_update (two_object_game true false) tt).2 = 0%nat.
Proof.
  apply (update_notifies_only_collisions (two_object_game true false)
           (fun _ => True) (fun _ _ _ => I) (fun _ _ _ _ => I) 0%nat 1%nat);
    [right; done | right; done | done].
Defined.

(** ** The compass of [LazyChunkLoader] *)

(** X5. The eight accessors of a chunk ask for eight different coordinates, none
    of them the chunk's own, each one step away. *)
Theorem dir_map_neighbours (obj : Chunk) (d d' : direction) :
  dir_map obj d ≠ Chunk_coords obj ∧
  (dir_map obj d = dir_map obj d' → d = d') ∧
  Z.max (Z.abs ((dir_map obj d).1 - Chunk_x obj))
        (Z.abs ((dir_map obj d).2 - Chunk_y obj)) = 1.
Proof.
  unfold Chunk_coords. split_and!.
  - destruct d; simpl; intros [=]; lia.
  - destruct d, d'; simpl; intros [=]; try done; lia.
  - destruct d; simpl; lia.
Qed.

(** X6. Going one way and then the opposite way comes back: on a chunk that
    sits where [obj.<d>] points, the accessor of the opposite direction asks
    the resolver for the coordinate of [obj]. *)
Theorem LazyChunkLoader_opposite_comes_back
    (world_load_chunk : Z → Z → bool → M (option Chunk))
    (d : direction) (obj obj' : Chunk) (st : State) :
  Chunk_coords obj' = dir_map obj d →
  LazyChunkLoader_get world_load_chunk (opposite d) obj' st
  = world_load_chunk (Chunk_x obj) (Chunk_y obj) true
      (with_trace
         (trace st ++ [EvPrint ("Loading chunk " +:+ str_pair (Chunk_coords obj));
                       EvWorldLoadChunk (Chunk_x obj) (Chunk_y obj) true]) st).
Proof.
  intros Hat.
  assert (dir_map obj' (opposite d) = Chunk_coords obj) as Hmap.
  { unfold Chunk_coords in *. destruct d; simpl in *; injection Hat as -> ->;
      f_equal; lia. }
  unfold LazyChunkLoader_get. rewrite Hmap.
  unfold bind, log, modify. simpl. by rewrite <- app_assoc.
Qed.

Lemma LazyChunkLoader_opposite_comes_back_witness :
  LazyChunkLoader_get example_world_load_chunk (opposite Dne)
    (fresh_chunk example_config 1 1 None) initial_state
  = example_world_load_chunk 0 0 true
      (with_trace
         (trace initial_state ++ [EvPrint "Loading chunk (0, 0)";
                                  EvWorldLoadChunk 0 0 true]) initial_state).
Proof.
  apply (LazyChunkLoader_opposite_comes_back example_world_load_chunk Dne
           example_chunk (fresh_chunk example_config 1 1 None) initial_state).
  reflexivity.
Defined.

Lemma walls_of_snoc h blocks r b :
  h !! r = Some b →
  walls_of h (blocks ++ [r])
  = walls_of h blocks ++ (if Block_collidable b then [wall_of b] else []).
Proof.
  intros Hb. unfold walls_of. rewrite omap_app. simpl. rewrite Hb. simpl.
  rewrite filter_app, fmap_app. f_equal.
  rewrite filter_cons, filter_nil.
  destruct (Block_collidable b); by rewrite ?decide_True, ?decide_False by done.
Qed.

(** [set_walls], for as far as it gets. *)
Lemma wpg_Chunk_set_walls self st :
  wpg True (Chunk_set_walls self) st
    (fun c st' =>
       st' = st ∧ same_but_walls self c ∧ Chunk_walls c = [] ∧
       Chunk_objects c = Chunk_objects self ++ walls_of (heap st) (Chunk_blocks self) ∧
       Forall (fun r => (r < length (heap st))%nat) (Chunk_blocks self)).
Proof.
  unfold Chunk_set_walls.
  assert (∀ rest done c,
            Chunk_blocks self = done ++ rest →
            same_but_walls self c → Chunk_walls c = [] →
            Chunk_objects c = Chunk_objects self ++ walls_of (heap st) done →
            Forall (fun r => (r < length (heap st))%nat) done →
            wpg True
              (for_each (fun self block =>
                 b <- deref block ;;
                 if Block_collidable b then
                   ret (Chunk_with_objects
                          (Chunk_objects self ++
                             [Wall (Block_x b) (Block_y b) (Block_width b)
                                   (Block_height b) (Block_color b)]) self)
                 else ret self) rest c) st
              (fun c st' =>
                 st' = st ∧ same_but_walls self c ∧ Chunk_walls c = [] ∧
                 Chunk_objects c
                 = Chunk_objects self ++ walls_of (heap st) (Chunk_blocks self) ∧
                 Forall (fun r => (r < length (heap st))%nat) (Chunk_blocks self)))
    as Hloop.
  { induction rest as [|block rest IH]; intros done c Hsplit Hsame Hw Ho Hv; simpl.
    - rewrite app_nil_r in Hsplit. subst done. by apply wp_wpg, wp_ret.
    - apply wpg_bind, wpg_bind. unfold deref. apply wpg_bind, wp_wpg, wp_gets.
      destruct (heap st !! block) as [b|] eqn:Hb; simpl; [|done].
      apply wp_wpg, wp_ret.
      assert (Forall (fun r => (r < length (heap st))%nat) (done ++ [block])) as Hv'.
      { apply Forall_app. split; [done|]. constructor; [|done].
        by eapply lookup_lt_Some. }
      assert (Chunk_blocks self = (done ++ [block]) ++ rest) as Hsplit'
        by (by rewrite <- app_assoc).
      destruct (Block_collidable b) eqn:Hcol; apply wp_wpg, wp_ret.
      + apply (IH (done ++ [block])); [done| |done| |done].
        * unfold same_but_walls, same_chunk in *. simpl. tauto.
        * simpl. rewrite (walls_of_snoc _ _ _ _ Hb), Hcol, Ho.
          by rewrite <- app_assoc.
      + apply (IH (done ++ [block])); [done..| |done].
        rewrite (walls_of_snoc _ _ _ _ Hb), Hcol, Ho. by rewrite app_nil_r. }
  apply (Hloop (Chunk_blocks self) []); [done| |done| |done].
  - unfold same_but_walls, same_chunk. simpl. tauto.
  - unfold walls_of. simpl. by rewrite app_nil_r.
Qed.

Lemma wpg_randint a b st :
  a ≤ b →
  wp (randint a b) st
     (fun v st' => a ≤ v ≤ b ∧ ∃ t, st' = with_random_tape t st).
Proof.
  intros Hab. unfold randint. apply wp_bind, wp_gets.
  destruct (random_tape st) as [|v t] eqn:Ht.
  - apply wp_ret. split; [lia|]. exists []. destruct st; simpl in *. by subst.
  - apply wp_bind, wp_modify, wp_ret. split; [|by exists t].
    pose proof (Z.mod_pos_bound v (b - a + 1)). lia.
Qed.

(** [add_mobs] appends [n] mobs, all in the window. *)
Lemma wp_Chunk_add_mobs_window config n self st :
  wp (Chunk_add_mobs config n self) st
     (fun c st' =>
        (∃ t, st' = with_random_tape t st) ∧ same_but_mobs self c ∧
        ∃ new, Chunk_mobs c = Chunk_mobs self ++ new ∧
               length new = N.to_nat n ∧ Forall (mob_in_window config) new).
Proof.
  unfold Chunk_add_mobs.
  eapply wp_mono.
  { apply (wp_for_each _ (fun done c st' =>
             (∃ t, st' = with_random_tape t st) ∧ same_but_mobs self c ∧
             ∃ new, Chunk_mobs c = Chunk_mobs self ++ new ∧
                    length new = length done ∧ Forall (mob_in_window config) new)).
    { split; [exists (random_tape st); by destruct st|].
      split; [unfold same_but_mobs, same_chunk; tauto|]. exists []. by rewrite app_nil_r. }
    intros done i rest c st1 _ ((t1 & ->) & Hsame & new & Hm & Hlen & Hin). simpl.
    apply wp_bind. eapply wp_mono; [apply wpg_randint; lia|].
    intros x st2 (Hx & t2 & ->). simpl.
    apply wp_bind. eapply wp_mono; [apply wpg_randint; lia|].
    intros y st3 (Hy & t3 & ->). simpl.
    apply wp_ret. split; [by exists t3|]. split.
    - unfold same_but_mobs, same_chunk in *. simpl. tauto.
    - exists (new ++ [Mob x y 50 50]). simpl. rewrite Hm, app_assoc.
      split; [done|]. split; [rewrite !length_app; simpl; lia|].
      apply Forall_app. split; [done|]. constructor; [|done]. by exists x, y. }
  intros c st' (Ht & Hsame & new & Hm & Hlen & Hin). split; [done|].
  split; [done|]. exists new. split; [done|]. split; [|done].
  rewrite Hlen. unfold range. by rewrite length_fmap, length_seq.
Qed.

(** Activation (lines 144-155), for as far as it gets. *)
Lemma wpg_activate config chunk st :
  wpg True (activate config chunk) st
    (fun r st' =>
       ∃ c new,
         r = Some c ∧ same_chunk chunk c ∧
         Chunk_players c = Chunk_players chunk ∧ Chunk_walls c = [] ∧
         Chunk_objects c
         = Chunk_objects chunk ++ walls_of (heap st) (Chunk_blocks chunk) ∧
         Chunk_mobs c = Chunk_mobs chunk ++ new ∧
         length new = 5%nat ∧ Forall (mob_in_window config) new ∧
         heap st' = heap st ∧ chunk_table st' = chunk_table st ∧
         block_table st' = block_table st ∧
         Chunk_img_file chunk ∈ files st' ∧
         (∀ f, f ∈ files st → f ∈ files st')).
Proof.
  change (activate config chunk) with
    ((present <- isfile (Chunk_img_file chunk) ;;
      if present then ret tt else Chunk_build_img chunk) ;;
     chunk <- Chunk_set_walls chunk ;;
     chunk <- Chunk_add_mobs config 5 chunk ;;
     ret (Some chunk)).
  set (st1 := if bool_decide (Chunk_img_file chunk ∈ files st) then st
              else with_files (files st ++ [Chunk_img_file chunk]) st).
  assert (heap st1 = heap st ∧ chunk_table st1 = chunk_table st ∧
          block_table st1 = block_table st ∧
          Chunk_img_file chunk ∈ files st1 ∧
          (∀ f, f ∈ files st → f ∈ files st1)) as (Hh1 & Hct1 & Hbt1 & Himg & Hfiles).
  { subst st1. case_bool_decide; simpl; split_and!; try done.
    - set_solver.
    - set_solver. }
  apply wpg_bind. eapply wpg_mono; [apply wpg_image; by left|].
  intros [] ? ->. fold st1.
  apply wpg_bind. eapply wpg_mono; [apply wpg_Chunk_set_walls|].
  intros c1 ? (-> & Hs1 & Hw1 & Ho1 & _). simpl.
  apply wpg_bind, wp_wpg. eapply wp_mono; [apply wp_Chunk_add_mobs_window|].
  intros c2 st2 ((t & ->) & Hs2 & new & Hm2 & Hlen2 & Hin2). simpl.
  apply wp_wpg, wp_ret. exists c2, new.
  unfold same_but_walls, same_but_mobs, same_chunk in *.
  destruct_and!. rewrite Hh1 in *. split_and!; try congruence; done.
Qed.

(** ** What [Chunk.load] returns *)

Lemma wpg_Chunk_save_shape self st :
  wpg True (Chunk_save self) st
    (fun c _ => ∃ id, c = Chunk_with_db_obj (Some id) self).
Proof.
  unfold Chunk_save. apply wpg_skip. intros _ st1.
  apply wpg_skip. intros id st2. apply wp_wpg, wp_ret. by exists id.
Qed.

Lemma wpg_Chunk_build_blocks_shape config color collidable load self st :
  wpg True (Chunk_build_blocks config color collidable load self) st
    (fun c _ => ∃ grid id,
       c = Chunk_with_blocks (concat grid)
             (Chunk_with_db_obj (Some id) (Chunk_with_grid grid self))).
Proof.
  unfold Chunk_build_blocks.
  apply wpg_skip. intros chunk_w st1. apply wpg_skip. intros chunk_s st2.
  apply wpg_skip. intros n_rows st3. apply wpg_skip. intros n_cols st4.
  apply wpg_skip. intros grid st5.
  apply wpg_bind. eapply wpg_mono; [apply wpg_Chunk_save_shape|].
  intros c st6 (id & ->). apply wp_wpg, wp_ret. by exists grid, id.
Qed.

Lemma wpg_Chunk_load_blocks_shape self st :
  wpg True (Chunk_load_blocks self) st
    (fun c _ => ∃ grid blocks,
       c = Chunk_with_grid grid (Chunk_with_blocks blocks self)).
Proof.
  unfold Chunk_load_blocks. destruct (Chunk_db_obj self); [|done].
  apply wpg_skip. intros rows st1. apply wpg_skip. intros blocks st2.
  apply wpg_skip. intros h st3. apply wpg_skip. intros grid st4.
  apply wpg_skip. intros _ st5. apply wp_wpg, wp_ret. by exists grid, blocks.
Qed.

Section Returned.

Variable config : Config.
Variable Block_default_color : RGB.
Variable Block_default_collidable : bool.

Local Abbreviation load :=
  (Chunk_load config Block_default_color Block_default_collidable).

Lemma wpg_Chunk_load_returned depth x y create st :
  wpg True (load depth x y create) st
    (fun r st' =>
       ∀ c, r = Some c →
         Chunk_coords c = (x, y) ∧
         Chunk_players c = [] ∧ Chunk_walls c = [] ∧
         length (Chunk_mobs c) = 5%nat ∧
         Forall (mob_in_window config) (Chunk_mobs c) ∧
         Chunk_objects c = walls_of (heap st') (Chunk_blocks c) ∧
         Chunk_img_file c ∈ files st').
Proof.
  destruct depth as [|depth]; [done|]. simpl.
  apply wpg_bind, wp_wpg, wp_log. apply wpg_bind.
  unfold session_query_chunk. apply wp_wpg, wp_gets. simpl.
  set (st0 := with_trace (trace st ++ [EvChunkLoad x y create]) st).
  apply wpg_bind.
  apply (wpg_mono _ _ _ (fun r _ => ∀ c, r = Some c → obtained x y c)).
  { destruct (find_chunk_row x y 0 (chunk_table st)) as [[id row]|] eqn:Hfind.
    - apply find_chunk_row_Some in Hfind as (_ & _ & Hx & Hy).
      apply wpg_bind. unfold Chunk_load_from_db_obj. apply wpg_bind. simpl.
      unfold wpg at 1.
      destruct (Chunk_init config _ _ _ _) as [c s'|] eqn:E; [|done].
      apply Chunk_init_inv in E as (_ & -> & ->).
      eapply wpg_mono; [apply wpg_Chunk_load_blocks_shape|].
      intros c st1 (grid & blocks & ->). apply wp_wpg, wp_ret.
      intros c [= <-]. by repeat split.
    - destruct create; [|by apply wp_wpg, wp_ret].
      apply wpg_bind. unfold wpg at 1.
      destruct (Chunk_init config _ _ _ _) as [c s'|] eqn:E; [|done].
      apply Chunk_init_inv in E as (_ & -> & ->).
      apply wpg_bind. eapply wpg_mono; [apply wpg_Chunk_build_blocks_shape|].
      intros c st1 (grid & id & ->).
      apply wpg_bind. eapply wpg_mono; [apply wpg_Chunk_save_shape|].
      intros c st2 (id' & ->). apply wp_wpg, wp_ret.
      intros c [= <-]. by repeat split. }
  intros [c0|] st1 Hob; [|by apply wp_wpg, wp_ret].
  destruct (Hob c0 eq_refl) as (Hx & Hy & Hp & Hm & Ho).
  eapply wpg_mono; [apply (wpg_activate config)|].
  intros r st2 (c & new & -> & Hsame & Hp' & Hw' & Ho' & Hm' & Hlen & Hin &
                Hh & _ & _ & Himg & _).
  intros c' [= <-].
  destruct Hsame as (_ & Hx' & Hy' & Hn' & _ & _ & _ & Hb').
  unfold Chunk_coords, Chunk_img_file in *.
  rewrite Hm in Hm'. rewrite Ho in Ho'. simpl in *.
  split_and!; congruence.
Qed.

(** X7. Every chunk that [Chunk.load] returns sits at the requested coordinate
    and has no players, no entry in [walls], exactly five mobs, each 50 x 50
    and inside the window, one wall among its [objects] for each of its
    collidable blocks, in block order, and nothing else there; its image
    file exists afterwards. *)
Theorem Chunk_load_returns_activated depth x y create st c st' :
  load depth x y create st = Ok (Some c) st' →
  Chunk_coords c = (x, y) ∧
  Chunk_players c = [] ∧ Chunk_walls c = [] ∧
  length (Chunk_mobs c) = 5%nat ∧
  Forall (mob_in_window config) (Chunk_mobs c) ∧
  Chunk_objects c = walls_of (heap st') (Chunk_blocks c) ∧
  Chunk_img_file c ∈ files st'.
Proof.
  intros Hrun.
  exact (wpg_returns _ _ _ _ _ (wpg_Chunk_load_returned depth x y create st)
           Hrun c eq_refl).
Qed.

End Returned.

Lemma Chunk_load_returns_activated_witness :
  ∃ c st',
    Chunk_load example_config example_color true 2 0 0 true initial_state
    = Ok (Some c) st' ∧
    Chunk_coords c = (0, 0) ∧
    Chunk_players c = [] ∧ Chunk_walls c = [] ∧
    length (Chunk_mobs c) = 5%nat ∧
    Forall (mob_in_window example_config) (Chunk_mobs c) ∧
    Chunk_objects c = walls_of (heap st') (Chunk_blocks c) ∧
    Chunk_img_file c ∈ files st'.
Proof.
  eassert (Chunk_load example_config example_color true 2 0 0 true initial_state
           = Ok (Some _) _) as E by (vm_compute; reflexivity).
  eexists _, _. split; [exact E|].
  exact (Chunk_load_returns_activated example_config example_color true
           2 0 0 true initial_state _ _ E).
Defined.

(** X8. [set_walls] empties [walls] and appends to [objects] one wall per
    collidable block, in block order: the walls land in [objects], so a
    second call appends them a second time. *)
Theorem Chunk_set_walls_appends_to_objects (self : Chunk) (st : State) :
  Forall (fun r => (r < length (heap st))%nat) (Chunk_blocks self) →
  ∃ c c2,
    Chunk_set_walls self st = Ok c st ∧
    Chunk_walls c = [] ∧
    Chunk_objects c
    = Chunk_objects self ++ walls_of (heap st) (Chunk_blocks self) ∧
    Chunk_set_walls c st = Ok c2 st ∧
    Chunk_walls c2 = [] ∧
    Chunk_objects c2
    = Chunk_objects self ++ walls_of (heap st) (Chunk_blocks self)
                         ++ walls_of (heap st) (Chunk_blocks self).
Proof.
  intros Hv.
  destruct (wp_elim _ _ _ (wp_Chunk_set_walls self st Hv)) as (c & st1 & Hrun & -> & _).
  destruct (wpg_returns _ _ _ _ _ (wpg_Chunk_set_walls self st) Hrun)
    as (_ & Hsame & Hw & Ho & _).
  assert (Chunk_blocks c = Chunk_blocks self) as Hb.
  { by destruct Hsame as ((_&_&_&_&_&_&_&?)&_). }
  assert (Forall (fun r => (r < length (heap st))%nat) (Chunk_blocks c)) as Hv2
    by (by rewrite Hb).
  destruct (wp_elim _ _ _ (wp_Chunk_set_walls c st Hv2)) as (c2 & st2 & Hrun2 & -> & _).
  destruct (wpg_returns _ _ _ _ _ (wpg_Chunk_set_walls c st) Hrun2)
    as (_ & _ & Hw2 & Ho2 & _).
  exists c, c2. split_and!; try done.
  by rewrite Ho2, Ho, Hb, <- app_assoc.
Qed.

Lemma Chunk_set_walls_appends_to_objects_witness :
  ∃ c c2,
    Chunk_set_walls (Chunk_with_blocks [0; 1; 2; 3]%nat example_chunk)
      example_persisted = Ok c example_persisted ∧
    Chunk_walls c = [] ∧
    Chunk_objects c
    = [] ++ walls_of (heap example_persisted) [0; 1; 2; 3]%nat ∧
    Chunk_set_walls c example_persisted = Ok c2 example_persisted ∧
    Chunk_walls c2 = [] ∧
    Chunk_objects c2
    = [] ++ walls_of (heap example_persisted) [0; 1; 2; 3]%nat
         ++ walls_of (heap example_persisted) [0; 1; 2; 3]%nat.
Proof.
  apply (Chunk_set_walls_appends_to_objects
           (Chunk_with_blocks [0; 1; 2; 3]%nat example_chunk) example_persisted).
  vm_compute. repeat constructor.
Defined.

(** X9. [add_mobs(n)] appends exactly [n] mobs to [mobs], whatever the random
    source gives: each is 50 x 50 and lies in the window, the right and top
    edges included; nothing else of the chunk changes, and nothing of the
    heap or the database. *)
Theorem Chunk_add_mobs_in_window (config : Config) (n : N) (self : Chunk)
    (st : State) :
  ∃ c st' new,
    Chunk_add_mobs config n self st = Ok c st' ∧
    Chunk_mobs c = Chunk_mobs self ++ new ∧
    length new = N.to_nat n ∧ Forall (mob_in_window config) new ∧
    same_but_mobs self c ∧
    heap st' = heap st ∧ chunk_table st' = chunk_table st ∧
    block_table st' = block_table st ∧ files st' = files st.
Proof.
  destruct (wp_elim _ _ _ (wp_Chunk_add_mobs_window config n self st))
    as (c & st' & Hrun & (t & ->) & Hsame & new & Hm & Hlen & Hin).
  exists c, (with_random_tape t st), new. by split_and!.
Qed.

(** ** Code that writes no record *)

Lemma quiet_refl st : quiet st st.
Proof. by repeat split. Qed.

Lemma quiet_trans st1 st2 st3 : quiet st1 st2 → quiet st2 st3 → quiet st1 st3.
Proof. intros (?&?&?) (?&?&?). split_and!; [congruence..|lia]. Qed.

Lemma quietly_ret {A} (a : A) : quietly (ret a).
Proof. intros st. apply quiet_refl. Qed.

Lemma quietly_raise {A} e : quietly (@raise A e).
Proof. intros st. apply quiet_refl. Qed.

Lemma quietly_gets {A} (f : State → A) : quietly (gets f).
Proof. intros st. apply quiet_refl. Qed.

Lemma quietly_modify (f : State → State) :
  (∀ st, quiet st (f st)) → quietly (modify f).
Proof. intros H st. apply H. Qed.

(** One run, then the rest from where it returned. *)
Lemma quiet_bind {A B} (m : M A) (k : A → M B) st :
  quiet st (state_of (m st)) →
  (∀ a st1, m st = Ok a st1 → quiet st1 (state_of (k a st1))) →
  quiet st (state_of (bind m k st)).
Proof.
  intros Hm Hk. unfold bind. destruct (m st) as [a st1|e st1] eqn:E; [|done].
  eapply quiet_trans; [exact Hm|]. by apply Hk.
Qed.

Lemma quietly_bind {A B} (m : M A) (k : A → M B) :
  quietly m → (∀ a, quietly (k a)) → quietly (bind m k).
Proof. intros Hm Hk st. apply quiet_bind; [apply Hm|]. intros a st1 _. apply Hk. Qed.

Lemma quietly_for_each {A B} (body : B → A → M B) (l : list A) (acc : B) :
  (∀ acc x, quietly (body acc x)) → quietly (for_each body l acc).
Proof.
  intros Hbody. revert acc. induction l as [|x l IH]; intros acc; simpl.
  - apply quietly_ret.
  - apply quietly_bind; [apply Hbody|apply IH].
Qed.

Lemma quietly_or_raise {A} e (o : option A) : quietly (or_raise e o).
Proof. destruct o; [apply quietly_ret|apply quietly_raise]. Qed.

Lemma quietly_log ev : quietly (log ev).
Proof. apply quietly_modify. intros st. by repeat split. Qed.

Lemma quietly_deref r : quietly (deref r).
Proof.
  apply quietly_bind; [apply quietly_gets|]. intros h. apply quietly_or_raise.
Qed.

Lemma quietly_store r b : quietly (store r b).
Proof.
  apply quietly_modify. intros st. split_and!; try done.
  simpl. by rewrite length_insert.
Qed.

Lemma quietly_alloc b : quietly (alloc b).
Proof.
  apply quietly_bind; [apply quietly_gets|]. intros r.
  apply quietly_bind; [|intros; apply quietly_ret].
  apply quietly_modify. intros st. split_and!; try done.
  simpl. rewrite length_app. lia.
Qed.

Lemma quietly_Block_setattr r d t : quietly (Block_setattr r d t).
Proof.
  apply quietly_bind; [apply quietly_deref|]. intros b. apply quietly_store.
Qed.

Lemma quietly_Block_set_pos r x y : quietly (Block_set_pos r x y).
Proof.
  apply quietly_bind; [apply quietly_deref|]. intros b. apply quietly_store.
Qed.

Lemma quietly_grid_at g i j : quietly (grid_at g i j).
Proof.
  apply quietly_bind; [apply quietly_or_raise|]. intros row.
  apply quietly_or_raise.
Qed.

Lemma quietly_floordiv a b : quietly (floordiv a b).
Proof. unfold floordiv. case_match; [apply quietly_raise|apply quietly_ret]. Qed.

Lemma quietly_Block_init config color collidable x y :
  quietly (Block_init config color collidable x y).
Proof. apply quietly_alloc. Qed.

Lemma quietly_Block_create_direction r d : quietly (Block_create_direction r d).
Proof.
  apply quietly_bind; [apply quietly_deref|]. intros b. apply quietly_alloc.
Qed.

Lemma quietly_Block_load_from_db_obj rec : quietly (Block_load_from_db_obj rec).
Proof. apply quietly_alloc. Qed.

Lemma quietly_Chunk_init config x y name : quietly (Chunk_init config x y name).
Proof.
  apply quietly_bind; [apply quietly_floordiv|]. intros n_rows.
  apply quietly_bind; [apply quietly_floordiv|]. intros n_cols.
  apply quietly_ret.
Qed.

Create HintDb quietly.

#[local] Hint Resolve quietly_ret quietly_raise quietly_gets quietly_or_raise
  quietly_log quietly_deref quietly_store quietly_alloc quietly_Block_setattr
  quietly_Block_set_pos quietly_grid_at quietly_floordiv quietly_Block_init
  quietly_Block_create_direction quietly_Block_load_from_db_obj
  quietly_Chunk_init : quietly.

(** Sequences, branches and loops of quiet code. *)
Ltac quietly_steps :=
  repeat first
    [ progress eauto with quietly
    | apply quietly_bind; [|intros ?]
    | apply quietly_for_each; intros ? ?
    | match goal with
      | |- quietly (if ?c then _ else _) => destruct c
      | |- quietly (match ?c with _ => _ end) => destruct c
      end ].

Lemma quietly_Chunk_link_blocks self : quietly (Chunk_link_blocks self).
Proof. unfold Chunk_link_blocks. quietly_steps. Qed.

Lemma quietly_Chunk_load_blocks self : quietly (Chunk_load_blocks self).
Proof.
  pose proof quietly_Chunk_link_blocks.
  unfold Chunk_load_blocks. quietly_steps.
Qed.

Lemma quietly_Chunk_load_from_db_obj config db_obj :
  quietly (Chunk_load_from_db_obj config db_obj).
Proof.
  pose proof quietly_Chunk_load_blocks.
  unfold Chunk_load_from_db_obj. quietly_steps.
Qed.

Lemma quietly_Chunk_set_walls self : quietly (Chunk_set_walls self).
Proof. unfold Chunk_set_walls. quietly_steps. Qed.

Lemma quietly_randint a b : quietly (randint a b).
Proof.
  unfold randint. quietly_steps.
  all: apply quietly_modify; intros st; by repeat split.
Qed.

Lemma quietly_Chunk_add_mobs config n self : quietly (Chunk_add_mobs config n self).
Proof.
  pose proof quietly_randint. unfold Chunk_add_mobs. quietly_steps.
Qed.

Lemma quietly_activate config chunk : quietly (activate config chunk).
Proof.
  pose proof quietly_Chunk_set_walls. pose proof quietly_Chunk_add_mobs.
  unfold activate, isfile, Chunk_build_img. quietly_steps.
  all: apply quietly_modify; intros st; by repeat split.
Qed.

Lemma quietly_build_cell config color collidable chunk_w chunk_s n_cols grid row
    r_i c_i :
  quietly (build_cell config color collidable chunk_w chunk_s n_cols grid row
             r_i c_i).
Proof. unfold build_cell. quietly_steps. Qed.

Section ReadOnly.

Variable config : Config.
Variable Block_default_color : RGB.
Variable Block_default_collidable : bool.

Local Abbreviation load :=
  (Chunk_load config Block_default_color Block_default_collidable).

(** Hydrating and activating a chunk record. *)
Lemma quietly_load_record db_obj :
  quietly (chunk <- (chunk <- Chunk_load_from_db_obj config db_obj ;;
                     ret (Some chunk)) ;;
           match chunk with
           | None => ret None
           | Some chunk => activate config chunk
           end).
Proof.
  pose proof (quietly_Chunk_load_from_db_obj config).
  pose proof (quietly_activate config).
  quietly_steps.
Qed.

Lemma quietly_Chunk_load_lookup depth x y : quietly (load depth x y false).
Proof.
  destruct depth as [|depth]; [apply quietly_raise|].
  pose proof (quietly_Chunk_load_from_db_obj config).
  pose proof (quietly_activate config).
  change (load (S depth) x y false) with
    (log (EvChunkLoad x y false) ;;
     loaded_chunk <- session_query_chunk x y ;;
     chunk <- match loaded_chunk with
              | None => ret None
              | Some db_obj =>
                  chunk <- Chunk_load_from_db_obj config db_obj ;;
                  ret (Some chunk)
              end ;;
     match chunk with
     | None => ret None
     | Some chunk => activate config chunk
     end).
  unfold session_query_chunk. quietly_steps.
Qed.

(** X10. [Chunk.load] writes to the database only when [create] is set and the
    coordinate has no record: otherwise the chunk and block tables are
    after the call what they were before it, whether the call returns or
    raises. *)
Theorem Chunk_load_reads_only depth x y create st :
  create = false ∨ is_Some (find_chunk_row x y 0 (chunk_table st)) →
  chunk_table (state_of (load depth x y create st)) = chunk_table st ∧
  block_table (state_of (load depth x y create st)) = block_table st.
Proof.
  intros Hro.
  enough (quiet st (state_of (load depth x y create st))) as (? & ? & _) by done.
  destruct create; [|apply quietly_Chunk_load_lookup].
  destruct Hro as [|[[id row] Hfind]]; [done|].
  destruct depth as [|depth]; [apply quiet_refl|].
  change (load (S depth) x y true) with
    (log (EvChunkLoad x y true) ;;
     loaded_chunk <- session_query_chunk x y ;;
     chunk <- match loaded_chunk with
              | None =>
                  chunk <- Chunk_init config x y None ;;
                  chunk <- Chunk_build_blocks config Block_default_color
                             Block_default_collidable (load depth) chunk ;;
                  chunk <- Chunk_save chunk ;;
                  ret (Some chunk)
              | Some db_obj =>
                  chunk <- Chunk_load_from_db_obj config db_obj ;;
                  ret (Some chunk)
              end ;;
     match chunk with
     | None => ret None
     | Some chunk => activate config chunk
     end).
  apply quiet_bind; [apply quietly_log|]. intros [] st1 [= <-].
  apply quiet_bind; [apply quietly_gets|]. intros q st2 [= <- <-].
  simpl. rewrite Hfind. apply quietly_load_record.
Qed.

End ReadOnly.

Lemma Chunk_load_reads_only_witness :
  chunk_table (state_of (example_load 0 0 true example_persisted))
  = chunk_table example_persisted ∧
  block_table (state_of (example_load 0 0 true example_persisted))
  = block_table example_persisted.
Proof.
  apply (Chunk_load_reads_only example_config example_color true).
  right. vm_compute. eexists. reflexivity.
Defined.

(** ** Runs that may raise, with the state they raise in *)

Lemma wpx_bind {A B} (m : M A) (k : A → M B) st Q E :
  wpx m st (fun a st' => wpx (k a) st' Q E) E → wpx (bind m k) st Q E.
Proof. unfold wpx, bind. by destruct (m st). Qed.

Lemma wpx_mono {A} (m : M A) st (Q Q' : A → State → Prop) E :
  wpx m st Q E → (∀ a st', Q a st' → Q' a st') → wpx m st Q' E.
Proof. unfold wpx. destruct (m st); eauto. Qed.

Lemma wp_wpx {A} (m : M A) st Q E : wp m st Q → wpx m st Q E.
Proof. unfold wp, wpx. by destruct (m st). Qed.

Lemma wpx_raises {A} (m : M A) st Q E e st' :
  wpx m st Q E → m st = Raise e st' → E st'.
Proof. unfold wpx. intros H Hr. by rewrite Hr in H. Qed.

(** Quiet code, with what is known of its result if it returns. *)
Lemma wpx_quietly {A} (m : M A) s0 st (P : A → State → Prop) :
  quiet s0 st → quietly m → wpg True m st P →
  wpx m st (fun a st' => quiet s0 st' ∧ P a st') (quiet s0).
Proof.
  intros H0 Hq HP. specialize (Hq st). unfold wpx, wpg in *.
  destruct (m st); simpl in *.
  - split; [by eapply quiet_trans|done].
  - by eapply quiet_trans.
Qed.

Lemma wpg_quietly {A} (m : M A) st :
  quietly m → wpg True m st (fun _ st' => quiet st st').
Proof. intros Hq. specialize (Hq st). unfold wpg. by destruct (m st). Qed.

Lemma wpg_conj {A} allow (m : M A) st (Q1 Q2 : A → State → Prop) :
  wpg allow m st Q1 → wpg allow m st Q2 →
  wpg allow m st (fun a st' => Q1 a st' ∧ Q2 a st').
Proof. unfold wpg. by destruct (m st). Qed.

Lemma wpg_for_each {A B} allow (body : B → A → M B)
    (Inv : list A → B → State → Prop) (l : list A) (acc : B) st :
  Inv [] acc st →
  (∀ done x rest acc st,
     l = done ++ x :: rest → Inv done acc st →
     wpg allow (body acc x) st (fun acc' st' => Inv (done ++ [x]) acc' st')) →
  wpg allow (for_each body l acc) st (fun acc' st' => Inv l acc' st').
Proof.
  intros H0 Hstep.
  assert (∀ rest done acc st, l = done ++ rest → Inv done acc st →
            wpg allow (for_each body rest acc) st (fun acc' st' => Inv l acc' st'))
    as Hgen.
  { induction rest as [|x rest IH]; intros done acc' st' Hl HI; simpl.
    - apply wp_wpg, wp_ret. rewrite app_nil_r in Hl. by subst.
    - apply wpg_bind. eapply wpg_mono; [by eapply Hstep|].
      intros acc'' st'' HI'. simpl in HI'. eapply IH; [|done].
      by rewrite <- app_assoc. }
  by apply (Hgen l []).
Qed.

(** ** New blocks are on the heap *)

Lemma wpg_alloc_valid b st :
  wpg True (alloc b) st (fun r st' => (r < length (heap st'))%nat).
Proof.
  unfold alloc. apply wp_wpg, wp_bind, wp_gets, wp_bind, wp_modify, wp_ret.
  simpl. rewrite length_app. simpl. lia.
Qed.

Lemma wpg_Block_create_direction_valid r d st :
  wpg True (Block_create_direction r d) st
    (fun nb st' => (nb < length (heap st'))%nat).
Proof.
  unfold Block_create_direction. apply wpg_skip. intros b st1.
  apply wpg_alloc_valid.
Qed.

(** After a new block, quiet code. *)
Lemma wpg_valid_then {A B} (m : M A) (k : A → M B) (nb : nat) st
    (Q : B → State → Prop) :
  quietly m → (nb < length (heap st))%nat →
  (∀ a st', (nb < length (heap st'))%nat → wpg True (k a) st' Q) →
  wpg True (bind m k) st Q.
Proof.
  intros Hq Hnb Hk. apply wpg_bind.
  eapply wpg_mono; [by apply wpg_quietly|].
  intros a st' (_ & _ & Hlen). apply Hk. lia.
Qed.

Lemma wpg_valid_last {A} (m : M A) (nb : nat) st :
  quietly m → (nb < length (heap st))%nat →
  wpg True m st (fun _ st' => (nb < length (heap st'))%nat).
Proof.
  intros Hq Hnb. eapply wpg_mono; [by apply wpg_quietly|].
  intros a st' (_ & _ & Hlen). lia.
Qed.

(** The part of a cell's code after its block has been made. *)
Ltac after_new_block :=
  repeat first
    [ apply wp_wpg, wp_ret; assumption
    | eapply wpg_valid_then;
      [ quietly_steps | eassumption | intros ? ? ? ] ].

(** The part up to there. *)
Ltac up_to_new_block :=
  repeat lazymatch goal with
    | |- wpg True (bind (Block_create_direction _ _) _) _ _ => fail
    | |- wpg True (bind _ _) _ _ => apply wpg_skip; intros ? ?
    end;
  apply wpg_bind; eapply wpg_mono;
  [apply wpg_Block_create_direction_valid|]; intros ? ? ?; cbv beta in *.

(** The block that [build_cell] returns is on the heap. *)
Lemma wpg_build_cell_valid config color collidable chunk_w chunk_s n_cols grid row
    r_i c_i st :
  wpg True
    (build_cell config color collidable chunk_w chunk_s n_cols grid row r_i c_i)
    st (fun nb st' => (nb < length (heap st'))%nat).
Proof.
  unfold build_cell.
  repeat match goal with
    | |- wpg True (if ?c then _ else _) _ _ => destruct c
    | |- wpg True (match ?c with _ => _ end) _ _ => destruct c
    end.
  all: try (unfold Block_init; apply wpg_alloc_valid).
  all: up_to_new_block.
  all: after_new_block.
Qed.

Lemma Forall_valid_quiet st st' (l : list nat) :
  quiet st st' →
  Forall (fun r => (r < length (heap st))%nat) l →
  Forall (fun r => (r < length (heap st'))%nat) l.
Proof.
  intros (_ & _ & Hlen) Hl. eapply Forall_impl; [exact Hl|]. simpl. lia.
Qed.

(** The blocks of a grid that [build_blocks] has built are on the heap,
    whatever the neighbours are. *)
Lemma wpg_build_grid_valid config color collidable chunk_w chunk_s n_rows n_cols st :
  wpg True
    (for_each (fun grid r_i =>
        row <- for_each (fun row c_i =>
                 new_block <- build_cell config color collidable
                                chunk_w chunk_s n_cols grid row r_i c_i ;;
                 ret (row ++ [new_block]))
               (range n_cols) [] ;;
        ret (grid ++ [row]))
      (range n_rows) []) st
    (fun grid st' => Forall (fun r => (r < length (heap st'))%nat) (concat grid)).
Proof.
  apply (wpg_for_each True _
           (fun _ grid st' =>
              Forall (fun r => (r < length (heap st'))%nat) (concat grid))).
  { constructor. }
  intros _ r_i _ grid st1 _ Hgrid.
  apply wpg_bind.
  eapply wpg_mono.
  { apply (wpg_for_each True _
             (fun _ row st' =>
                quiet st1 st' ∧ Forall (fun r => (r < length (heap st'))%nat) row)).
    { split; [apply quiet_refl|constructor]. }
    intros _ c_i _ row st2 _ [Hq Hrow].
    apply wpg_bind. eapply wpg_mono.
    { apply wpg_conj; [apply wpg_build_cell_valid|].
      apply wpg_quietly, quietly_build_cell. }
    intros nb st3 [Hnb Hq3]. apply wp_wpg, wp_ret. split.
    - by eapply quiet_trans.
    - apply Forall_app. split; [by eapply Forall_valid_quiet|].
      by constructor. }
  intros row st2 [Hq Hrow]. apply wp_wpg, wp_ret.
  rewrite concat_app. simpl. rewrite app_nil_r.
  apply Forall_app. split; [by eapply Forall_valid_quiet|done].
Qed.

(** ** [save] returns *)

Lemma wp_Block_save_returns r st :
  (r < length (heap st))%nat →
  wp (Block_save r) st (fun _ st' => length (heap st') = length (heap st)).
Proof.
  intros Hr. destruct (lookup_lt_is_Some_2 _ _ Hr) as [b Hb].
  unfold Block_save. apply wp_bind. eapply wp_deref; [done|].
  destruct (Block_db_obj b).
  - apply wp_bind, wp_modify, wp_ret. done.
  - apply wp_bind, wp_gets, wp_bind, wp_modify, wp_bind, wp_store, wp_ret.
    simpl. by rewrite length_insert.
Qed.

Lemma wp_Chunk_save_returns self st :
  Forall (fun r => (r < length (heap st))%nat) (Chunk_blocks self) →
  wp (Chunk_save self) st (fun _ st' => length (heap st') = length (heap st)).
Proof.
  intros Hv. unfold Chunk_save. apply wp_bind.
  eapply wp_mono.
  { apply (wp_for_each _ (fun _ _ st' => length (heap st') = length (heap st))).
    { done. }
    intros done block rest [] st1 Hsplit Hlen.
    assert (block < length (heap st1))%nat as Hb.
    { rewrite Hlen. rewrite Forall_forall in Hv. apply Hv.
      rewrite Hsplit. set_solver. }
    apply wp_bind. eapply wp_mono; [by apply wp_Block_save_returns|].
    intros rid st2 Hlen2. unfold BlockRow_set_chunk_id. apply wp_modify.
    simpl. congruence. }
  intros [] st1 Hlen. apply wp_bind. unfold session_add_chunk.
  destruct (Chunk_db_obj self).
  - apply wp_bind, wp_modify, wp_ret, wp_ret. done.
  - apply wp_bind, wp_gets, wp_bind, wp_modify, wp_ret, wp_ret. done.
Qed.

Lemma wpx_step {A B} (m : M A) (k : A → M B) s0 st (P : A → State → Prop)
    (Q : B → State → Prop) :
  quiet s0 st → quietly m → wpg True m st P →
  (∀ a st1, quiet s0 st1 → P a st1 → wpx (k a) st1 Q (quiet s0)) →
  wpx (bind m k) st Q (quiet s0).
Proof.
  intros H0 Hq HP Hk. apply wpx_bind.
  eapply wpx_mono; [by apply (wpx_quietly m s0 st P)|].
  intros a st1 [? ?]. by apply Hk.
Qed.

Lemma wp_and_wpg {A} (m : M A) st (Q1 Q2 : A → State → Prop) :
  wp m st Q1 → wpg True m st Q2 → wp m st (fun a st' => Q1 a st' ∧ Q2 a st').
Proof. unfold wp, wpg. by destruct (m st). Qed.

Lemma wpg_Chunk_init config x y name st :
  wpg True (Chunk_init config x y name) st
    (fun c _ => c = fresh_chunk config x y name).
Proof.
  unfold wpg. destruct (Chunk_init config x y name st) as [c s'|] eqn:E; [|done].
  by apply Chunk_init_inv in E as (_ & -> & _).
Qed.

Section Atomic.

Variable config : Config.
Variable Block_default_color : RGB.
Variable Block_default_collidable : bool.

Local Abbreviation load :=
  (Chunk_load config Block_default_color Block_default_collidable).

(** Making a chunk: once the grid is built nothing raises any more, and
    before that no record is written. *)
Lemma wpx_make_chunk depth x y s0 st :
  quiet s0 st →
  wpx (make_chunk config Block_default_color Block_default_collidable
         (load depth) x y) st (fun _ _ => True) (quiet s0).
Proof.
  intros Hq2. unfold make_chunk.
  eapply (wpx_step _ _ s0 st); [done|apply quietly_Chunk_init|apply wpg_Chunk_init|].
  intros c st3 Hq3 ->. simpl.
  apply wpx_bind. unfold Chunk_build_blocks.
  eapply (wpx_step _ _ s0 st3 (fun _ _ => True));
    [done|apply quietly_Chunk_load_lookup|apply wpg_any|].
  intros chunk_w st4 Hq4 _.
  eapply (wpx_step _ _ s0 st4 (fun _ _ => True));
    [done|apply quietly_Chunk_load_lookup|apply wpg_any|].
  intros chunk_s st5 Hq5 _.
  eapply (wpx_step _ _ s0 st5 (fun _ _ => True));
    [done|apply quietly_floordiv|apply wpg_any|].
  intros n_rows st6 Hq6 _.
  eapply (wpx_step _ _ s0 st6 (fun _ _ => True));
    [done|apply quietly_floordiv|apply wpg_any|].
  intros n_cols st7 Hq7 _.
  eapply (wpx_step _ _ s0 st7).
  { done. }
  { pose proof (quietly_build_cell config Block_default_color
                  Block_default_collidable chunk_w chunk_s n_cols).
    quietly_steps. }
  { apply wpg_build_grid_valid. }
  intros grid st8 Hq8 Hgrid.
  (* from here on nothing raises *)
  apply wp_wpx. apply wp_bind.
  eapply wp_mono.
  { apply wp_and_wpg; [apply wp_Chunk_save_returns|apply wpg_Chunk_save_shape].
    simpl. constructor. }
  intros c1 st9 [Hlen9 (id & ->)]. apply wp_ret. simpl.
  apply wp_wpx, wp_bind. eapply wp_mono.
  { apply wp_and_wpg; [apply wp_Chunk_save_returns|apply wpg_Chunk_save_shape].
    simpl. eapply Forall_impl; [exact Hgrid|]. simpl. lia. }
  intros c2 st10 [Hlen10 (id' & ->)]. by apply wp_ret.
Qed.

(** Activation raises in one way only: [build_img] (line 145) raises
    [ValueError], on the state as it is, when the image file is missing and
    the window has no pixels. *)
Lemma activate_raised c s e s' :
  Forall (fun r => (r < length (heap s))%nat) (Chunk_blocks c) →
  activate config c s = Raise e s' →
  e = ValueError ∧ s' = s ∧ ¬ drawable c s.
Proof.
  intros Hv Hrun.
  destruct (decide (drawable c s)) as [Hd|Hd].
  { pose proof (wp_activate config c s Hd Hv) as H.
    unfold wp in H. by rewrite Hrun in H. }
  assert (activate config c s = Raise ValueError s) as E.
  { unfold activate. unfold bind at 1. unfold isfile, gets.
    rewrite bool_decide_eq_false_2 by (intros ?; apply Hd; by right).
    unfold bind at 1. rewrite Chunk_build_img_raises; [done|].
    intros ?. apply Hd. by left. }
  rewrite E in Hrun. by injection Hrun as <- <-.
Qed.

(** When [Chunk.load] raises, nothing has been written, with one exception:
    the chunk has been created and saved, and then the image of a window
    without pixels could not be saved (line 145). *)
Lemma Chunk_load_raised depth x y create st e st' :
  load depth x y create st = Raise e st' →
  quiet st st' ∨
  (e = ValueError ∧ create = true ∧
   find_chunk_row x y 0 (chunk_table st) = None ∧
   ¬ window_ok config ∧ ∃ c, created config st x y c st').
Proof.
  intros Hrun.
  destruct depth as [|depth]; [left; by injection Hrun as _ <-|].
  destruct create.
  - destruct (find_chunk_row x y 0 (chunk_table st)) as [[id row]|] eqn:Hfind.
    + left.
      assert (quiet st (state_of (load (S depth) x y true st))) as Hq.
      { change (load (S depth) x y true) with
          (log (EvChunkLoad x y true) ;;
           loaded_chunk <- session_query_chunk x y ;;
           chunk <- match loaded_chunk with
                    | None =>
                        chunk <- Chunk_init config x y None ;;
                        chunk <- Chunk_build_blocks config Block_default_color
                                   Block_default_collidable (load depth) chunk ;;
                        chunk <- Chunk_save chunk ;;
                        ret (Some chunk)
                    | Some db_obj =>
                        chunk <- Chunk_load_from_db_obj config db_obj ;;
                        ret (Some chunk)
                    end ;;
           match chunk with
           | None => ret None
           | Some chunk => activate config chunk
           end).
        apply quiet_bind; [apply quietly_log|]. intros [] st1 [= <-].
        apply quiet_bind; [apply quietly_gets|]. intros q st2 [= <- <-].
        simpl. rewrite Hfind. apply quietly_load_record. }
      by rewrite Hrun in Hq.
    + rewrite Chunk_load_miss in Hrun by done. unfold bind at 1 in Hrun.
      set (st0 := with_trace (trace st ++ [EvChunkLoad x y true]) st) in *.
      destruct (make_chunk config Block_default_color Block_default_collidable
                  (load depth) x y st0) as [r s|e0 s] eqn:Em.
      * destruct (make_chunk_returned _ _ _ _ _ _ _ _ _ Em) as (d & -> & Hcfg).
        destruct (wpg_returns _ _ _ _ _
                    (wpg_make_chunk config Block_default_color
                       Block_default_collidable True d x y st Hcfg
                       (or_introl I) (or_introl I) Hfind) Em)
          as (c & -> & Hcr & Hwd & Hht).
        destruct (activate_raised c s e st'
                    (created_blocks_valid _ _ _ _ _ _ Hcr) Hrun)
          as (-> & -> & Hnd).
        right. split_and!; try done.
        -- intros [Hw Hh]. apply Hnd. left. by rewrite Hwd, Hht.
        -- by exists c.
      * injection Hrun as <- <-. left.
        assert (quiet st st0) as Hq0 by (subst st0; split_and!; done).
        exact (wpx_raises _ _ _ _ _ _ (wpx_make_chunk depth x y st st0 Hq0) Em).
  - left.
    pose proof (quietly_Chunk_load_lookup config Block_default_color
                  Block_default_collidable (S depth) x y st) as Hq.
    by rewrite Hrun in Hq.
Qed.

(** A chunk created on a window without pixels has no blocks: no block
    record has been written for it. *)
Lemma created_no_pixels st x y c st' :
  ¬ window_ok config → created config st x y c st' →
  block_table st' = block_table st.
Proof.
  intros Hn (first & rows & _ & _ & _ & _ & _ & _ & _ & _ & Hcat & _ & _ & _ &
             _ & _ & -> & Hrows & _).
  assert ((grid_rows config * grid_cols config)%nat = 0%nat) as H0.
  { unfold grid_rows, grid_cols.
    destruct (decide (config_window_width config = 0%N)) as [->|Hw].
    { change (0 / config_block_width config)%N with 0%N. simpl. lia. }
    destruct (decide (config_window_height config = 0%N)) as [->|Hh].
    { change (0 / config_block_height config)%N with 0%N. simpl. lia. }
    destruct Hn. by split. }
  rewrite Hcat, H0 in Hrows. simpl in Hrows.
  apply Forall2_nil_inv_l in Hrows as ->. by rewrite app_nil_r.
Qed.

(** X11. What a failure of [Chunk.load] leaves in the database. When
    [Chunk.load] raises, on whatever state, configuration and coordinate, the
    block table is what it was before the call, and so is the chunk table,
    with one exception: the exception is the [ValueError] of [build_img]
    (line 145) on a window without pixels, raised after the chunk of a
    coordinate without a record has been created and saved (lines 136-138);
    then the chunk table has the record of the new chunk at its end. *)
Theorem Chunk_load_raise_tables depth x y create st e st' :
  Chunk_load config Block_default_color Block_default_collidable
    depth x y create st = Raise e st' →
  block_table st' = block_table st ∧
  (chunk_table st' = chunk_table st ∨
   e = ValueError ∧ create = true ∧ ¬ window_ok config ∧
   find_chunk_row x y 0 (chunk_table st) = None ∧
   chunk_table st'
   = chunk_table st ++ [{| row_x := x; row_y := y;
                           row_name := "Chunk" +:+ str_pair (x, y) |}]).
Proof.
  intros Hrun.
  destruct (Chunk_load_raised depth x y create st e st' Hrun)
    as [(Hct & Hbt & _)|(-> & -> & Hfind & Hn & c & Hcr)].
  { split; [done|by left]. }
  split; [by eapply created_no_pixels|]. right. split_and!; try done.
  by destruct Hcr as (first & rows & _ & _ & _ & _ & _ & _ & _ & _ & _ & _ &
                      _ & _ & _ & -> & _ & _ & _ & _).
Qed.

End Atomic.

(** The exception at work: creating chunk (0, 0) from nothing on a window of
    0 x 5 pixels raises [ValueError] after the chunk has been saved; its
    record stays, and no image file has been written. *)
Lemma creation_without_pixels_leaves_record :
  ∃ st',
    Chunk_load example_config_no_pixels example_color true 2 0 0 true
      initial_state = Raise ValueError st' ∧
    chunk_table st' = [{| row_x := 0; row_y := 0; row_name := "Chunk(0, 0)" |}] ∧
    block_table st' = [] ∧ files st' = [].
Proof.
  eexists. split; [vm_compute; reflexivity|].
  split_and!; vm_compute; reflexivity.
Qed.

Lemma Chunk_load_raise_tables_witness :
  ∃ e st',
    Chunk_load example_config_no_pixels example_color true 2 0 0 true
      initial_state = Raise e st' ∧
    block_table st' = block_table initial_state ∧
    (chunk_table st' = chunk_table initial_state ∨
     e = ValueError ∧ true = true ∧ ¬ window_ok example_config_no_pixels ∧
     find_chunk_row 0 0 0 (chunk_table initial_state) = None ∧
     chunk_table st'
     = chunk_table initial_state ++
       [{| row_x := 0; row_y := 0;
           row_name := "Chunk" +:+ str_pair (0%Z, 0%Z) |}]).
Proof.
  eassert (Chunk_load example_config_no_pixels example_color true 2 0 0 true
             initial_state = Raise _ _) as E by (vm_compute; reflexivity).
  eexists _, _. split; [exact E|].
  exact (Chunk_load_raise_tables example_config_no_pixels example_color true
           2 0 0 true initial_state _ _ E).
Defined.

(** ** What is raised *)

Section RaisesOnly.

Variable P : exception → Prop.

Lemma raises_only_ret {A} (a : A) : raises_only P (ret a).
Proof. by intros st e st'. Qed.

Lemma raises_only_raise {A} e : P e → raises_only P (@raise A e).
Proof. intros He st e' st' [= <- _]. done. Qed.

Lemma raises_only_gets {A} (f : State → A) : raises_only P (gets f).
Proof. by intros st e st'. Qed.

Lemma raises_only_modify (f : State → State) : raises_only P (modify f).
Proof. by intros st e st'. Qed.

Lemma raises_only_bind {A B} (m : M A) (k : A → M B) :
  raises_only P m → (∀ a, raises_only P (k a)) → raises_only P (bind m k).
Proof.
  intros Hm Hk st e st'. unfold bind.
  destruct (m st) as [a st1|e1 st1] eqn:E.
  - apply Hk.
  - intros [= <- _]. by eapply Hm.
Qed.

Lemma raises_only_for_each {A B} (body : B → A → M B) (l : list A) (acc : B) :
  (∀ acc x, raises_only P (body acc x)) → raises_only P (for_each body l acc).
Proof.
  intros Hbody. revert acc. induction l as [|x l IH]; intros acc; simpl.
  - apply raises_only_ret.
  - apply raises_only_bind; [apply Hbody|apply IH].
Qed.

Lemma raises_only_or_raise {A} e (o : option A) :
  P e → raises_only P (or_raise e o).
Proof. intros He. destruct o; [apply raises_only_ret|by apply raises_only_raise]. Qed.

End RaisesOnly.

Create HintDb raises.
#[local] Hint Resolve raises_only_ret raises_only_gets raises_only_modify : raises.
#[local] Hint Extern 1 (data_error _) => unfold data_error; tauto : raises.

(** Sequences, branches and loops. *)
Ltac raises_steps :=
  repeat first
    [ progress eauto with raises
    | apply raises_only_bind; [|intros ?]
    | apply raises_only_for_each; intros ? ?
    | apply raises_only_raise
    | apply raises_only_or_raise
    | match goal with
      | |- raises_only _ (if ?c then _ else _) => destruct c
      | |- raises_only _ (match ?c with _ => _ end) => destruct c
      end ].

Lemma data_error_deref r : raises_only data_error (deref r).
Proof. unfold deref. raises_steps. Qed.

Lemma data_error_store r b : raises_only data_error (store r b).
Proof. unfold store. raises_steps. Qed.

Lemma data_error_alloc b : raises_only data_error (alloc b).
Proof. unfold alloc. raises_steps. Qed.

Lemma data_error_grid_at g i j : raises_only data_error (grid_at g i j).
Proof. unfold grid_at. raises_steps. Qed.

Lemma data_error_floordiv a b : raises_only data_error (floordiv a b).
Proof. unfold floordiv. raises_steps. Qed.

Lemma data_error_Block_setattr r d t : raises_only data_error (Block_setattr r d t).
Proof. unfold Block_setattr, deref, store. raises_steps. Qed.

Lemma data_error_Block_set_pos r x y : raises_only data_error (Block_set_pos r x y).
Proof. unfold Block_set_pos, deref, store. raises_steps. Qed.

Lemma data_error_Block_init config color collidable x y :
  raises_only data_error (Block_init config color collidable x y).
Proof. unfold Block_init, alloc. raises_steps. Qed.

Lemma data_error_Block_create_direction r d :
  raises_only data_error (Block_create_direction r d).
Proof. unfold Block_create_direction, deref, alloc. raises_steps. Qed.

Lemma data_error_Block_save r : raises_only data_error (Block_save r).
Proof. unfold Block_save, deref, store. raises_steps. Qed.

#[local] Hint Resolve data_error_deref data_error_store data_error_alloc
  data_error_grid_at data_error_floordiv data_error_Block_setattr
  data_error_Block_set_pos data_error_Block_init
  data_error_Block_create_direction data_error_Block_save : raises.

Lemma data_error_Chunk_init config x y name :
  raises_only data_error (Chunk_init config x y name).
Proof. unfold Chunk_init. raises_steps. Qed.

Lemma data_error_Chunk_link_blocks self :
  raises_only data_error (Chunk_link_blocks self).
Proof. unfold Chunk_link_blocks. raises_steps. Qed.

(** With its record set, [load_blocks] does not get to line 94. *)
Lemma data_error_Chunk_load_blocks id self :
  raises_only data_error (Chunk_load_blocks (Chunk_with_db_obj (Some id) self)).
Proof.
  pose proof data_error_Chunk_link_blocks.
  unfold Chunk_load_blocks, Block_load_from_db_obj. simpl. raises_steps.
Qed.

Lemma data_error_Chunk_load_from_db_obj config db_obj :
  raises_only data_error (Chunk_load_from_db_obj config db_obj).
Proof.
  pose proof data_error_Chunk_init. pose proof data_error_Chunk_load_blocks.
  unfold Chunk_load_from_db_obj. raises_steps.
Qed.

Lemma data_error_Chunk_save self : raises_only data_error (Chunk_save self).
Proof.
  unfold Chunk_save, BlockRow_set_chunk_id, session_add_chunk. raises_steps.
Qed.

Lemma data_error_activate config chunk :
  raises_only data_error (activate config chunk).
Proof.
  unfold activate, isfile, Chunk_build_img, Chunk_set_walls, Chunk_add_mobs,
    randint.
  raises_steps.
Qed.

Lemma data_error_build_cell config color collidable chunk_w chunk_s n_cols grid row
    r_i c_i :
  raises_only data_error
    (build_cell config color collidable chunk_w chunk_s n_cols grid row r_i c_i).
Proof. unfold build_cell. raises_steps. Qed.

Section Nesting.

Variable config : Config.
Variable Block_default_color : RGB.
Variable Block_default_collidable : bool.

Local Abbreviation load :=
  (Chunk_load config Block_default_color Block_default_collidable).

(** The calls of [Chunk.load] nest two deep at most: the calls made by
    [build_blocks] leave [create] at [False] and so never get to
    [build_blocks] themselves. With room for two nested calls, more room
    changes nothing. *)
Lemma Chunk_load_nests_two_deep depth x y create st :
  Chunk_load config Block_default_color Block_default_collidable
    (S (S depth)) x y create st
  = Chunk_load config Block_default_color Block_default_collidable
      2 x y create st.
Proof. reflexivity. Qed.

Lemma data_error_Chunk_load_lookup depth x y :
  raises_only data_error (load (S depth) x y false).
Proof.
  pose proof (data_error_Chunk_load_from_db_obj config).
  pose proof (data_error_activate config).
  change (load (S depth) x y false) with
    (log (EvChunkLoad x y false) ;;
     loaded_chunk <- session_query_chunk x y ;;
     chunk <- match loaded_chunk with
              | None => ret None
              | Some db_obj =>
                  chunk <- Chunk_load_from_db_obj config db_obj ;;
                  ret (Some chunk)
              end ;;
     match chunk with
     | None => ret None
     | Some chunk => activate config chunk
     end).
  unfold log, session_query_chunk. raises_steps.
Qed.

Lemma data_error_Chunk_build_blocks depth self :
  raises_only data_error
    (Chunk_build_blocks config Block_default_color Block_default_collidable
       (load (S depth)) self).
Proof.
  pose proof (data_error_Chunk_load_lookup depth).
  pose proof (data_error_build_cell config Block_default_color
                Block_default_collidable).
  pose proof data_error_Chunk_save.
  unfold Chunk_build_blocks. raises_steps.
Qed.

Lemma data_error_Chunk_load depth x y create :
  raises_only data_error (load (S (S depth)) x y create).
Proof.
  pose proof (data_error_Chunk_load_from_db_obj config).
  pose proof (data_error_activate config).
  pose proof (data_error_Chunk_build_blocks depth).
  pose proof (data_error_Chunk_init config).
  pose proof data_error_Chunk_save.
  change (load (S (S depth)) x y create) with
    (log (EvChunkLoad x y create) ;;
     loaded_chunk <- session_query_chunk x y ;;
     chunk <- match loaded_chunk with
              | None =>
                  if create then
                    chunk <- Chunk_init config x y None ;;
                    chunk <- Chunk_build_blocks config Block_default_color
                               Block_default_collidable (load (S depth)) chunk ;;
                    chunk <- Chunk_save chunk ;;
                    ret (Some chunk)
                  else ret None
              | Some db_obj =>
                  chunk <- Chunk_load_from_db_obj config db_obj ;;
                  ret (Some chunk)
              end ;;
     match chunk with
     | None => ret None
     | Some chunk => activate config chunk
     end).
  unfold log, session_query_chunk. raises_steps.
Qed.

(** X12. With room for two nested calls, [Chunk.load] raises nothing but the
    errors of arithmetic, indexing and reshaping: never [RecursionError],
    and never the [NameError] of line 94, which [load_blocks] reaches only
    without a record. *)
Theorem Chunk_load_raises_data_errors_only depth x y create st e st' :
  (2 ≤ depth)%nat →
  Chunk_load config Block_default_color Block_default_collidable
    depth x y create st = Raise e st' →
  data_error e ∧ e ≠ RecursionError ∧ ∀ name, e ≠ NameError name.
Proof.
  intros Hdepth Hrun. destruct depth as [|[|depth]]; [lia..|].
  pose proof (data_error_Chunk_load depth x y create st e st' Hrun) as He.
  split; [done|].
  destruct He as [Heq|[Heq|[Heq|Heq]]]; subst e; done.
Qed.

End Nesting.

Lemma Chunk_load_raises_data_errors_only_witness :
  ∃ e st',
    Chunk_load example_config example_color true 2 0 0 true example_unsaved
    = Raise e st' ∧
    (data_error e ∧ e ≠ RecursionError ∧ ∀ name, e ≠ NameError name).
Proof.
  eassert (Chunk_load example_config example_color true 2 0 0 true
             example_unsaved = Raise _ _) as E by (vm_compute; reflexivity).
  eexists _, _. split; [exact E|].
  exact (Chunk_load_raises_data_errors_only _ _ _ 2 0 0 true _ _ _ (le_n 2) E).
Defined.

(** ** Runs that raise *)

Lemma raising_bind {A B} (m : M A) (k : A → M B) st e :
  wp m st (fun a st1 => raising (k a) st1 e) → raising (bind m k) st e.
Proof. unfold wp, raising, bind. by destruct (m st). Qed.

Lemma raising_first {A B} (m : M A) (k : A → M B) st e :
  raising m st e → raising (bind m k) st e.
Proof. unfold raising, bind. intros [st' ->]. eauto. Qed.

Lemma raising_raise {A} e st : raising (@raise A e) st e.
Proof. by exists st. Qed.

Section Errors.

Variable config : Config.
Variable Block_default_color : RGB.
Variable Block_default_collidable : bool.

Local Abbreviation R := (grid_rows config).
Local Abbreviation C := (grid_cols config).
Local Abbreviation load :=
  (Chunk_load config Block_default_color Block_default_collidable).

Lemma Chunk_init_zero_block x y name st :
  ¬ config_divides config →
  Chunk_init config x y name st = Raise ZeroDivisionError st.
Proof.
  intros Hn. unfold Chunk_init, bind, floordiv.
  destruct (N.eqb_spec (config_block_height config) 0) as [|Hh]; [done|].
  destruct (N.eqb_spec (config_block_width config) 0) as [|Hw]; [done|].
  destruct Hn. by split.
Qed.

(** X13. With a block height or width of zero, [Chunk.load] raises
    [ZeroDivisionError] as soon as it has to construct a chunk, for a
    coordinate that has a record and for one that is to be created; it has
    then done nothing but look the coordinate up. *)
Theorem Chunk_load_zero_block_raises depth x y create st :
  ¬ config_divides config →
  create = true ∨ is_Some (find_chunk_row x y 0 (chunk_table st)) →
  Chunk_load config Block_default_color Block_default_collidable
    (S depth) x y create st
  = Raise ZeroDivisionError (with_trace (trace st ++ [EvChunkLoad x y create]) st).
Proof.
  intros Hn Hconstructs. simpl.
  unfold bind at 1. unfold log at 1, modify at 1.
  unfold bind at 1. unfold session_query_chunk at 1, gets at 1. simpl.
  destruct (find_chunk_row x y 0 (chunk_table st)) as [[id row]|] eqn:Hfind.
  - unfold bind at 1. unfold bind at 1. unfold Chunk_load_from_db_obj.
    unfold bind at 1. by rewrite Chunk_init_zero_block.
  - destruct Hconstructs as [->|[? [=]]].
    unfold bind at 1. unfold bind at 1. by rewrite Chunk_init_zero_block.
Qed.

(** X14. A chunk record that does not come with R x C block records cannot be
    hydrated: the reshape of [load_blocks] raises [ValueError]. *)
Theorem Chunk_load_short_grid_raises depth x y create id row st :
  config_divides config →
  find_chunk_row x y 0 (chunk_table st) = Some (id, row) →
  length (chunk_rows st id) ≠ (R * C)%nat →
  raising (Chunk_load config Block_default_color Block_default_collidable
             (S depth) x y create) st ValueError.
Proof.
  intros Hcfg Hfind Hbad. simpl.
  apply raising_bind, wp_log. apply raising_bind.
  unfold session_query_chunk. apply wp_gets. simpl. rewrite Hfind.
  apply raising_first, raising_first. unfold Chunk_load_from_db_obj.
  apply raising_bind. eapply wp_intro; [by apply Chunk_init_Ok|].
  unfold Chunk_load_blocks. simpl.
  apply raising_bind, wp_gets. apply raising_bind.
  eapply wp_mono; [apply wp_load_rows|]. intros blocks st1 [-> ->]. simpl.
  apply raising_bind, wp_gets. simpl. apply raising_first.
  unfold reshape. rewrite sorted_length, length_seq.
  rewrite (proj2 (N.eqb_neq _ _)); [apply raising_raise|].
  fold (chunk_rows st id). lia.
Qed.

Lemma range_two n : range (N.of_nat (S (S n))) = 0 :: 1 :: (Z.of_nat <$> seq 2 n).
Proof. unfold range. by rewrite Nat2N.id. Qed.

(** A grid of one column and more than one row: the first cell of the
    second row indexes column 1 of the first row (line 225). *)
Lemma build_grid_single_column_raises chunk_w chunk_s R' st :
  neighbour_ok R' 1 (heap st) chunk_w → neighbour_ok R' 1 (heap st) chunk_s →
  (2 ≤ R')%nat →
  raising
    (for_each (fun grid r_i =>
        row <- for_each (fun row c_i =>
                 new_block <- build_cell config Block_default_color
                                Block_default_collidable
                                chunk_w chunk_s (N.of_nat 1) grid row r_i c_i ;;
                 ret (row ++ [new_block]))
               (range (N.of_nat 1)) [] ;;
        ret (grid ++ [row]))
      (range (N.of_nat R')) []) st IndexError.
Proof.
  intros Hw Hs HR. destruct R' as [|[|n]]; [lia..|].
  rewrite range_two. cbn [for_each].
  (* the first row *)
  apply raising_bind, wp_bind. eapply wp_mono.
  { apply (wp_build_row config _ _ chunk_w chunk_s (S (S n)) 1 [] 0 st);
      try done; try lia; try (by left); try (by split).
    all: intros i j row ref Hi; by rewrite lookup_nil in Hi. }
  intros row st1 (Hstep1 & -> & Hlen1 & Hrow1). apply wp_ret. simpl.
  set (a := length (heap st)) in *.
  assert (grid_shape 1 1 [[a]]) as Hshape by (split; [done|by repeat constructor]).
  assert (cells_ok (heap st1) [[a]]) as Hcells.
  { intros i j row ref Hi Hj. destruct i as [|i]; [|done].
    injection Hi as <-. by apply Hrow1. }
  assert (neighbour_ok (S (S n)) 1 (heap st1) chunk_w) as Hw1.
  { eapply neighbour_ok_mono; [|done]. lia. }
  (* the first cell of the second row *)
  apply raising_first, raising_first.
  change (range (N.of_nat 1)) with [0]. cbn [for_each].
  apply raising_first, raising_first.
  unfold build_cell. simpl.
  apply raising_bind.
  apply (wp_mono _ _ (fun _ st2 => heap_step st1 st2 ∧
                                   length (heap st2) = length (heap st1))).
  { destruct chunk_w as [cw|]; [|apply wp_ret; split; [apply heap_step_refl|done]].
    destruct Hw1 as [Hwg Hwv].
    pose proof (cells_ok_valid _ _ Hcells) as Hgv.
    eapply (wp_build_link2 st1 _ (S (S n)) 1 _ 1 1); try done; try lia.
    intros st2 H2 L2.
    eapply (wp_build_link2 st2 _ (S (S n)) 1 _ 1 1); try done; try lia.
    { eapply grid_valid_mono; [|done]. lia. }
    intros st3 H3 L3.
    eapply wp_mono.
    { eapply (wp_build_link2_last st3 _ (S (S n)) 1 _ 1 1); try done; try lia.
      eapply grid_valid_mono; [|done]. lia. }
    intros [] st4 [H4 L4]. split; [|congruence].
    eapply heap_step_trans; [|done]. by eapply heap_step_trans. }
  intros [] st2 [H2 L2].
  assert (cells_ok (heap st2) [[a]]) as Hcells2.
  { eapply cells_ok_grown; [apply H2|done]. }
  destruct (Hcells2 0%nat 0%nat [a] a eq_refl eq_refl) as (b & Hb & _).
  apply raising_bind. eapply (wp_grid_at _ _ _ [a] a); [done..|].
  apply raising_bind. eapply wp_mono; [by eapply wp_Block_create_direction|].
  intros nb st3 _. apply raising_first. by eexists.
Qed.

(** X15. Under a configuration whose grid has one column and two or more rows,
    creating a chunk raises [IndexError]: no chunk can be generated. *)
Theorem Chunk_load_single_column_raises depth x y st :
  config_divides config → C = 1%nat → (2 ≤ R)%nat →
  full_grids config st →
  find_chunk_row x y 0 (chunk_table st) = None →
  raising (Chunk_load config Block_default_color Block_default_collidable
             (S (S depth)) x y true) st IndexError.
Proof.
  intros Hcfg HC HR Hfull Hfind.
  assert (window_ok config) as Hwin.
  { split; intros H0.
    - revert HC. unfold grid_cols. rewrite H0.
      change (0 / config_block_width config)%N with 0%N. simpl. lia.
    - revert HR. unfold grid_rows. rewrite H0.
      change (0 / config_block_height config)%N with 0%N. simpl. lia. }
  change (load (S (S depth)) x y true) with
    (log (EvChunkLoad x y true) ;;
     loaded_chunk <- session_query_chunk x y ;;
     chunk <- match loaded_chunk with
              | None =>
                  chunk <- Chunk_init config x y None ;;
                  chunk <- Chunk_build_blocks config Block_default_color
                             Block_default_collidable (load (S depth)) chunk ;;
                  chunk <- Chunk_save chunk ;;
                  ret (Some chunk)
              | Some db_obj =>
                  chunk <- Chunk_load_from_db_obj config db_obj ;;
                  ret (Some chunk)
              end ;;
     match chunk with
     | None => ret None
     | Some chunk => activate config chunk
     end).
  apply raising_bind, wp_log. apply raising_bind.
  unfold session_query_chunk. apply wp_gets. simpl. rewrite Hfind.
  apply raising_first. apply raising_bind.
  eapply wp_intro; [by apply Chunk_init_Ok|].
  apply raising_first. unfold Chunk_build_blocks.
  set (st0 := with_trace (trace st ++ [EvChunkLoad x y true]) st).
  apply raising_bind. eapply wp_mono.
  { apply wpg_wp.
    eapply (wpg_load_neighbour config Block_default_color
              Block_default_collidable False depth);
      [done|by right|by right]. }
  intros chunk_w st1 (Hw & Hg1 & Hct1 & Hbt1 & _).
  assert (full_grids config st1) as Hfull1.
  { unfold full_grids, chunk_rows in *. rewrite Hct1, Hbt1. exact Hfull. }
  apply raising_bind. eapply wp_mono.
  { apply wpg_wp.
    eapply (wpg_load_neighbour config Block_default_color
              Block_default_collidable False depth);
      [done|by right|by right]. }
  intros chunk_s st2 (Hs & Hg2 & _).
  destruct Hcfg as [Hh Hwd].
  apply raising_bind. eapply wp_intro; [by apply floordiv_Ok|].
  apply raising_bind. eapply wp_intro; [by apply floordiv_Ok|].
  apply raising_first. simpl.
  replace (config_window_height config / config_block_height config)%N
    with (N.of_nat R) by (unfold grid_rows; by rewrite N2Nat.id).
  replace (config_window_width config / config_block_width config)%N
    with (N.of_nat C) by (unfold grid_cols; by rewrite N2Nat.id).
  rewrite HC in *.
  apply (build_grid_single_column_raises chunk_w chunk_s R st2); [|done|done].
  eapply neighbour_ok_mono; [|done]. apply Hg2.
Qed.

End Errors.

Lemma Chunk_load_zero_block_raises_witness :
  Chunk_load {| config_window_width := 5; config_window_height := 5;
                config_block_width := 0; config_block_height := 2 |}
    example_color true 1 0 0 true initial_state
  = Raise ZeroDivisionError
      (with_trace (trace initial_state ++ [EvChunkLoad 0 0 true]) initial_state).
Proof.
  apply Chunk_load_zero_block_raises; [|by left].
  intros [_ Hw]. by apply Hw.
Defined.

Lemma Chunk_load_short_grid_raises_witness :
  raising (Chunk_load example_config example_color true 1 0 0 false)
    example_unsaved ValueError.
Proof.
  eapply (Chunk_load_short_grid_raises example_config example_color true
            0 0 0 false 0%nat).
  - split; done.
  - vm_compute. reflexivity.
  - vm_compute. lia.
Defined.

Lemma Chunk_load_single_column_raises_witness :
  raising (Chunk_load {| config_window_width := 2; config_window_height := 4;
                         config_block_width := 2; config_block_height := 2 |}
             example_color true 2 0 0 true)
    initial_state IndexError.
Proof.
  apply Chunk_load_single_column_raises.
  - split; done.
  - reflexivity.
  - vm_compute. lia.
  - intros id Hid. simpl in Hid. lia.
  - reflexivity.
Defined.

(** ** The three ways in which [Chunk.load] returns *)

Lemma find_chunk_row_None x y k t :
  find_chunk_row x y k t = None → (x, y) ∉ chunk_coords t.
Proof.
  revert k. induction t as [|r t IH]; intros k H; simpl in *.
  - apply not_elem_of_nil.
  - destruct ((row_x r =? x) && (row_y r =? y)) eqn:E; [done|].
    apply andb_false_iff in E. apply not_elem_of_cons. split; [|by eapply IH].
    intros [= Hx Hy]. destruct E as [E|E]; apply Z.eqb_neq in E; congruence.
Qed.

Section Outcome.

Variable config : Config.
Variable Block_default_color : RGB.
Variable Block_default_collidable : bool.

Local Abbreviation R := (grid_rows config).
Local Abbreviation C := (grid_cols config).
Local Abbreviation load :=
  (Chunk_load config Block_default_color Block_default_collidable).

(** A call that returns has found nothing, or hydrated a record with a full
    grid, or created the chunk. *)
Lemma Chunk_load_returned depth x y create st r st' :
  load depth x y create st = Ok r st' →
  (r = None ∧ heap st' = heap st ∧ chunk_table st' = chunk_table st ∧
   block_table st' = block_table st) ∨
  (∃ id row c,
     find_chunk_row x y 0 (chunk_table st) = Some (id, row) ∧
     length (chunk_rows st id) = (R * C)%nat ∧ r = Some c ∧
     same_chunk (hydrated_chunk config st id row) c ∧
     hydrated config st id st') ∨
  (find_chunk_row x y 0 (chunk_table st) = None ∧ create = true ∧
   config_ok config ∧ ∃ c, r = Some c ∧ created config st x y c st').
Proof.
  intros Hrun.
  destruct depth as [|depth]; [done|].
  destruct (find_chunk_row x y 0 (chunk_table st)) as [[id row]|] eqn:Hfind.
  - right. left.
    destruct r as [c|].
    2:{ exfalso. revert Hrun. simpl.
        unfold bind at 1. unfold log at 1, modify at 1.
        unfold bind at 1. unfold session_query_chunk at 1, gets at 1. simpl.
        rewrite Hfind. unfold bind at 1. unfold bind at 1.
        destruct (Chunk_load_from_db_obj config (id, row) _) as [c s|]; [|done].
        simpl. unfold activate. unfold bind.
        repeat (match goal with
                | |- context [match ?m ?s with _ => _ end] => destruct (m s)
                end; try done). }
    pose proof (Chunk_load_Some_config config Block_default_color
                  Block_default_collidable _ _ _ _ _ _ _ Hrun) as Hcfg.
    destruct (decide (length (chunk_rows st id) = (R * C)%nat)) as [Hlen|Hbad].
    + destruct (wpg_returns _ _ _ _ _
                  (wpg_Chunk_load_hit config Block_default_color
                     Block_default_collidable True depth x y create id row st
                     Hcfg Hfind Hlen (or_introl I)) Hrun)
        as (c' & Hr & Hsame & Hhyd & _).
      injection Hr as ->. by exists id, row, c'.
    + by pose proof (wpg_returns _ _ _ _ _
           (Chunk_load_short_grid config Block_default_color
              Block_default_collidable depth x y create id row st Hfind Hbad)
           Hrun).
  - destruct create.
    + right. right.
      destruct depth as [|depth].
      { by pose proof (wpg_returns _ _ _ _ _
             (Chunk_load_depth_one config Block_default_color
                Block_default_collidable x y st Hfind) Hrun). }
      destruct (decide (config_divides config)) as [Hcfg|Hn].
      2:{ destruct (wpg_returns _ _ _ _ _
            (Chunk_load_zero_block config Block_default_color
               Block_default_collidable _ x y true st Hn) Hrun) as (-> & _).
          exfalso. revert Hrun.
          change (load (S (S depth)) x y true) with
            (log (EvChunkLoad x y true) ;;
             loaded_chunk <- session_query_chunk x y ;;
             chunk <- match loaded_chunk with
                      | None =>
                          chunk <- Chunk_init config x y None ;;
                          chunk <- Chunk_build_blocks config Block_default_color
                                     Block_default_collidable (load (S depth)) chunk ;;
                          chunk <- Chunk_save chunk ;;
                          ret (Some chunk)
                      | Some db_obj =>
                          chunk <- Chunk_load_from_db_obj config db_obj ;;
                          ret (Some chunk)
                      end ;;
             match chunk with
             | None => ret None
             | Some chunk => activate config chunk
             end).
          unfold bind at 1. unfold log at 1, modify at 1.
          unfold bind at 1. unfold session_query_chunk at 1, gets at 1. simpl.
          rewrite Hfind. unfold bind at 1. unfold bind at 1.
          destruct (Chunk_init config x y None _) as [c s|] eqn:E; [|done].
          by apply Chunk_init_inv in E as [? _]. }
      destruct (decide (R ≤ 1 ∨ C ≠ 1)%nat) as [Hwide|Hone].
      * destruct (wpg_returns _ _ _ _ _
                    (wpg_Chunk_load_create config Block_default_color
                       Block_default_collidable True depth x y st
                       (conj Hcfg Hwide) (or_introl I) (or_introl I) Hfind)
                    Hrun)
          as (c & -> & Hcr & _).
        split_and!; [done..|]. by exists c.
      * assert (2 ≤ R)%nat as HR by lia. assert (C = 1)%nat as HC by lia.
        by pose proof (wpg_returns _ _ _ _ _
             (Chunk_load_single_column config Block_default_color
                Block_default_collidable (S depth) x y st HR HC Hfind) Hrun).
    + left.
      rewrite (Chunk_load_absent config Block_default_color
                 Block_default_collidable depth x y st Hfind) in Hrun.
      by injection Hrun as <- <-.
Qed.

End Outcome.

(** ** Integrity of the database *)

Section Integrity.

Variable config : Config.
Variable Block_default_color : RGB.
Variable Block_default_collidable : bool.

Local Abbreviation R := (grid_rows config).
Local Abbreviation C := (grid_cols config).
Local Abbreviation load :=
  (Chunk_load config Block_default_color Block_default_collidable).

Lemma created_unique_coords st x y c st' :
  find_chunk_row x y 0 (chunk_table st) = None →
  created config st x y c st' → unique_coords st → unique_coords st'.
Proof.
  intros Hfind Hcr Hu.
  destruct Hcr as (first & rows & _ & _ & _ & _ & _ & _ & _ & _ & _ & _ & _ & _ & _ &
                   Hct & _).
  unfold unique_coords, chunk_coords in *. rewrite Hct, fmap_app. simpl.
  apply NoDup_app. split; [done|]. split; [|apply NoDup_singleton].
  intros xy Hin ->%list_elem_of_singleton.
  by apply (find_chunk_row_None x y 0 (chunk_table st)).
Qed.

(** X16. Whatever the configuration, the nesting and the outcome, [Chunk.load]
    keeps referential integrity and never gives a coordinate a second
    record. *)
Theorem Chunk_load_keeps_integrity depth x y create st :
  fk_ok st → unique_coords st →
  fk_ok (state_of (Chunk_load config Block_default_color
                     Block_default_collidable depth x y create st)) ∧
  unique_coords (state_of (Chunk_load config Block_default_color
                             Block_default_collidable depth x y create st)).
Proof.
  intros Hfk Hu.
  assert (∀ st', chunk_table st' = chunk_table st →
                 block_table st' = block_table st →
                 fk_ok st' ∧ unique_coords st') as Hsame.
  { intros st' Hct Hbt. unfold fk_ok, unique_coords in *. by rewrite Hct, Hbt. }
  destruct (load depth x y create st) as [r st'|e st'] eqn:Hrun; simpl.
  - destruct (Chunk_load_returned config Block_default_color
                Block_default_collidable depth x y create st r st' Hrun)
      as [(_ & _ & Hct & Hbt)|[(id & row & c & _ & _ & _ & _ & Hhyd)|
          (Hfind & _ & _ & c & _ & Hcr)]].
    + by apply Hsame.
    + destruct Hhyd as (_ & Hct & Hbt & _). by apply Hsame.
    + split; [by eapply created_fk_ok|by eapply created_unique_coords].
  - destruct (Chunk_load_raised config Block_default_color
                Block_default_collidable depth x y create st e st' Hrun)
      as [(Hct & Hbt & _)|(_ & _ & Hfind & _ & c & Hcr)].
    + by apply Hsame.
    + split; [by eapply created_fk_ok|by eapply created_unique_coords].
Qed.

(** X17. On a database that agrees with the configuration, and with a window
    that has pixels, [Chunk.load] returns: a chunk unless nothing was to be
    created and nothing found. The database agrees with the configuration
    afterwards, and the coordinate of a returned chunk resolves to the record
    that the chunk carries. *)
Theorem Chunk_load_returns_on_consistent_db depth x y create st :
  config_ok config → window_ok config → db_ok config st → (2 ≤ depth)%nat →
  ∃ r st',
    Chunk_load config Block_default_color Block_default_collidable
      depth x y create st = Ok r st' ∧
    db_ok config st' ∧
    (r = None ↔ create = false ∧ find_chunk_row x y 0 (chunk_table st) = None) ∧
    ∀ c, r = Some c →
      Chunk_x c = x ∧ Chunk_y c = y ∧
      ∃ id row, find_chunk_row x y 0 (chunk_table st') = Some (id, row) ∧
                Chunk_db_obj c = Some id.
Proof.
  intros Hcfg Hwin Hdb Hdepth. destruct depth as [|[|depth]]; [lia..|].
  destruct (find_chunk_row x y 0 (chunk_table st)) as [[id row]|] eqn:Hfind.
  - assert (length (chunk_rows st id) = (R * C)%nat) as Hlen.
    { destruct Hdb as [Hcount _]. apply Hcount.
      apply find_chunk_row_Some in Hfind as (_ & Hl & _).
      apply lookup_lt_Some in Hl. lia. }
    destruct (wp_elim _ _ _ (wp_Chunk_load_hit config Block_default_color
                Block_default_collidable (S depth) x y create id row st (proj1 Hcfg)
                Hfind Hlen (window_ok_drawable_hydrated config st id row st Hwin)))
      as (r & st' & Hrun & c & -> & Hsame & (_ & Hct & Hbt & _) & _).
    exists (Some c), st'. split; [done|]. split_and!.
    + destruct Hdb as [Hcount Hfk]. unfold db_ok, full_grids, fk_ok, chunk_rows in *.
      rewrite Hct, Hbt. done.
    + split; [done|]. by intros [_ [=]].
    + intros c' [= <-].
      destruct Hsame as (Hid & Hx & Hy & _). simpl in Hid, Hx, Hy.
      apply find_chunk_row_Some in Hfind as Hrow.
      destruct Hrow as (_ & _ & Hrx & Hry).
      split_and!; [congruence..|].
      exists id, row. by rewrite Hct.
  - destruct create.
    + destruct (wp_elim _ _ _ (wp_Chunk_load_create config Block_default_color
                  Block_default_collidable depth x y st Hcfg (proj1 Hdb) Hwin
                  Hfind))
        as (r & st' & Hrun & c & -> & Hcr).
      exists (Some c), st'. split; [done|]. split_and!.
      * by eapply created_db_ok.
      * split; [done|]. by intros [[=] _].
      * intros c' [= <-].
        destruct Hcr as (first & rows & Hx & Hy & _ & Hid & _ & _ & _ & _ & _ & _ &
                         _ & _ & _ & Hct & _).
        split_and!; [done..|].
        eexists _, _. split; [|exact Hid]. rewrite Hct.
        by rewrite (find_chunk_row_snoc x y 0 (chunk_table st) _ Hfind).
    + eexists _, _. split; [by apply Chunk_load_absent|]. split_and!; [done|done|done].
Qed.

End Integrity.

Lemma Chunk_load_keeps_integrity_witness :
  fk_ok (state_of (Chunk_load example_config example_color true 2 0 0 true
                     initial_state)) ∧
  unique_coords (state_of (Chunk_load example_config example_color true 2 0 0 true
                             initial_state)).
Proof.
  apply Chunk_load_keeps_integrity.
  - intros brow id Hin. by apply elem_of_nil in Hin.
  - apply NoDup_nil_2.
Defined.

Lemma Chunk_load_returns_on_consistent_db_witness :
  ∃ r st',
    Chunk_load example_config example_color true 2 0 0 true initial_state
    = Ok r st' ∧
    db_ok example_config st' ∧
    (r = None ↔ true = false ∧ find_chunk_row 0 0 0 (chunk_table initial_state) = None) ∧
    ∀ c, r = Some c →
      Chunk_x c = 0 ∧ Chunk_y c = 0 ∧
      ∃ id row, find_chunk_row 0 0 0 (chunk_table st') = Some (id, row) ∧
                Chunk_db_obj c = Some id.
Proof.
  apply Chunk_load_returns_on_consistent_db.
  - split; [split; done|]. right. vm_compute. lia.
  - exact example_window_ok.
  - split.
    + intros id Hid. simpl in Hid. lia.
    + intros brow id Hin. by apply elem_of_nil in Hin.
  - lia.
Defined.

(** ** Block objects are never shared *)

Section Fresh.

Variable config : Config.
Variable Block_default_color : RGB.
Variable Block_default_collidable : bool.

Local Abbreviation R := (grid_rows config).
Local Abbreviation C := (grid_cols config).
Local Abbreviation load :=
  (Chunk_load config Block_default_color Block_default_collidable).

(** The blocks of a returned chunk have been allocated by the call, and the
    grid holds each of them once. *)
Lemma Chunk_load_blocks_fresh depth x y create st c st' :
  load depth x y create st = Ok (Some c) st' →
  grown (heap st) (heap st') ∧
  concat (Chunk_grid c) ≡ₚ Chunk_blocks c ∧
  NoDup (Chunk_blocks c) ∧
  Forall (fun r => (length (heap st) ≤ r < length (heap st'))%nat) (Chunk_blocks c).
Proof.
  intros Hrun.
  destruct (Chunk_load_returned config Block_default_color
              Block_default_collidable depth x y create st _ st' Hrun)
    as [(? & _)|[(id & row & c' & _ & Hlen & [= <-] & Hsame & Hhyd)|
        (_ & _ & _ & c' & [= <-] & Hcr)]]; [done| |].
  - destruct Hsame as (_ & _ & _ & _ & _ & _ & Hgrid & Hblocks).
    simpl in Hgrid, Hblocks. rewrite Hgrid, Hblocks.
    destruct Hhyd as (Hrel & _).
    pose proof Hrel as [Hl _].
    unfold hydrated_heap in Hl. rewrite length_app, length_fmap in Hl.
    split_and!.
    + eapply grown_trans; [apply grown_app|]. by eapply relinked_grown.
    + rewrite (proj2 (hydrated_grid_shape st _ R C Hlen)). apply sorted_perm.
    + apply NoDup_seq.
    + apply Forall_forall. intros r Hr%elem_of_seq. lia.
  - destruct Hcr as (first & rows & _ & _ & _ & _ & _ & _ & Hblocks & _ & Hcat &
                     Hfirst & Hlast & _ & Hgrown & _).
    rewrite Hblocks, Hcat.
    split_and!; [done|done|apply NoDup_seq|].
    apply Forall_forall. intros r Hr%elem_of_seq. lia.
Qed.

(** X18. Two calls of [Chunk.load], one after the other and for whatever
    coordinates, never return chunks that share a block object, also when
    both are for the same coordinate; and the second call leaves the
    attributes and the records of the first chunk's blocks as they are. *)
Theorem Chunk_load_never_shares_blocks
    depth1 x1 y1 create1 depth2 x2 y2 create2 st c1 st1 c2 st2 :
  Chunk_load config Block_default_color Block_default_collidable
    depth1 x1 y1 create1 st = Ok (Some c1) st1 →
  Chunk_load config Block_default_color Block_default_collidable
    depth2 x2 y2 create2 st1 = Ok (Some c2) st2 →
  (∀ r, r ∈ Chunk_blocks c1 → r ∉ Chunk_blocks c2) ∧
  (∀ r, r ∈ concat (Chunk_grid c1) → r ∉ concat (Chunk_grid c2)) ∧
  ∀ r, r ∈ Chunk_blocks c1 →
    ∃ b b', heap st1 !! r = Some b ∧ heap st2 !! r = Some b' ∧
            Block_attrs b' = Block_attrs b ∧ Block_db_obj b' = Block_db_obj b.
Proof.
  intros Hrun1 Hrun2.
  destruct (Chunk_load_blocks_fresh _ _ _ _ _ _ _ Hrun1) as (_ & Hp1 & _ & Hf1).
  destruct (Chunk_load_blocks_fresh _ _ _ _ _ _ _ Hrun2) as (Hg2 & Hp2 & _ & Hf2).
  rewrite Forall_forall in Hf1, Hf2.
  assert (∀ r, r ∈ Chunk_blocks c1 → r ∉ Chunk_blocks c2) as Hdisj.
  { intros r H1 H2. specialize (Hf1 _ H1). specialize (Hf2 _ H2). lia. }
  split_and!; [done| |].
  - intros r H1 H2. rewrite Hp1 in H1. rewrite Hp2 in H2. by eapply Hdisj.
  - intros r H1. specialize (Hf1 _ H1).
    destruct (lookup_lt_is_Some_2 (heap st1) r) as [b Hb]; [lia|].
    destruct Hg2 as [_ Hg2]. destruct (Hg2 r b Hb) as (b' & ? & ? & ?).
    by exists b, b'.
Qed.

End Fresh.

Lemma Chunk_load_never_shares_blocks_witness :
  ∃ c1 st1 c2 st2,
    Chunk_load example_config example_color true 2 0 0 true initial_state
    = Ok (Some c1) st1 ∧
    Chunk_load example_config example_color true 2 0 0 false st1
    = Ok (Some c2) st2 ∧
    (∀ r, r ∈ Chunk_blocks c1 → r ∉ Chunk_blocks c2) ∧
    (∀ r, r ∈ concat (Chunk_grid c1) → r ∉ concat (Chunk_grid c2)) ∧
    ∀ r, r ∈ Chunk_blocks c1 →
      ∃ b b', heap st1 !! r = Some b ∧ heap st2 !! r = Some b' ∧
              Block_attrs b' = Block_attrs b ∧ Block_db_obj b' = Block_db_obj b.
Proof.
  eassert (Chunk_load example_config example_color true 2 0 0 true initial_state
           = Ok (Some _) _) as E1 by (vm_compute; reflexivity).
  match type of E1 with
  | _ = Ok _ ?s =>
      eassert (Chunk_load example_config example_color true 2 0 0 false s
               = Ok (Some _) _) as E2 by (vm_compute; reflexivity)
  end.
  eexists _, _, _, _. split; [exact E1|]. split; [exact E2|].
  exact (Chunk_load_never_shares_blocks _ _ _ _ _ _ _ _ _ _ _ _ _ _ _ _ E1 E2).
Defined.

(** ** Old objects are left alone *)

Lemma untouched_length n st st' :
  (n ≤ length (heap st))%nat → untouched n st st' → (n ≤ length (heap st'))%nat.
Proof.
  intros Hn Hu. unfold untouched in Hu. apply (f_equal length) in Hu.
  rewrite !length_take in Hu. lia.
Qed.

Section Spares.

Variable n : nat.

Lemma spares_ret {A} (a : A) (Q : A → Prop) : Q a → spares n (ret a) Q.
Proof. by intros HQ st Hn Hc. Qed.

Lemma spares_ret_tt : spares n (ret tt) (fun _ => True).
Proof. by apply spares_ret. Qed.

Lemma spares_raise {A} e (Q : A → Prop) : spares n (@raise A e) Q.
Proof. by intros st Hn Hc. Qed.

Lemma spares_gets {A} (f : State → A) : spares n (gets f) (fun _ => True).
Proof. by intros st Hn Hc. Qed.

Lemma spares_modify (f : State → State) :
  (∀ st, heap (f st) = heap st) → spares n (modify f) (fun _ => True).
Proof.
  intros Hf st Hn Hc. simpl. unfold apart, untouched, closed. by rewrite Hf.
Qed.

Lemma spares_bind {A B} (m : M A) (k : A → M B) (Q1 : A → Prop) (Q : B → Prop) :
  spares n m Q1 → (∀ a, Q1 a → spares n (k a) Q) → spares n (bind m k) Q.
Proof.
  intros Hm Hk st Hn Hc. unfold bind. specialize (Hm st Hn Hc).
  destruct (m st) as [a st1|e st1]; [|done].
  destruct Hm as [[Hu Hc1] HQ1].
  specialize (Hk a HQ1 st1 (untouched_length _ _ _ Hn Hu) Hc1).
  unfold apart, untouched in *.
  destruct (k a st1) as [b st2|e st2].
  - destruct Hk as [[Hu2 Hc2] HQ]. split_and!; [congruence|done..].
  - destruct Hk as [Hu2 Hc2]. split; [congruence|done].
Qed.

Lemma spares_mono {A} (m : M A) (Q Q' : A → Prop) :
  spares n m Q → (∀ a, Q a → Q' a) → spares n m Q'.
Proof.
  intros Hm HQ st Hn Hc. specialize (Hm st Hn Hc).
  destruct (m st); [destruct Hm; split; auto|done].
Qed.

Lemma spares_for_each {A B} (body : B → A → M B) (l : list A) (I : B → Prop) acc :
  I acc → (∀ acc x, I acc → x ∈ l → spares n (body acc x) I) →
  spares n (for_each body l acc) I.
Proof.
  revert acc. induction l as [|x l IH]; intros acc Hacc Hbody; simpl.
  - by apply spares_ret.
  - eapply spares_bind; [apply Hbody; [done|by left]|].
    intros acc' Hacc'. apply IH; [done|].
    intros acc'' x' ? ?. apply Hbody; [done|by right].
Qed.

Lemma spares_or_raise {A} e (o : option A) (Q : A → Prop) :
  (∀ a, o = Some a → Q a) → spares n (or_raise e o) Q.
Proof. intros HQ. destruct o; [apply spares_ret; auto|apply spares_raise]. Qed.

Lemma spares_log ev : spares n (log ev) (fun _ => True).
Proof. by apply spares_modify. Qed.

(** A new object that is read links to new objects. *)
Lemma spares_deref r :
  spares n (deref r) (fun b => (n ≤ r)%nat → links_new n b).
Proof.
  intros st Hn Hc. unfold deref, bind, gets, or_raise.
  destruct (heap st !! r) as [b|] eqn:Hb; simpl; [|done].
  split; [done|]. intros Hr. unfold closed in Hc.
  rewrite Forall_lookup in Hc. apply (Hc (r - n)%nat).
  rewrite lookup_drop. by replace (n + (r - n))%nat with r by lia.
Qed.

(** Assignment to a new object. *)
Lemma spares_store r b :
  (n ≤ r)%nat → links_new n b → spares n (store r b) (fun _ => True).
Proof.
  intros Hr Hb st Hn Hc. simpl. split; [|done]. split.
  - unfold untouched. simpl. by rewrite take_insert_ge.
  - unfold closed in *. simpl.
    rewrite drop_insert_ge by done. by apply Forall_insert.
Qed.

(** A new object is not among the old ones. *)
Lemma spares_alloc b : links_new n b → spares n (alloc b) (fun r => (n ≤ r)%nat).
Proof.
  intros Hb st Hn Hc. simpl. split; [|done]. split.
  - unfold untouched. simpl. by rewrite take_app_le.
  - unfold closed in *. simpl. rewrite drop_app_le by done.
    apply Forall_app. split; [done|]. by repeat constructor.
Qed.

Lemma links_new_no_links b : Block_links b = no_links → links_new n b.
Proof. intros Hb d t. unfold Block_link. rewrite Hb. by destruct d. Qed.

Lemma links_new_same b b' :
  Block_links b' = Block_links b → links_new n b → links_new n b'.
Proof. intros Hb H d t. unfold Block_link. rewrite Hb. apply H. Qed.

Lemma links_new_set d t b :
  (n ≤ t)%nat → links_new n b →
  links_new n (Block_with_links (set_link d (Some t) (Block_links b)) b).
Proof.
  intros Ht Hb d' t'. unfold Block_link. simpl.
  destruct (decide (d = d')) as [->|Hne].
  - rewrite get_set_link_eq. by intros [= <-].
  - rewrite get_set_link_ne by done. apply Hb.
Qed.

End Spares.

Create HintDb spares.
#[local] Hint Resolve spares_ret_tt spares_gets spares_log spares_deref
  spares_raise : spares.
#[local] Hint Extern 1 (spares _ (modify _) _) =>
  apply spares_modify; intros ?; reflexivity : spares.
#[local] Hint Extern 1 (_ ≤ _)%nat => assumption : spares.

(** Statement after statement; branches are split before they are entered. *)
Ltac spares_steps :=
  repeat first
    [ match goal with
      | |- spares _ (if ?c then _ else _) _ => destruct c
      | |- spares _ (bind (if ?c then _ else _) _) _ => destruct c
      | |- spares _ (match ?c with _ => _ end) _ => destruct c
      | |- spares _ (bind (match ?c with _ => _ end) _) _ => destruct c
      end
    | solve [eauto with spares]
    | match goal with
      | |- spares _ (ret _) ?Q => tryif is_evar Q then fail else apply spares_ret
      end
    | eapply spares_bind; [|intros ? ?; cbv beta in * ]
    | progress cbv zeta ].

Section SparesBlocks.

Variable n : nat.

(** A link of a new block is set to a new block. *)
Lemma spares_Block_setattr r d t :
  (n ≤ r)%nat → (n ≤ t)%nat → spares n (Block_setattr r d t) (fun _ => True).
Proof.
  intros Hr Ht. unfold Block_setattr.
  eapply spares_bind; [apply spares_deref|]. intros b Hb.
  apply spares_store; [done|]. apply links_new_set; auto.
Qed.

Lemma spares_Block_set_pos r x y :
  (n ≤ r)%nat → spares n (Block_set_pos r x y) (fun _ => True).
Proof.
  intros Hr. unfold Block_set_pos.
  eapply spares_bind; [apply spares_deref|]. intros b Hb.
  apply spares_store; [done|]. apply (links_new_same n b); auto.
Qed.

Lemma spares_Block_init config color collidable x y :
  spares n (Block_init config color collidable x y) (fun r => (n ≤ r)%nat).
Proof. unfold Block_init. by apply spares_alloc, links_new_no_links. Qed.

(** Extrusion reads its block and makes a new one, which has no links. *)
Lemma spares_Block_create_direction r d :
  spares n (Block_create_direction r d) (fun r' => (n ≤ r')%nat).
Proof.
  unfold Block_create_direction.
  eapply spares_bind; [apply spares_deref|]. intros b _.
  by apply spares_alloc, links_new_no_links.
Qed.

Lemma spares_Block_save r :
  (n ≤ r)%nat → spares n (Block_save r) (fun _ => True).
Proof.
  intros Hr. unfold Block_save.
  eapply spares_bind; [apply spares_deref|]. intros b Hb.
  destruct (Block_db_obj b); [spares_steps|].
  eapply spares_bind; [apply spares_gets|]. intros rid _.
  eapply (spares_bind _ _ _ (fun _ => True)); [spares_steps|]. intros [] _.
  eapply (spares_bind _ _ _ (fun _ => True)); [|intros [] _; by apply spares_ret].
  apply spares_store; [done|]. apply (links_new_same n b); auto.
Qed.

Lemma spares_Block_load_from_db_obj rec :
  spares n (Block_load_from_db_obj rec) (fun r => (n ≤ r)%nat).
Proof.
  unfold Block_load_from_db_obj. by apply spares_alloc, links_new_no_links.
Qed.

Lemma spares_floordiv a b : spares n (floordiv a b) (fun _ => True).
Proof. unfold floordiv. spares_steps. Qed.

Lemma spares_getitem (row : list ref) i :
  new_refs n row →
  spares n (or_raise IndexError (py_getitem row i)) (fun r => (n ≤ r)%nat).
Proof.
  intros Hrow. apply spares_or_raise. intros r Hr%py_getitem_elem.
  unfold new_refs in Hrow. rewrite Forall_forall in Hrow. by apply Hrow.
Qed.

Lemma spares_grid_at g i j :
  new_grid n g → spares n (grid_at g i j) (fun r => (n ≤ r)%nat).
Proof.
  intros Hg. unfold grid_at.
  eapply (spares_bind _ _ _ (new_refs n)).
  - apply spares_or_raise. intros row Hrow%py_getitem_elem.
    unfold new_grid in Hg. rewrite Forall_forall in Hg. by apply Hg.
  - intros row Hrow. by apply spares_getitem.
Qed.

End SparesBlocks.

#[local] Hint Resolve spares_Block_init spares_Block_create_direction
  spares_Block_load_from_db_obj spares_floordiv : spares.
#[local] Hint Extern 1 (spares _ (Block_setattr _ _ _) _) =>
  apply spares_Block_setattr : spares.
#[local] Hint Extern 1 (spares _ (Block_set_pos _ _ _) _) =>
  apply spares_Block_set_pos : spares.
#[local] Hint Extern 1 (spares _ (Block_save _) _) =>
  apply spares_Block_save : spares.
#[local] Hint Extern 1 (spares _ (grid_at _ _ _) _) =>
  apply spares_grid_at : spares.
#[local] Hint Extern 1 (spares _ (or_raise IndexError (py_getitem _ _)) _) =>
  apply spares_getitem : spares.

Lemma elem_of_enumerate_from {A} (l : list A) k i x :
  (i, x) ∈ enumerate_from k l → x ∈ l.
Proof.
  revert k. induction l as [|y l IH]; intros k H; simpl in H.
  - by apply elem_of_nil in H.
  - apply elem_of_cons in H as [[= _ ->]|H]; [by left|right; by eapply IH].
Qed.

Lemma new_refs_reshape n (l : list ref) rows cols g :
  new_refs n l → reshape l rows cols = Some g → new_grid n g.
Proof.
  unfold reshape. intros Hl Hg.
  destruct (N.of_nat (length l) =? rows * cols)%N; [|done].
  injection Hg as <-. revert l Hl.
  induction (N.to_nat rows) as [|R IH]; intros l Hl; simpl; [constructor|].
  constructor; [by apply Forall_take|]. apply IH. by apply Forall_drop.
Qed.

Section SparesChunks.

Variable n : nat.
Variable config : Config.
Variable Block_default_color : RGB.
Variable Block_default_collidable : bool.

Local Abbreviation load :=
  (Chunk_load config Block_default_color Block_default_collidable).

Lemma spares_Chunk_init x y name :
  spares n (Chunk_init config x y name) (new_chunk n).
Proof.
  unfold Chunk_init. spares_steps. by split; constructor.
Qed.

(** [link_blocks] assigns to the blocks of the grid only. *)
Lemma spares_Chunk_link_blocks self :
  new_grid n (Chunk_grid self) →
  spares n (Chunk_link_blocks self) (fun _ => True).
Proof.
  intros Hg. unfold Chunk_link_blocks.
  apply spares_for_each; [done|]. intros [] [r_i row] _ Hrow. simpl.
  apply elem_of_enumerate_from in Hrow.
  apply spares_for_each; [done|]. intros [] [b_i block] _ Hblock. simpl.
  apply elem_of_enumerate_from in Hblock.
  assert (n ≤ block)%nat as Hnew.
  { unfold new_grid, new_refs in Hg. rewrite Forall_forall in Hg.
    specialize (Hg _ Hrow). rewrite Forall_forall in Hg. by apply Hg. }
  spares_steps.
Qed.

Lemma spares_Chunk_load_blocks self :
  spares n (Chunk_load_blocks self) (new_chunk n).
Proof.
  unfold Chunk_load_blocks. destruct (Chunk_db_obj self) as [id|]; [|apply spares_raise].
  eapply spares_bind; [apply spares_gets|]. intros rows _.
  eapply (spares_bind _ _ _ (new_refs n)).
  { apply spares_for_each; [constructor|]. intros acc rec Hacc _.
    eapply spares_bind; [apply spares_Block_load_from_db_obj|].
    intros b Hb. apply spares_ret. apply Forall_app. split; [done|].
    by repeat constructor. }
  intros blocks Hblocks.
  eapply spares_bind; [apply spares_gets|]. intros h _.
  eapply (spares_bind _ _ _ (new_grid n)).
  { apply spares_or_raise. intros g Hg.
    eapply new_refs_reshape; [|exact Hg].
    unfold new_refs. by rewrite sorted_perm. }
  intros grid Hgrid. cbv zeta.
  eapply spares_bind; [by apply spares_Chunk_link_blocks|]. intros [] _.
  by apply spares_ret.
Qed.

Lemma spares_Chunk_load_from_db_obj db_obj :
  spares n (Chunk_load_from_db_obj config db_obj) (new_chunk n).
Proof.
  unfold Chunk_load_from_db_obj.
  eapply spares_bind; [apply spares_Chunk_init|]. intros c _. cbv zeta.
  apply spares_Chunk_load_blocks.
Qed.

Lemma spares_Chunk_set_walls self :
  new_chunk n self → spares n (Chunk_set_walls self) (new_chunk n).
Proof.
  intros Hself. unfold Chunk_set_walls. cbv zeta.
  apply spares_for_each; [done|]. intros c block Hc _.
  eapply spares_bind; [apply spares_deref|]. intros b _.
  destruct (Block_collidable b); by apply spares_ret.
Qed.

Lemma spares_randint a b : spares n (randint a b) (fun _ => True).
Proof. unfold randint. spares_steps. Qed.

Lemma spares_Chunk_add_mobs k self :
  new_chunk n self → spares n (Chunk_add_mobs config k self) (new_chunk n).
Proof.
  intros Hself. unfold Chunk_add_mobs.
  apply spares_for_each; [done|]. intros c i Hc _.
  eapply spares_bind; [apply spares_randint|]. intros x _.
  eapply spares_bind; [apply spares_randint|]. intros y _.
  by apply spares_ret.
Qed.

Lemma spares_activate chunk :
  new_chunk n chunk → spares n (activate config chunk) (new_neighbour n).
Proof.
  intros Hc. unfold activate, isfile, Chunk_build_img.
  eapply spares_bind; [apply spares_gets|]. intros present _.
  eapply (spares_bind _ _ _ (fun _ => True)).
  { destruct present; [apply spares_ret_tt|].
    destruct (_ || _); [apply spares_raise|by apply spares_modify]. }
  intros [] _.
  eapply spares_bind; [by apply spares_Chunk_set_walls|]. intros c1 Hc1.
  eapply spares_bind; [by apply spares_Chunk_add_mobs|]. intros c2 Hc2.
  by apply spares_ret.
Qed.

(** [save] gives records to the chunk's own blocks. *)
Lemma spares_Chunk_save self :
  new_chunk n self → spares n (Chunk_save self) (new_chunk n).
Proof.
  intros [Hb Hg]. unfold Chunk_save, session_add_chunk, BlockRow_set_chunk_id.
  cbv zeta.
  eapply (spares_bind _ _ _ (fun _ => True)).
  { apply spares_for_each; [done|]. intros [] block _ Hblock.
    assert (n ≤ block)%nat.
    { unfold new_refs in Hb. rewrite Forall_forall in Hb. by apply Hb. }
    spares_steps. }
  intros [] _.
  eapply (spares_bind _ _ _ (fun _ => True)).
  { destruct (Chunk_db_obj self); spares_steps. }
  intros id _. by apply spares_ret.
Qed.

(** A cell of the generator assigns to the new block, to blocks of the rows
    built so far, and to blocks of the neighbours that have been loaded for
    the purpose. *)
Lemma spares_build_cell chunk_w chunk_s n_cols grid row r_i c_i :
  new_neighbour n chunk_w → new_neighbour n chunk_s →
  new_grid n grid → new_refs n row →
  spares n (build_cell config Block_default_color Block_default_collidable
              chunk_w chunk_s n_cols grid row r_i c_i)
         (fun r => (n ≤ r)%nat).
Proof.
  intros Hw Hs Hgrid Hrow. unfold build_cell.
  destruct chunk_w as [cw|]; [destruct Hw as [_ Hw]|];
    (destruct chunk_s as [cs|]; [destruct Hs as [_ Hs]|]).
  all: spares_steps.
Qed.

Lemma spares_Chunk_build_blocks
    (load_chunk : Z → Z → bool → M (option Chunk)) self :
  (∀ x y, spares n (load_chunk x y false) (new_neighbour n)) →
  new_chunk n self →
  spares n (Chunk_build_blocks config Block_default_color
              Block_default_collidable load_chunk self) (new_chunk n).
Proof.
  intros Hload [Hb _]. unfold Chunk_build_blocks.
  eapply spares_bind; [apply Hload|]. intros chunk_w Hw.
  eapply spares_bind; [apply Hload|]. intros chunk_s Hs.
  eapply spares_bind; [apply spares_floordiv|]. intros n_rows _.
  eapply spares_bind; [apply spares_floordiv|]. intros n_cols _.
  eapply (spares_bind _ _ _ (new_grid n)).
  { apply spares_for_each; [constructor|]. intros grid r_i Hgrid _.
    eapply (spares_bind _ _ _ (new_refs n)).
    { apply spares_for_each; [constructor|]. intros row c_i Hrow _.
      eapply spares_bind; [by apply spares_build_cell|]. intros nb Hnb.
      apply spares_ret. apply Forall_app. split; [done|]. by repeat constructor. }
    intros row Hrow. apply spares_ret. apply Forall_app. split; [done|].
    by repeat constructor. }
  intros grid Hgrid.
  eapply spares_bind; [by apply spares_Chunk_save|]. intros c [_ Hc].
  apply spares_ret. split; [|done]. simpl. by apply Forall_concat.
Qed.

Lemma spares_Chunk_load depth x y create :
  spares n (load depth x y create) (new_neighbour n).
Proof.
  revert x y create. induction depth as [|depth IH]; intros x y create.
  { apply spares_raise. }
  change (load (S depth) x y create) with
    (log (EvChunkLoad x y create) ;;
     loaded_chunk <- session_query_chunk x y ;;
     chunk <- match loaded_chunk with
              | None =>
                  if create then
                    chunk <- Chunk_init config x y None ;;
                    chunk <- Chunk_build_blocks config Block_default_color
                               Block_default_collidable (load depth) chunk ;;
                    chunk <- Chunk_save chunk ;;
                    ret (Some chunk)
                  else ret None
              | Some db_obj =>
                  chunk <- Chunk_load_from_db_obj config db_obj ;;
                  ret (Some chunk)
              end ;;
     match chunk with
     | None => ret None
     | Some chunk => activate config chunk
     end).
  eapply spares_bind; [apply spares_log|]. intros [] _.
  eapply spares_bind; [apply spares_gets|]. intros loaded_chunk _.
  eapply (spares_bind _ _ _ (new_neighbour n)).
  { destruct loaded_chunk as [db_obj|]; [|destruct create].
    - eapply spares_bind; [apply spares_Chunk_load_from_db_obj|].
      intros c Hc. by apply spares_ret.
    - eapply spares_bind; [apply spares_Chunk_init|]. intros c0 Hc0.
      eapply spares_bind.
      { apply spares_Chunk_build_blocks; [|done]. intros x' y'. apply IH. }
      intros c1 Hc1.
      eapply spares_bind; [by apply spares_Chunk_save|]. intros c2 Hc2.
      by apply spares_ret.
    - by apply spares_ret. }
  intros [chunk|] Hchunk; [by apply spares_activate|by apply spares_ret].
Qed.

End SparesChunks.

Section SparesLoad.

Variable config : Config.
Variable Block_default_color : RGB.
Variable Block_default_collidable : bool.

Lemma Chunk_load_apart depth x y create st :
  apart (length (heap st)) st
    (state_of (Chunk_load config Block_default_color Block_default_collidable
                 depth x y create st)).
Proof.
  assert (closed (length (heap st)) st) as Hc.
  { unfold closed. rewrite drop_all. constructor. }
  pose proof (spares_Chunk_load (length (heap st)) config Block_default_color
                Block_default_collidable depth x y create st (le_n _) Hc) as H.
  destruct (Chunk_load _ _ _ depth x y create st); simpl; apply H.
Qed.

(** X19. [Chunk.load] never changes an object that was there before the call:
    whatever the configuration, the database and the outcome, the heap after
    the call is the heap before it followed by the objects the call has
    made. The links that [build_blocks] assigns on blocks of the western
    neighbour are assigned on blocks made by the call. *)
Theorem Chunk_load_spares_existing_objects depth x y create st :
  ∃ new,
    heap (state_of (Chunk_load config Block_default_color
                      Block_default_collidable depth x y create st))
    = heap st ++ new.
Proof.
  destruct (Chunk_load_apart depth x y create st) as [Hu _].
  set (out := Chunk_load _ _ _ depth x y create st) in *.
  exists (drop (length (heap st)) (heap (state_of out))).
  rewrite <- (take_drop (length (heap st)) (heap (state_of out))) at 1.
  f_equal. unfold untouched in Hu. by rewrite Hu, firstn_all.
Qed.

(** X20. No object that [Chunk.load] makes is linked to an object that was there
    before the call: the blocks of a chunk that is loaded or created link
    among themselves and to the blocks of the neighbours that [build_blocks]
    has loaded for the purpose, never to a block of a chunk that the caller
    holds. *)
Theorem Chunk_load_links_new_objects_only depth x y create st :
  Forall (links_new (length (heap st)))
    (drop (length (heap st))
       (heap (state_of (Chunk_load config Block_default_color
                          Block_default_collidable depth x y create st)))).
Proof. by destruct (Chunk_load_apart depth x y create st) as [_ Hc]. Qed.

End SparesLoad.

(** ** [sorted] sorts *)

Lemma key_before_spec k1 k2 :
  key_before k1 k2 ↔ k1.1 < k2.1 ∨ (k1.1 = k2.1 ∧ k1.2 ≤ k2.2).
Proof.
  unfold key_before, key_le.
  rewrite orb_true_iff, andb_true_iff, Z.ltb_lt, Z.eqb_eq, Z.leb_le. done.
Qed.

Lemma key_before_total k1 k2 : key_before k1 k2 ∨ key_before k2 k1.
Proof. rewrite !key_before_spec. lia. Qed.

Lemma key_before_trans k1 k2 k3 :
  key_before k1 k2 → key_before k2 k3 → key_before k1 k3.
Proof. rewrite !key_before_spec. lia. Qed.

Lemma key_before_antisym k1 k2 : key_before k1 k2 → key_before k2 k1 → k1 = k2.
Proof.
  rewrite !key_before_spec. destruct k1, k2; simpl. intros ? ?.
  f_equal; lia.
Qed.

Lemma insert_by_key_sorted (x : Z * Z) (l : list (Z * Z)) :
  StronglySorted key_before l →
  StronglySorted key_before (insert_by_key id x l).
Proof.
  induction 1 as [|y l Hl IH Hy]; simpl.
  - by repeat constructor.
  - destruct (key_le y x) eqn:E.
    + constructor; [done|].
      rewrite insert_by_key_perm. constructor; [exact E|done].
    + assert (key_before x y) as Hxy.
      { destruct (key_before_total x y) as [|Hyx]; [done|].
        unfold key_before in Hyx. simpl in E. congruence. }
      constructor; [by constructor|]. constructor; [done|].
      eapply Forall_impl; [exact Hy|]. intros z Hz. by eapply key_before_trans.
Qed.

Lemma sorted_sorted (l : list (Z * Z)) : StronglySorted key_before (sorted id l).
Proof.
  unfold sorted.
  assert (∀ acc, StronglySorted key_before acc →
            StronglySorted key_before
              (foldl (fun acc x => insert_by_key id x acc) acc l)) as H.
  { induction l as [|x l IH]; intros acc Hacc; simpl; [done|].
    by apply IH, insert_by_key_sorted. }
  apply H. constructor.
Qed.

(** ** The positions of a grid *)

Lemma grid_positions_S R C :
  grid_positions (S R) C
  = grid_positions R C ++ ((fun j => (Z.of_nat R, Z.of_nat j)) <$> seq 0 C).
Proof.
  unfold grid_positions. rewrite seq_S, bind_app. simpl.
  by rewrite app_nil_r.
Qed.

Lemma length_grid_positions R C : length (grid_positions R C) = (R * C)%nat.
Proof.
  induction R as [|R IH]; [done|].
  rewrite grid_positions_S, length_app, IH, length_fmap, length_seq. lia.
Qed.

Lemma elem_of_grid_positions R C k :
  k ∈ grid_positions R C → 0 ≤ k.1 < Z.of_nat R.
Proof.
  unfold grid_positions. intros (i & Hk & Hi%elem_of_seq)%list_elem_of_bind.
  apply list_elem_of_fmap in Hk as (j & -> & _). simpl. lia.
Qed.

Lemma grid_positions_sorted R C : StronglySorted key_before (grid_positions R C).
Proof.
  induction R as [|R IH]; [constructor|].
  rewrite grid_positions_S. apply StronglySorted_app_2; [|done|].
  - intros k1 k2 Hk1%elem_of_grid_positions (j & -> & _)%list_elem_of_fmap.
    apply key_before_spec. simpl. lia.
  - clear IH. generalize 0%nat. induction C as [|C IHC]; intros a; [constructor|].
    rewrite <- cons_seq, fmap_cons. constructor; [apply IHC|].
    apply Forall_fmap, Forall_forall. intros j Hj%elem_of_seq.
    apply key_before_spec. simpl. lia.
Qed.

Lemma grid_positions_lookup R C i j :
  (i < R)%nat → (j < C)%nat →
  grid_positions R C !! (i * C + j)%nat = Some (Z.of_nat i, Z.of_nat j).
Proof.
  intros Hi Hj. induction R as [|R IH]; [lia|].
  rewrite grid_positions_S.
  destruct (decide (i = R)) as [->|Hne].
  - rewrite lookup_app_r; rewrite length_grid_positions; [|lia].
    replace (R * C + j - R * C)%nat with j by lia.
    rewrite list_lookup_fmap, lookup_seq_lt by done. done.
  - rewrite lookup_app_l; [apply IH; lia|].
    rewrite length_grid_positions. nia.
Qed.

(** Whatever the order of the keys, sorting a full set of grid positions
    gives the positions row by row. *)
Lemma sorted_grid_positions R C (ks : list (Z * Z)) :
  ks ≡ₚ grid_positions R C → sorted id ks = grid_positions R C.
Proof.
  intros Hp. apply (StronglySorted_unique_strong key_before).
  - intros k1 k2 _ _. apply key_before_antisym.
  - apply sorted_sorted.
  - apply grid_positions_sorted.
  - by rewrite sorted_perm.
Qed.

(** ** Hydration places every block by its position *)

Lemma hydrated_keys st rows :
  block_key (hydrated_heap st rows) <$> seq (length (heap st)) (length rows)
  = record_keys rows.
Proof.
  apply list_eq. intros k. unfold record_keys. rewrite !list_lookup_fmap.
  destruct (rows !! k) as [rec|] eqn:Hk; simpl.
  - rewrite lookup_seq_lt by (by eapply lookup_lt_Some). simpl.
    unfold block_key. by rewrite (hydrated_heap_lookup st rows k rec Hk).
  - rewrite lookup_seq_ge; [done|]. by apply lookup_ge_None.
Qed.

Lemma hydrated_grid_positions st rows R C i j :
  record_keys rows ≡ₚ grid_positions R C → (i < R)%nat → (j < C)%nat →
  ∃ r rec,
    cell_at (hydrated_grid st rows R C) i j = Some r ∧ rec ∈ rows ∧
    hydrated_heap st rows !! r = Some (block_of_row rec) ∧
    attr_x (row_attrs rec.2) = Z.of_nat j ∧ attr_y (row_attrs rec.2) = Z.of_nat i.
Proof.
  intros Hp Hi Hj.
  assert (length rows = (R * C)%nat) as Hlen.
  { rewrite <- length_grid_positions, <- Hp.
    unfold record_keys. by rewrite length_fmap. }
  destruct (hydrated_grid_shape st rows R C Hlen) as [Hshape Hcat].
  destruct (cell_at_defined R C _ i j Hshape Hi Hj) as [r Hr].
  pose proof (cell_at_elem _ _ _ _ Hr) as Hin.
  apply (hydrated_grid_elem st rows R C r Hlen) in Hin.
  destruct (lookup_lt_is_Some_2 rows (r - length (heap st))) as [rec Hrec]; [lia|].
  pose proof (hydrated_heap_lookup st rows _ rec Hrec) as Hb.
  replace (length (heap st) + (r - length (heap st)))%nat with r in Hb by lia.
  exists r, rec. split; [done|]. split; [by eapply list_elem_of_lookup_2|].
  split; [done|].
  apply (cell_at_concat C) in Hr; [|apply Hshape]. rewrite Hcat in Hr.
  set (H := hydrated_heap st rows) in *.
  assert (block_key H <$> sorted (block_key H) (seq (length (heap st)) (length rows))
          = grid_positions R C) as Hkeys.
  { change (sorted (block_key H)) with (sorted (id ∘ block_key H)).
    rewrite sorted_fmap. unfold H. rewrite hydrated_keys.
    by apply sorted_grid_positions. }
  apply (f_equal (.!! (i * C + j)%nat)) in Hkeys.
  rewrite list_lookup_fmap, Hr, grid_positions_lookup in Hkeys by done.
  simpl in Hkeys. unfold block_key in Hkeys. rewrite Hb in Hkeys.
  simpl in Hkeys. by injection Hkeys as -> ->.
Qed.

Section Placement.

Variable config : Config.
Variable Block_default_color : RGB.
Variable Block_default_collidable : bool.

Local Abbreviation R := (grid_rows config).
Local Abbreviation C := (grid_cols config).

(** X21. With a window that has pixels, a chunk whose block records occupy
    every position of the grid once is loaded with each block at its place,
    in whatever order the records come: [grid[i][j]] is the block made of
    the record with [x = j] and [y = i]. *)
Theorem Chunk_load_places_blocks_by_position depth x y create id row st :
  config_divides config → window_ok config →
  find_chunk_row x y 0 (chunk_table st) = Some (id, row) →
  record_keys (chunk_rows st id) ≡ₚ grid_positions R C →
  ∃ c st',
    Chunk_load config Block_default_color Block_default_collidable
      (S depth) x y create st = Ok (Some c) st' ∧
    ∀ i j, (i < R)%nat → (j < C)%nat →
      ∃ r b rec,
        cell_at (Chunk_grid c) i j = Some r ∧ heap st' !! r = Some b ∧
        rec ∈ chunk_rows st id ∧
        Block_db_obj b = Some rec.1 ∧ Block_attrs b = row_attrs rec.2 ∧
        Block_x b = Z.of_nat j ∧ Block_y b = Z.of_nat i.
Proof.
  intros Hcfg Hwin Hfind Hp.
  assert (length (chunk_rows st id) = (R * C)%nat) as Hlen.
  { rewrite <- length_grid_positions, <- Hp.
    unfold record_keys. by rewrite length_fmap. }
  destruct (wp_elim _ _ _ (wp_Chunk_load_hit config Block_default_color
              Block_default_collidable depth x y create id row st Hcfg Hfind Hlen
              (window_ok_drawable_hydrated config st id row st Hwin)))
    as (r' & st' & Hrun & c & -> & Hsame & ([_ Hrel] & _) & _).
  exists c, st'. split; [done|]. intros i j Hi Hj.
  destruct (hydrated_grid_positions st (chunk_rows st id) R C i j Hp Hi Hj)
    as (r & rec & Hcell & Hrec & Hb & Hx & Hy).
  destruct (Hrel r _ Hb) as (b & Hb' & Hattrs & Hdb & _).
  exists r, b, rec.
  destruct Hsame as (_ & _ & _ & _ & _ & _ & Hgrid & _). simpl in Hgrid.
  rewrite Hgrid. split_and!; [done|done|done|by rewrite Hdb| | |].
  - rewrite Hattrs. apply Block_attrs_of_attrs.
  - apply (f_equal attr_x) in Hattrs. simpl in Hattrs. congruence.
  - apply (f_equal attr_y) in Hattrs. simpl in Hattrs. congruence.
Qed.

End Placement.

Lemma Chunk_load_places_blocks_by_position_witness :
  ∃ c st',
    Chunk_load example_config example_color true 1 0 0 false example_shuffled
    = Ok (Some c) st' ∧
    ∀ i j, (i < grid_rows example_config)%nat → (j < grid_cols example_config)%nat →
      ∃ r b rec,
        cell_at (Chunk_grid c) i j = Some r ∧ heap st' !! r = Some b ∧
        rec ∈ chunk_rows example_shuffled 0 ∧
        Block_db_obj b = Some rec.1 ∧ Block_attrs b = row_attrs rec.2 ∧
        Block_x b = Z.of_nat j ∧ Block_y b = Z.of_nat i.
Proof.
  eapply (Chunk_load_places_blocks_by_position example_config example_color true
            0 0 0 false 0%nat).
  - split; done.
  - exact example_window_ok.
  - vm_compute. reflexivity.
  - vm_compute. apply (reverse_Permutation [(0, 0); (0, 1); (1, 0); (1, 1)]).
Defined.

(** ** Image files *)

Lemma files_grow_same st st' : files st' = files st → files_grow st st'.
Proof.
  intros H. exists []. rewrite app_nil_r. split; [done|].
  split; [constructor|]. intros f Hf. by apply elem_of_nil in Hf.
Qed.

Lemma files_grow_trans st1 st2 st3 :
  files_grow st1 st2 → files_grow st2 st3 → files_grow st1 st3.
Proof.
  intros (n1 & H1 & Hd1 & Hn1) (n2 & H2 & Hd2 & Hn2).
  exists (n1 ++ n2). rewrite H2, H1, app_assoc. split; [done|]. split.
  - apply NoDup_app. split; [done|]. split; [|done].
    intros f Hf1 Hf2. apply (Hn2 f Hf2). rewrite H1. apply elem_of_app. by right.
  - intros f [Hf|Hf]%elem_of_app; [by apply Hn1|].
    intros Hin. apply (Hn2 f Hf). rewrite H1. apply elem_of_app. by left.
Qed.

Lemma keeps_files_ret {A} (a : A) : keeps_files (ret a).
Proof. intros st. by apply files_grow_same. Qed.

Lemma keeps_files_raise {A} e : keeps_files (@raise A e).
Proof. intros st. by apply files_grow_same. Qed.

Lemma keeps_files_gets {A} (f : State → A) : keeps_files (gets f).
Proof. intros st. by apply files_grow_same. Qed.

Lemma keeps_files_modify (f : State → State) :
  (∀ st, files (f st) = files st) → keeps_files (modify f).
Proof. intros Hf st. apply files_grow_same. simpl. apply Hf. Qed.

Lemma keeps_files_bind {A B} (m : M A) (k : A → M B) :
  keeps_files m → (∀ a, keeps_files (k a)) → keeps_files (bind m k).
Proof.
  intros Hm Hk st. unfold bind. specialize (Hm st).
  destruct (m st) as [a st1|e st1]; [|done].
  eapply files_grow_trans; [exact Hm|apply Hk].
Qed.

Lemma keeps_files_for_each {A B} (body : B → A → M B) (l : list A) (acc : B) :
  (∀ acc x, keeps_files (body acc x)) → keeps_files (for_each body l acc).
Proof.
  intros Hbody. revert acc. induction l as [|x l IH]; intros acc; simpl.
  - apply keeps_files_ret.
  - apply keeps_files_bind; [apply Hbody|apply IH].
Qed.

Lemma keeps_files_or_raise {A} e (o : option A) : keeps_files (or_raise e o).
Proof. destruct o; [apply keeps_files_ret|apply keeps_files_raise]. Qed.

Create HintDb files.
#[local] Hint Resolve keeps_files_ret keeps_files_raise keeps_files_gets
  keeps_files_or_raise : files.
#[local] Hint Extern 1 (keeps_files (modify _)) =>
  apply keeps_files_modify; intros ?; reflexivity : files.

Ltac keeps_files_steps :=
  repeat first
    [ progress eauto with files
    | apply keeps_files_bind; [|intros ?]
    | apply keeps_files_for_each; intros ? ?
    | match goal with
      | |- keeps_files (if ?c then _ else _) => destruct c
      | |- keeps_files (match ?c with _ => _ end) => destruct c
      end
    | progress cbv zeta ].

Lemma keeps_files_log ev : keeps_files (log ev).
Proof. unfold log. keeps_files_steps. Qed.

Lemma keeps_files_deref r : keeps_files (deref r).
Proof. unfold deref. keeps_files_steps. Qed.

Lemma keeps_files_store r b : keeps_files (store r b).
Proof. unfold store. keeps_files_steps. Qed.

Lemma keeps_files_alloc b : keeps_files (alloc b).
Proof. unfold alloc. keeps_files_steps. Qed.

Lemma keeps_files_grid_at g i j : keeps_files (grid_at g i j).
Proof. unfold grid_at. keeps_files_steps. Qed.

Lemma keeps_files_floordiv a b : keeps_files (floordiv a b).
Proof. unfold floordiv. keeps_files_steps. Qed.

#[local] Hint Resolve keeps_files_log keeps_files_deref keeps_files_store
  keeps_files_alloc keeps_files_grid_at keeps_files_floordiv : files.

Lemma keeps_files_Block_setattr r d t : keeps_files (Block_setattr r d t).
Proof. unfold Block_setattr. keeps_files_steps. Qed.

Lemma keeps_files_Block_set_pos r x y : keeps_files (Block_set_pos r x y).
Proof. unfold Block_set_pos. keeps_files_steps. Qed.

Lemma keeps_files_Block_init config color collidable x y :
  keeps_files (Block_init config color collidable x y).
Proof. unfold Block_init. keeps_files_steps. Qed.

Lemma keeps_files_Block_create_direction r d :
  keeps_files (Block_create_direction r d).
Proof. unfold Block_create_direction. keeps_files_steps. Qed.

Lemma keeps_files_Block_save r : keeps_files (Block_save r).
Proof. unfold Block_save. keeps_files_steps. Qed.

Lemma keeps_files_Block_load_from_db_obj rec :
  keeps_files (Block_load_from_db_obj rec).
Proof. unfold Block_load_from_db_obj. keeps_files_steps. Qed.

#[local] Hint Resolve keeps_files_Block_setattr keeps_files_Block_set_pos
  keeps_files_Block_init keeps_files_Block_create_direction
  keeps_files_Block_save keeps_files_Block_load_from_db_obj : files.

Lemma keeps_files_Chunk_init config x y name :
  keeps_files (Chunk_init config x y name).
Proof. unfold Chunk_init. keeps_files_steps. Qed.

Lemma keeps_files_Chunk_link_blocks self : keeps_files (Chunk_link_blocks self).
Proof. unfold Chunk_link_blocks. keeps_files_steps. Qed.

Lemma keeps_files_Chunk_load_blocks self : keeps_files (Chunk_load_blocks self).
Proof.
  pose proof keeps_files_Chunk_link_blocks.
  unfold Chunk_load_blocks. keeps_files_steps.
Qed.

Lemma keeps_files_Chunk_load_from_db_obj config db_obj :
  keeps_files (Chunk_load_from_db_obj config db_obj).
Proof.
  pose proof (keeps_files_Chunk_init config).
  pose proof keeps_files_Chunk_load_blocks.
  unfold Chunk_load_from_db_obj. keeps_files_steps.
Qed.

Lemma keeps_files_Chunk_set_walls self : keeps_files (Chunk_set_walls self).
Proof. unfold Chunk_set_walls. keeps_files_steps. Qed.

Lemma keeps_files_randint a b : keeps_files (randint a b).
Proof. unfold randint. keeps_files_steps. Qed.

Lemma keeps_files_Chunk_add_mobs config n self :
  keeps_files (Chunk_add_mobs config n self).
Proof.
  pose proof keeps_files_randint.
  unfold Chunk_add_mobs. keeps_files_steps.
Qed.

Lemma keeps_files_Chunk_save self : keeps_files (Chunk_save self).
Proof.
  unfold Chunk_save, session_add_chunk, BlockRow_set_chunk_id. keeps_files_steps.
Qed.

Lemma keeps_files_build_cell config color collidable chunk_w chunk_s n_cols grid
    row r_i c_i :
  keeps_files (build_cell config color collidable chunk_w chunk_s n_cols grid row
                 r_i c_i).
Proof. unfold build_cell. keeps_files_steps. Qed.

(** [build_img] is reached for a file that is missing. *)
Lemma keeps_files_activate config chunk : keeps_files (activate config chunk).
Proof.
  pose proof keeps_files_Chunk_set_walls.
  pose proof (keeps_files_Chunk_add_mobs config).
  unfold activate.
  assert (keeps_files
            (present <- isfile (Chunk_img_file chunk) ;;
             if present then ret tt else Chunk_build_img chunk)) as Himg.
  { intros st. unfold bind, isfile, gets, Chunk_build_img, modify.
    destruct (bool_decide_reflect (Chunk_img_file chunk ∈ files st)) as [Hin|Hout];
      simpl.
    - by apply files_grow_same.
    - destruct (_ || _); simpl; [by apply files_grow_same|].
      exists [Chunk_img_file chunk]. split; [done|].
      split; [apply NoDup_singleton|]. by intros f ->%list_elem_of_singleton. }
  intros st. specialize (Himg st). unfold bind in *.
  destruct (isfile (Chunk_img_file chunk) st) as [present st0|] eqn:E; [|done].
  destruct ((if present then ret tt else Chunk_build_img chunk) st0)
    as [[] st1|e st1]; [|done].
  eapply files_grow_trans; [exact Himg|].
  assert (keeps_files (chunk <- Chunk_set_walls chunk ;;
                       chunk <- Chunk_add_mobs config 5 chunk ;;
                       ret (Some chunk))) as Hrest by keeps_files_steps.
  apply Hrest.
Qed.

Section Images.

Variable config : Config.
Variable Block_default_color : RGB.
Variable Block_default_collidable : bool.

Local Abbreviation load :=
  (Chunk_load config Block_default_color Block_default_collidable).

Lemma keeps_files_Chunk_build_blocks
    (load_chunk : Z → Z → bool → M (option Chunk)) self :
  (∀ x y create, keeps_files (load_chunk x y create)) →
  keeps_files (Chunk_build_blocks config Block_default_color
                 Block_default_collidable load_chunk self).
Proof.
  intros Hload.
  pose proof (keeps_files_build_cell config Block_default_color
                Block_default_collidable).
  pose proof keeps_files_Chunk_save.
  unfold Chunk_build_blocks. keeps_files_steps.
Qed.

Lemma keeps_files_Chunk_load depth x y create :
  keeps_files (load depth x y create).
Proof.
  revert x y create. induction depth as [|depth IH]; intros x y create.
  { apply keeps_files_raise. }
  pose proof (keeps_files_Chunk_load_from_db_obj config).
  pose proof (keeps_files_activate config).
  pose proof (keeps_files_Chunk_init config).
  pose proof keeps_files_Chunk_save.
  pose proof (fun self => keeps_files_Chunk_build_blocks (load depth) self IH).
  change (load (S depth) x y create) with
    (log (EvChunkLoad x y create) ;;
     loaded_chunk <- session_query_chunk x y ;;
     chunk <- match loaded_chunk with
              | None =>
                  if create then
                    chunk <- Chunk_init config x y None ;;
                    chunk <- Chunk_build_blocks config Block_default_color
                               Block_default_collidable (load depth) chunk ;;
                    chunk <- Chunk_save chunk ;;
                    ret (Some chunk)
                  else ret None
              | Some db_obj =>
                  chunk <- Chunk_load_from_db_obj config db_obj ;;
                  ret (Some chunk)
              end ;;
     match chunk with
     | None => ret None
     | Some chunk => activate config chunk
     end).
  unfold session_query_chunk. keeps_files_steps.
Qed.

(** X22. [Chunk.load] builds an image only where the file is missing: whatever
    the configuration, the database and the outcome, the files after the
    call are the files before it followed by files that were not there,
    each of them written once. No file is removed or written again, also
    not by the lookups of neighbours. *)
Theorem Chunk_load_builds_missing_images_only depth x y create st :
  files_grow st
    (state_of (Chunk_load config Block_default_color Block_default_collidable
                 depth x y create st)).
Proof. apply keeps_files_Chunk_load. Qed.

End Images.

(** ** Names and image files *)

Lemma pretty_N_char_no_separator c n : separator c → pretty_N_char n ≠ c.
Proof. intros [->| ->]; unfold pretty_N_char; by repeat case_match. Qed.

Lemma lacks_pretty_N_go c x s : separator c → lacks c s → lacks c (pretty_N_go x s).
Proof.
  intros Hc. revert s. induction (N.lt_wf_0 x) as [x _ IH]; intros s Hs.
  assert (x = 0 ∨ 0 < x)%N as [->|?] by lia.
  - by rewrite pretty_N_go_0.
  - rewrite pretty_N_go_step by done. apply IH.
    { by apply N.div_lt. }
    split; [by apply pretty_N_char_no_separator|done].
Qed.

Lemma lacks_pretty_Z c (x : Z) : separator c → lacks c (pretty x).
Proof.
  intros Hc.
  assert (∀ p : positive, lacks c (pretty p)) as Hpos.
  { intros p. unfold pretty, pretty_positive, pretty, pretty_N.
    case_decide; [done|]. by apply lacks_pretty_N_go. }
  destruct x as [|p|p]; unfold pretty, pretty_Z.
  - simpl. split; [|done]. by destruct Hc as [->| ->].
  - apply Hpos.
  - simpl. split; [by destruct Hc as [->| ->]|apply Hpos].
Qed.

(** Two texts that lack [c] and are followed by [c] end at the same place. *)
Lemma append_lacks_inj c s1 s2 r1 r2 :
  lacks c s1 → lacks c s2 →
  s1 +:+ String c r1 = s2 +:+ String c r2 → s1 = s2 ∧ r1 = r2.
Proof.
  revert s2. induction s1 as [|a s1 IH]; intros [|b s2] H1 H2 Heq; simpl in *.
  - by injection Heq as ->.
  - injection Heq as <- _. by destruct H2.
  - injection Heq as -> _. by destruct H1.
  - injection Heq as -> Heq. destruct H1 as [_ H1], H2 as [_ H2].
    destruct (IH s2 H1 H2 Heq) as [-> ->]. done.
Qed.

Lemma str_pair_inj p q : str_pair p = str_pair q → p = q.
Proof.
  destruct p as [x1 y1], q as [x2 y2]. unfold str_pair. simpl.
  intros [= Heq].
  apply (append_lacks_inj ","%char) in Heq as [Hx Heq];
    [|apply lacks_pretty_Z; by left|apply lacks_pretty_Z; by left].
  injection Heq as Heq.
  apply (append_lacks_inj ")"%char) in Heq as [Hy _];
    [|apply lacks_pretty_Z; by right|apply lacks_pretty_Z; by right].
  apply (inj pretty) in Hx, Hy. by subst.
Qed.

Lemma length_append s t :
  String.length (s +:+ t) = (String.length s + String.length t)%nat.
Proof. induction s as [|a s IH]; simpl; [done|]. by rewrite IH. Qed.

Lemma append_inj_r s1 s2 t : s1 +:+ t = s2 +:+ t → s1 = s2.
Proof.
  revert s2. induction s1 as [|a s1 IH]; intros [|b s2] Heq; simpl in *.
  - done.
  - apply (f_equal String.length) in Heq.
    rewrite !length_append in Heq. simpl in Heq. rewrite ?length_append in Heq. lia.
  - apply (f_equal String.length) in Heq.
    rewrite !length_append in Heq. simpl in Heq. rewrite ?length_append in Heq. lia.
  - injection Heq as -> Heq. by rewrite (IH s2 Heq).
Qed.

Lemma Chunk_img_file_inj c1 c2 :
  Chunk_img_file c1 = Chunk_img_file c2 → Chunk_name c1 = Chunk_name c2.
Proof.
  unfold Chunk_img_file. intros Heq.
  apply (inj (String.append "app/assets/chunks/")) in Heq.
  by apply append_inj_r in Heq.
Qed.

Section Names.

Variable config : Config.
Variable Block_default_color : RGB.
Variable Block_default_collidable : bool.

(** X23. Chunks that [Chunk.load] creates at different coordinates have
    different names and different image files, in whatever states and at
    whatever time they are created. *)
Theorem created_chunks_have_their_own_image
    depth1 x1 y1 st1 c1 st1' depth2 x2 y2 st2 c2 st2' :
  find_chunk_row x1 y1 0 (chunk_table st1) = None →
  find_chunk_row x2 y2 0 (chunk_table st2) = None →
  Chunk_load config Block_default_color Block_default_collidable
    depth1 x1 y1 true st1 = Ok (Some c1) st1' →
  Chunk_load config Block_default_color Block_default_collidable
    depth2 x2 y2 true st2 = Ok (Some c2) st2' →
  (x1, y1) ≠ (x2, y2) →
  Chunk_name c1 ≠ Chunk_name c2 ∧ Chunk_img_file c1 ≠ Chunk_img_file c2.
Proof.
  intros Hf1 Hf2 Hrun1 Hrun2 Hne.
  assert (∀ depth x y st c st',
            find_chunk_row x y 0 (chunk_table st) = None →
            Chunk_load config Block_default_color Block_default_collidable
              depth x y true st = Ok (Some c) st' →
            Chunk_name c = "Chunk" +:+ str_pair (x, y)) as Hname.
  { intros depth x y st c st' Hf Hrun.
    destruct (Chunk_load_returned config Block_default_color
                Block_default_collidable depth x y true st _ st' Hrun)
      as [(? & _)|[(id & row & c' & Hfind & _)|(_ & _ & _ & c' & [= <-] & Hcr)]];
      [done|congruence|].
    by destruct Hcr as (first & rows & _ & _ & Hn & _). }
  assert (Chunk_name c1 ≠ Chunk_name c2) as Hnames.
  { rewrite (Hname _ _ _ _ _ _ Hf1 Hrun1), (Hname _ _ _ _ _ _ Hf2 Hrun2).
    intros Heq. apply Hne. apply str_pair_inj.
    by apply (inj (String.append "Chunk")) in Heq. }
  split; [done|]. intros Heq. by apply Hnames, Chunk_img_file_inj.
Qed.

End Names.

Lemma created_chunks_have_their_own_image_witness :
  ∃ c1 st1 c2 st2,
    Chunk_load example_config example_color true 2 0 0 true initial_state
    = Ok (Some c1) st1 ∧
    Chunk_load example_config example_color true 2 1 0 true st1
    = Ok (Some c2) st2 ∧
    Chunk_name c1 ≠ Chunk_name c2 ∧ Chunk_img_file c1 ≠ Chunk_img_file c2.
Proof.
  eassert (Chunk_load example_config example_color true 2 0 0 true initial_state
           = Ok (Some _) _) as E1 by (vm_compute; reflexivity).
  match type of E1 with
  | _ = Ok _ ?s =>
      eassert (Chunk_load example_config example_color true 2 1 0 true s
               = Ok (Some _) _) as E2 by (vm_compute; reflexivity)
  end.
  eexists _, _, _, _. split; [exact E1|]. split; [exact E2|].
  refine (created_chunks_have_their_own_image _ _ _ _ _ _ _ _ _ _ _ _ _ _ _
            _ _ E1 E2 _); [reflexivity|vm_compute; reflexivity|by intros [=]].
Defined.
